(** * glgen: a shallow embedding of glgen.cpp and its verified properties

    glgen reads OpenGL registry headers, scans C/C++ sources for the GL
    functions and macros they mention, and writes a header with typedefs for
    exactly those symbols.  This file embeds the core of [glgen.cpp] (the
    string hash, the tokenizers, the fixed-capacity open-addressing symbol
    tables, the registry parser, the source scanner, the header emitter and
    the parser of the command line) and proves properties of it.

    Conventions of the embedding.
    - A [char*] into a NUL-terminated buffer is the list of the bytes from
      the pointer up to and including the terminator ([ptr]); [p + 1] is
      [tail p], and the difference of two pointers into one buffer is the
      difference of the lengths.  The tokenizers stop at the terminator, so
      on a terminated buffer their reads stay inside the list ([deref] and
      [index] are total, with NUL behind the list).  The one read of the
      scanner that can fall behind the terminator, [Token.Value.Chars[2]]
      in [ParseFile], is undefined behaviour when the list has no such
      element.
    - [unsigned int] values that can wrap (hashes, the result-set counters)
      are [Z] with the reduction modulo [2^32] written out.  Lengths of
      slices are [nat]: buffers are assumed shorter than [2^32] bytes, so the
      casts [(unsigned int)(At - Chars)] never truncate.
    - [char] comparisons are done on the unsigned code of the byte; for the
      ranges the program tests (all below 128) this agrees with either
      signedness of [char].
    - Behaviour the C standard leaves undefined (a null [GLArbToken*]
      dereference, an overflow of a [char[512]] buffer, an index past the
      end of a table) is the outcome [Fail UndefinedBehaviour]; a failed
      [assert] is [Fail AssertionFailed].
    - Loops run on fuel; the fuel the program is given ([length] of the
      buffer for the loops that walk it, the capacity for the table probes)
      is shown to be enough, so [Fail OutOfFuel] never comes out of the
      generator.
    - The file system is a [World]: contents, write permission and
      last-write time by file name.  [fopen(Output, "w")] empties the output
      file ([fopen_w]), and the input files are scanned in the world after
      it.  What the program prints on [stderr] is
      kept as the list of the messages; the progress line on [stdout] is
      left out.  The colour escapes are those of the non-Windows build.
    - [main_generate] is [main] from the point where the command line has
      been parsed into a [GLSettings].  [ParseCommandLine], [FreeMemory] and
      [main] itself work on the arguments as the lists of the bytes that can
      be read from them; there a read past the end of an argument, or
      through a null pointer, is undefined behaviour. *)

From Stdlib Require Import ZArith Ascii String List Lia Bool DecimalString.
From stdpp Require Import base numbers list sorting.
Import ListNotations.
Local Open Scope Z_scope.

(** ** Characters, C strings and pointers *)

Definition NUL : ascii := "000"%char.
Definition LF : ascii := "010"%char.

(** A pointer into a NUL-terminated buffer. *)
Definition ptr : Type := list ascii.

(** [*p] *)
Definition deref (p : ptr) : ascii := hd NUL p.

(** [p[i]] *)
Definition index (p : ptr) (i : nat) : ascii := nth i p NUL.

(** The truth value of a [char] in a C condition. *)
Definition nonzero (c : ascii) : bool := negb (Ascii.eqb c NUL).

(** The value of [(unsigned int)(unsigned char)c]. *)
Definition code (c : ascii) : Z := Z.of_N (N_of_ascii c).

Definition char_le (a b : ascii) : bool := (N_of_ascii a <=? N_of_ascii b)%N.

(** [strlen]: the bytes before the first NUL. *)
Fixpoint cstr (p : ptr) : list ascii :=
  match p with
  | [] => []
  | c :: p' => if nonzero c then c :: cstr p' else []
  end.

Definition strlen (p : ptr) : nat := length (cstr p).

Record GLString := { Chars : ptr; Length : nat }.

(** The characters a slice denotes. *)
Definition text (S : GLString) : list ascii := take (Length S) (Chars S).

Record GLToken := { Value : GLString; Hash : Z }.

Module Arb.
Record GLArbToken := {
  Value : GLString;
  Line : GLString;
  ReturnType : GLString;
  FunctionName : GLString;
  Parameters : GLString;
  Hash : Z
}.
End Arb.
Abbreviation GLArbToken := Arb.GLArbToken.

Record GLTokenizer := { At : ptr }.

Definition IsWhitespace (c : ascii) : bool :=
  Ascii.eqb c " "%char || Ascii.eqb c "009"%char || Ascii.eqb c "011"%char ||
  Ascii.eqb c "012"%char.

Definition IsNewline (c : ascii) : bool :=
  Ascii.eqb c "013"%char || Ascii.eqb c "010"%char.

Definition IsWhitespaceOrNewline (c : ascii) : bool :=
  IsNewline c || IsWhitespace c.

Definition IsIdentifier (c : ascii) : bool :=
  (char_le "a"%char c && char_le c "z"%char) ||
  (char_le "A"%char c && char_le c "Z"%char) ||
  (char_le "0"%char c && char_le c "9"%char) ||
  Ascii.eqb c "_"%char || Ascii.eqb c "#"%char || Ascii.eqb c "*"%char.

(** ** The string hash *)

(** [UINT_MAX + 1]: unsigned int arithmetic is modulo this. *)
Definition UINT_MAX1 : Z := 2 ^ 32.

(** The body of the [for] loop of [GetStringHash]: [n] is [Length - Idx]. *)
Fixpoint GetStringHash_loop (n : nat) (RawStr : ptr) (Result : Z) : Z :=
  match n with
  | O => Result
  | S n' =>
      let Result := (Result * 0x01000193) mod UINT_MAX1 in
      let Result := Z.lxor Result (code (deref RawStr)) in
      GetStringHash_loop n' (tail RawStr) Result
  end.

Definition GetStringHash (String : GLString) : Z :=
  GetStringHash_loop (Length String) (Chars String) 1.

(** The hash as the specification words it: a fold over the bytes of the
    string, seeded at 1, multiplying by [0x01000193] modulo [2^32] and then
    XOR-ing the byte in. *)
Definition spec_hash_step (hash : Z) (byte : ascii) : Z :=
  Z.lxor ((hash * 0x01000193) mod 2 ^ 32) (code byte).

Definition spec_hash (s : list ascii) : Z := fold_left spec_hash_step s 1%Z.

(** The slice that views the first [length s] bytes of a buffer. *)
Definition slice_of (s rest : list ascii) : GLString :=
  {| Chars := s ++ rest; Length := length s |}.

(** ** Outcomes of a run *)

Inductive failure := UndefinedBehaviour | AssertionFailed | OutOfFuel.

Inductive outcome (A : Type) :=
  | Ok (a : A)
  | Fail (f : failure).
Arguments Ok {A} a.
Arguments Fail {A} f.

#[export] Instance outcome_bind : MBind outcome := λ A B k m,
  match m with
  | Ok a => k a
  | Fail f => Fail f
  end.


(** ** The tokenizers *)

(** [At - Chars] for two pointers into one buffer, [At] the later one. *)
Definition ptrdiff (At Chars : ptr) : nat := (length Chars - length At)%nat.

(** [while ( *At && (IsWhitespaceOrNewline( *At) || !IsIdentifier( *At))) At++;] *)
Fixpoint skip_to_token (At : ptr) : ptr :=
  match At with
  | [] => []
  | c :: At' =>
      if nonzero c && (IsWhitespaceOrNewline c || negb (IsIdentifier c))
      then skip_to_token At' else At
  end.

(** [while ( *At && IsIdentifier( *At)) At++;] *)
Fixpoint skip_token (At : ptr) : ptr :=
  match At with
  | [] => []
  | c :: At' => if nonzero c && IsIdentifier c then skip_token At' else At
  end.

Definition zeroString : GLString := {| Chars := []; Length := 0 |}.

Definition zeroToken : GLToken := {| Value := zeroString; Hash := 0 |}.

Definition zeroArbToken : GLArbToken :=
  {| Arb.Value := zeroString; Arb.Line := zeroString;
     Arb.ReturnType := zeroString; Arb.FunctionName := zeroString;
     Arb.Parameters := zeroString; Arb.Hash := 0 |}.

Definition ParseArbToken (Tokenizer : GLTokenizer) : GLArbToken * GLTokenizer :=
  let Chars0 := skip_to_token (At Tokenizer) in
  let At1 := skip_token Chars0 in
  let Length0 := ptrdiff At1 Chars0 in
  let '(At2, Length1) :=
    if IsWhitespace (deref At1) && Ascii.eqb (index At1 1) "*"%char
    then (drop 2 At1, (Length0 + 2)%nat) else (At1, Length0) in
  ({| Arb.Value := {| Chars := Chars0; Length := Length1 |};
      Arb.Line := zeroString; Arb.ReturnType := zeroString;
      Arb.FunctionName := zeroString; Arb.Parameters := zeroString;
      Arb.Hash := 0 |},
   {| At := At2 |}).

Definition ParseToken (Tokenizer : GLTokenizer) : GLToken * GLTokenizer :=
  let Chars0 := skip_to_token (At Tokenizer) in
  let At1 := skip_token Chars0 in
  let Value0 := {| Chars := Chars0; Length := ptrdiff At1 Chars0 |} in
  ({| Value := Value0; Hash := GetStringHash Value0 |}, {| At := At1 |}).

Definition IsUpperCase (C : ascii) : bool :=
  char_le "A"%char C && char_le C "Z"%char.

(** The [for] loop of [StartsWith]; [n] is [Token.Length - Index], [Chars]
    points at [Token.Chars[Index]]. *)
Fixpoint StartsWith_loop (n : nat) (Chars Prefix : ptr) (Result : bool) : bool :=
  match n with
  | O => Result
  | S n' =>
      if nonzero (deref Prefix) then
        if negb (Ascii.eqb (deref Prefix) (deref Chars)) then false
        else StartsWith_loop n' (tail Chars) (tail Prefix) Result
      else Result
  end.

Definition StartsWith (Token : GLString) (Prefix : ptr) : bool :=
  let Result := (0 <? Length Token)%nat in
  StartsWith_loop (Length Token) (Chars Token) Prefix Result.

(** The [for] loop of [Equal], returning the final [Index] as the number of
    characters that were left to compare: the loop leaves [Index ==
    Token.Length] exactly when it returns 0 here. *)
Fixpoint Equal_loop (n : nat) (Chars Value : ptr) : nat :=
  match n with
  | O => O
  | S n' =>
      if nonzero (deref Value) then
        if negb (Ascii.eqb (deref Value) (deref Chars)) then S n'
        else Equal_loop n' (tail Chars) (tail Value)
      else S n'
  end.

Definition Equal (Token : GLString) (Value : ptr) : bool :=
  if (0 <? Length Token)%nat
  then (Equal_loop (Length Token) (Chars Token) Value =? 0)%nat
  else false.

(** [while ( *At && !IsNewline( *At)) At++;] *)
Fixpoint skip_line (At : ptr) : ptr :=
  match At with
  | [] => []
  | c :: At' => if nonzero c && negb (IsNewline c) then skip_line At' else At
  end.

Definition AdvanceToEndOfLine (Tokenizer : GLTokenizer) : GLTokenizer :=
  {| At := skip_line (At Tokenizer) |}.

(** ** The symbol tables *)

Definition TOKEN_HASH_SIZE : Z := 8192.

(** [calloc(sizeof(T), TOKEN_HASH_SIZE)] *)
Definition calloc {T} (zero : T) : list T :=
  replicate (Z.to_nat TOKEN_HASH_SIZE) zero.

(** The two probing loops are the same text in both overloads of [AddToken]
    and in [GetToken] / [Contains]; they are stated once, over the field
    that holds the hash. *)
Section Probing.
Context {T : Type} (HashOf : T → Z) (zero : T).

(** [TokenHash + Index] read as a slot. *)
Definition slot (TokenHash : list T) (Index : Z) : T :=
  default zero (TokenHash !! Z.to_nat Index).

(** [while (Matching->Hash && Iterations++ < TOKEN_HASH_SIZE)
      { Index = (Index + 1) & (TOKEN_HASH_SIZE - 1); Matching = TokenHash + Index; }]
    returning the final [Index] and [Iterations].  The condition is
    evaluated at most [TOKEN_HASH_SIZE + 1] times, which is the fuel the
    callers give. *)
Fixpoint probe_empty (fuel : nat) (TokenHash : list T) (Index Iterations : Z)
  : Z * Z :=
  match fuel with
  | O => (Index, Iterations)
  | S fuel' =>
      if HashOf (slot TokenHash Index) =? 0 then (Index, Iterations)
      else if Iterations <? TOKEN_HASH_SIZE then
        probe_empty fuel' TokenHash
          (Z.land (Index + 1) (TOKEN_HASH_SIZE - 1)) (Iterations + 1)
      else (Index, Iterations + 1)
  end.

(** The loop of [GetToken] and [Contains], which also leaves on a slot
    whose hash is the one looked for; returns the final [Index] and
    whether the loop left through that [break]. *)
Fixpoint probe_match (fuel : nat) (TokenHash : list T) (Hash0 Index Iterations : Z)
  : Z * bool :=
  match fuel with
  | O => (Index, false)
  | S fuel' =>
      if HashOf (slot TokenHash Index) =? 0 then (Index, false)
      else if Iterations <? TOKEN_HASH_SIZE then
        if HashOf (slot TokenHash Index) =? Hash0 then (Index, true)
        else probe_match fuel' TokenHash Hash0
               (Z.land (Index + 1) (TOKEN_HASH_SIZE - 1)) (Iterations + 1)
      else (Index, false)
  end.
End Probing.

Definition probe_fuel : nat := S (Z.to_nat TOKEN_HASH_SIZE).

(** [GLArbToken* AddToken(GLArbToken* TokenHash, GLArbToken& Token)]: the
    table after the call and the returned pointer, as the index of the slot,
    [None] for the null pointer. *)
Definition AddTokenArb (TokenHash : list GLArbToken) (Token : GLArbToken)
  : list GLArbToken * option Z :=
  let Index := Z.land (Arb.Hash Token) (TOKEN_HASH_SIZE - 1) in
  let '(Index, Iterations) :=
    probe_empty Arb.Hash zeroArbToken probe_fuel TokenHash Index 0 in
  if Iterations <? TOKEN_HASH_SIZE
  then (<[Z.to_nat Index := Token]> TokenHash, Some Index)
  else (TokenHash, None).

(** [int AddToken(GLToken* TokenHash, GLToken& Token)]: the table after the
    call and the returned [Result]. *)
Definition AddToken (TokenHash : list GLToken) (Token : GLToken)
  : list GLToken * Z :=
  let Index := Z.land (Hash Token) (TOKEN_HASH_SIZE - 1) in
  let Result := 0 in
  let '(Index, Iterations) :=
    probe_empty Hash zeroToken probe_fuel TokenHash Index 0 in
  if Iterations <? TOKEN_HASH_SIZE
  then (<[Z.to_nat Index := Token]> TokenHash, Result)
  else (TokenHash, Result).

(** [AddCustomToken] never initialises [Token.Value]; [Indeterminate] stands
    for whatever the stack held. *)
Definition AddCustomToken (Indeterminate : GLString)
    (TokenHash : list GLToken) (Value : ptr) : list GLToken :=
  let String0 := {| Chars := Value; Length := strlen Value |} in
  let Token := {| Value := Indeterminate; Hash := GetStringHash String0 |} in
  fst (AddToken TokenHash Token).

(** [GetToken]: the returned pointer as the index of the slot. *)
Definition GetToken (TokenHash : list GLArbToken) (Hash0 : Z) : option Z :=
  if Hash0 =? 0 then None
  else
    let Index := Z.land Hash0 (TOKEN_HASH_SIZE - 1) in
    let '(Index, _) :=
      probe_match Arb.Hash zeroArbToken probe_fuel TokenHash Hash0 Index 0 in
    if negb (Arb.Hash (slot zeroArbToken TokenHash Index) =? Hash0)
    then None else Some Index.

Definition Contains (TokenHash : list GLToken) (Token : GLToken) : bool :=
  let Index := Z.land (Hash Token) (TOKEN_HASH_SIZE - 1) in
  snd (probe_match Hash zeroToken probe_fuel TokenHash (Hash Token) Index 0).

Definition TokenComparer (A B : GLToken) : Z :=
  if Hash A >? Hash B then -1
  else if Hash B >? Hash A then 1
  else 0.

(** ** C string literals and [printf] *)

Definition ESC : ascii := "027"%char.
Definition DQUOTE : ascii := "034"%char.

(** The escape sequences the program's literals use: [\n], [\\], [\e] and
    the double quote, written [\042] here. *)
Fixpoint unescape (s : list ascii) : list ascii :=
  match s with
  | "\"%char :: "n"%char :: r => LF :: unescape r
  | "\"%char :: "\"%char :: r => "\"%char :: unescape r
  | "\"%char :: "e"%char :: r => ESC :: unescape r
  | "\"%char :: "0"%char :: "4"%char :: "2"%char :: r => DQUOTE :: unescape r
  | c :: r => c :: unescape r
  | [] => []
  end.

(** A C string literal. *)
Definition C (s : string) : list ascii := unescape (list_ascii_of_string s).

(** Adjacent string literals, which the compiler concatenates. *)
Definition Cs (l : list string) : list ascii := concat (map C l).
Arguments C s%_string.

Inductive printf_arg :=
  | arg_s (p : ptr)                  (* %s *)
  | arg_prec_s (n : nat) (p : ptr)   (* %.*s *)
  | arg_llu (n : Z).                 (* %llu *)

Definition decimal (n : Z) : list ascii :=
  list_ascii_of_string (NilZero.string_of_uint (N.to_uint (Z.to_N n))).

(** The conversions the program uses.  A conversion whose argument is missing
    or of the wrong kind is undefined in C; the program has none, and the
    model stops the output there. *)
Fixpoint printf (fmt : list ascii) (args : list printf_arg) : list ascii :=
  match fmt with
  | "%"%char :: "s"%char :: r =>
      match args with
      | arg_s p :: args' => cstr p ++ printf r args'
      | _ => []
      end
  | "%"%char :: "."%char :: "*"%char :: "s"%char :: r =>
      match args with
      | arg_prec_s n p :: args' => take n (cstr p) ++ printf r args'
      | _ => []
      end
  | "%"%char :: "l"%char :: "l"%char :: "u"%char :: r =>
      match args with
      | arg_llu n :: args' => decimal n ++ printf r args'
      | _ => []
      end
  | c :: r => c :: printf r args
  | [] => []
  end.

(** [sprintf] into a [char Buffer[512]]. *)
Definition sprintf512 (fmt : list ascii) (args : list printf_arg)
  : outcome (list ascii) :=
  let s := printf fmt args in
  if (length s <? 512)%nat then Ok s else Fail UndefinedBehaviour.

Definition toupper (c : ascii) : ascii :=
  if char_le "a"%char c && char_le c "z"%char
  then ascii_of_N (N_of_ascii c - 32) else c.

(** [UpperCase] into a [char Name[512]]; the result is the C string left in
    [Name]. *)
Definition UpperCase (Str : GLString) : outcome ptr :=
  if (Length Str <? 512)%nat
  then Ok (map toupper (take (Length Str) (Chars Str)) ++ [NUL])
  else Fail UndefinedBehaviour.

(** ** Settings and the file system *)

Record GLSettings := {
  Headers : list ptr;          (* the names between HeadersStart and HeadersEnd *)
  Output : ptr;
  Prefix : option ptr;         (* None: the null pointer *)
  Inputs : list ptr;           (* InputCount is its length *)
  Ignores : list ptr;          (* IgnoreCount is its length *)
  WriteTimestamp : Z;
  Boilerplate : bool;
  Silent : bool;
  ForceGenerate : bool
}.

Record World := {
  (* fopen(name, "r") and the bytes of the file; None if it cannot be opened *)
  file_contents : ptr → option (list ascii);
  (* whether fopen(name, "w") succeeds *)
  writable : ptr → bool;
  (* GetLastWriteTime *)
  last_write_time : ptr → Z
}.

(** The file system after [fopen(Filename, "w")]: where the file can be
    opened it is now empty, under the name it was opened by. *)
Definition fopen_w (W : World) (Filename : ptr) : World :=
  if writable W Filename then
    {| file_contents := λ name,
         if List.list_eq_dec ascii_dec name Filename then Some []
         else file_contents W name;
       writable := writable W;
       last_write_time := last_write_time W |}
  else W.

(** What has been written to [stderr]: one element per [fprintf]. *)
Definition diagnostics : Type := list (list ascii).

Definition ReadEntireFile (W : World) (Filename : ptr) (Stderr : diagnostics)
  : option ptr * diagnostics :=
  match file_contents W Filename with
  | Some data =>
      let Size := length data in
      if (0 <? Size)%nat then (Some (data ++ [NUL]), Stderr)
      else (None, Stderr ++ [printf (C "File is empty: %s") [arg_s Filename]])
  | None =>
      (None, Stderr ++ [printf (C "Couldn't open file: %s") [arg_s Filename]])
  end.

(** The loop of [ReadMultiFiles] over the file names; [Result] is the
    allocated block ([None]: the null pointer), [RunningSize] its size. *)
Fixpoint ReadMultiFiles_loop (W : World) (names : list ptr)
    (Result : option (list ascii)) (RunningSize : nat) (Stderr : diagnostics)
  : option (list ascii) * diagnostics :=
  match names with
  | [] => (Result, Stderr)
  | Filename :: names' =>
      match file_contents W Filename with
      | Some data =>
          let Size := length data in
          if (0 <? Size)%nat then
            let Result0 := default [] Result ++ data ++ [NUL] in
            let Result1 :=
              if (0 <? RunningSize)%nat
              then <[(RunningSize - 1)%nat := LF]>
                     (<[(RunningSize - 2)%nat := LF]> Result0)
              else Result0 in
            ReadMultiFiles_loop W names' (Some Result1)
              (RunningSize + (Size + 1))%nat Stderr
          else
            ReadMultiFiles_loop W names' Result RunningSize
              (Stderr ++ [printf (C "File is empty: %s") [arg_s Filename]])
      | None =>
          ReadMultiFiles_loop W names' Result RunningSize
            (Stderr ++ [printf (C "Couldn't open file: %s") [arg_s Filename]])
      end
  end.

Definition ReadMultiFiles (W : World) (names : list ptr) (Stderr : diagnostics)
  : option (list ascii) * diagnostics :=
  ReadMultiFiles_loop W names None 0%nat Stderr.

(** ** The source scanner *)

Definition TermColorYellow : string := "\e[33m".
Definition TermColorReset : string := "\e[0m".

(** The [for] loop of [IsKnownOrIgnoredToken] over [Settings->Ignores]. *)
Fixpoint Ignored_loop (Token : GLToken) (Ignores0 : list ptr) : bool :=
  match Ignores0 with
  | [] => false
  | Ignored :: Ignores' =>
      if Equal (Value Token) Ignored then true else Ignored_loop Token Ignores'
  end.

Definition warning (Token : GLToken) : list ascii :=
  printf (Cs [TermColorYellow; "WARNING"; TermColorReset;
              ": Token not found in header: %.*s\n"]%string)
    [arg_prec_s (Length (Value Token)) (Chars (Value Token))].

Definition IsKnownOrIgnoredToken (ArbHash : list GLArbToken) (Token : GLToken)
    (Settings : GLSettings) (Stderr : diagnostics) : bool * diagnostics :=
  match GetToken ArbHash (Hash Token) with
  | Some ArbToken => (true, Stderr)
  | None =>
      let Found := Ignored_loop Token (Ignores Settings) in
      if negb Found then (Found, Stderr ++ [warning Token]) else (Found, Stderr)
  end.

Record ScanState := {
  FunctionsHash : list GLToken;
  FunctionCount : Z;
  DefinesHash : list GLToken;
  DefinesCount : Z;
  Stderr : diagnostics
}.

(** [StartsWith(Token.Value, "gl") && IsUpperCase(Token.Value.Chars[2])].
    The second operand reads [Chars[2]] whatever the length of the token:
    for a token of one character that is the last but one byte of the
    buffer, this is the byte behind the terminator, outside the block that
    [ReadEntireFile] has allocated. *)
Definition IsFunctionCandidate (Token : GLToken) : outcome bool :=
  if StartsWith (Value Token) (C "gl") then
    match Chars (Value Token) !! 2%nat with
    | Some c => Ok (IsUpperCase c)
    | None => Fail UndefinedBehaviour
    end
  else Ok false.

Definition IsDefineCandidate (Token : GLToken) : bool :=
  StartsWith (Value Token) (C "GL_").

(** The first [if] of the loop body of [ParseFile]. *)
Definition ScanFunction (ArbHash : list GLArbToken) (Settings : GLSettings)
    (Token : GLToken) (st : ScanState) : outcome ScanState :=
  Candidate ← IsFunctionCandidate Token;
  Ok (if Candidate : bool then
        if negb (Contains (FunctionsHash st) Token) then
          let '(Found, err) :=
            IsKnownOrIgnoredToken ArbHash Token Settings (Stderr st) in
          if Found then
            {| FunctionsHash := fst (AddToken (FunctionsHash st) Token);
               FunctionCount := (FunctionCount st + 1) mod UINT_MAX1;
               DefinesHash := DefinesHash st;
               DefinesCount := DefinesCount st;
               Stderr := err |}
          else
            {| FunctionsHash := FunctionsHash st;
               FunctionCount := FunctionCount st;
               DefinesHash := DefinesHash st;
               DefinesCount := DefinesCount st;
               Stderr := err |}
        else st
      else st).

(** The second [if] of the loop body of [ParseFile]. *)
Definition ScanDefine (ArbHash : list GLArbToken) (Settings : GLSettings)
    (Token : GLToken) (st : ScanState) : ScanState :=
  if IsDefineCandidate Token then
    if negb (Contains (DefinesHash st) Token) then
      let '(Found, err) := IsKnownOrIgnoredToken ArbHash Token Settings (Stderr st) in
      if Found then
        {| FunctionsHash := FunctionsHash st;
           FunctionCount := FunctionCount st;
           DefinesHash := fst (AddToken (DefinesHash st) Token);
           DefinesCount := (DefinesCount st + 1) mod UINT_MAX1;
           Stderr := err |}
      else
        {| FunctionsHash := FunctionsHash st;
           FunctionCount := FunctionCount st;
           DefinesHash := DefinesHash st;
           DefinesCount := DefinesCount st;
           Stderr := err |}
    else st
  else st.

(** One iteration of [while ( *Tokenizer.At)] in [ParseFile]. *)
Definition ParseFile_body (ArbHash : list GLArbToken) (Settings : GLSettings)
    (st : ScanState) (Tokenizer : GLTokenizer)
  : outcome (ScanState * GLTokenizer) :=
  let '(Token, Tokenizer) := ParseToken Tokenizer in
  st ← ScanFunction ArbHash Settings Token st;
  let st := ScanDefine ArbHash Settings Token st in
  Ok (st, Tokenizer).

Fixpoint ParseFile_loop (fuel : nat) (ArbHash : list GLArbToken)
    (Settings : GLSettings) (st : ScanState) (Tokenizer : GLTokenizer)
  : outcome ScanState :=
  if nonzero (deref (At Tokenizer)) then
    match fuel with
    | O => Fail OutOfFuel
    | S fuel' =>
        '(st, Tokenizer) ← ParseFile_body ArbHash Settings st Tokenizer;
        ParseFile_loop fuel' ArbHash Settings st Tokenizer
    end
  else Ok st.

(** [ParseFile], with the result sets and counters it updates through its
    pointer arguments gathered in the [ScanState]; returns [Success] too. *)
Definition ParseFile (W : World) (Filename : ptr) (ArbHash : list GLArbToken)
    (Settings : GLSettings) (st : ScanState) : outcome (Z * ScanState) :=
  let '(Data, err) := ReadEntireFile W Filename (Stderr st) in
  let st := {| FunctionsHash := FunctionsHash st;
               FunctionCount := FunctionCount st;
               DefinesHash := DefinesHash st;
               DefinesCount := DefinesCount st;
               Stderr := err |} in
  match Data with
  | Some Data =>
      st ← ParseFile_loop (length Data) ArbHash Settings st {| At := Data |};
      Ok (1, st)
  | None =>
      Ok (0, {| FunctionsHash := FunctionsHash st;
                FunctionCount := FunctionCount st;
                DefinesHash := DefinesHash st;
                DefinesCount := DefinesCount st;
                Stderr := Stderr st ++
                  [printf (C "Couldn't open file %s") [arg_s Filename]] |})
  end.

(** The [for] loop of [GenerateOpenGLHeader] over [Settings->Inputs]. *)
Fixpoint ParseFiles (W : World) (Inputs0 : list ptr) (ArbHash : list GLArbToken)
    (Settings : GLSettings) (st : ScanState) : outcome ScanState :=
  match Inputs0 with
  | [] => Ok st
  | Filename :: Inputs' =>
      '(_, st) ← ParseFile W Filename ArbHash Settings st;
      ParseFiles W Inputs' ArbHash Settings st
  end.

(** ** The registry parser *)

Definition with_Hash (Token : GLArbToken) (Hash0 : Z) : GLArbToken :=
  {| Arb.Value := Arb.Value Token; Arb.Line := Arb.Line Token;
     Arb.ReturnType := Arb.ReturnType Token;
     Arb.FunctionName := Arb.FunctionName Token;
     Arb.Parameters := Arb.Parameters Token; Arb.Hash := Hash0 |}.

(** One iteration of the first [while ( *Tokenizer.At)] of
    [GenerateOpenGLHeader]. *)
Definition Registry_body (ArbHash : list GLArbToken) (ArbTokenCount : Z)
    (Tokenizer : GLTokenizer) : outcome (list GLArbToken * Z * GLTokenizer) :=
  let '(Token, Tokenizer) := ParseArbToken Tokenizer in
  if Equal (Arb.Value Token) (C "GLAPI") then
    let Start := Chars (Arb.Value Token) in
    let ReturnType := At Tokenizer in
    let '(Token, Tokenizer) := ParseArbToken Tokenizer in
    let Tokenizer :=
      if Equal (Arb.Value Token) (C "const")
      then snd (ParseArbToken Tokenizer) else Tokenizer in
    let ReturnTypeLength := ptrdiff (At Tokenizer) ReturnType in
    let Tokenizer := snd (ParseArbToken Tokenizer) in
    let '(Token, Tokenizer) := ParseArbToken Tokenizer in
    let Token := with_Hash Token (GetStringHash (Arb.Value Token)) in
    match GetToken ArbHash (Arb.Hash Token) with
    | None =>
        let ArbTokenCount := (ArbTokenCount + 1) mod UINT_MAX1 in
        let '(ArbHash, Result) := AddTokenArb ArbHash Token in
        match Result with
        | None => Fail UndefinedBehaviour
        | Some Result =>
            let Parameters0 := At Tokenizer in
            let Tokenizer' := AdvanceToEndOfLine Tokenizer in
            let entry :=
              {| Arb.Value := Arb.Value Token;
                 Arb.Line :=
                   {| Chars := Start; Length := ptrdiff (At Tokenizer') Start |};
                 Arb.ReturnType :=
                   {| Chars := ReturnType; Length := ReturnTypeLength |};
                 Arb.FunctionName :=
                   {| Chars := Chars (Arb.Value Token);
                      Length := ptrdiff (At Tokenizer) (Chars (Arb.Value Token)) |};
                 Arb.Parameters :=
                   {| Chars := Parameters0;
                      Length := ptrdiff (At Tokenizer') Parameters0 |};
                 Arb.Hash := Arb.Hash Token |} in
            Ok (<[Z.to_nat Result := entry]> ArbHash, ArbTokenCount, Tokenizer')
        end
    | Some _ => Ok (ArbHash, ArbTokenCount, Tokenizer)
    end
  else if StartsWith (Arb.Value Token) (C "#define") then
    let Start := Chars (Arb.Value Token) in
    let '(Token, Tokenizer) := ParseArbToken Tokenizer in
    let Token := with_Hash Token (GetStringHash (Arb.Value Token)) in
    match GetToken ArbHash (Arb.Hash Token) with
    | None =>
        let ArbTokenCount := (ArbTokenCount + 1) mod UINT_MAX1 in
        let '(ArbHash, Result) := AddTokenArb ArbHash Token in
        match Result with
        | None => Fail UndefinedBehaviour
        | Some Result =>
            let Tokenizer' := AdvanceToEndOfLine Tokenizer in
            let entry :=
              {| Arb.Value := Arb.Value Token;
                 Arb.Line :=
                   {| Chars := Start; Length := ptrdiff (At Tokenizer') Start |};
                 Arb.ReturnType := Arb.ReturnType Token;
                 Arb.FunctionName := Arb.FunctionName Token;
                 Arb.Parameters := Arb.Parameters Token;
                 Arb.Hash := Arb.Hash Token |} in
            Ok (<[Z.to_nat Result := entry]> ArbHash, ArbTokenCount, Tokenizer')
        end
    | Some _ => Ok (ArbHash, ArbTokenCount, Tokenizer)
    end
  else Ok (ArbHash, ArbTokenCount, Tokenizer).

Fixpoint Registry_loop (fuel : nat) (ArbHash : list GLArbToken)
    (ArbTokenCount : Z) (Tokenizer : GLTokenizer)
  : outcome (list GLArbToken * Z) :=
  if nonzero (deref (At Tokenizer)) then
    match fuel with
    | O => Fail OutOfFuel
    | S fuel' =>
        '(ArbHash, ArbTokenCount, Tokenizer) ←
          Registry_body ArbHash ArbTokenCount Tokenizer;
        Registry_loop fuel' ArbHash ArbTokenCount Tokenizer
    end
  else Ok (ArbHash, ArbTokenCount).

(** ** The header emitter *)

(** The string literals of [GenerateOpenGLHeader], in the order they are
    written. *)

Definition Generated_guard : list ascii := Cs [
  "#ifndef INCLUDE_OPENGL_GENERATED_H\n";
  "#define INCLUDE_OPENGL_GENERATED_H\n\n";
  "// NOTE: This file is generated automatically. Do not edit.\n";
  "// @GENERATED: %llu\n\n"
]%string.

Definition Generated_version : list ascii := Cs [
  "typedef struct %sOpenGLVersion\n";
  "{\n";
  "  int Major;\n";
  "  int Minor;\n";
  "} %sOpenGLVersion;\n";
  "// Call this function to initialize OpenGL.\n";
  "// Example:\n";
  "//\n";
  "//    %sOpenGLVersion Version;\n";
  "//    %sOpenGLInit(&Version);\n";
  "//    if(Version.Major < 3)\n";
  "//    {\n";
  "//       printf(\042OpenGL 3 or above required.\\n\042);\n";
  "//       return 0;\n";
  "//    }\n";
  "//\n";
  "static void %sOpenGLInit(%sOpenGLVersion* Version);\n\n\n"
]%string.

Definition Generated_baseline : list ascii := Cs [
  "#ifndef APIENTRY\n";
  "#define APIENTRY\n";
  "#endif\n";
  "#ifndef APIENTRYP\n";
  "#define APIENTRYP APIENTRY *\n";
  "#endif\n";
  "#ifndef GLAPI\n";
  "#define GLAPI extern\n";
  "#endif\n\n";
  "typedef void GLvoid;\n";
  "typedef unsigned int GLenum;\n";
  "typedef float GLfloat;\n";
  "typedef int GLint;\n";
  "typedef int GLsizei;\n";
  "typedef unsigned int GLbitfield;\n";
  "typedef double GLdouble;\n";
  "typedef unsigned int GLuint;\n";
  "typedef unsigned char GLboolean;\n";
  "typedef unsigned char GLubyte;\n";
  "typedef char GLchar;\n";
  "typedef short GLshort;\n";
  "typedef signed char GLbyte;\n";
  "typedef unsigned short GLushort;\n";
  "typedef ptrdiff_t GLsizeiptr;\n";
  "typedef ptrdiff_t GLintptr;\n";
  "typedef float GLclampf;\n";
  "typedef double GLclampd;\n";
  "typedef unsigned short GLhalf;\n\n"
]%string.

Definition Generated_debugproc : list ascii := Cs [
  "typedef void (APIENTRY *GLDEBUGPROC)(GLenum source,GLenum type,GLuint id,GLenum severity,GLsizei length,const GLchar *message,const void *userParam);\n"
]%string.

(** The loader code.  The format has 30 [%s] conversions; the call passes
    [Prefix] 84 times, and [fprintf] ignores the excess. *)
Definition Generated_loader : list ascii := Cs [
  "\n\n";
  "typedef void (*%sOpenGLProc)(void);\n\n";
  "#ifdef _WIN32\n";
  "static HMODULE %sOpenGLHandle;\n";
  "static void %sLoadOpenGL()\n";
  "{\n";
  "  %sOpenGLHandle = LoadLibraryA(\042opengl32.dll\042);\n";
  "}\n";
  "static void %sUnloadOpenGL()\n";
  "{\n";
  "  FreeLibrary(%sOpenGLHandle);\n";
  "}\n";
  "static %sOpenGLProc %sOpenGLGetProc(const char *proc)\n";
  "{\n";
  "  %sOpenGLProc Result = (%sOpenGLProc)wglGetProcAddress(proc);\n";
  "  if (!Result)\n";
  "    Result = (%sOpenGLProc)GetProcAddress(%sOpenGLHandle, proc);\n";
  "  return Result;\n";
  "}\n";
  "#elif defined(__APPLE__) || defined(__APPLE_CC__)\n";
  "#include <Carbon/Carbon.h>\n";
  "\n";
  "static CFBundleRef GEN_Bundle;\n";
  "static CFURLRef GEN_BundleURL;\n";
  "\n";
  "static void %sLoadOpenGL()\n";
  "{\n";
  "  GEN_BundleURL = CFURLCreateWithFileSystemPath(kCFAllocatorDefault,\n";
  "    CFSTR(\042/System/Library/Frameworks/OpenGL.framework\042),\n";
  "    kCFURLPOSIXPathStyle, 1);\n";
  "  GEN_Bundle = CFBundleCreate(kCFAllocatorDefault, GEN_BundleURL);\n";
  "}\n";
  "static void %sUnloadOpenGL()\n";
  "{\n";
  "  CFRelease(GEN_Bundle);\n";
  "  CFRelease(GEN_BundleURL);\n";
  "}\n";
  "static %sOpenGLProc %sOpenGLGetProc(const char *proc)\n";
  "{\n";
  "  CFStringRef ProcName = CFStringCreateWithCString(kCFAllocatorDefault, proc,\n";
  "    kCFStringEncodingASCII);\n";
  "  %sOpenGLProc Result = (%sOpenGLProc) CFBundleGetFunctionPointerForName(GEN_Bundle, ProcName);\n";
  "  CFRelease(ProcName);\n";
  "  return Result;\n";
  "}\n";
  "#else\n";
  "#include <dlfcn.h>\n";
  "\n";
  "static void *%sOpenGLHandle;\n";
  "typedef void (*__GLXextproc)(void);\n";
  "typedef __GLXextproc (* PFNGLXGETPROCADDRESSPROC) (const GLubyte *procName);\n";
  "static PFNGLXGETPROCADDRESSPROC glx_get_proc_address;\n";
  "static void %sLoadOpenGL()\n";
  "{\n";
  "  %sOpenGLHandle = dlopen(\042libGL.so.1\042, RTLD_LAZY | RTLD_GLOBAL);\n";
  "  glx_get_proc_address = (PFNGLXGETPROCADDRESSPROC) dlsym(%sOpenGLHandle, \042glXGetProcAddressARB\042);\n";
  "}\n";
  "static void %sUnloadOpenGL()\n";
  "{\n";
  "  dlclose(%sOpenGLHandle);\n";
  "}\n";
  "static %sOpenGLProc %sOpenGLGetProc(const char *proc)\n";
  "{\n";
  "  %sOpenGLProc Result = (%sOpenGLProc) glx_get_proc_address((const GLubyte *) proc);\n";
  "  if (!Result)\n";
  "    Result = (%sOpenGLProc) dlsym(%sOpenGLHandle, proc);\n";
  "  return Result;\n";
  "}\n";
  "#endif\n\n"
]%string.

Definition Generated_init : list ascii := Cs [
  "\n\nvoid %sOpenGLInit(%sOpenGLVersion* Version)\n";
  "{\n";
  "  %sLoadOpenGL();\n\n"
]%string.

Definition Generated_close : list ascii := Cs [
  "\n  %sUnloadOpenGL();\n";
  "\n";
  "  Version->Major = 0;\n";
  "  Version->Minor = 0;\n";
  "  if (glGetIntegerv)\n";
  "  {\n";
  "    glGetIntegerv(GL_MAJOR_VERSION, &Version->Major);\n";
  "    glGetIntegerv(GL_MINOR_VERSION, &Version->Minor);\n";
  "  }\n";
  "}\n\n";
  "#endif // INCLUDE_OPENGL_GENERATED_H\n"
]%string.

Definition Spacer : list ascii := C "\n\n".
Definition ProcPrefix : ptr := C "GEN_".
Definition PRI_STR : string := ".*s".

(** [for (unsigned int Index = 0; Index < Count; ++Index)]: what the bodies
    write, in order; [n] is [Count - Index]. *)
Fixpoint for_Index (n : nat) (Index : Z) (body : Z → outcome (list ascii))
  : outcome (list ascii) :=
  match n with
  | O => Ok []
  | S n' =>
      out ← body Index;
      rest ← for_Index n' (Index + 1) body;
      Ok (out ++ rest)
  end.

(** [*(TokenHash + Index)]: a read past the 8192 slots is undefined. *)
Definition table_at (TokenHash : list GLToken) (Index : Z) : outcome GLToken :=
  match TokenHash !! Z.to_nat Index with
  | Some Token => Ok Token
  | None => Fail UndefinedBehaviour
  end.

(** [fwrite(Chars, n, 1, Output)] *)
Definition fwrite (Chars0 : ptr) (n : nat) : list ascii := take n Chars0.

Definition EmitDefine (ArbHash : list GLArbToken) (DefinesHash0 : list GLToken)
    (Index : Z) : outcome (list ascii) :=
  Token ← table_at DefinesHash0 Index;
  if Hash Token =? 0 then Fail AssertionFailed
  else
    match GetToken ArbHash (Hash Token) with
    | Some ArbToken =>
        let ArbToken := slot zeroArbToken ArbHash ArbToken in
        Ok (fwrite (Chars (Arb.Line ArbToken)) (Length (Arb.Line ArbToken) + 1))
    | None => Ok []
    end.

(** The shape shared by the four loops over the function result set. *)
Definition EmitFunction (ArbHash : list GLArbToken) (FunctionsHash0 : list GLToken)
    (line : GLArbToken → outcome (list ascii)) (Index : Z)
  : outcome (list ascii) :=
  Token ← table_at FunctionsHash0 Index;
  match GetToken ArbHash (Hash Token) with
  | Some ArbToken => line (slot zeroArbToken ArbHash ArbToken)
  | None => Ok []
  end.

Definition arg_slice (S : GLString) : printf_arg :=
  arg_prec_s (Length S) (Chars S).

Definition TypedefLine (ArbToken : GLArbToken) : outcome (list ascii) :=
  Name ← UpperCase (Arb.FunctionName ArbToken);
  sprintf512
    (Cs ["typedef %"; PRI_STR; " (APIENTRYP PFN%sPROC) %"; PRI_STR; "\n"]%string)
    [arg_slice (Arb.ReturnType ArbToken); arg_s Name;
     arg_slice (Arb.Parameters ArbToken)].

Definition RedefineLine (ArbToken : GLArbToken) : outcome (list ascii) :=
  sprintf512 (Cs ["#define %"; PRI_STR; " %s%"; PRI_STR; "\n"]%string)
    [arg_slice (Arb.FunctionName ArbToken); arg_s ProcPrefix;
     arg_slice (Arb.FunctionName ArbToken)].

Definition GlobalLine (ArbToken : GLArbToken) : outcome (list ascii) :=
  Name ← UpperCase (Arb.FunctionName ArbToken);
  sprintf512 (Cs ["PFN%sPROC %s%"; PRI_STR; ";\n"]%string)
    [arg_s Name; arg_s ProcPrefix; arg_slice (Arb.FunctionName ArbToken)].

Definition GetProcLine (Prefix0 : ptr) (ArbToken : GLArbToken)
  : outcome (list ascii) :=
  Name ← UpperCase (Arb.FunctionName ArbToken);
  sprintf512
    (Cs ["  %s%"; PRI_STR; " = (PFN%sPROC)%sOpenGLGetProc(\042%"; PRI_STR;
         "\042);\n"]%string)
    [arg_s ProcPrefix; arg_slice (Arb.FunctionName ArbToken); arg_s Name;
     arg_s Prefix0; arg_slice (Arb.FunctionName ArbToken)].

(** What is written under [if (Settings->Boilerplate)] after the typedefs. *)
Definition EmitBoilerplate (ArbHash : list GLArbToken)
    (FunctionsHash0 : list GLToken) (FunctionCount0 : Z) (Prefix0 : ptr)
  : outcome (list ascii) :=
  let n := Z.to_nat FunctionCount0 in
  redefines ← for_Index n 0 (EmitFunction ArbHash FunctionsHash0 RedefineLine);
  globals ← for_Index n 0 (EmitFunction ArbHash FunctionsHash0 GlobalLine);
  getprocs ←
    for_Index n 0 (EmitFunction ArbHash FunctionsHash0 (GetProcLine Prefix0));
  Ok (Spacer ++ redefines ++ Spacer ++ globals ++
      printf Generated_loader (replicate 84 (arg_s Prefix0)) ++
      printf Generated_init (replicate 3 (arg_s Prefix0)) ++
      getprocs ++
      printf Generated_close [arg_s Prefix0]).

(** Everything written to [Output], from the sorted result sets. *)
Definition Emit (Settings : GLSettings) (ArbHash : list GLArbToken)
    (FunctionsHash0 : list GLToken) (FunctionCount0 : Z)
    (DefinesHash0 : list GLToken) (DefinesCount0 : Z) : outcome (list ascii) :=
  let Prefix0 := match Prefix Settings with Some p => p | None => [] end in
  let guard := printf Generated_guard [arg_llu (WriteTimestamp Settings)] in
  let version :=
    if Boilerplate Settings
    then printf Generated_version (replicate 6 (arg_s Prefix0)) else [] in
  let baseline := printf (C "%s") [arg_s Generated_baseline] in
  defines ←
    for_Index (Z.to_nat DefinesCount0) 0 (EmitDefine ArbHash DefinesHash0);
  let debugproc := printf (C "%s") [arg_s Generated_debugproc] in
  typedefs ←
    for_Index (Z.to_nat FunctionCount0) 0
      (EmitFunction ArbHash FunctionsHash0 TypedefLine);
  boilerplate ←
    (if Boilerplate Settings
     then EmitBoilerplate ArbHash FunctionsHash0 FunctionCount0 Prefix0
     else Ok []);
  Ok (guard ++ version ++ baseline ++ defines ++ Spacer ++ debugproc ++
      typedefs ++ boilerplate).

(** ** Generation *)

Record GenResult := {
  Success : Z;
  (* the bytes of the output file; None if it could not be opened *)
  OutputFile : option (list ascii);
  Diagnostics : diagnostics
}.

Section Generator.
(** The C library's [qsort], applied to a whole table, and the
    indeterminate [Value] of the pre-seeded tokens. *)
Context (qsort : (GLToken → GLToken → Z) → list GLToken → list GLToken).
Context (Indeterminate : GLString).

(** The two blocks that seed the result sets before any file is scanned. *)
Definition Seed (Stderr0 : diagnostics) : ScanState :=
  let DefinesHash0 := calloc zeroToken in
  let FunctionsHash0 := calloc zeroToken in
  let DefinesHash0 :=
    AddCustomToken Indeterminate DefinesHash0 (C "GL_MAJOR_VERSION") in
  let DefinesHash0 :=
    AddCustomToken Indeterminate DefinesHash0 (C "GL_MINOR_VERSION") in
  let FunctionsHash0 :=
    AddCustomToken Indeterminate FunctionsHash0 (C "glGetIntegerv") in
  {| FunctionsHash := FunctionsHash0; FunctionCount := 1;
     DefinesHash := DefinesHash0; DefinesCount := 2;
     Stderr := Stderr0 |}.

Definition GenerateOpenGLHeader (W : World) (Settings : GLSettings)
  : outcome GenResult :=
  let '(ArbData, err) := ReadMultiFiles W (Headers Settings) [] in
  let Output0 := writable W (Output Settings) in
  let untouched := if Output0 then Some [] else None in
  if (length (Inputs Settings) <=? 0)%nat then
    Ok {| Success := -1; OutputFile := untouched;
          Diagnostics := err ++ [C "Invalid input count"] |}
  else
    match Output0, ArbData with
    | true, Some ArbData =>
        '(ArbHash, ArbTokenCount) ←
          Registry_loop (length ArbData) (calloc zeroArbToken) 0
            {| At := ArbData |};
        st ← ParseFiles (fopen_w W (Output Settings)) (Inputs Settings)
               ArbHash Settings (Seed err);
        let FunctionsHash0 := qsort TokenComparer (FunctionsHash st) in
        let DefinesHash0 := qsort TokenComparer (DefinesHash st) in
        written ← Emit Settings ArbHash FunctionsHash0 (FunctionCount st)
                    DefinesHash0 (DefinesCount st);
        Ok {| Success := 0; OutputFile := Some written;
              Diagnostics := Stderr st |}
    | _, _ =>
        Ok {| Success := -1; OutputFile := untouched; Diagnostics := err |}
    end.

(** The [for] loop of [main] over the inputs. *)
Fixpoint MaxTimestamp_loop (W : World) (Inputs0 : list ptr) (MaxTimestamp : Z)
  : Z :=
  match Inputs0 with
  | [] => MaxTimestamp
  | InputFilename :: Inputs' =>
      let LastWriteTime := last_write_time W InputFilename in
      MaxTimestamp_loop W Inputs'
        (if LastWriteTime >? MaxTimestamp then LastWriteTime else MaxTimestamp)
  end.

(** [main] from the point where [ParseCommandLine] has succeeded: the
    settings it produced are [Settings]; [None] when the header is up to
    date and nothing is generated. *)
Definition main_generate (W : World) (Settings : GLSettings)
  : outcome (option GenResult) :=
  let Settings :=
    {| Headers := Headers Settings; Output := Output Settings;
       Prefix := Prefix Settings; Inputs := Inputs Settings;
       Ignores := Ignores Settings;
       WriteTimestamp := last_write_time W (Output Settings);
       Boilerplate := Boilerplate Settings; Silent := Silent Settings;
       ForceGenerate := ForceGenerate Settings |} in
  let MaxTimestamp := MaxTimestamp_loop W (Inputs Settings) 0 in
  if ForceGenerate Settings || (MaxTimestamp >? WriteTimestamp Settings)
  then r ← GenerateOpenGLHeader W Settings; Ok (Some r)
  else Ok None.
End Generator.

(** ** Vocabulary of the statements *)

(** The [k]-th slot on the probe sequence of a hash: it starts at
    [hash & (TOKEN_HASH_SIZE - 1)] and walks forward, wrapping around. *)
Definition probe_index (Hash0 k : Z) : Z := (Hash0 + k) mod TOKEN_HASH_SIZE.

Section ProbeVocabulary.
Context {T : Type} (HashOf : T → Z) (zero : T).

(** The hash stored in the [k]-th slot of the probe sequence. *)
Definition probed (TokenHash : list T) (Hash0 k : Z) : Z :=
  HashOf (slot zero TokenHash (probe_index Hash0 k)).

(** Step [k] is the first one that meets an empty slot. *)
Definition first_empty (TokenHash : list T) (Hash0 k : Z) : Prop :=
  0 ≤ k < TOKEN_HASH_SIZE ∧ probed TokenHash Hash0 k = 0 ∧
  ∀ j, 0 ≤ j < k → probed TokenHash Hash0 j ≠ 0.

(** No step of a whole probe cycle meets an empty slot. *)
Definition no_empty (TokenHash : list T) (Hash0 : Z) : Prop :=
  ∀ j, 0 ≤ j < TOKEN_HASH_SIZE → probed TokenHash Hash0 j ≠ 0.

(** Step [k] is the first one that meets the hash looked for, and no
    empty slot comes before it. *)
Definition first_match (TokenHash : list T) (Hash0 k : Z) : Prop :=
  0 ≤ k < TOKEN_HASH_SIZE ∧ probed TokenHash Hash0 k = Hash0 ∧
  ∀ j, 0 ≤ j < k →
    probed TokenHash Hash0 j ≠ 0 ∧ probed TokenHash Hash0 j ≠ Hash0.
End ProbeVocabulary.

(** What the C standard promises of [qsort] called on a whole table with
    [TokenComparer]: the slots are rearranged so that the comparison of each
    slot with the next one is not positive.  Which of two slots that compare
    equal comes first is left open. *)
Definition qsort_spec
    (qsort : (GLToken → GLToken → Z) → list GLToken → list GLToken) : Prop :=
  ∀ TokenHash,
    TokenHash ≡ₚ qsort TokenComparer TokenHash ∧
    Sorted (λ A B, TokenComparer A B ≤ 0) (qsort TokenComparer TokenHash).

(** One implementation of [qsort]: a merge sort. *)
Definition merge_qsort (compar : GLToken → GLToken → Z) (base : list GLToken)
  : list GLToken :=
  @merge_sort _ (λ A B, compar A B ≤ 0) (λ A B, Z_le_dec (compar A B) 0) base.

(** Another one: merge sort of the reversed table, which orders slots that
    compare equal differently. *)
Definition reverse_merge_qsort (compar : GLToken → GLToken → Z)
    (base : list GLToken) : list GLToken :=
  merge_qsort compar (reverse base).

(** The stored hashes of a table, slot by slot. *)
Definition hashes (TokenHash : list GLToken) : list Z := map Hash TokenHash.

(** Inserting tokens one after the other. *)
Definition AddTokens (TokenHash : list GLToken) (Tokens : list GLToken)
  : list GLToken :=
  fold_left (λ TokenHash Token, (AddToken TokenHash Token).1) Tokens TokenHash.

(** Two states of the scanner that agree on everything but the [Value] of
    the tokens in the result sets. *)
Definition same_hashes (st st' : ScanState) : Prop :=
  hashes (FunctionsHash st) = hashes (FunctionsHash st') ∧
  FunctionCount st = FunctionCount st' ∧
  hashes (DefinesHash st) = hashes (DefinesHash st') ∧
  DefinesCount st = DefinesCount st' ∧
  Stderr st = Stderr st'.

(** Two runs of the scanner that fail alike or end in such states. *)
Definition same_scan (o o' : outcome ScanState) : Prop :=
  match o, o' with
  | Ok st, Ok st' => same_hashes st st'
  | Fail f, Fail f' => f = f'
  | _, _ => False
  end.

(** Two file systems in which the registry files and the input files of the
    settings have the same bytes, and the output opens alike. *)
Definition same_inputs (W W' : World) (Settings : GLSettings) : Prop :=
  (∀ name, name ∈ Headers Settings ++ Inputs Settings →
     file_contents W name = file_contents W' name) ∧
  writable W (Output Settings) = writable W' (Output Settings).

(** The two lines that open the include guard, and the line that closes
    it. *)
Definition guard_lines : list ascii :=
  C "#ifndef INCLUDE_OPENGL_GENERATED_H\n#define INCLUDE_OPENGL_GENERATED_H\n".

Definition closing_line : list ascii :=
  C "#endif // INCLUDE_OPENGL_GENERATED_H\n".

(** The text ends with a line that holds a closing parenthesis, as every
    typedef the emitter writes does. *)
Definition ends_with_typedef (s : list ascii) : Prop :=
  ∃ X Y, s = X ++ ")"%char :: Y ++ [LF] ∧ LF ∉ Y.

(** A slice that, printed with [%.*s], stays on one line. *)
Definition one_line (S : GLString) : Prop :=
  LF ∉ take (Length S) (cstr (Chars S)).

(** The registry table a run builds from the registry files, when it gets
    that far. *)
Definition RegistryTable (W : World) (Settings : GLSettings)
  : option (list GLArbToken) :=
  match (ReadMultiFiles W (Headers Settings) []).1 with
  | Some ArbData =>
      match Registry_loop (length ArbData) (calloc zeroArbToken) 0
              {| At := ArbData |} with
      | Ok (ArbHash, _) => Some ArbHash
      | Fail _ => None
      end
  | None => None
  end.

(** What the emitter writes for a macro whose registry entry is [ArbToken]:
    the recorded line and the byte after it. *)
Definition MacroLine (ArbToken : GLArbToken) : list ascii :=
  fwrite (Chars (Arb.Line ArbToken)) (Length (Arb.Line ArbToken) + 1).

(** The number of populated slots of a result set. *)
Definition populated (TokenHash : list GLToken) : nat :=
  length (filter (λ h, h ≠ 0) (hashes TokenHash)).

(** The bytes the scanner walks over: the size of every input file that can
    be read, terminator included. *)
Fixpoint input_bytes (W : World) (names : list ptr) : Z :=
  match names with
  | [] => 0
  | Filename :: names' =>
      match (ReadEntireFile W Filename []).1 with
      | Some Data => Z.of_nat (length Data)
      | None => 0
      end + input_bytes W names'
  end.

(** A result set and its counter after some scanning: the non-zero hashes
    it held are still there, and the counter has been incremented, modulo
    [2^32], at most [k] times and at least once for every slot that was
    populated. *)
Definition grown (k : Z) (t : list GLToken) (c : Z) (t' : list GLToken) (c' : Z)
  : Prop :=
  (∀ h, h ≠ 0 → h ∈ hashes t → h ∈ hashes t') ∧
  ∃ a, 0 ≤ a ≤ k ∧
       c' mod UINT_MAX1 = (c + a) mod UINT_MAX1 ∧
       (0 ≤ c < UINT_MAX1 → 0 ≤ c' < UINT_MAX1) ∧
       Z.of_nat (populated t') ≤ Z.of_nat (populated t) + a.

Definition scanned (k : Z) (st st' : ScanState) : Prop :=
  grown k (FunctionsHash st) (FunctionCount st)
          (FunctionsHash st') (FunctionCount st') ∧
  grown k (DefinesHash st) (DefinesCount st)
          (DefinesHash st') (DefinesCount st').

(** ** Vocabulary of the order of insertion and of the input files *)

(** A result set as the scanner keeps it: of the full capacity, with no
    hash stored twice, and with every stored hash found by [Contains]. *)
Definition table_ok (t : list GLToken) : Prop :=
  length t = Z.to_nat TOKEN_HASH_SIZE ∧
  NoDup (filter (λ h, h ≠ 0) (hashes t)) ∧
  ∀ Token, Hash Token ≠ 0 → Hash Token ∈ hashes t → Contains t Token = true.

(** What one iteration of the scanner does to a result set: [Accept] says
    that the token is a candidate for the set and known or ignored. *)
Definition scan_table (Accept : bool) (t : list GLToken) (Token : GLToken)
  : list GLToken :=
  if Accept && negb (Contains t Token) then (AddToken t Token).1 else t.

(** [Found] of [IsKnownOrIgnoredToken], which does not depend on what has
    been printed. *)
Definition known (ArbHash : list GLArbToken) (Settings : GLSettings)
    (Token : GLToken) : bool :=
  (IsKnownOrIgnoredToken ArbHash Token Settings []).1.

Definition function_candidate (Token : GLToken) : bool :=
  match IsFunctionCandidate Token with
  | Ok Candidate => Candidate
  | Fail _ => false
  end.

(** The hashes of the tokens of a buffer that are candidates and known or
    ignored. *)
Fixpoint accepted (cand : GLToken → bool) (fuel : nat)
    (ArbHash : list GLArbToken) (Settings : GLSettings)
    (Tokenizer : GLTokenizer) : list Z :=
  if nonzero (deref (At Tokenizer)) then
    match fuel with
    | O => []
    | S fuel' =>
        let '(Token, Tokenizer') := ParseToken Tokenizer in
        (if cand Token && known ArbHash Settings Token then [Hash Token]
         else []) ++
        accepted cand fuel' ArbHash Settings Tokenizer'
    end
  else [].

Definition accepted_file (cand : GLToken → bool) (W : World)
    (ArbHash : list GLArbToken) (Settings : GLSettings) (Filename : ptr)
  : list Z :=
  match (ReadEntireFile W Filename []).1 with
  | Some Data => accepted cand (length Data) ArbHash Settings {| At := Data |}
  | None => []
  end.

Fixpoint accepted_files (cand : GLToken → bool) (W : World)
    (ArbHash : list GLArbToken) (Settings : GLSettings) (names : list ptr)
  : list Z :=
  match names with
  | [] => []
  | Filename :: names' =>
      accepted_file cand W ArbHash Settings Filename ++
      accepted_files cand W ArbHash Settings names'
  end.

(** A token with a given hash, and 8192 tokens with the hashes 1 to 8192:
    as many as a table has slots. *)
Definition token_with_hash (h : Z) : GLToken :=
  {| Value := zeroString; Hash := h |}.

Definition capacity_tokens : list GLToken :=
  map (λ n, token_with_hash (Z.of_nat n)) (seq 1 (Z.to_nat TOKEN_HASH_SIZE)).

(** The text [o] occurs somewhere in [s]. *)
Definition occurs_in (o s : list ascii) : Prop := ∃ pre post, s = pre ++ o ++ post.

(** The same, decided. *)
Fixpoint starts (o s : list ascii) : bool :=
  match o, s with
  | [], _ => true
  | a :: o', b :: s' => Ascii.eqb a b && starts o' s'
  | _ :: _, [] => false
  end.

Fixpoint occursb (o s : list ascii) : bool :=
  starts o s || match s with [] => false | _ :: s' => occursb o s' end.

(** The hash [AddCustomToken] stores for a name. *)
Definition hash_of_name (s : string) : Z :=
  GetStringHash {| Chars := C s; Length := strlen (C s) |}.

(** ** Concrete inputs of the examples *)

(** The token the source scanner reads from a buffer that holds [s]. *)
Definition token_of (s : string) : GLToken :=
  fst (ParseToken {| At := C s ++ [NUL] |}).

(** The registry entry the parser builds for a name read from a buffer that
    holds [s], before its line is recorded. *)
Definition entry_of (s : string) : GLArbToken :=
  let Token := fst (ParseArbToken {| At := C s ++ [NUL] |}) in
  with_Hash Token (GetStringHash (Arb.Value Token)).

(** Tables whose 8192 slots all hold the same occupied entry. *)
Definition full_table : list GLToken :=
  replicate (Z.to_nat TOKEN_HASH_SIZE) (token_of "glClear").

Definition full_registry : list GLArbToken :=
  replicate (Z.to_nat TOKEN_HASH_SIZE) (entry_of "glClear").

(** Settings whose ignore list is [names] and that name no file. *)
Definition settings_ignoring (names : list ptr) : GLSettings :=
  {| Headers := []; Output := []; Prefix := None; Inputs := [];
     Ignores := names; WriteTimestamp := 0; Boilerplate := false;
     Silent := false; ForceGenerate := false |}.

(** A file system given by a list of named files, none of them protected,
    with the last-write time of the output and of everything else. *)
Fixpoint find_file (files : list (string * string)) (name : ptr)
  : option (list ascii) :=
  match files with
  | [] => None
  | (n, data) :: files' =>
      if String.eqb n (string_of_list_ascii name) then Some (C data)
      else find_file files' name
  end.

Definition world_of (files : list (string * string)) (out_time in_time : Z)
  : World :=
  {| file_contents := find_file files;
     writable := λ _, true;
     last_write_time := λ name,
       if String.eqb "out.h" (string_of_list_ascii name)
       then out_time else in_time |}.

(** The scanner's state with nothing in it. *)
Definition empty_scan : ScanState :=
  {| FunctionsHash := calloc zeroToken; FunctionCount := 0;
     DefinesHash := calloc zeroToken; DefinesCount := 0; Stderr := [] |}.

(** The state [st] with one more diagnostic. *)
Definition with_warning (st : ScanState) (w : list ascii) : ScanState :=
  {| FunctionsHash := FunctionsHash st; FunctionCount := FunctionCount st;
     DefinesHash := DefinesHash st; DefinesCount := DefinesCount st;
     Stderr := Stderr st ++ [w] |}.

(** The registry files [ReadMultiFiles] reads: those that open and are
    not empty, in the order of the command line. *)
Fixpoint readable (W : World) (names : list ptr) : list (list ascii) :=
  match names with
  | [] => []
  | Filename :: names' =>
      match file_contents W Filename with
      | Some data =>
          if (0 <? length data)%nat then data :: readable W names'
          else readable W names'
      | None => readable W names'
      end
  end.

(** A file with its last byte overwritten by a line feed, and a second line
    feed after it. *)
Definition clobber (data : list ascii) : list ascii :=
  removelast data ++ [LF; LF].

(** What [ReadMultiFiles] leaves in its buffer for the contents [d :: ds]:
    every file but the last one clobbered, then the last one. *)
Fixpoint join_clobbered (d : list ascii) (ds : list (list ascii)) : list ascii :=
  match ds with
  | [] => d
  | d' :: ds' => clobber d ++ join_clobbered d' ds'
  end.

(** A small registry that declares [glClear] and one macro, and a source
    file that uses both. *)
Definition example_files : list (string * string) :=
  [("gl.h",
    "GLAPI void APIENTRY glClear (GLbitfield mask);\n#define GL_COLOR_BUFFER_BIT 0x00004000\n");
   ("a.c", "glClear(GL_COLOR_BUFFER_BIT);\n")]%string.

Definition example_settings (boilerplate : bool) : GLSettings :=
  {| Headers := [C "gl.h"]; Output := C "out.h"; Prefix := None;
     Inputs := [C "a.c"]; Ignores := []; WriteTimestamp := 0;
     Boilerplate := boilerplate; Silent := true; ForceGenerate := true |}.

(** The bytes a run of [main] leaves in the output file, if it writes it. *)
Definition written_by (o : outcome (option GenResult)) : option (list ascii) :=
  match o with
  | Ok (Some r) => OutputFile r
  | _ => None
  end.

(** A registry that declares the three pre-seeded symbols, and a source
    file that mentions none of them. *)
Definition seeded_files : list (string * string) :=
  [("gl.h",
    "GLAPI void APIENTRY glGetIntegerv (GLenum pname, GLint *data);\n#define GL_MAJOR_VERSION 0x821B\n#define GL_MINOR_VERSION 0x821C\n");
   ("a.c", "int main(void) { return 0; }\n")]%string.

(** ** Vocabulary of the further properties *)

(** The counters of the result sets say how many slots are populated. *)
Definition counters_exact (st : ScanState) : Prop :=
  length (FunctionsHash st) = Z.to_nat TOKEN_HASH_SIZE ∧
  length (DefinesHash st) = Z.to_nat TOKEN_HASH_SIZE ∧
  FunctionCount st = Z.of_nat (populated (FunctionsHash st)) ∧
  DefinesCount st = Z.of_nat (populated (DefinesHash st)).

(** What the emitter writes for one slot of the macro result set. *)
Definition macro_of (ArbHash : list GLArbToken) (Token : GLToken) : list ascii :=
  match GetToken ArbHash (Hash Token) with
  | Some ArbToken => MacroLine (slot zeroArbToken ArbHash ArbToken)
  | None => []
  end.

(** The table the registry loop leaves when it runs over [data] from the
    table [ArbHash]. *)
Definition registry_after (data : list ascii) (ArbHash : list GLArbToken)
  : list GLArbToken :=
  match Registry_loop (length data) ArbHash 0 {| At := data |} with
  | Ok (ArbHash', _) => ArbHash'
  | Fail _ => ArbHash
  end.

(** The characters that end a line for [AdvanceToEndOfLine]: a carriage
    return, a line feed, or the terminator of the buffer. *)
Definition ends_line (e : ascii) : Prop := e = NUL ∨ IsNewline e = true.

(** A character that [AdvanceToEndOfLine] walks over. *)
Definition in_line (c : ascii) : Prop := c ≠ NUL ∧ IsNewline c = false.

(** What [ReadEntireFile] and [ReadMultiFiles] print for a file they cannot
    use. *)
Definition read_failure (W : World) (Filename : ptr) : list ascii :=
  match file_contents W Filename with
  | Some _ => printf (C "File is empty: %s") [arg_s Filename]
  | None => printf (C "Couldn't open file: %s") [arg_s Filename]
  end.

(** ** The command line: [ParseCommandLine], [FreeMemory], [PrintHelp], [main] *)

(** An element of [argv] is the list of the bytes that can be read from the
    pointer: the characters of the argument, its terminator, and whatever
    memory follows it.  A read past the end of that list is undefined. *)
Definition read (p : ptr) : outcome ascii :=
  match p with
  | [] => Fail UndefinedBehaviour
  | c :: _ => Ok c
  end.

(** [sizeof(char* )], on a 64-bit target. *)
Definition sizeof_char_ptr : nat := 8.

(** [strcmp(a, b) == 0], on the C strings the two pointers begin. *)
Definition streq (a b : ptr) : bool :=
  String.eqb (string_of_list_ascii (cstr a)) (string_of_list_ascii (cstr b)).

(** [memcpy(dst, src, n)]: the [n] bytes read from [src]. *)
Definition memcpy (src : ptr) (n : nat) : outcome (list ascii) :=
  if (n <=? length src)%nat then Ok (take n src)
  else Fail UndefinedBehaviour.

Module Cmd.
(** [struct GLSettings] as [ParseCommandLine] fills it: a pointer that may
    be null is an option; [Inputs] and [Ignores] hold the C strings of the
    copies.  The two counts are [int]s that stay far below [2^31]: they
    are bounded by the number and the length of the arguments. *)
Record GLSettings := {
  HeadersStart : option ptr;
  HeadersEnd : option ptr;
  Output : option ptr;
  Prefix : option ptr;
  Inputs : option (list ptr);
  Ignores : option (list ptr);
  WriteTimestamp : Z;
  InputCount : Z;
  IgnoreCount : Z;
  Boilerplate : bool;
  Silent : bool;
  ForceGenerate : bool
}.

Definition set_Headers (s : GLSettings) (Start End : ptr) : GLSettings :=
  {| HeadersStart := Some Start; HeadersEnd := Some End; Output := Output s;
     Prefix := Prefix s; Inputs := Inputs s; Ignores := Ignores s;
     WriteTimestamp := WriteTimestamp s;
     InputCount := InputCount s; IgnoreCount := IgnoreCount s;
     Boilerplate := Boilerplate s; Silent := Silent s;
     ForceGenerate := ForceGenerate s |}.

Definition set_Output (s : GLSettings) (v : option ptr) : GLSettings :=
  {| HeadersStart := HeadersStart s; HeadersEnd := HeadersEnd s; Output := v;
     Prefix := Prefix s; Inputs := Inputs s; Ignores := Ignores s;
     WriteTimestamp := WriteTimestamp s;
     InputCount := InputCount s; IgnoreCount := IgnoreCount s;
     Boilerplate := Boilerplate s; Silent := Silent s;
     ForceGenerate := ForceGenerate s |}.

Definition set_Prefix (s : GLSettings) (v : option ptr) : GLSettings :=
  {| HeadersStart := HeadersStart s; HeadersEnd := HeadersEnd s;
     Output := Output s; Prefix := v; Inputs := Inputs s; Ignores := Ignores s;
     WriteTimestamp := WriteTimestamp s;
     InputCount := InputCount s; IgnoreCount := IgnoreCount s;
     Boilerplate := Boilerplate s; Silent := Silent s;
     ForceGenerate := ForceGenerate s |}.

Definition set_Inputs (s : GLSettings) (v : option (list ptr)) : GLSettings :=
  {| HeadersStart := HeadersStart s; HeadersEnd := HeadersEnd s;
     Output := Output s; Prefix := Prefix s; Inputs := v; Ignores := Ignores s;
     WriteTimestamp := WriteTimestamp s;
     InputCount := InputCount s; IgnoreCount := IgnoreCount s;
     Boilerplate := Boilerplate s; Silent := Silent s;
     ForceGenerate := ForceGenerate s |}.

Definition set_Ignores (s : GLSettings) (v : option (list ptr)) : GLSettings :=
  {| HeadersStart := HeadersStart s; HeadersEnd := HeadersEnd s;
     Output := Output s; Prefix := Prefix s; Inputs := Inputs s; Ignores := v;
     WriteTimestamp := WriteTimestamp s;
     InputCount := InputCount s; IgnoreCount := IgnoreCount s;
     Boilerplate := Boilerplate s; Silent := Silent s;
     ForceGenerate := ForceGenerate s |}.

Definition set_InputCount (s : GLSettings) (v : Z) : GLSettings :=
  {| HeadersStart := HeadersStart s; HeadersEnd := HeadersEnd s;
     Output := Output s; Prefix := Prefix s; Inputs := Inputs s;
     Ignores := Ignores s; WriteTimestamp := WriteTimestamp s;
     InputCount := v; IgnoreCount := IgnoreCount s;
     Boilerplate := Boilerplate s; Silent := Silent s;
     ForceGenerate := ForceGenerate s |}.

Definition set_IgnoreCount (s : GLSettings) (v : Z) : GLSettings :=
  {| HeadersStart := HeadersStart s; HeadersEnd := HeadersEnd s;
     Output := Output s; Prefix := Prefix s; Inputs := Inputs s;
     Ignores := Ignores s; WriteTimestamp := WriteTimestamp s;
     InputCount := InputCount s; IgnoreCount := v;
     Boilerplate := Boilerplate s; Silent := Silent s;
     ForceGenerate := ForceGenerate s |}.

Definition set_Boilerplate (s : GLSettings) (v : bool) : GLSettings :=
  {| HeadersStart := HeadersStart s; HeadersEnd := HeadersEnd s;
     Output := Output s; Prefix := Prefix s; Inputs := Inputs s;
     Ignores := Ignores s; WriteTimestamp := WriteTimestamp s;
     InputCount := InputCount s;
     IgnoreCount := IgnoreCount s; Boilerplate := v; Silent := Silent s;
     ForceGenerate := ForceGenerate s |}.

Definition set_Silent (s : GLSettings) (v : bool) : GLSettings :=
  {| HeadersStart := HeadersStart s; HeadersEnd := HeadersEnd s;
     Output := Output s; Prefix := Prefix s; Inputs := Inputs s;
     Ignores := Ignores s; WriteTimestamp := WriteTimestamp s;
     InputCount := InputCount s;
     IgnoreCount := IgnoreCount s; Boilerplate := Boilerplate s; Silent := v;
     ForceGenerate := ForceGenerate s |}.

Definition set_ForceGenerate (s : GLSettings) (v : bool) : GLSettings :=
  {| HeadersStart := HeadersStart s; HeadersEnd := HeadersEnd s;
     Output := Output s; Prefix := Prefix s; Inputs := Inputs s;
     Ignores := Ignores s; WriteTimestamp := WriteTimestamp s;
     InputCount := InputCount s;
     IgnoreCount := IgnoreCount s; Boilerplate := Boilerplate s;
     Silent := Silent s; ForceGenerate := v |}.
End Cmd.

(** [GLSettings Settings = {};] *)
Definition zeroSettings : Cmd.GLSettings :=
  {| Cmd.HeadersStart := None; Cmd.HeadersEnd := None; Cmd.Output := None;
     Cmd.Prefix := None; Cmd.Inputs := None; Cmd.Ignores := None;
     Cmd.WriteTimestamp := 0; Cmd.InputCount := 0; Cmd.IgnoreCount := 0;
     Cmd.Boilerplate := false;
     Cmd.Silent := false; Cmd.ForceGenerate := false |}.

(** [while( *At) { if ( *At == ',') *At = 0; At++; }] over the value of
    [-gl]: the block as the loop leaves it, and the final [At], which
    becomes [HeadersEnd]. *)
Fixpoint split_headers (At : ptr) : outcome (ptr * ptr) :=
  match At with
  | [] => Fail UndefinedBehaviour
  | c :: At' =>
      if nonzero c then
        '(block, End) ← split_headers At';
        Ok ((if Ascii.eqb c ","%char then NUL else c) :: block, End)
      else Ok (c :: At', c :: At')
  end.

(** [while( *At == ',') At++;] *)
Fixpoint skip_commas (At : ptr) : outcome ptr :=
  match At with
  | [] => Fail UndefinedBehaviour
  | c :: At' => if Ascii.eqb c ","%char then skip_commas At' else Ok At
  end.

(** The loop of the [-i] branch that counts the ignored names. *)
Fixpoint CountIgnores_loop (fuel : nat) (At : ptr) (IgnoreCount : Z)
  : outcome Z :=
  c ← read At;
  if nonzero c then
    match fuel with
    | O => Fail OutOfFuel
    | S fuel' =>
        let IgnoreCount :=
          if Ascii.eqb c ","%char then IgnoreCount + 1 else IgnoreCount in
        At ← skip_commas At;
        CountIgnores_loop fuel' (tail At) IgnoreCount
    end
  else Ok IgnoreCount.

(** The [-i] branch, from [char* At = Ignores;] on. *)
Definition CountIgnores (Ignores : ptr) (IgnoreCount : Z) : outcome Z :=
  c ← read Ignores;
  let IgnoreCount := if negb (Ascii.eqb c ","%char) then 1 else IgnoreCount in
  CountIgnores_loop (length Ignores) Ignores IgnoreCount.

(** What the [for] loop of [ParseCommandLine] carries besides [Index]. *)
Record ParseState := {
  st_Settings : Cmd.GLSettings;   (* what [Settings] points to *)
  st_Ignores : option ptr;        (* the local [char* Ignores] *)
  st_InputPositions : list nat;
  st_ShowHelp : bool
}.

Definition with_Settings (st : ParseState) (s : Cmd.GLSettings) : ParseState :=
  {| st_Settings := s; st_Ignores := st_Ignores st;
     st_InputPositions := st_InputPositions st; st_ShowHelp := st_ShowHelp st |}.

(** The [for] loop of [ParseCommandLine] over [argv]; [argc] is the length
    of [argv], and [argv[argc]] is the null pointer. *)
Fixpoint ParseCommandLine_loop (fuel : nat) (argv : list ptr) (Index : nat)
    (st : ParseState) : outcome ParseState :=
  match argv !! Index with
  | None => Ok st
  | Some Arg =>
      match fuel with
      | O => Fail OutOfFuel
      | S fuel' =>
          let s := st_Settings st in
          let more := (Index <? length argv - 1)%nat in
          c ← read Arg;
          if Ascii.eqb c "-"%char then
            let Option := tail Arg in
            if streq Option (C "h") then
              Ok {| st_Settings := s; st_Ignores := st_Ignores st;
                    st_InputPositions := st_InputPositions st;
                    st_ShowHelp := true |}
            else if streq Option (C "o") && more then
              ParseCommandLine_loop fuel' argv (S (S Index))
                (with_Settings st (Cmd.set_Output s (argv !! S Index)))
            else if streq Option (C "gl") && more then
              '(block, End) ← split_headers (default [] (argv !! S Index));
              ParseCommandLine_loop fuel' argv (S (S Index))
                (with_Settings st (Cmd.set_Headers s block End))
            else if streq Option (C "p") && more then
              ParseCommandLine_loop fuel' argv (S (S Index))
                (with_Settings st (Cmd.set_Prefix s (argv !! S Index)))
            else if streq Option (C "force") then
              ParseCommandLine_loop fuel' argv (S Index)
                (with_Settings st (Cmd.set_ForceGenerate s true))
            else if streq Option (C "no-b") then
              ParseCommandLine_loop fuel' argv (S Index)
                (with_Settings st (Cmd.set_Boilerplate s false))
            else if streq Option (C "silent") then
              ParseCommandLine_loop fuel' argv (S Index)
                (with_Settings st (Cmd.set_Silent s true))
            else if streq Option (C "i") then
              match argv !! S Index with
              | None => Fail UndefinedBehaviour
              | Some Ignores0 =>
                  IgnoreCount0 ← CountIgnores Ignores0 (Cmd.IgnoreCount s);
                  ParseCommandLine_loop fuel' argv (S (S Index))
                    {| st_Settings := Cmd.set_IgnoreCount s IgnoreCount0;
                       st_Ignores := Some Ignores0;
                       st_InputPositions := st_InputPositions st;
                       st_ShowHelp := st_ShowHelp st |}
              end
            else ParseCommandLine_loop fuel' argv (S Index) st
          else
            ParseCommandLine_loop fuel' argv (S Index)
              {| st_Settings := Cmd.set_InputCount s (Cmd.InputCount s + 1);
                 st_Ignores := st_Ignores st;
                 st_InputPositions := st_InputPositions st ++ [Index];
                 st_ShowHelp := st_ShowHelp st |}
      end
  end.

(** The loop that copies the input names: [Value] is
    [argv[InputPositions[Index]]], and [StringSize] bytes are read from
    it. *)
Fixpoint CopyInputs (argv : list ptr) (positions : list nat)
  : outcome (list ptr) :=
  match positions with
  | [] => Ok []
  | position :: positions' =>
      match argv !! position with
      | None => Fail UndefinedBehaviour
      | Some Value0 =>
          let StringSize := ((strlen Value0 + 1) * sizeof_char_ptr)%nat in
          copy ← memcpy Value0 StringSize;
          copies ← CopyInputs argv positions';
          Ok (cstr copy :: copies)
      end
  end.

(** The loop that splits the value of [-i]; [Start] and [Ignores] point
    into the same argument.  Returns the copies and [ActualCount]. *)
Fixpoint SplitIgnores_loop (fuel : nat) (Start Ignores : ptr)
    (ActualCount IgnoreCount : Z) (copies : list ptr)
  : outcome (list ptr * Z) :=
  c ← read Ignores;
  if nonzero c then
    match fuel with
    | O => Fail OutOfFuel
    | S fuel' =>
        next ← read (tail Ignores);
        '(Start, Ignores, ActualCount, copies) ←
          (if Ascii.eqb c ","%char || negb (nonzero next) then
             let Length0 := ptrdiff Ignores Start in
             let Length0 :=
               if negb (nonzero next) then S Length0 else Length0 in
             if (0 <? Length0)%nat then
               if ActualCount <? IgnoreCount then
                 copy ← memcpy Start (Length0 * sizeof_char_ptr);
                 let copy := <[Length0 := NUL]> copy in
                 Ok (tail Ignores, tail Ignores, ActualCount + 1,
                     copies ++ [cstr copy])
               else Fail AssertionFailed
             else Ok (Start, Ignores, ActualCount, copies)
           else Ok (Start, Ignores, ActualCount, copies));
        Ignores ← skip_commas Ignores;
        c' ← read Ignores;
        let Ignores := if nonzero c' then tail Ignores else Ignores in
        SplitIgnores_loop fuel' Start Ignores ActualCount IgnoreCount copies
    end
  else Ok (copies, ActualCount).

(** [char* Start = Ignores++; int ActualCount = 0; while( *Ignores) ...] *)
Definition SplitIgnores (Ignores : ptr) (IgnoreCount : Z)
  : outcome (list ptr * Z) :=
  SplitIgnores_loop (length Ignores) Ignores (tail Ignores) 0 IgnoreCount [].

(** The state in which [ParseCommandLine] starts its loop. *)
Definition initial_state (Settings0 : Cmd.GLSettings) : ParseState :=
  {| st_Settings := Cmd.set_Boilerplate Settings0 true;
     st_Ignores := None; st_InputPositions := []; st_ShowHelp := false |}.

Definition ParseCommandLine (Settings0 : Cmd.GLSettings) (argv : list ptr)
  : outcome (Z * Cmd.GLSettings) :=
  if negb (2 <? length argv)%nat then Fail AssertionFailed
  else
    st ← ParseCommandLine_loop (length argv) argv 1 (initial_state Settings0);
    let s := st_Settings st in
    if st_ShowHelp st then Ok (0, s)
    else
      s ← (if 0 <? Cmd.InputCount s then
             copies ← CopyInputs argv (st_InputPositions st);
             Ok (Cmd.set_Inputs s (Some copies))
           else Ok s);
      s ← (if 0 <? Cmd.IgnoreCount s then
             match st_Ignores st with
             | None => Fail UndefinedBehaviour
             | Some Ignores0 =>
                 '(copies, ActualCount) ←
                   SplitIgnores Ignores0 (Cmd.IgnoreCount s);
                 Ok (Cmd.set_IgnoreCount (Cmd.set_Ignores s (Some copies))
                       ActualCount)
             end
           else Ok s);
      let Success0 :=
        match Cmd.HeadersStart s, Cmd.Output s with
        | Some _, Some _ => if 0 <? Cmd.InputCount s then 1 else 0
        | _, _ => 0
        end in
      Ok (Success0, s).

(** [FreeMemory] frees [Ignores[Index]] and [Inputs[Index]] for every index
    below the counts, before it looks whether the arrays are null. *)
Definition free_elements {A} (array : option (list A)) (Count : Z)
  : outcome unit :=
  match array with
  | None => if 0 <? Count then Fail UndefinedBehaviour else Ok tt
  | Some _ => Ok tt
  end.

Definition FreeMemory (s : Cmd.GLSettings) : outcome unit :=
  _ ← free_elements (Cmd.Ignores s) (Cmd.IgnoreCount s);
  free_elements (Cmd.Inputs s) (Cmd.InputCount s).

(** The walk of [ReadMultiFiles] from [Start] to [End]: the names it
    opens. *)
Fixpoint header_names (fuel : nat) (Start End : ptr) : list ptr :=
  if (length End <? length Start)%nat then
    match fuel with
    | O => []
    | S fuel' =>
        cstr Start :: header_names fuel' (drop (strlen Start + 1) Start) End
    end
  else [].

(** The settings [GenerateOpenGLHeader] works with, once [ParseCommandLine]
    has succeeded. *)
Definition settings_of (s : Cmd.GLSettings) : GLSettings :=
  {| Headers :=
       match Cmd.HeadersStart s, Cmd.HeadersEnd s with
       | Some Start, Some End => header_names (length Start) Start End
       | _, _ => []
       end;
     Output := cstr (default [] (Cmd.Output s));
     Prefix := cstr <$> Cmd.Prefix s;
     Inputs := default [] (Cmd.Inputs s);
     Ignores := default [] (Cmd.Ignores s);
     WriteTimestamp := Cmd.WriteTimestamp s;
     Boilerplate := Cmd.Boilerplate s;
     Silent := Cmd.Silent s;
     ForceGenerate := Cmd.ForceGenerate s |}.

(** [%-20s] *)
Definition left_justified (width : nat) (s : list ascii) : list ascii :=
  s ++ replicate (width - length s) " "%char.

(** [printf("  %-20s <text>", arg)] *)
Definition help_line (arg text0 : string) : list ascii :=
  C "  " ++ left_justified 20 (C arg) ++ C " " ++ C text0.

Definition PrintHelp (argv : list ptr) : outcome (list ascii) :=
  match argv !! 0%nat with
  | None => Fail UndefinedBehaviour
  | Some argv0 =>
      Ok (printf
            (C "Usage: %s [-h] -gl <registryfile> -o <outputfile> <inputfiles...>\n")
            [arg_s argv0] ++
          C "\nrequired arguments:\n" ++
          help_line "-gl <filename1>,<filename2>"
            "OpenGL header files (comma separated) downloaded from https://www.opengl.org/registry/\n" ++
          help_line "<inputfiles...>" "One or more input C/C++ files\n" ++
          help_line "-o <filename>"
            "Generated file containing typedefs and boilerplate code\n" ++
          C "\noptional arguments:\n" ++
          help_line "-h" "Prints this help and exits\n" ++
          help_line "-silent" "Suppress non error output.\n" ++
          help_line "-force"
            "Force generation of header (ignores updated timestamp).\n" ++
          help_line "-p <prefix>" "Function prefix for boilerplate code.\n" ++
          help_line "-i <token1,token2>" "Ignored tokens (comma separated).\n" ++
          help_line "-no-b" "Don't generate OpenGL loading boilerplate code\n")
  end.

Record MainResult := {
  ExitCode : Z;
  (* what [PrintHelp] wrote to stdout, if it was called *)
  Help : option (list ascii);
  (* the run of [GenerateOpenGLHeader], if there was one *)
  Generated : option GenResult
}.

Section Main.
Context (qsort : (GLToken → GLToken → Z) → list GLToken → list GLToken).
Context (Indeterminate : GLString).

Definition main (argv : list ptr) (W : World) : outcome MainResult :=
  if (length argv <? 4)%nat then
    help ← PrintHelp argv;
    Ok {| ExitCode := 1; Help := Some help; Generated := None |}
  else
    '(Success0, s) ← ParseCommandLine zeroSettings argv;
    if negb (Success0 =? 0) then
      g ← main_generate qsort Indeterminate W (settings_of s);
      _ ← FreeMemory s;
      Ok {| ExitCode := match g with Some r => Success r | None => 0 end;
            Help := None; Generated := g |}
    else
      help ← PrintHelp argv;
      _ ← FreeMemory s;
      Ok {| ExitCode := 1; Help := Some help; Generated := None |}.
End Main.

(** ** Vocabulary of the properties of the command line *)

Definition COMMA : ascii := ","%char.

(** The comma-separated fields of a string. *)
Fixpoint fields (v : list ascii) : list (list ascii) :=
  match v with
  | [] => [[]]
  | c :: v' =>
      if Ascii.eqb c COMMA then [] :: fields v'
      else match fields v' with
           | f :: fs => (c :: f) :: fs
           | [] => [[c]]
           end
  end.

(** A list of fields without its last one, if that is empty. *)
Definition without_empty_last (l : list (list ascii)) : list (list ascii) :=
  match last l with
  | Some [] => removelast l
  | _ => l
  end.

(** Names joined by single commas. *)
Fixpoint join_commas (names : list (list ascii)) : list ascii :=
  match names with
  | [] => []
  | [n] => n
  | n :: names' => n ++ COMMA :: join_commas names'
  end.

(** A character of a name: neither the terminator nor a comma. *)
Definition name_char (c : ascii) : Prop := c ≠ NUL ∧ c ≠ COMMA.

(** An argument as the C standard promises it: the characters and the
    terminator, with nothing known to be readable after it. *)
Definition exact_arg (s : list ascii) : ptr := s ++ [NUL].

Definition commas_to_NUL (v : list ascii) : list ascii :=
  map (λ c, if Ascii.eqb c COMMA then NUL else c) v.

(** The rest of the value of [-i] after the current name: the names still
    to come, each after its comma, and the terminator. *)
Definition rest_of_value (more : list (list ascii)) (after : list ascii)
  : list ascii :=
  concat (map (λ n, COMMA :: n) more) ++ NUL :: after.

(** The names the splitting loop keeps: all of them, but for a last name
    of a single character. *)
Definition kept_names (names : list (list ascii)) : list (list ascii) :=
  match last names with
  | Some l => if (2 <=? length l)%nat then names else removelast names
  | None => []
  end.

(** The names the splitting loop still copies when it stands before the
    characters [suf] of the name [n], with the names [more] to come. *)
Fixpoint collected (suf n : list ascii) (more : list (list ascii))
  : list (list ascii) :=
  match more with
  | [] => match suf with [] => [] | _ => [n] end
  | n' :: more' => n :: collected (tail n') n' more'
  end.

(** An argument that does not begin with a dash: an input file. *)
Definition input_arg (a : ptr) : Prop := a ≠ [] ∧ hd NUL a ≠ "-"%char.

(** What the loop of [ParseCommandLine] keeps true when it stands at
    [argv[1 + i]]: the input positions name, in order, arguments before
    that one which do not begin with a dash; [InputCount] counts them; the
    two arrays are still null. *)
Definition inputs_invariant (args : list ptr) (i : nat) (st : ParseState)
    (l : list ptr) : Prop :=
  Forall2 (λ position a, args !! pred position = Some a ∧ (0 < position)%nat)
    (st_InputPositions st) l ∧
  l `sublist_of` take i args ∧
  Forall input_arg l ∧
  Cmd.InputCount (st_Settings st) = Z.of_nat (length l) ∧
  Cmd.Inputs (st_Settings st) = None ∧
  Cmd.Ignores (st_Settings st) = None ∧
  (st_Ignores st = None → Cmd.IgnoreCount (st_Settings st) = 0).

(** The state of the loop after [n] more input arguments, the first of
    them at [argv[start]]. *)
Definition add_inputs (st : ParseState) (start n : nat) : ParseState :=
  {| st_Settings :=
       Cmd.set_InputCount (st_Settings st)
         (Cmd.InputCount (st_Settings st) + Z.of_nat n);
     st_Ignores := st_Ignores st;
     st_InputPositions := st_InputPositions st ++ seq start n;
     st_ShowHelp := st_ShowHelp st |}.

(** An argument with room behind it for the bytes that the copy of an input
    name reads. *)
Definition roomy_arg (a : ptr) : Prop :=
  (S (strlen a) * sizeof_char_ptr ≤ length a)%nat.

(** The settings after [-gl v -o out]. *)
Definition usage_settings (v after : list ascii) (out : ptr) : Cmd.GLSettings :=
  Cmd.set_Output
    (Cmd.set_Headers (Cmd.set_Boilerplate zeroSettings true)
       (commas_to_NUL v ++ NUL :: after) (NUL :: after))
    (Some out).

(** What [ParseCommandLine] returns for [-gl v -o out inputs...]. *)
Definition usage_result (v after : list ascii) (out : ptr) (inputs : list ptr)
  : Cmd.GLSettings :=
  Cmd.set_Inputs
    (Cmd.set_InputCount (usage_settings v after out) (Z.of_nat (length inputs)))
    (Some (map cstr inputs)).

(** * Proofs *)

Section HashFacts.

Lemma code_range c : 0 ≤ code c < 256.
Proof. destruct c as [[] [] [] [] [] [] [] []]; vm_compute; split; congruence. Qed.

Lemma lxor_byte_range h b :
  0 ≤ h < 2 ^ 32 → 0 ≤ b < 256 → 0 ≤ Z.lxor h b < 2 ^ 32.
Proof.
  intros Hh Hb.
  assert (Hnn : 0 ≤ Z.lxor h b) by (apply Z.lxor_nonneg; lia).
  split; [done|].
  apply (Z.bounded_iff_bits_nonneg 32); [lia|done|].
  intros l Hl. rewrite Z.lxor_spec.
  assert (Z.testbit h l = false) as ->.
  { apply (Z.bounded_iff_bits_nonneg 32 h); lia. }
  assert (Z.testbit b l = false) as ->; [|done].
  apply (Z.bounded_iff_bits_nonneg 32 b); lia.
Qed.

Lemma spec_hash_step_range h c : 0 ≤ spec_hash_step h c < 2 ^ 32.
Proof.
  unfold spec_hash_step. apply lxor_byte_range; [|apply code_range].
  apply Z.mod_pos_bound. lia.
Qed.

Lemma GetStringHash_loop_fold s rest h :
  GetStringHash_loop (length s) (s ++ rest) h = fold_left spec_hash_step s h.
Proof.
  revert h. induction s as [|c s IH]; intros h; [done|].
  cbn [length GetStringHash_loop app fold_left tail deref hd].
  rewrite IH. done.
Qed.

Lemma GetStringHash_loop_range n p h :
  0 ≤ h < 2 ^ 32 → 0 ≤ GetStringHash_loop n p h < 2 ^ 32.
Proof.
  revert p h. induction n as [|n IH]; intros p h Hh; [done|].
  cbn [GetStringHash_loop]. apply IH, spec_hash_step_range.
Qed.

Lemma GetStringHash_range S : 0 ≤ GetStringHash S < 2 ^ 32.
Proof. apply GetStringHash_loop_range. lia. Qed.
End HashFacts.

(** C4. For every string [s], wherever its bytes sit in a buffer, the hash
    the program computes for the slice is the multiply-then-XOR fold of the
    specification started from seed 1, and it is a 32-bit value. *)
Theorem GetStringHash_is_spec_fold (s rest : list ascii) :
  GetStringHash (slice_of s rest) = spec_hash s ∧
  (0 ≤ GetStringHash (slice_of s rest) < 2 ^ 32)%Z.
Proof.
  split; [|apply GetStringHash_range].
  unfold GetStringHash, spec_hash, slice_of. cbn [Length Chars].
  apply GetStringHash_loop_fold.
Qed.

(** ** The probe loops *)

Section ProbeFacts.
Context {T : Type} (HashOf : T → Z) (zero : T).

Lemma land_mask x : Z.land x (TOKEN_HASH_SIZE - 1) = x mod TOKEN_HASH_SIZE.
Proof. apply (Z.land_ones x 13). lia. Qed.

Lemma probe_index_start h : Z.land h (TOKEN_HASH_SIZE - 1) = probe_index h 0.
Proof. rewrite land_mask. unfold probe_index. f_equal. lia. Qed.

Lemma probe_index_next h k :
  Z.land (probe_index h k + 1) (TOKEN_HASH_SIZE - 1) = probe_index h (k + 1).
Proof.
  rewrite land_mask. unfold probe_index.
  rewrite Zplus_mod_idemp_l. f_equal. lia.
Qed.

Lemma probe_index_range h k : 0 ≤ probe_index h k < TOKEN_HASH_SIZE.
Proof. apply Z.mod_pos_bound. reflexivity. Qed.

Lemma probe_index_cycle h k :
  probe_index h (k + TOKEN_HASH_SIZE) = probe_index h k.
Proof.
  unfold probe_index.
  replace (h + (k + TOKEN_HASH_SIZE)) with (h + k + 1 * TOKEN_HASH_SIZE) by lia.
  apply Z_mod_plus_full.
Qed.

(** Every slot lies on the probe sequence of every hash. *)
Lemma probe_index_onto h i :
  0 ≤ i < TOKEN_HASH_SIZE → ∃ k, 0 ≤ k < TOKEN_HASH_SIZE ∧ probe_index h k = i.
Proof.
  intros Hi. exists ((i - h) mod TOKEN_HASH_SIZE). split.
  - apply Z.mod_pos_bound. reflexivity.
  - unfold probe_index. rewrite Zplus_mod_idemp_r.
    replace (h + (i - h)) with i by lia. apply Z.mod_small. done.
Qed.

(** The loop of [AddToken] stops at the first empty slot ... *)
Lemma probe_empty_found TokenHash h (d : nat) : ∀ j fuel,
  0 ≤ j → j + Z.of_nat d < TOKEN_HASH_SIZE → (d < fuel)%nat →
  (∀ i, j ≤ i < j + Z.of_nat d → probed HashOf zero TokenHash h i ≠ 0) →
  probed HashOf zero TokenHash h (j + Z.of_nat d) = 0 →
  probe_empty HashOf zero fuel TokenHash (probe_index h j) j =
    (probe_index h (j + Z.of_nat d), j + Z.of_nat d).
Proof.
  induction d as [|d IH]; intros j fuel Hj Hlt Hfuel Hocc Hemp.
  - destruct fuel as [|fuel]; [lia|]. cbn [probe_empty].
    replace (j + Z.of_nat 0) with j in * by lia.
    unfold probed in Hemp. rewrite Hemp. done.
  - destruct fuel as [|fuel]; [lia|]. cbn [probe_empty].
    assert (Hj0 : probed HashOf zero TokenHash h j ≠ 0) by (apply Hocc; lia).
    unfold probed in Hj0.
    destruct (Z.eqb_spec (HashOf (slot zero TokenHash (probe_index h j))) 0);
      [done|].
    destruct (Z.ltb_spec j TOKEN_HASH_SIZE); [|lia].
    rewrite probe_index_next.
    replace (j + Z.of_nat (S d)) with (j + 1 + Z.of_nat d) in * by lia.
    apply IH; [lia..| |done].
    intros i Hi. apply Hocc. lia.
Qed.

(** ... and gives up, with [Iterations] past the capacity, after a whole
    cycle of occupied slots. *)
Lemma probe_empty_full TokenHash h (d : nat) : ∀ j fuel,
  0 ≤ j → j + Z.of_nat d = TOKEN_HASH_SIZE → (d < fuel)%nat →
  (∀ i, j ≤ i ≤ TOKEN_HASH_SIZE → probed HashOf zero TokenHash h i ≠ 0) →
  probe_empty HashOf zero fuel TokenHash (probe_index h j) j =
    (probe_index h TOKEN_HASH_SIZE, TOKEN_HASH_SIZE + 1).
Proof.
  induction d as [|d IH]; intros j fuel Hj Heq Hfuel Hocc.
  - destruct fuel as [|fuel]; [lia|]. cbn [probe_empty].
    assert (j = TOKEN_HASH_SIZE) as -> by lia.
    assert (Hj0 : probed HashOf zero TokenHash h TOKEN_HASH_SIZE ≠ 0)
      by (apply Hocc; lia).
    unfold probed in Hj0.
    destruct (Z.eqb_spec
      (HashOf (slot zero TokenHash (probe_index h TOKEN_HASH_SIZE))) 0); [done|].
    rewrite Z.ltb_irrefl. done.
  - destruct fuel as [|fuel]; [lia|]. cbn [probe_empty].
    assert (Hj0 : probed HashOf zero TokenHash h j ≠ 0) by (apply Hocc; lia).
    unfold probed in Hj0.
    destruct (Z.eqb_spec (HashOf (slot zero TokenHash (probe_index h j))) 0);
      [done|].
    destruct (Z.ltb_spec j TOKEN_HASH_SIZE); [|lia].
    rewrite probe_index_next. apply IH; [lia..|].
    intros i Hi. apply Hocc. lia.
Qed.

Lemma no_empty_wrap TokenHash h :
  no_empty HashOf zero TokenHash h →
  ∀ i, 0 ≤ i ≤ TOKEN_HASH_SIZE → probed HashOf zero TokenHash h i ≠ 0.
Proof.
  intros Hfull i Hi. destruct (decide (i = TOKEN_HASH_SIZE)) as [->|].
  - assert (E : probe_index h TOKEN_HASH_SIZE = probe_index h 0)
      by apply (probe_index_cycle h 0).
    unfold probed. rewrite E. apply (Hfull 0). done.
  - apply Hfull. lia.
Qed.

Lemma first_match_unique TokenHash h k k' :
  first_match HashOf zero TokenHash h k →
  first_match HashOf zero TokenHash h k' → k = k'.
Proof.
  intros (Hk & Hm & Hb) (Hk' & Hm' & Hb').
  destruct (Z.lt_trichotomy k k') as [Hlt|[->|Hlt]]; [|done|].
  - destruct (Hb' k) as [_ Hne]; [lia|]. done.
  - destruct (Hb k') as [_ Hne]; [lia|]. done.
Qed.

(** What the loop of [GetToken] and [Contains] computes, from any point
    of the probe sequence before which nothing matched. *)
Lemma probe_match_spec TokenHash h (d : nat) : ∀ j fuel,
  0 ≤ j → j + Z.of_nat d = TOKEN_HASH_SIZE → (d < fuel)%nat →
  (∀ i, 0 ≤ i < j →
     probed HashOf zero TokenHash h i ≠ 0 ∧
     probed HashOf zero TokenHash h i ≠ h) →
  let r := probe_match HashOf zero fuel TokenHash h (probe_index h j) j in
  (r.2 = true ∧ h ≠ 0 ∧
     ∃ k, first_match HashOf zero TokenHash h k ∧ r.1 = probe_index h k) ∨
  (r.2 = false ∧
     (h ≠ 0 → (¬ ∃ k, first_match HashOf zero TokenHash h k) ∧
              HashOf (slot zero TokenHash r.1) ≠ h)).
Proof.
  induction d as [|d IH]; intros j fuel Hj Heq Hfuel Hinv r; subst r.
  - destruct fuel as [|fuel]; [lia|]. cbn [probe_match].
    assert (j = TOKEN_HASH_SIZE) as -> by lia.
    assert (E : probe_index h TOKEN_HASH_SIZE = probe_index h 0)
      by apply (probe_index_cycle h 0).
    destruct (Hinv 0) as [H0 H0h]; [done|]. unfold probed in H0, H0h.
    rewrite E.
    destruct (Z.eqb_spec (HashOf (slot zero TokenHash (probe_index h 0))) 0);
      [done|].
    rewrite Z.ltb_irrefl. right. cbn. split; [done|]. intros _. split; [|done].
    intros (k & Hk & Hm & _). destruct (Hinv k) as [_ Hne]; [lia|]. done.
  - destruct fuel as [|fuel]; [lia|]. cbn [probe_match].
    destruct (Z.eqb_spec (HashOf (slot zero TokenHash (probe_index h j))) 0)
      as [Hz|Hnz].
    { right. cbn. split; [done|]. intros Hh. split; [|congruence].
      intros (k & Hk & Hm & Hb).
      destruct (Z.lt_trichotomy k j) as [Hlt|[->|Hlt]].
      - destruct (Hinv k) as [_ Hne]; [lia|]. done.
      - unfold probed in Hm. congruence.
      - destruct (Hb j) as [Hne _]; [lia|]. done. }
    destruct (Z.ltb_spec j TOKEN_HASH_SIZE); [|lia].
    destruct (Z.eqb_spec (HashOf (slot zero TokenHash (probe_index h j))) h)
      as [Hm|Hnm].
    { left. cbn. split; [done|]. split; [congruence|].
      exists j. split; [|done]. split; [lia|]. split; [done|].
      intros i Hi. apply Hinv. lia. }
    rewrite probe_index_next. apply IH; [lia..|].
    intros i Hi. destruct (decide (i = j)) as [->|]; [done|].
    apply Hinv. lia.
Qed.

Lemma probe_match_from_start TokenHash h :
  let r := probe_match HashOf zero probe_fuel TokenHash h
             (Z.land h (TOKEN_HASH_SIZE - 1)) 0 in
  (r.2 = true ∧ h ≠ 0 ∧
     ∃ k, first_match HashOf zero TokenHash h k ∧ r.1 = probe_index h k) ∨
  (r.2 = false ∧
     (h ≠ 0 → (¬ ∃ k, first_match HashOf zero TokenHash h k) ∧
              HashOf (slot zero TokenHash r.1) ≠ h)).
Proof.
  rewrite probe_index_start.
  apply (probe_match_spec TokenHash h (Z.to_nat TOKEN_HASH_SIZE));
    [done|done|unfold probe_fuel; lia|lia].
Qed.

Lemma probe_empty_from_start_found TokenHash h k :
  first_empty HashOf zero TokenHash h k →
  probe_empty HashOf zero probe_fuel TokenHash
    (Z.land h (TOKEN_HASH_SIZE - 1)) 0 = (probe_index h k, k).
Proof.
  intros (Hk & Hz & Hb). rewrite probe_index_start.
  pose proof (probe_empty_found TokenHash h (Z.to_nat k) 0 probe_fuel) as P.
  replace (0 + Z.of_nat (Z.to_nat k)) with k in P by lia.
  apply P; [done|lia| |done..].
  unfold probe_fuel, TOKEN_HASH_SIZE in *. lia.
Qed.

Lemma probe_empty_from_start_full TokenHash h :
  no_empty HashOf zero TokenHash h →
  probe_empty HashOf zero probe_fuel TokenHash
    (Z.land h (TOKEN_HASH_SIZE - 1)) 0 =
    (probe_index h TOKEN_HASH_SIZE, TOKEN_HASH_SIZE + 1).
Proof.
  intros Hfull. rewrite probe_index_start.
  apply (probe_empty_full TokenHash h (Z.to_nat TOKEN_HASH_SIZE));
    [done|done|unfold probe_fuel; lia|].
  intros i Hi. apply no_empty_wrap; [done|lia].
Qed.

(** A table either has a first empty slot on the probe sequence or none. *)
Lemma first_empty_or_none TokenHash h :
  (∃ k, first_empty HashOf zero TokenHash h k) ∨
  no_empty HashOf zero TokenHash h.
Proof.
  assert (P : ∀ n : nat, Z.of_nat n ≤ TOKEN_HASH_SIZE →
    (∃ k, first_empty HashOf zero TokenHash h k) ∨
    (∀ j, 0 ≤ j < Z.of_nat n → probed HashOf zero TokenHash h j ≠ 0)).
  { induction n as [|n IH]; intros Hn; [right; lia|].
    destruct IH as [?|Hocc]; [lia|by left|].
    destruct (decide (probed HashOf zero TokenHash h (Z.of_nat n) = 0)) as [Hz|Hnz].
    - left. exists (Z.of_nat n). split; [lia|]. done.
    - right. intros j Hj. destruct (decide (j = Z.of_nat n)) as [->|]; [done|].
      apply Hocc. lia. }
  destruct (P (Z.to_nat TOKEN_HASH_SIZE)) as [?|Hocc]; [done|by left|].
  right. intros j Hj. apply Hocc. unfold TOKEN_HASH_SIZE in *. lia.
Qed.

Lemma probe_index_inj h j k :
  0 ≤ j < TOKEN_HASH_SIZE → 0 ≤ k < TOKEN_HASH_SIZE →
  probe_index h j = probe_index h k → j = k.
Proof.
  unfold probe_index, TOKEN_HASH_SIZE. intros Hj Hk E.
  Z.div_mod_to_equations. lia.
Qed.

Lemma slot_insert_eq (TokenHash : list T) i x :
  0 ≤ i → (Z.to_nat i < length TokenHash)%nat →
  slot zero (<[Z.to_nat i := x]> TokenHash) i = x.
Proof.
  intros Hi Hlen. unfold slot. by rewrite list_lookup_insert_eq.
Qed.

Lemma slot_insert_ne (TokenHash : list T) i j x :
  0 ≤ i → 0 ≤ j → i ≠ j →
  slot zero (<[Z.to_nat i := x]> TokenHash) j = slot zero TokenHash j.
Proof.
  intros Hi Hj Hne. unfold slot. rewrite list_lookup_insert_ne; [done|lia].
Qed.

Lemma slot_replicate n x i :
  0 ≤ i → (Z.to_nat i < n)%nat → slot zero (replicate n x) i = x.
Proof. intros Hi Hn. unfold slot. by rewrite lookup_replicate_2. Qed.

(** If nothing on the probe sequence matches in the sense of
    [first_match], then nothing matches before the first empty slot. *)
Lemma no_match_before TokenHash h k :
  (¬ ∃ k', first_match HashOf zero TokenHash h k') →
  0 ≤ k ≤ TOKEN_HASH_SIZE →
  (∀ j, 0 ≤ j < k → probed HashOf zero TokenHash h j ≠ 0) →
  ∀ j, 0 ≤ j < k → probed HashOf zero TokenHash h j ≠ h.
Proof.
  intros Hno Hk Hocc.
  assert (P : ∀ n : nat, Z.of_nat n ≤ k →
    ∀ j, 0 ≤ j < Z.of_nat n → probed HashOf zero TokenHash h j ≠ h).
  { induction n as [|n IH]; intros Hn j Hj; [lia|].
    destruct (decide (j = Z.of_nat n)) as [->|]; [|apply IH; lia].
    intros Hm. apply Hno. exists (Z.of_nat n).
    split; [lia|]. split; [done|]. intros i Hi. split.
    - apply Hocc. lia.
    - apply IH; lia. }
  intros j Hj. apply (P (Z.to_nat k)); lia.
Qed.

(** Writing a token into the first empty slot makes its hash found
    there. *)
Lemma first_match_after_insert TokenHash h k x :
  length TokenHash = Z.to_nat TOKEN_HASH_SIZE →
  first_empty HashOf zero TokenHash h k →
  (¬ ∃ k', first_match HashOf zero TokenHash h k') →
  HashOf x = h →
  first_match HashOf zero
    (<[Z.to_nat (probe_index h k) := x]> TokenHash) h k.
Proof.
  intros Hlen (Hk & Hz & Hocc) Hno Hx.
  pose proof (probe_index_range h k) as Hr.
  split; [done|]. split.
  - unfold probed. rewrite slot_insert_eq; [done|lia|lia].
  - intros j Hj.
    assert (Hne : probe_index h k ≠ probe_index h j).
    { intros E. apply probe_index_inj in E; lia. }
    pose proof (probe_index_range h j).
    unfold probed. rewrite slot_insert_ne; [|lia..|done].
    split; [apply Hocc; lia|].
    apply (no_match_before TokenHash h k); [done|lia| |lia].
    intros i Hi. apply Hocc. lia.
Qed.
End ProbeFacts.

(** ** The table operations *)

Lemma AddToken_found TokenHash Token k :
  first_empty Hash zeroToken TokenHash (Hash Token) k →
  AddToken TokenHash Token =
    (<[Z.to_nat (probe_index (Hash Token) k) := Token]> TokenHash, 0).
Proof.
  intros Hfe. unfold AddToken.
  rewrite (probe_empty_from_start_found _ _ _ _ _ Hfe).
  destruct Hfe as (Hk & _). destruct (Z.ltb_spec k TOKEN_HASH_SIZE); [done|lia].
Qed.

Lemma AddToken_full TokenHash Token :
  no_empty Hash zeroToken TokenHash (Hash Token) →
  AddToken TokenHash Token = (TokenHash, 0).
Proof.
  intros Hfull. unfold AddToken.
  rewrite (probe_empty_from_start_full _ _ _ _ Hfull). done.
Qed.

Lemma AddTokenArb_found ArbHash Token k :
  first_empty Arb.Hash zeroArbToken ArbHash (Arb.Hash Token) k →
  AddTokenArb ArbHash Token =
    (<[Z.to_nat (probe_index (Arb.Hash Token) k) := Token]> ArbHash,
     Some (probe_index (Arb.Hash Token) k)).
Proof.
  intros Hfe. unfold AddTokenArb.
  rewrite (probe_empty_from_start_found _ _ _ _ _ Hfe).
  destruct Hfe as (Hk & _). destruct (Z.ltb_spec k TOKEN_HASH_SIZE); [done|lia].
Qed.

Lemma AddTokenArb_full ArbHash Token :
  no_empty Arb.Hash zeroArbToken ArbHash (Arb.Hash Token) →
  AddTokenArb ArbHash Token = (ArbHash, None).
Proof.
  intros Hfull. unfold AddTokenArb.
  rewrite (probe_empty_from_start_full _ _ _ _ Hfull). done.
Qed.

Lemma GetToken_Some ArbHash h i :
  GetToken ArbHash h = Some i ↔
  h ≠ 0 ∧ ∃ k, first_match Arb.Hash zeroArbToken ArbHash h k ∧ i = probe_index h k.
Proof.
  unfold GetToken. destruct (Z.eqb_spec h 0) as [->|Hh].
  { split; [done|]. intros [? _]. done. }
  pose proof (probe_match_from_start Arb.Hash zeroArbToken ArbHash h) as P.
  cbn zeta in P.
  destruct (probe_match Arb.Hash zeroArbToken probe_fuel ArbHash h
              (Z.land h (TOKEN_HASH_SIZE - 1)) 0) as [Index b].
  cbn [fst snd] in P.
  destruct P as [(_ & _ & k & Hfm & ->)|(_ & Hno)].
  - destruct Hfm as (Hk & Hm & Hb). unfold probed in Hm. rewrite Hm, Z.eqb_refl.
    cbn. split.
    + intros [= <-]. split; [done|]. exists k. done.
    + intros (_ & k' & Hfm' & ->). f_equal. f_equal.
      apply (first_match_unique Arb.Hash zeroArbToken ArbHash h); done.
  - destruct (Hno Hh) as [Hnone Hne].
    destruct (Z.eqb_spec (Arb.Hash (slot zeroArbToken ArbHash Index)) h); [done|].
    cbn. split; [done|]. intros (_ & k & Hfm & _). destruct Hnone. eauto.
Qed.

Lemma GetToken_None ArbHash h :
  GetToken ArbHash h = None ↔
  h = 0 ∨ ¬ ∃ k, first_match Arb.Hash zeroArbToken ArbHash h k.
Proof.
  destruct (GetToken ArbHash h) as [i|] eqn:E.
  - apply GetToken_Some in E as (Hh & k & Hfm & _). split; [done|].
    intros [?|Hno]; [done|]. destruct Hno. eauto.
  - split; [|done]. intros _. destruct (decide (h = 0)); [by left|right].
    intros (k & Hfm).
    assert (GetToken ArbHash h = Some (probe_index h k)) as E'
      by (apply GetToken_Some; eauto).
    congruence.
Qed.

Lemma Contains_true TokenHash Token :
  Contains TokenHash Token = true ↔
  Hash Token ≠ 0 ∧ ∃ k, first_match Hash zeroToken TokenHash (Hash Token) k.
Proof.
  unfold Contains.
  pose proof (probe_match_from_start Hash zeroToken TokenHash (Hash Token)) as P.
  cbn zeta in P.
  destruct (probe_match Hash zeroToken probe_fuel TokenHash (Hash Token)
              (Z.land (Hash Token) (TOKEN_HASH_SIZE - 1)) 0) as [Index b].
  cbn [fst snd] in *.
  destruct P as [(-> & Hh & k & Hfm & _)|(-> & Hno)].
  - split; [|done]. intros _. eauto.
  - split; [done|]. intros (Hh & k & Hfm). destruct (Hno Hh) as [Hnone _].
    destruct Hnone. eauto.
Qed.

Lemma AddTokenArb_Some ArbHash Token ArbHash' i :
  AddTokenArb ArbHash Token = (ArbHash', Some i) →
  ∃ k, first_empty Arb.Hash zeroArbToken ArbHash (Arb.Hash Token) k ∧
       i = probe_index (Arb.Hash Token) k ∧
       ArbHash' = <[Z.to_nat i := Token]> ArbHash.
Proof.
  intros E.
  destruct (first_empty_or_none Arb.Hash zeroArbToken ArbHash (Arb.Hash Token))
    as [[k Hfe]|Hfull].
  - rewrite (AddTokenArb_found _ _ _ Hfe) in E. injection E as <- <-. eauto.
  - rewrite (AddTokenArb_full _ _ Hfull) in E. done.
Qed.

Lemma calloc_length {T} (zero : T) : length (calloc zero) = Z.to_nat TOKEN_HASH_SIZE.
Proof. apply length_replicate. Qed.

(** C2. Lookup ([GetToken]) and membership ([Contains]) are decided by the
    stored hashes alone: they find the first slot of the probe sequence
    whose stored hash is the one asked for, and find nothing when an empty
    slot comes first or a whole cycle goes by without a match; the text of
    a symbol is never consulted.  So tokens with equal hashes are
    interchangeable in [Contains], and once an entry is stored any name
    with the same hash retrieves that entry. *)
Theorem lookup_compares_hashes_only
    (ArbHash : list GLArbToken) (TokenHash : list GLToken) :
  (∀ h i, GetToken ArbHash h = Some i ↔
     h ≠ 0 ∧
     ∃ k, first_match Arb.Hash zeroArbToken ArbHash h k ∧ i = probe_index h k) ∧
  (∀ h, GetToken ArbHash h = None ↔
     h = 0 ∨ ¬ ∃ k, first_match Arb.Hash zeroArbToken ArbHash h k) ∧
  (∀ Token, Contains TokenHash Token = true ↔
     Hash Token ≠ 0 ∧ ∃ k, first_match Hash zeroToken TokenHash (Hash Token) k) ∧
  (∀ Token1 Token2, Hash Token1 = Hash Token2 →
     Contains TokenHash Token1 = Contains TokenHash Token2) ∧
  (∀ (Entry : GLArbToken) (name : GLString) ArbHash' i,
     length ArbHash = Z.to_nat TOKEN_HASH_SIZE →
     GetStringHash name = Arb.Hash Entry → Arb.Hash Entry ≠ 0 →
     GetToken ArbHash (Arb.Hash Entry) = None →
     AddTokenArb ArbHash Entry = (ArbHash', Some i) →
     GetToken ArbHash' (GetStringHash name) = Some i ∧
     slot zeroArbToken ArbHash' i = Entry).
Proof.
  split; [apply GetToken_Some|]. split; [apply GetToken_None|].
  split; [apply Contains_true|]. split.
  - intros Token1 Token2 E. unfold Contains. by rewrite E.
  - intros Entry name ArbHash' i Hlen Hname Hnz Hnone Hadd.
    apply AddTokenArb_Some in Hadd as (k & Hfe & -> & ->).
    apply GetToken_None in Hnone as [?|Hno]; [done|].
    pose proof (probe_index_range (Arb.Hash Entry) k) as Hr.
    rewrite Hname. split.
    + apply GetToken_Some. split; [done|]. exists k. split; [|done].
      by apply first_match_after_insert.
    + apply slot_insert_eq; lia.
Qed.

(** The names [glZamjva] and [glOxhwxs] differ and hash alike: with the
    first stored in an empty registry table, looking the second up returns
    the entry of the first. *)
Lemma lookup_compares_hashes_only_witness :
  text (Arb.Value (entry_of "glZamjva")) ≠ text (Value (token_of "glOxhwxs")) ∧
  ∃ i, GetToken (AddTokenArb (calloc zeroArbToken) (entry_of "glZamjva")).1
         (GetStringHash (Value (token_of "glOxhwxs"))) = Some i ∧
       slot zeroArbToken
         (AddTokenArb (calloc zeroArbToken) (entry_of "glZamjva")).1 i =
         entry_of "glZamjva".
Proof.
  split; [vm_compute; congruence|].
  destruct (AddTokenArb (calloc zeroArbToken) (entry_of "glZamjva"))
    as [ArbHash' [i|]] eqn:E; [|vm_compute in E; congruence].
  exists i.
  apply (lookup_compares_hashes_only (calloc zeroArbToken) (calloc zeroToken));
    [apply calloc_length|vm_compute; reflexivity|vm_compute; congruence|
     vm_compute; reflexivity|exact E].
Defined.

(** C3, as amended.  An insert into a table of capacity 8192 starts at
    [hash & (capacity - 1)], walks forward with wrap-around over the slots
    whose stored hash is non-zero, and writes the entry into the first
    empty slot it meets, leaving every other slot as it was; when a whole
    cycle of 8192 steps meets no empty slot the table is left unchanged.
    The overload for the result sets returns 0 in both cases; the overload
    for the registry returns the slot it wrote, and the null pointer for a
    dropped insert. *)
Theorem AddToken_first_empty_slot_or_dropped
    (TokenHash : list GLToken) (Token : GLToken)
    (ArbHash : list GLArbToken) (ArbToken : GLArbToken) :
  length TokenHash = Z.to_nat TOKEN_HASH_SIZE →
  length ArbHash = Z.to_nat TOKEN_HASH_SIZE →
  TOKEN_HASH_SIZE = 8192 ∧
  (∀ h, probe_index h 0 = Z.land h (TOKEN_HASH_SIZE - 1) ∧
        ∀ k, probe_index h (k + 1) =
             Z.land (probe_index h k + 1) (TOKEN_HASH_SIZE - 1)) ∧
  (∀ k, first_empty Hash zeroToken TokenHash (Hash Token) k →
     let Index := probe_index (Hash Token) k in
     AddToken TokenHash Token = (<[Z.to_nat Index := Token]> TokenHash, 0) ∧
     slot zeroToken (<[Z.to_nat Index := Token]> TokenHash) Index = Token ∧
     ∀ i, 0 ≤ i → i ≠ Index →
          slot zeroToken (<[Z.to_nat Index := Token]> TokenHash) i =
          slot zeroToken TokenHash i) ∧
  (no_empty Hash zeroToken TokenHash (Hash Token) →
     AddToken TokenHash Token = (TokenHash, 0)) ∧
  (∀ k, first_empty Arb.Hash zeroArbToken ArbHash (Arb.Hash ArbToken) k →
     let Index := probe_index (Arb.Hash ArbToken) k in
     AddTokenArb ArbHash ArbToken =
       (<[Z.to_nat Index := ArbToken]> ArbHash, Some Index) ∧
     slot zeroArbToken (<[Z.to_nat Index := ArbToken]> ArbHash) Index = ArbToken ∧
     ∀ i, 0 ≤ i → i ≠ Index →
          slot zeroArbToken (<[Z.to_nat Index := ArbToken]> ArbHash) i =
          slot zeroArbToken ArbHash i) ∧
  (no_empty Arb.Hash zeroArbToken ArbHash (Arb.Hash ArbToken) →
     AddTokenArb ArbHash ArbToken = (ArbHash, None)).
Proof.
  intros Hlen HlenA. split; [done|]. split.
  { intros h. split; [symmetry; apply probe_index_start|].
    intros k. symmetry. apply probe_index_next. }
  split.
  { intros k Hfe Index. pose proof (probe_index_range (Hash Token) k).
    split; [by apply AddToken_found|]. split.
    - apply slot_insert_eq; lia.
    - intros i Hi Hne. apply slot_insert_ne; [lia|done|done]. }
  split; [apply AddToken_full|]. split; [|apply AddTokenArb_full].
  intros k Hfe Index. pose proof (probe_index_range (Arb.Hash ArbToken) k).
  split; [by apply AddTokenArb_found|]. split.
  - apply slot_insert_eq; lia.
  - intros i Hi Hne. apply slot_insert_ne; [lia|done|done].
Qed.

Lemma full_table_no_empty h : no_empty Hash zeroToken full_table h.
Proof.
  intros j Hj. unfold probed, full_table.
  pose proof (probe_index_range h j).
  rewrite slot_replicate; [vm_compute; congruence|lia|lia].
Qed.

Lemma full_registry_no_empty h : no_empty Arb.Hash zeroArbToken full_registry h.
Proof.
  intros j Hj. unfold probed, full_registry.
  pose proof (probe_index_range h j).
  rewrite slot_replicate; [vm_compute; congruence|lia|lia].
Qed.

(** Inserts into full tables of 8192 occupied slots are dropped: the result
    set returns 0, the registry the null pointer. *)
Lemma AddToken_first_empty_slot_or_dropped_witness :
  AddToken full_table (token_of "glFinish") = (full_table, 0) ∧
  AddTokenArb full_registry (entry_of "glFinish") = (full_registry, None).
Proof.
  destruct (AddToken_first_empty_slot_or_dropped
              full_table (token_of "glFinish")
              full_registry (entry_of "glFinish"))
    as (_ & _ & _ & Hfull & _ & HfullA).
  - apply length_replicate.
  - apply length_replicate.
  - split.
    + apply Hfull, full_table_no_empty.
    + apply HfullA, full_registry_no_empty.
Defined.

(** C3 as stated fails for the registry overload: a dropped insert hands
    the caller the null pointer, where a stored one hands it the slot. *)
Lemma AddTokenArb_full_returns_null :
  no_empty Arb.Hash zeroArbToken full_registry (Arb.Hash (entry_of "glFinish")) ∧
  (AddTokenArb full_registry (entry_of "glFinish")).2 = None ∧
  (AddTokenArb (calloc zeroArbToken) (entry_of "glFinish")).2 = Some 4165.
Proof.
  split; [apply full_registry_no_empty|].
  split.
  - pose proof (AddTokenArb_full full_registry (entry_of "glFinish")
                  (full_registry_no_empty _)) as E.
    rewrite E. reflexivity.
  - vm_compute. reflexivity.
Qed.

(** ** String comparison *)

Lemma nonzero_true c : nonzero c = true ↔ c ≠ NUL.
Proof.
  unfold nonzero. destruct (Ascii.eqb_spec c NUL); cbn; split; congruence.
Qed.

(** [Equal] runs through the token's characters only: it answers 1 as soon
    as the token is a non-empty prefix of the C string it is compared to. *)
Lemma Equal_loop_prefix n : ∀ Chars0 Value0,
  (n ≤ length Chars0)%nat →
  Equal_loop n Chars0 Value0 = 0%nat ↔ take n Chars0 `prefix_of` cstr Value0.
Proof.
  induction n as [|n IH]; intros Chars0 Value0 Hlen.
  { cbn. split; [intros _; apply prefix_nil|done]. }
  destruct Chars0 as [|c Chars0]; [cbn in Hlen; lia|].
  cbn [Equal_loop take firstn deref hd tail].
  destruct Value0 as [|v Value0]; cbn [deref hd cstr tail].
  { cbn. split; [done|]. intros H. by apply prefix_nil_not in H. }
  destruct (nonzero v) eqn:Hv.
  - destruct (Ascii.eqb_spec v c) as [->|Hne]; cbn [negb].
    + rewrite IH by (cbn in Hlen; lia). split.
      * apply prefix_cons.
      * apply prefix_cons_inv_2.
    + split; [done|]. intros H. apply prefix_cons_inv_1 in H. congruence.
  - split; [done|]. intros H. by apply prefix_nil_not in H.
Qed.

Lemma Equal_prefix Token Value0 :
  (Length Token ≤ length (Chars Token))%nat →
  Equal Token Value0 = true ↔
  (0 < Length Token)%nat ∧ text Token `prefix_of` cstr Value0.
Proof.
  intros Hlen. unfold Equal, text.
  destruct (Nat.ltb_spec 0 (Length Token)) as [Hpos|Hz].
  - rewrite Nat.eqb_eq, Equal_loop_prefix by done. split; [done|]. by intros [_ ?].
  - split; [done|]. intros [? _]. lia.
Qed.

Lemma Ignored_loop_true Token Ignores0 :
  Ignored_loop Token Ignores0 = true ↔
  ∃ Ignored, Ignored ∈ Ignores0 ∧ Equal (Value Token) Ignored = true.
Proof.
  induction Ignores0 as [|e Ignores0 IH]; cbn [Ignored_loop].
  - split; [done|]. intros (? & H & _). by apply elem_of_nil in H.
  - destruct (Equal (Value Token) e) eqn:E.
    + split; [|done]. intros _. exists e. split; [apply list_elem_of_here|done].
    + rewrite IH. split.
      * intros (x & Hx & Hx'). exists x. split; [by apply list_elem_of_further|done].
      * intros (x & Hx & Hx'). apply elem_of_cons in Hx as [->|Hx]; [congruence|].
        eauto.
Qed.

(** What [IsKnownOrIgnoredToken] accepts, and when it warns. *)
Lemma IsKnownOrIgnoredToken_spec ArbHash Token Settings Stderr0 :
  let r := IsKnownOrIgnoredToken ArbHash Token Settings Stderr0 in
  (r.1 = true ↔
     GetToken ArbHash (Hash Token) ≠ None ∨
     ∃ Ignored, Ignored ∈ Ignores Settings ∧ Equal (Value Token) Ignored = true) ∧
  r.2 = if r.1 then Stderr0 else Stderr0 ++ [warning Token].
Proof.
  unfold IsKnownOrIgnoredToken.
  destruct (GetToken ArbHash (Hash Token)) as [i|]; cbn zeta.
  { cbn. split; [|done]. split; [by left|done]. }
  destruct (Ignored_loop Token (Ignores Settings)) eqn:E; cbn.
  - split; [|done]. split; [|done]. intros _. right. by apply Ignored_loop_true.
  - split; [|done]. split; [done|]. intros [?|H]; [done|].
    apply Ignored_loop_true in H. congruence.
Qed.

Lemma skip_token_length p : (length (skip_token p) ≤ length p)%nat.
Proof.
  induction p as [|c p IH]; cbn; [lia|].
  destruct (nonzero c && IsIdentifier c); cbn; lia.
Qed.

Lemma skip_to_token_length p : (length (skip_to_token p) ≤ length p)%nat.
Proof.
  induction p as [|c p IH]; cbn; [lia|].
  destruct (nonzero c && _); cbn; lia.
Qed.

Lemma skip_line_length p : (length (skip_line p) ≤ length p)%nat.
Proof.
  induction p as [|c p IH]; cbn; [lia|].
  destruct (nonzero c && _); cbn; lia.
Qed.



(** C1, at the input where the code departs from it.  The token [glA] is a
    function-name candidate, the registry table has no entry with its hash,
    and its text is not the ignore-list entry [glAbc]; the code accepts it
    all the same, without a warning, because [Equal] stops comparing at the
    end of the token. *)
Theorem IsKnownOrIgnoredToken_accepts_prefix_of_ignored :
  let Token := token_of "glA" in
  let Settings := settings_ignoring [C "glAbc"] in
  IsFunctionCandidate Token = Ok true ∧
  Contains (calloc zeroToken) Token = false ∧
  GetToken (calloc zeroArbToken) (Hash Token) = None ∧
  (∀ Ignored, Ignored ∈ Ignores Settings → text (Value Token) ≠ cstr Ignored) ∧
  IsKnownOrIgnoredToken (calloc zeroArbToken) Token Settings [] = (true, []).
Proof.
  cbn zeta. split; [vm_compute; reflexivity|]. split; [vm_compute; reflexivity|].
  split; [vm_compute; reflexivity|]. split; [|vm_compute; reflexivity].
  intros e He. cbn in He. apply list_elem_of_singleton in He as ->.
  vm_compute. congruence.
Qed.

(** ** The source scanner *)

Lemma StartsWith_first Token c Prefix0 :
  nonzero c = true → StartsWith Token (c :: Prefix0) = true →
  (0 < Length Token)%nat ∧ deref (Chars Token) = c.
Proof.
  intros Hc. unfold StartsWith. destruct (Length Token) as [|n]; [done|].
  cbn [StartsWith_loop deref hd]. rewrite Hc.
  destruct (Ascii.eqb_spec c (deref (Chars Token))) as [->|]; cbn [negb];
    [|done].
  intros _. split; [lia|done].
Qed.


(** A token that begins with [G] does not begin with [g]: for a macro
    candidate [Chars[2]] is not read. *)
Lemma define_candidate_not_function Token :
  IsDefineCandidate Token = true → IsFunctionCandidate Token = Ok false.
Proof.
  unfold IsFunctionCandidate, IsDefineCandidate. intros E.
  apply (StartsWith_first _ "G"%char) in E as [_ HG]; [|done].
  destruct (StartsWith (Value Token) (C "gl")) eqn:H; [|done].
  apply (StartsWith_first _ "g"%char) in H as [_ Hg]; [|done].
  congruence.
Qed.

Lemma candidates_exclusive Token :
  IsFunctionCandidate Token = Ok true → IsDefineCandidate Token = false.
Proof.
  intros H. destruct (IsDefineCandidate Token) eqn:E; [|done].
  apply define_candidate_not_function in E. congruence.
Qed.

Lemma ScanFunction_Ok ArbHash Settings Token st st' :
  ScanFunction ArbHash Settings Token st = Ok st' →
  ∃ Candidate, IsFunctionCandidate Token = Ok Candidate ∧
    st' = if Candidate then
            if negb (Contains (FunctionsHash st) Token) then
              let '(Found, err) :=
                IsKnownOrIgnoredToken ArbHash Token Settings (Stderr st) in
              if Found then
                {| FunctionsHash := fst (AddToken (FunctionsHash st) Token);
                   FunctionCount := (FunctionCount st + 1) mod UINT_MAX1;
                   DefinesHash := DefinesHash st;
                   DefinesCount := DefinesCount st;
                   Stderr := err |}
              else
                {| FunctionsHash := FunctionsHash st;
                   FunctionCount := FunctionCount st;
                   DefinesHash := DefinesHash st;
                   DefinesCount := DefinesCount st;
                   Stderr := err |}
            else st
          else st.
Proof.
  unfold ScanFunction. destruct (IsFunctionCandidate Token) as [b|]; [|done].
  cbn [mbind outcome_bind]. intros [= <-]. by exists b.
Qed.

Lemma ParseFile_body_Ok ArbHash Settings st Tokenizer st' Tokenizer' :
  ParseFile_body ArbHash Settings st Tokenizer = Ok (st', Tokenizer') →
  ∃ st1, ScanFunction ArbHash Settings (ParseToken Tokenizer).1 st = Ok st1 ∧
         st' = ScanDefine ArbHash Settings (ParseToken Tokenizer).1 st1 ∧
         Tokenizer' = (ParseToken Tokenizer).2.
Proof.
  unfold ParseFile_body. destruct (ParseToken Tokenizer) as [Token T'].
  cbn [fst snd]. destruct (ScanFunction _ _ _ _) as [st1|]; [|done].
  cbn [mbind outcome_bind]. intros [= <- <-]. by exists st1.
Qed.







(** ** Reading the registry files *)

Lemma clobber_length d : d ≠ [] → length (clobber d) = S (length d).
Proof.
  intros Hd. unfold clobber. rewrite length_app, removelast_firstn_len, length_take.
  destruct d; [done|]. cbn. lia.
Qed.

Lemma join_clobbered_nonempty d ds :
  d ≠ [] → Forall (λ d', d' ≠ []) ds → join_clobbered d ds ≠ [].
Proof.
  intros Hd Hds. destruct ds as [|d' ds]; [done|]. cbn [join_clobbered].
  unfold clobber. intros E. apply app_eq_nil in E as [E _].
  apply app_eq_nil in E as [_ E]. done.
Qed.

(** Appending a file to a buffer that ends with the file [d] and its
    terminator: the terminator and the last byte of [d] become line feeds. *)
Lemma clobber_step (X d d' : list ascii) :
  d ≠ [] →
  <[(S (length (X ++ d)) - 1)%nat := LF]>
    (<[(S (length (X ++ d)) - 2)%nat := LF]> ((X ++ d ++ [NUL]) ++ d' ++ [NUL])) =
  (X ++ clobber d) ++ d' ++ [NUL].
Proof.
  intros Hd. rewrite (app_removelast_last NUL Hd) at 3 4.
  set (d0 := removelast d). set (c := List.last d NUL).
  assert (Hlen : length (X ++ d) = S (length (X ++ d0))).
  { rewrite (app_removelast_last NUL Hd). fold d0 c.
    rewrite !length_app. cbn. lia. }
  rewrite Hlen.
  replace (S (S (length (X ++ d0))) - 1)%nat with (length (X ++ d0) + 1)%nat by lia.
  replace (S (S (length (X ++ d0))) - 2)%nat with (length (X ++ d0) + 0)%nat by lia.
  replace ((X ++ (d0 ++ [c]) ++ [NUL]) ++ d' ++ [NUL])
    with ((X ++ d0) ++ c :: NUL :: d' ++ [NUL])
    by (rewrite <- !app_assoc; reflexivity).
  rewrite !insert_app_r. cbn. unfold clobber. rewrite ?removelast_last.
  rewrite <- !app_assoc. reflexivity.
Qed.

Lemma ReadMultiFiles_loop_buffer W names : ∀ X d err,
  d ≠ [] →
  (ReadMultiFiles_loop W names (Some (X ++ d ++ [NUL])) (S (length (X ++ d))) err).1 =
  Some (X ++ join_clobbered d (readable W names) ++ [NUL]).
Proof.
  induction names as [|Filename names IH]; intros X d err Hd; [done|].
  cbn [ReadMultiFiles_loop readable].
  destruct (file_contents W Filename) as [data|]; [|by apply IH].
  destruct (Nat.ltb_spec 0 (length data)) as [Hpos|Hz]; [|by apply IH].
  cbn [default Nat.ltb Nat.leb]. rewrite clobber_step by done.
  assert (Hdata : data ≠ []) by (destruct data; [cbn in Hpos; lia|done]).
  replace (S (length (X ++ d)) + (length data + 1))%nat
    with (S (length ((X ++ clobber d) ++ data))).
  2:{ rewrite !length_app, clobber_length by done. lia. }
  rewrite (IH (X ++ clobber d) data err Hdata).
  cbn [join_clobbered]. by rewrite <- !app_assoc.
Qed.

(** What [ReadMultiFiles] hands to the registry parser. *)
Lemma ReadMultiFiles_buffer W names err :
  (ReadMultiFiles W names err).1 =
  match readable W names with
  | [] => None
  | d :: ds => Some (join_clobbered d ds ++ [NUL])
  end.
Proof.
  unfold ReadMultiFiles. revert err.
  induction names as [|Filename names IH]; intros err; [done|].
  cbn [ReadMultiFiles_loop readable].
  destruct (file_contents W Filename) as [data|]; [|by apply IH].
  destruct (Nat.ltb_spec 0 (length data)) as [Hpos|Hz]; [|by apply IH].
  cbn [default Nat.ltb Nat.leb app].
  assert (Hdata : data ≠ []) by (destruct data; [cbn in Hpos; lia|done]).
  replace (0 + (length data + 1))%nat with (S (length ([] ++ data))) by (cbn; lia).
  apply (ReadMultiFiles_loop_buffer W names [] data err Hdata).
Qed.

(** C9, at the input where the code departs from it.  With the registry
    files [a.h], holding [#define GL_A 1] without a final line feed, and
    [b.h], the buffer handed to the parser has lost the last byte of [a.h]:
    the [1] is overwritten by the first of the two line feeds that join the
    files, so the bytes of [a.h] are not preserved and its macro loses its
    value. *)
Theorem ReadMultiFiles_overwrites_last_byte :
  let W := world_of [("a.h", "#define GL_A 1"); ("b.h", "#define GL_B 2\n")]%string 0 1 in
  ReadMultiFiles W [C "a.h"; C "b.h"] [] =
    (Some (C "#define GL_A \n\n#define GL_B 2\n" ++ [NUL]), []) ∧
  ¬ C "#define GL_A 1" `prefix_of` C "#define GL_A \n\n#define GL_B 2\n" ++ [NUL].
Proof.
  cbn zeta. split; [vm_compute; reflexivity|].
  intros [k Hk]. vm_compute in Hk. congruence.
Qed.

(** ** Sorting the result sets *)

Lemma TokenComparer_le A B : TokenComparer A B ≤ 0 ↔ Hash B ≤ Hash A.
Proof.
  unfold TokenComparer.
  destruct (Z.gtb_spec (Hash A) (Hash B)); [lia|].
  destruct (Z.gtb_spec (Hash B) (Hash A)); lia.
Qed.

Lemma merge_qsort_spec : qsort_spec merge_qsort.
Proof.
  intros TokenHash. unfold merge_qsort. split.
  - symmetry. apply merge_sort_Permutation.
  - apply Sorted_merge_sort. intros A B.
    rewrite !TokenComparer_le. lia.
Qed.

Lemma reverse_merge_qsort_spec : qsort_spec reverse_merge_qsort.
Proof.
  intros TokenHash. unfold reverse_merge_qsort.
  destruct (merge_qsort_spec (reverse TokenHash)) as [Hp Hs]. split; [|done].
  rewrite <- Hp. symmetry. apply reverse_Permutation.
Qed.

(** The hashes of a sorted table are in descending order. *)
Lemma sorted_hashes_descending qsort TokenHash :
  qsort_spec qsort →
  StronglySorted (λ x y, y ≤ x) (hashes (qsort TokenComparer TokenHash)).
Proof.
  intros Hq. destruct (Hq TokenHash) as [_ Hs].
  apply Sorted.Sorted_StronglySorted; [intros x y z; lia|].
  unfold hashes. eapply (Sorted_fmap Hash _ _ _ _ Hs).
  Unshelve. intros A B. cbn. apply TokenComparer_le.
Qed.

Lemma descending_unique (l1 l2 : list Z) :
  StronglySorted (λ x y, y ≤ x) l1 → StronglySorted (λ x y, y ≤ x) l2 →
  l1 ≡ₚ l2 → l1 = l2.
Proof.
  apply StronglySorted_unique. intros x y ? ?. lia.
Qed.

(** Two sorts of two tables with the same hashes, in any arrangement, leave
    the same sequence of hashes. *)
Lemma sorted_hashes_determined qsort qsort' TokenHash TokenHash' :
  qsort_spec qsort → qsort_spec qsort' →
  hashes TokenHash ≡ₚ hashes TokenHash' →
  hashes (qsort TokenComparer TokenHash) =
  hashes (qsort' TokenComparer TokenHash').
Proof.
  intros Hq Hq' Hp.
  apply descending_unique; [by apply sorted_hashes_descending..|].
  destruct (Hq TokenHash) as [H1 _]. destruct (Hq' TokenHash') as [H2 _].
  unfold hashes in *. by rewrite <- H1, <- H2.
Qed.

Lemma descending_lookup (l : list Z) i j x y :
  StronglySorted (λ x y, y ≤ x) l → (i < j)%nat →
  l !! i = Some x → l !! j = Some y → y ≤ x.
Proof.
  intros Hs. revert i j. induction Hs as [|z l Hs IH Hall]; intros i j Hij Hi Hj.
  { by rewrite lookup_nil in Hi. }
  destruct j as [|j]; [lia|]. cbn in Hj. destruct i as [|i].
  - cbn in Hi. injection Hi as ->. rewrite Forall_forall in Hall.
    apply Hall. by eapply list_elem_of_lookup_2.
  - cbn in Hi. eapply (IH i j); [lia|done..].
Qed.

Lemma hashes_lookup TokenHash i A :
  TokenHash !! i = Some A → hashes TokenHash !! i = Some (Hash A).
Proof. intros H. unfold hashes. by rewrite list_lookup_fmap, H. Qed.

(** ** Inserting in any order *)

Lemma insert_Permutation_swap (l : list Z) i x y :
  l !! i = Some y → y :: <[i:=x]> l ≡ₚ x :: l.
Proof.
  revert i. induction l as [|z l IH]; intros i Hi; [by rewrite lookup_nil in Hi|].
  destruct i as [|i]; cbn in *.
  - injection Hi as ->. apply perm_swap.
  - rewrite perm_swap, (IH i Hi). apply perm_swap.
Qed.

Lemma hashes_insert TokenHash i Token :
  hashes (<[i:=Token]> TokenHash) = <[i:=Hash Token]> (hashes TokenHash).
Proof. unfold hashes. apply list_fmap_insert. Qed.

(** A table that holds an empty slot has one on every probe sequence. *)
Lemma empty_slot_found TokenHash h :
  length TokenHash = Z.to_nat TOKEN_HASH_SIZE →
  0 ∈ hashes TokenHash →
  ∃ k, first_empty Hash zeroToken TokenHash h k.
Proof.
  intros Hlen Hin.
  destruct (first_empty_or_none Hash zeroToken TokenHash h) as [?|Hfull]; [done|].
  apply list_elem_of_lookup in Hin as [i Hi].
  unfold hashes in Hi. rewrite list_lookup_fmap in Hi.
  destruct (TokenHash !! i) as [A|] eqn:EA; [|done]. cbn in Hi.
  injection Hi as HA.
  assert (Hi : (i < length TokenHash)%nat) by by eapply lookup_lt_Some.
  destruct (probe_index_onto h (Z.of_nat i)) as (k & Hk & Ek); [lia|].
  destruct (Hfull k Hk). unfold probed, slot. rewrite Ek, Nat2Z.id, EA. done.
Qed.

Lemma AddToken_hashes TokenHash Token :
  length TokenHash = Z.to_nat TOKEN_HASH_SIZE →
  0 ∈ hashes TokenHash →
  length (AddToken TokenHash Token).1 = Z.to_nat TOKEN_HASH_SIZE ∧
  0 :: hashes (AddToken TokenHash Token).1 ≡ₚ Hash Token :: hashes TokenHash.
Proof.
  intros Hlen Hin.
  destruct (empty_slot_found TokenHash (Hash Token) Hlen Hin) as [k Hfe].
  rewrite (AddToken_found _ _ _ Hfe). cbn [fst].
  split; [by rewrite length_insert|].
  rewrite hashes_insert. apply insert_Permutation_swap.
  destruct Hfe as (Hk & Hz & _). unfold probed, slot in Hz.
  pose proof (probe_index_range (Hash Token) k) as Hr.
  destruct (TokenHash !! Z.to_nat (probe_index (Hash Token) k)) as [A|] eqn:EA.
  - cbn in Hz. unfold hashes. by rewrite list_lookup_fmap, EA, <- Hz.
  - apply lookup_ge_None in EA. lia.
Qed.

Lemma AddTokens_hashes Tokens : ∀ TokenHash n R,
  length TokenHash = Z.to_nat TOKEN_HASH_SIZE →
  hashes TokenHash ≡ₚ replicate (length Tokens + n) 0 ++ R →
  hashes (AddTokens TokenHash Tokens) ≡ₚ replicate n 0 ++ map Hash Tokens ++ R.
Proof.
  induction Tokens as [|Token Tokens IH]; intros TokenHash n R Hlen Hp; [done|].
  cbn [AddTokens fold_left]. fold (AddTokens (AddToken TokenHash Token).1 Tokens).
  cbn [length Nat.add replicate app] in Hp.
  assert (Hin : 0 ∈ hashes TokenHash).
  { rewrite Hp. apply list_elem_of_here. }
  destruct (AddToken_hashes TokenHash Token Hlen Hin) as [Hlen' Hp'].
  rewrite (IH _ n (Hash Token :: R) Hlen').
  - cbn [map]. f_equiv. symmetry. apply Permutation_middle.
  - apply (Permutation_cons_inv (a := 0)). rewrite Hp', Hp.
    rewrite <- Permutation_middle. apply perm_swap.
Qed.

Lemma hashes_calloc : hashes (calloc zeroToken) = replicate (Z.to_nat TOKEN_HASH_SIZE) 0.
Proof. unfold hashes, calloc. by rewrite fmap_replicate. Qed.

(** Filling a zeroed table with at most 8192 tokens, in whatever order,
    leaves the same hashes in it. *)
Lemma AddTokens_order_irrelevant Tokens Tokens' :
  (length Tokens ≤ Z.to_nat TOKEN_HASH_SIZE)%nat → Tokens ≡ₚ Tokens' →
  hashes (AddTokens (calloc zeroToken) Tokens) ≡ₚ
  hashes (AddTokens (calloc zeroToken) Tokens').
Proof.
  intros Hlen Hp.
  assert (Hlen' : (length Tokens' ≤ Z.to_nat TOKEN_HASH_SIZE)%nat)
    by by rewrite <- Hp.
  assert (Hc : ∀ l : list GLToken, (length l ≤ Z.to_nat TOKEN_HASH_SIZE)%nat →
    hashes (calloc zeroToken) ≡ₚ
    replicate (length l + (Z.to_nat TOKEN_HASH_SIZE - length l)) 0 ++ []).
  { intros l Hl. rewrite hashes_calloc, app_nil_r.
    by replace (length l + (Z.to_nat TOKEN_HASH_SIZE - length l))%nat
      with (Z.to_nat TOKEN_HASH_SIZE) by lia. }
  etransitivity.
  { apply (AddTokens_hashes Tokens _ (Z.to_nat TOKEN_HASH_SIZE - length Tokens) []);
      [apply calloc_length|by apply Hc]. }
  symmetry. etransitivity.
  { apply (AddTokens_hashes Tokens' _ (Z.to_nat TOKEN_HASH_SIZE - length Tokens') []);
      [apply calloc_length|by apply Hc]. }
  rewrite <- (Permutation_length Hp).
  apply Permutation_app_head, Permutation_app_tail.
  symmetry. by apply Permutation_map.
Qed.


(** ** The scanner reads hashes only *)

Section ProbeExt.
Context {T : Type} (HashOf : T → Z) (zero : T).

Lemma probe_empty_ext (t t' : list T) fuel : ∀ Index Iterations,
  (∀ i, HashOf (slot zero t i) = HashOf (slot zero t' i)) →
  probe_empty HashOf zero fuel t Index Iterations =
  probe_empty HashOf zero fuel t' Index Iterations.
Proof.
  induction fuel as [|fuel IH]; intros Index Iterations H; [done|].
  cbn [probe_empty]. rewrite H, IH by done. done.
Qed.

Lemma probe_match_ext (t t' : list T) h fuel : ∀ Index Iterations,
  (∀ i, HashOf (slot zero t i) = HashOf (slot zero t' i)) →
  probe_match HashOf zero fuel t h Index Iterations =
  probe_match HashOf zero fuel t' h Index Iterations.
Proof.
  induction fuel as [|fuel IH]; intros Index Iterations H; [done|].
  cbn [probe_match]. rewrite H, IH by done. done.
Qed.
End ProbeExt.

Lemma slot_hash_ext t t' i :
  hashes t = hashes t' → Hash (slot zeroToken t i) = Hash (slot zeroToken t' i).
Proof.
  intros E. unfold slot.
  assert (E' : hashes t !! Z.to_nat i = hashes t' !! Z.to_nat i) by by rewrite E.
  unfold hashes in E'. rewrite !list_lookup_fmap in E'.
  destruct (t !! Z.to_nat i), (t' !! Z.to_nat i); cbn in *; congruence.
Qed.

Lemma AddToken_ext t t' Token Token' :
  hashes t = hashes t' → Hash Token = Hash Token' →
  hashes (AddToken t Token).1 = hashes (AddToken t' Token').1.
Proof.
  intros E EH. unfold AddToken. rewrite <- EH.
  rewrite (probe_empty_ext Hash zeroToken t t') by (intros; by apply slot_hash_ext).
  destruct (probe_empty _ _ _ _ _ _) as [Index Iterations].
  destruct (Iterations <? TOKEN_HASH_SIZE); cbn [fst]; [|done].
  by rewrite !hashes_insert, E, EH.
Qed.

Lemma Contains_ext t t' Token :
  hashes t = hashes t' → Contains t Token = Contains t' Token.
Proof.
  intros E. unfold Contains.
  by rewrite (probe_match_ext Hash zeroToken t t') by (intros; by apply slot_hash_ext).
Qed.

Lemma ScanFunction_ext ArbHash Settings Token st st' :
  same_hashes st st' →
  same_scan (ScanFunction ArbHash Settings Token st)
            (ScanFunction ArbHash Settings Token st').
Proof.
  intros (HF & HFc & HD & HDc & HE). unfold ScanFunction.
  destruct (IsFunctionCandidate Token) as [[|]|f]; cbn [mbind outcome_bind];
    [|done|done]. cbn [same_scan].
  rewrite (Contains_ext _ _ Token HF).
  destruct (Contains (FunctionsHash st') Token); cbn [negb]; [done|].
  rewrite HE. destruct (IsKnownOrIgnoredToken _ _ _ _) as [[] err].
  - split; cbn; [by apply AddToken_ext|]. by rewrite HFc.
  - done.
Qed.

Lemma ScanDefine_ext ArbHash Settings Token st st' :
  same_hashes st st' →
  same_hashes (ScanDefine ArbHash Settings Token st)
              (ScanDefine ArbHash Settings Token st').
Proof.
  intros (HF & HFc & HD & HDc & HE). unfold ScanDefine.
  destruct (IsDefineCandidate Token); [|done].
  rewrite (Contains_ext _ _ Token HD).
  destruct (Contains (DefinesHash st') Token); cbn [negb]; [done|].
  rewrite HE. destruct (IsKnownOrIgnoredToken _ _ _ _) as [[] err].
  - split; [done|]. split; [done|]. split; cbn; [by apply AddToken_ext|].
    by rewrite HDc.
  - done.
Qed.

Lemma ParseFile_loop_ext ArbHash Settings fuel : ∀ st st' Tokenizer,
  same_hashes st st' →
  same_scan (ParseFile_loop fuel ArbHash Settings st Tokenizer)
            (ParseFile_loop fuel ArbHash Settings st' Tokenizer).
Proof.
  induction fuel as [|fuel IH]; intros st st' Tokenizer H; cbn [ParseFile_loop].
  - by destruct (nonzero _).
  - destruct (nonzero _); [|done]. unfold ParseFile_body.
    destruct (ParseToken Tokenizer) as [Token Tokenizer'].
    pose proof (ScanFunction_ext ArbHash Settings Token st st' H) as P.
    destruct (ScanFunction _ _ _ st) as [st1|f],
             (ScanFunction _ _ _ st') as [st1'|f']; cbn in P |- *; try done.
    by apply IH, ScanDefine_ext.
Qed.

Lemma ParseFile_ext W W' ArbHash Settings Filename st st' :
  file_contents W Filename = file_contents W' Filename →
  same_hashes st st' →
  match ParseFile W Filename ArbHash Settings st,
        ParseFile W' Filename ArbHash Settings st' with
  | Ok (s, a), Ok (s', b) => s = s' ∧ same_hashes a b
  | Fail f, Fail f' => f = f'
  | _, _ => False
  end.
Proof.
  intros HW H. unfold ParseFile, ReadEntireFile. rewrite <- HW.
  pose proof H as (HF & HFc & HD & HDc & HE). rewrite HE.
  destruct (file_contents W Filename) as [data|].
  - destruct (0 <? length data)%nat.
    + cbn [FunctionsHash FunctionCount DefinesHash DefinesCount Stderr].
      match goal with
      | |- context [ParseFile_loop ?f _ _ ?a ?T] =>
          match goal with
          | |- context [ParseFile_loop f _ _ ?b T] =>
              assert_fails (constr_eq a b);
              assert (P : same_scan (ParseFile_loop f ArbHash Settings a T)
                                    (ParseFile_loop f ArbHash Settings b T))
                by (apply ParseFile_loop_ext; done)
          end
      end.
      destruct (ParseFile_loop _ _ _ _ _) as [s1|f1],
               (ParseFile_loop _ _ _ _ _) as [s2|f2]; cbn in *; done.
    + cbn. done.
  - cbn. done.
Qed.

Lemma ParseFiles_ext W W' ArbHash Settings names : ∀ st st',
  (∀ name, name ∈ names → file_contents W name = file_contents W' name) →
  same_hashes st st' →
  same_scan (ParseFiles W names ArbHash Settings st)
            (ParseFiles W' names ArbHash Settings st').
Proof.
  induction names as [|Filename names IH]; intros st st' HW H; [done|].
  cbn [ParseFiles].
  pose proof (ParseFile_ext W W' ArbHash Settings Filename st st'
                (HW Filename (list_elem_of_here _ _)) H) as P.
  destruct (ParseFile W _ _ _ _) as [[s1 a]|f1],
           (ParseFile W' _ _ _ _) as [[s2 b]|f2]; cbn in *; try done.
  destruct P as [_ P]. apply IH; [|done].
  intros name Hn. apply HW. by apply list_elem_of_further.
Qed.

(** ** The emitter reads hashes only *)

Lemma for_Index_ext n : ∀ Index body body',
  (∀ i, body i = body' i) → for_Index n Index body = for_Index n Index body'.
Proof.
  induction n as [|n IH]; intros Index body body' H; [done|].
  cbn [for_Index]. by rewrite H, (IH _ body body').
Qed.

Lemma table_at_ext t t' i :
  hashes t = hashes t' →
  match table_at t i, table_at t' i with
  | Ok A, Ok B => Hash A = Hash B
  | Fail f, Fail f' => f = f'
  | _, _ => False
  end.
Proof.
  intros E. unfold table_at.
  assert (E' : hashes t !! Z.to_nat i = hashes t' !! Z.to_nat i) by by rewrite E.
  unfold hashes in E'. rewrite !list_lookup_fmap in E'.
  destruct (t !! Z.to_nat i), (t' !! Z.to_nat i); cbn in *; congruence.
Qed.

Lemma EmitDefine_ext ArbHash t t' i :
  hashes t = hashes t' → EmitDefine ArbHash t i = EmitDefine ArbHash t' i.
Proof.
  intros E. unfold EmitDefine. pose proof (table_at_ext t t' i E) as P.
  destruct (table_at t i), (table_at t' i); cbn [mbind outcome_bind] in *;
    [by rewrite P|done|done|congruence].
Qed.

Lemma EmitFunction_ext ArbHash t t' line i :
  hashes t = hashes t' →
  EmitFunction ArbHash t line i = EmitFunction ArbHash t' line i.
Proof.
  intros E. unfold EmitFunction. pose proof (table_at_ext t t' i E) as P.
  destruct (table_at t i), (table_at t' i); cbn [mbind outcome_bind] in *;
    [by rewrite P|done|done|congruence].
Qed.

Lemma Emit_ext Settings ArbHash F F' Fc D D' Dc :
  hashes F = hashes F' → hashes D = hashes D' →
  Emit Settings ArbHash F Fc D Dc = Emit Settings ArbHash F' Fc D' Dc.
Proof.
  intros EF ED. unfold Emit, EmitBoilerplate.
  rewrite (for_Index_ext _ _ (EmitDefine ArbHash D) (EmitDefine ArbHash D'))
    by (intros; by apply EmitDefine_ext).
  rewrite (for_Index_ext _ _ (EmitFunction ArbHash F TypedefLine)
             (EmitFunction ArbHash F' TypedefLine))
    by (intros; by apply EmitFunction_ext).
  rewrite (for_Index_ext _ _ (EmitFunction ArbHash F RedefineLine)
             (EmitFunction ArbHash F' RedefineLine))
    by (intros; by apply EmitFunction_ext).
  rewrite (for_Index_ext _ _ (EmitFunction ArbHash F GlobalLine)
             (EmitFunction ArbHash F' GlobalLine))
    by (intros; by apply EmitFunction_ext).
  rewrite (for_Index_ext _ _ (EmitFunction ArbHash F (GetProcLine _))
             (EmitFunction ArbHash F' (GetProcLine _)))
    by (intros; by apply EmitFunction_ext).
  done.
Qed.

(** ** Generation is a function of the inputs *)

Lemma ReadMultiFiles_loop_ext W W' names : ∀ Result RunningSize err,
  (∀ name, name ∈ names → file_contents W name = file_contents W' name) →
  ReadMultiFiles_loop W names Result RunningSize err =
  ReadMultiFiles_loop W' names Result RunningSize err.
Proof.
  induction names as [|Filename names IH]; intros Result RunningSize err HW; [done|].
  cbn [ReadMultiFiles_loop]. rewrite <- (HW Filename) by apply list_elem_of_here.
  assert (HW' : ∀ name, name ∈ names →
                file_contents W name = file_contents W' name).
  { intros name Hn. apply HW. by apply list_elem_of_further. }
  destruct (file_contents W Filename) as [data|]; [|by apply IH].
  destruct (0 <? length data)%nat; by apply IH.
Qed.

Lemma Seed_ext I I' err : same_hashes (Seed I err) (Seed I' err).
Proof.
  unfold same_hashes, Seed, AddCustomToken.
  cbn [FunctionsHash FunctionCount DefinesHash DefinesCount Stderr].
  split; [apply AddToken_ext; reflexivity|]. split; [reflexivity|].
  split; [|split; reflexivity].
  apply AddToken_ext; [|reflexivity]. apply AddToken_ext; reflexivity.
Qed.

Lemma fopen_w_ext W W' Filename name :
  writable W Filename = writable W' Filename →
  file_contents W name = file_contents W' name →
  file_contents (fopen_w W Filename) name =
  file_contents (fopen_w W' Filename) name.
Proof.
  intros Hw Hc. unfold fopen_w. rewrite <- Hw.
  destruct (writable W Filename); [|done]. cbn [file_contents].
  by destruct (List.list_eq_dec ascii_dec name Filename).
Qed.

Lemma GenerateOpenGLHeader_ext qsort qsort' I I' W W' Settings :
  qsort_spec qsort → qsort_spec qsort' → same_inputs W W' Settings →
  GenerateOpenGLHeader qsort I W Settings =
  GenerateOpenGLHeader qsort' I' W' Settings.
Proof.
  intros Hq Hq' [HW Hout]. unfold GenerateOpenGLHeader, ReadMultiFiles.
  rewrite <- (ReadMultiFiles_loop_ext W W') by (intros; apply HW, elem_of_app; by left).
  assert (HP : ∀ ArbHash0 err0, same_scan
            (ParseFiles (fopen_w W (Output Settings)) (Inputs Settings)
               ArbHash0 Settings (Seed I err0))
            (ParseFiles (fopen_w W' (Output Settings)) (Inputs Settings)
               ArbHash0 Settings (Seed I' err0))).
  { intros ArbHash0 err0. apply ParseFiles_ext; [|apply Seed_ext].
    intros name Hn. apply fopen_w_ext; [done|]. apply HW, elem_of_app.
    by right. }
  rewrite <- Hout.
  destruct (ReadMultiFiles_loop W _ _ _ _) as [ArbData err].
  destruct (length (Inputs Settings) <=? 0)%nat; [done|].
  destruct (writable W (Output Settings)); [|done].
  destruct ArbData as [ArbData|]; [|done].
  destruct (Registry_loop _ _ _ _) as [[ArbHash ArbTokenCount]|f]; [|done].
  cbn [mbind outcome_bind].
  pose proof (HP ArbHash err) as P.
  destruct (ParseFiles (fopen_w W _) _ _ _ _) as [st|f],
           (ParseFiles (fopen_w W' _) _ _ _ _) as [st'|f'];
    cbn in P |- *.
  - destruct P as (HF & HFc & HD & HDc & HE).
    rewrite HFc, HDc, HE.
    rewrite (Emit_ext Settings ArbHash
               (qsort TokenComparer (FunctionsHash st))
               (qsort' TokenComparer (FunctionsHash st')) _
               (qsort TokenComparer (DefinesHash st))
               (qsort' TokenComparer (DefinesHash st')));
      [done|apply sorted_hashes_determined; [done..|by rewrite HF]|
       apply sorted_hashes_determined; [done..|by rewrite HD]].
  - done.
  - done.
  - by f_equal.
Qed.

Lemma MaxTimestamp_loop_ext W W' names : ∀ MaxTimestamp,
  (∀ name, name ∈ names → last_write_time W name = last_write_time W' name) →
  MaxTimestamp_loop W names MaxTimestamp = MaxTimestamp_loop W' names MaxTimestamp.
Proof.
  induction names as [|name names IH]; intros MaxTimestamp H; [done|].
  cbn [MaxTimestamp_loop]. rewrite <- (H name) by apply list_elem_of_here.
  apply IH. intros n Hn. apply H. by apply list_elem_of_further.
Qed.

(** C6, as amended.  Two generation runs produce byte-identical output (and
    the same diagnostics and exit status) when the registry files and the
    source files are byte-identical, the settings (ignore list, prefix,
    boilerplate flag) are the same, and so is the last-write timestamp of
    the output file that the run copies into its [@GENERATED] line; this
    holds whichever [qsort] the C library has and whatever the
    uninitialised [Value] of the pre-seeded tokens is. *)
Theorem generation_is_deterministic
    (qsort qsort' : (GLToken → GLToken → Z) → list GLToken → list GLToken)
    (Indeterminate Indeterminate' : GLString) (W W' : World)
    (Settings : GLSettings) :
  qsort_spec qsort → qsort_spec qsort' → same_inputs W W' Settings →
  GenerateOpenGLHeader qsort Indeterminate W Settings =
  GenerateOpenGLHeader qsort' Indeterminate' W' Settings ∧
  ((∀ name, name ∈ Output Settings :: Inputs Settings →
      last_write_time W name = last_write_time W' name) →
   main_generate qsort Indeterminate W Settings =
   main_generate qsort' Indeterminate' W' Settings).
Proof.
  intros Hq Hq' HW. split; [by apply GenerateOpenGLHeader_ext|].
  intros Ht. unfold main_generate.
  cbn [Headers Output Prefix Inputs Ignores WriteTimestamp Boilerplate Silent
       ForceGenerate].
  rewrite <- (Ht (Output Settings)) by apply list_elem_of_here.
  rewrite <- (MaxTimestamp_loop_ext W W')
    by (intros n Hn; apply Ht; by apply list_elem_of_further).
  destruct (ForceGenerate Settings || _); [|done].
  by rewrite (GenerateOpenGLHeader_ext qsort qsort' Indeterminate Indeterminate' W W').
Qed.

(** The same files and settings, sorted by two merge sorts that treat ties
    differently, with different garbage in the pre-seeded tokens. *)
Lemma generation_is_deterministic_witness :
  GenerateOpenGLHeader merge_qsort zeroString
    (world_of example_files 0 1) (example_settings true) =
  GenerateOpenGLHeader reverse_merge_qsort {| Chars := C "junk"; Length := 4 |}
    (world_of example_files 0 1) (example_settings true).
Proof.
  apply (generation_is_deterministic merge_qsort reverse_merge_qsort
           zeroString {| Chars := C "junk"; Length := 4 |}
           (world_of example_files 0 1) (world_of example_files 0 1)
           (example_settings true) merge_qsort_spec reverse_merge_qsort_spec).
  split; [intros name _; reflexivity|reflexivity].
Defined.

(** C6 as stated fails: with the same registry, source and ignore list, a
    forced run that finds the output file last written at time 5 does not
    write the bytes of the run that found no output file, because the line
    [// @GENERATED:] carries that time. *)
Lemma regenerated_header_differs_in_timestamp :
  let first := main_generate merge_qsort zeroString
                 (world_of example_files 0 1) (example_settings true) in
  let second := main_generate merge_qsort zeroString
                  (world_of example_files 5 1) (example_settings true) in
  same_inputs (world_of example_files 0 1) (world_of example_files 5 1)
    (example_settings true) ∧
  written_by first ≠ None ∧ written_by second ≠ None ∧
  written_by first ≠ written_by second.
Proof.
  cbn zeta. split; [split; [intros name _; reflexivity|reflexivity]|].
  split; [intros E; vm_compute in E; discriminate|].
  split; [intros E; vm_compute in E; discriminate|].
  intros E. apply (f_equal (λ o, default [] o !! 146%nat)) in E.
  vm_compute in E. discriminate.
Qed.

(** ** The shape of the output *)

Lemma GenerateOpenGLHeader_success qsort I W Settings r :
  GenerateOpenGLHeader qsort I W Settings = Ok r → Success r = 0 →
  ∃ ArbHash st written,
    RegistryTable W Settings = Some ArbHash ∧
    ParseFiles (fopen_w W (Output Settings)) (Inputs Settings) ArbHash Settings
      (Seed I (ReadMultiFiles W (Headers Settings) []).2) = Ok st ∧
    Emit Settings ArbHash
      (qsort TokenComparer (FunctionsHash st)) (FunctionCount st)
      (qsort TokenComparer (DefinesHash st)) (DefinesCount st) = Ok written ∧
    OutputFile r = Some written ∧ Diagnostics r = Stderr st.
Proof.
  unfold GenerateOpenGLHeader, RegistryTable.
  destruct (ReadMultiFiles W (Headers Settings) []) as [ArbData err].
  cbn [fst snd].
  destruct (length (Inputs Settings) <=? 0)%nat; [by intros [= <-]|].
  destruct (writable W (Output Settings)); [|by intros [= <-]].
  destruct ArbData as [ArbData|]; [|by intros [= <-]].
  destruct (Registry_loop _ _ _ _) as [[ArbHash n]|f]; [|done].
  cbn [mbind outcome_bind].
  destruct (ParseFiles _ _ _ _ _) as [st|f] eqn:EP; [|done].
  cbn [mbind outcome_bind].
  destruct (Emit _ _ _ _ _ _) as [written|f] eqn:EE; [|done].
  cbn [mbind outcome_bind]. intros [= <-] _. exists ArbHash, st, written. done.
Qed.

Lemma Ok_inj {A} (a b : A) : Ok a = Ok b → a = b.
Proof. by intros [= ->]. Qed.

Lemma printf_percent_s p : printf (C "%s") [arg_s p] = cstr p.
Proof. cbn. apply app_nil_r. Qed.

Lemma Emit_shape Settings ArbHash F Fc D Dc written :
  Emit Settings ArbHash F Fc D Dc = Ok written →
  ∃ defines typedefs boilerplate,
    for_Index (Z.to_nat Dc) 0 (EmitDefine ArbHash D) = Ok defines ∧
    for_Index (Z.to_nat Fc) 0 (EmitFunction ArbHash F TypedefLine) = Ok typedefs ∧
    (if Boilerplate Settings
     then EmitBoilerplate ArbHash F Fc (default [] (Prefix Settings))
     else Ok []) = Ok boilerplate ∧
    written =
      printf Generated_guard [arg_llu (WriteTimestamp Settings)] ++
      (if Boilerplate Settings
       then printf Generated_version
              (replicate 6 (arg_s (default [] (Prefix Settings))))
       else []) ++
      cstr Generated_baseline ++ defines ++ Spacer ++
      cstr Generated_debugproc ++ typedefs ++ boilerplate.
Proof.
  unfold Emit.
  destruct (for_Index _ _ (EmitDefine _ _)) as [defines|]; [|done].
  destruct (for_Index _ _ (EmitFunction _ _ _)) as [typedefs|]; [|done].
  cbn [mbind outcome_bind].
  replace (match Prefix Settings with Some p => p | None => [] end)
    with (default [] (Prefix Settings)) by by destruct (Prefix Settings).
  destruct (Boilerplate Settings).
  - destruct (EmitBoilerplate _ _ _ _) as [boilerplate|]; [|done].
    cbn [mbind outcome_bind]. rewrite !printf_percent_s.
    intros E%Ok_inj. subst written. exists defines, typedefs, boilerplate.
    repeat split; reflexivity.
  - cbn [mbind outcome_bind]. rewrite !printf_percent_s.
    intros E%Ok_inj. subst written. exists defines, typedefs, [].
    repeat split; reflexivity.
Qed.

Lemma guard_prefix ts :
  guard_lines `prefix_of` printf Generated_guard [arg_llu ts].
Proof.
  exists (C "\n// NOTE: This file is generated automatically. Do not edit.\n// @GENERATED: "
            ++ decimal ts ++ C "\n\n").
  reflexivity.
Qed.

Lemma closing_suffix p :
  LF :: closing_line `suffix_of` printf Generated_close [arg_s p].
Proof.
  exists (C "\n  " ++ cstr p ++
          C "UnloadOpenGL();\n\n  Version->Major = 0;\n  Version->Minor = 0;\n  if (glGetIntegerv)\n  {\n    glGetIntegerv(GL_MAJOR_VERSION, &Version->Major);\n    glGetIntegerv(GL_MINOR_VERSION, &Version->Minor);\n  }\n}\n").
  rewrite <- !app_assoc. reflexivity.
Qed.

(** ** Parameter lists stay on one line *)

Lemma skip_line_one_line p :
  LF ∉ take (ptrdiff (skip_line p) p) (cstr p).
Proof.
  unfold ptrdiff. induction p as [|c p IH]; [apply not_elem_of_nil|].
  cbn [skip_line cstr]. destruct (nonzero c) eqn:Hc; cbn [andb].
  - destruct (IsNewline c) eqn:Hn; cbn [negb].
    + rewrite Nat.sub_diag. apply not_elem_of_nil.
    + pose proof (skip_line_length p).
      replace (length (c :: p) - length (skip_line p))%nat
        with (S (length p - length (skip_line p))) by (cbn; lia).
      cbn [take firstn]. apply not_elem_of_cons. split; [|done].
      intros <-. done.
  - rewrite Nat.sub_diag. apply not_elem_of_nil.
Qed.

Lemma ParseArbToken_Parameters Tokenizer :
  Arb.Parameters (ParseArbToken Tokenizer).1 = zeroString.
Proof. unfold ParseArbToken. by destruct (IsWhitespace _ && _). Qed.

Lemma one_line_zeroString : one_line zeroString.
Proof. apply not_elem_of_nil. Qed.

Lemma AddTokenArb_Forall (P : GLArbToken → Prop) ArbHash Token ArbHash' Result :
  AddTokenArb ArbHash Token = (ArbHash', Result) →
  Forall P ArbHash → P Token → Forall P ArbHash'.
Proof.
  intros E HF HP. destruct Result as [i|].
  - apply AddTokenArb_Some in E as (_ & _ & _ & ->). by apply Forall_insert.
  - unfold AddTokenArb in E. destruct (probe_empty _ _ _ _ _ _) as [Index It].
    destruct (It <? TOKEN_HASH_SIZE); [done|]. by injection E as <-.
Qed.

Lemma Registry_body_one_line ArbHash n Tokenizer ArbHash' n' Tokenizer' :
  Registry_body ArbHash n Tokenizer = Ok (ArbHash', n', Tokenizer') →
  Forall (λ e, one_line (Arb.Parameters e)) ArbHash →
  Forall (λ e, one_line (Arb.Parameters e)) ArbHash'.
Proof.
  intros E HF. unfold Registry_body in E.
  destruct (ParseArbToken Tokenizer) as [Token0 T0].
  destruct (Equal (Arb.Value Token0) (C "GLAPI")).
  - destruct (ParseArbToken T0) as [Token1 T1].
    set (T2 := if Equal (Arb.Value Token1) (C "const")
               then (ParseArbToken T1).2 else T1) in E.
    pose proof (ParseArbToken_Parameters (ParseArbToken T2).2) as HP.
    destruct (ParseArbToken (ParseArbToken T2).2) as [Token3 T3].
    cbn [fst] in HP.
    destruct (GetToken ArbHash _); [by injection E as <- _ _|].
    destruct (AddTokenArb ArbHash _) as [ArbHash1 [Result|]] eqn:EA; [|done].
    injection E as <- _ _. apply Forall_insert.
    + eapply AddTokenArb_Forall; [done..|]. cbn. rewrite HP.
      apply one_line_zeroString.
    + cbn. apply skip_line_one_line.
  - destruct (StartsWith (Arb.Value Token0) (C "#define"));
      [|by injection E as <- _ _].
    pose proof (ParseArbToken_Parameters T0) as HP.
    destruct (ParseArbToken T0) as [Token1 T1]. cbn [fst] in HP.
    destruct (GetToken ArbHash _); [by injection E as <- _ _|].
    destruct (AddTokenArb ArbHash _) as [ArbHash1 [Result|]] eqn:EA; [|done].
    injection E as <- _ _. apply Forall_insert.
    + eapply AddTokenArb_Forall; [done..|]. cbn. rewrite HP.
      apply one_line_zeroString.
    + cbn. rewrite HP. apply one_line_zeroString.
Qed.

Lemma Registry_loop_one_line fuel : ∀ ArbHash n Tokenizer ArbHash' n',
  Registry_loop fuel ArbHash n Tokenizer = Ok (ArbHash', n') →
  Forall (λ e, one_line (Arb.Parameters e)) ArbHash →
  Forall (λ e, one_line (Arb.Parameters e)) ArbHash'.
Proof.
  induction fuel as [|fuel IH]; intros ArbHash n Tokenizer ArbHash' n' E HF;
    cbn [Registry_loop] in E.
  - destruct (nonzero _); [done|]. by injection E as <- _.
  - destruct (nonzero _); [|by injection E as <- _].
    destruct (Registry_body ArbHash n Tokenizer) as [[[ArbHash1 n1] T1]|] eqn:EB;
      [|done].
    cbn [mbind outcome_bind] in E. eapply IH; [done|].
    by eapply Registry_body_one_line.
Qed.

Lemma RegistryTable_one_line W Settings ArbHash i :
  RegistryTable W Settings = Some ArbHash →
  one_line (Arb.Parameters (slot zeroArbToken ArbHash i)).
Proof.
  unfold RegistryTable. destruct (ReadMultiFiles _ _ _).1 as [ArbData|]; [|done].
  destruct (Registry_loop _ _ _ _) as [[ArbHash1 n]|] eqn:E; [|done].
  intros [= <-].
  assert (HF : Forall (λ e, one_line (Arb.Parameters e)) ArbHash1).
  { eapply Registry_loop_one_line; [done|].
    apply Forall_replicate, one_line_zeroString. }
  unfold slot. destruct (ArbHash1 !! Z.to_nat i) as [e|] eqn:Ee.
  - cbn. by eapply (Forall_lookup_1 _ _ _ _ HF).
  - apply one_line_zeroString.
Qed.

(** ** The last line of the output without boilerplate *)

Lemma ends_with_typedef_app z s : ends_with_typedef s → ends_with_typedef (z ++ s).
Proof.
  intros (X & Y & -> & HY). exists (z ++ X), Y. by rewrite <- app_assoc.
Qed.

Lemma TypedefLine_text ArbToken Name :
  printf
    (Cs ["typedef %"; PRI_STR; " (APIENTRYP PFN%sPROC) %"; PRI_STR; "\n"]%string)
    [arg_slice (Arb.ReturnType ArbToken); arg_s Name;
     arg_slice (Arb.Parameters ArbToken)] =
  C "typedef " ++
  take (Length (Arb.ReturnType ArbToken)) (cstr (Chars (Arb.ReturnType ArbToken))) ++
  C " (APIENTRYP PFN" ++ cstr Name ++ C "PROC) " ++
  take (Length (Arb.Parameters ArbToken)) (cstr (Chars (Arb.Parameters ArbToken))) ++
  [LF].
Proof. reflexivity. Qed.

Lemma TypedefLine_ends ArbToken s :
  TypedefLine ArbToken = Ok s → one_line (Arb.Parameters ArbToken) →
  ends_with_typedef s.
Proof.
  unfold TypedefLine, UpperCase, sprintf512. intros E HP.
  destruct (Length (Arb.FunctionName ArbToken) <? 512)%nat; [|done].
  cbn [mbind outcome_bind] in E. rewrite TypedefLine_text in E.
  destruct (_ <? 512)%nat; [|done]. apply Ok_inj in E as <-.
  match goal with
  | |- ends_with_typedef (?a ++ ?b ++ ?c ++ ?d ++ _ ++ ?e ++ [LF]) =>
      exists (a ++ b ++ c ++ d ++ C "PROC"), (" "%char :: e)
  end.
  split.
  - rewrite <- !app_assoc. reflexivity.
  - apply not_elem_of_cons. split; [done|]. exact HP.
Qed.

Lemma debugproc_ends : ends_with_typedef (cstr Generated_debugproc).
Proof.
  exists (removelast (removelast (removelast (cstr Generated_debugproc)))), (C ";").
  split; [vm_compute; reflexivity|].
  intros H. apply list_elem_of_singleton in H. discriminate.
Qed.

Lemma for_Index_ends n : ∀ Index body out,
  (∀ i o, body i = Ok o → o = [] ∨ ends_with_typedef o) →
  for_Index n Index body = Ok out → out = [] ∨ ends_with_typedef out.
Proof.
  induction n as [|n IH]; intros Index body out Hb E; cbn [for_Index] in E.
  - apply Ok_inj in E as <-. by left.
  - destruct (body Index) as [o|] eqn:Eo; [|done].
    cbn [mbind outcome_bind] in E.
    destruct (for_Index n (Index + 1) body) as [rest|] eqn:Er; [|done].
    cbn [mbind outcome_bind] in E. apply Ok_inj in E as <-.
    destruct (IH _ _ _ Hb Er) as [->|He].
    + rewrite app_nil_r. by eapply Hb.
    + right. by apply ends_with_typedef_app.
Qed.

Lemma closing_line_not_last s :
  ends_with_typedef s → ¬ LF :: closing_line `suffix_of` s.
Proof.
  intros (X & Y & -> & HY) [Z E].
  change (LF :: closing_line)
    with ((LF :: C "#endif // INCLUDE_OPENGL_GENERATED_H") ++ [LF]) in E.
  rewrite (app_assoc Z), (app_comm_cons Y), (app_assoc X) in E.
  apply app_inj_tail in E as [E _].
  apply not_elem_of_app_cons_inv_r in E as (_ & E & _); [done| |done].
  rewrite list_elem_of_In. cbn. intuition discriminate.
Qed.

Lemma EmitTypedef_ends W Settings ArbHash F i o :
  RegistryTable W Settings = Some ArbHash →
  EmitFunction ArbHash F TypedefLine i = Ok o → o = [] ∨ ends_with_typedef o.
Proof.
  intros HR. unfold EmitFunction. destruct (table_at F i) as [Token|]; [|done].
  cbn [mbind outcome_bind]. destruct (GetToken ArbHash (Hash Token)) as [a|].
  - intros E. right. eapply TypedefLine_ends; [done|].
    by eapply RegistryTable_one_line.
  - intros E%Ok_inj. by left.
Qed.

Lemma Emit_with_boilerplate Settings ArbHash F Fc D Dc written :
  Boilerplate Settings = true →
  Emit Settings ArbHash F Fc D Dc = Ok written →
  LF :: closing_line `suffix_of` written.
Proof.
  intros HB HE.
  destruct (Emit_shape _ _ _ _ _ _ _ HE)
    as (defines & typedefs & boilerplate & _ & _ & Hb & ->).
  rewrite HB in Hb. unfold EmitBoilerplate in Hb.
  destruct (for_Index _ _ (EmitFunction _ _ RedefineLine)) as [redefines|];
    [|done].
  destruct (for_Index _ _ (EmitFunction _ _ GlobalLine)) as [globals|];
    [|done].
  destruct (for_Index _ _ (EmitFunction _ _ (GetProcLine _))) as [getprocs|];
    [|done].
  cbn [mbind outcome_bind] in Hb. apply Ok_inj in Hb as <-.
  do 14 apply suffix_app_r. apply closing_suffix.
Qed.

Lemma Emit_without_boilerplate Settings ArbHash F Fc D Dc written :
  Boilerplate Settings = false →
  Emit Settings ArbHash F Fc D Dc = Ok written →
  ∃ defines typedefs,
    for_Index (Z.to_nat Fc) 0 (EmitFunction ArbHash F TypedefLine) = Ok typedefs ∧
    written =
      printf Generated_guard [arg_llu (WriteTimestamp Settings)] ++
      cstr Generated_baseline ++ defines ++ Spacer ++
      cstr Generated_debugproc ++ typedefs.
Proof.
  intros HB HE.
  destruct (Emit_shape _ _ _ _ _ _ _ HE)
    as (defines & typedefs & boilerplate & _ & Ht & Hb & ->).
  rewrite HB in Hb |- *. apply Ok_inj in Hb as <-.
  exists defines, typedefs. split; [done|].
  rewrite app_nil_l, app_nil_r. reflexivity.
Qed.

(** C10. Every header the generator writes begins with the two lines that
    open the include guard.  With boilerplate enabled it ends with the line
    [#endif // INCLUDE_OPENGL_GENERATED_H]; with boilerplate disabled the
    output is the guard, the baseline block, the macro lines, the spacer,
    the debug-callback typedef and the function-pointer typedefs and nothing
    after them, so that its last line is a typedef and not the closing
    [#endif]: the guard stays open. *)
Theorem include_guard_closed_only_with_boilerplate
    (qsort : (GLToken → GLToken → Z) → list GLToken → list GLToken)
    (Indeterminate : GLString) (W : World) (Settings : GLSettings)
    (r : GenResult) :
  GenerateOpenGLHeader qsort Indeterminate W Settings = Ok r →
  Success r = 0 →
  ∃ written,
    OutputFile r = Some written ∧
    guard_lines `prefix_of` written ∧
    (Boilerplate Settings = true → LF :: closing_line `suffix_of` written) ∧
    (Boilerplate Settings = false →
       (∃ defines typedefs,
          written =
            printf Generated_guard [arg_llu (WriteTimestamp Settings)] ++
            cstr Generated_baseline ++ defines ++ Spacer ++
            cstr Generated_debugproc ++ typedefs ∧
          (typedefs = [] ∨ ends_with_typedef typedefs)) ∧
       ends_with_typedef written ∧
       ¬ LF :: closing_line `suffix_of` written).
Proof.
  intros E HS.
  destruct (GenerateOpenGLHeader_success _ _ _ _ _ E HS)
    as (ArbHash & st & written & HR & _ & HE & HO & _).
  exists written. split; [done|]. split.
  { destruct (Emit_shape _ _ _ _ _ _ _ HE) as (? & ? & ? & _ & _ & _ & ->).
    apply prefix_app_r, guard_prefix. }
  split; [intros HB; by eapply Emit_with_boilerplate|].
  intros HB.
  destruct (Emit_without_boilerplate _ _ _ _ _ _ _ HB HE)
    as (defines & typedefs & Ht & ->).
  assert (Hty : typedefs = [] ∨ ends_with_typedef typedefs).
  { eapply for_Index_ends; [|exact Ht]. intros i o. by eapply EmitTypedef_ends. }
  assert (Hends : ends_with_typedef
    (printf Generated_guard [arg_llu (WriteTimestamp Settings)] ++
     cstr Generated_baseline ++ defines ++ Spacer ++
     cstr Generated_debugproc ++ typedefs)).
  { do 4 apply ends_with_typedef_app. destruct Hty as [->|Hty].
    - rewrite app_nil_r. apply debugproc_ends.
    - by apply ends_with_typedef_app. }
  split; [exists defines, typedefs; split; [reflexivity|exact Hty]|].
  split; [exact Hends|]. by apply closing_line_not_last.
Qed.

(** The example without boilerplate: the header it writes does not end with
    the closing line of the guard. *)
Lemma include_guard_closed_only_with_boilerplate_witness :
  ∃ written,
    written_by (main_generate merge_qsort zeroString
                  (world_of example_files 0 1) (example_settings false)) =
      Some written ∧
    guard_lines `prefix_of` written ∧
    ¬ LF :: closing_line `suffix_of` written.
Proof.
  destruct (GenerateOpenGLHeader merge_qsort zeroString
              (world_of example_files 0 1) (example_settings false))
    as [r|f] eqn:E; [|vm_compute in E; discriminate].
  assert (HS : Success r = 0).
  { vm_compute in E. apply Ok_inj in E. by subst r. }
  destruct (include_guard_closed_only_with_boilerplate
              merge_qsort zeroString (world_of example_files 0 1)
              (example_settings false) r E HS)
    as (written & HO & Hg & _ & Hno).
  exists written. split.
  - unfold main_generate. cbn [ForceGenerate example_settings orb].
    change (GenerateOpenGLHeader merge_qsort zeroString
              (world_of example_files 0 1) (example_settings false) = Ok r) in E.
    cbn [Headers Output Prefix Inputs Ignores Boilerplate Silent example_settings].
    change (last_write_time (world_of example_files 0 1) (C "out.h")) with 0.
    unfold example_settings in E. rewrite E. exact HO.
  - split; [done|]. by apply Hno.
Defined.

(** ** The result sets only grow, and the counters keep up *)

Lemma grown_refl t c : grown 0 t c t c.
Proof.
  split; [done|]. exists 0. split; [lia|]. split; [by rewrite Z.add_0_r|].
  split; [done|lia].
Qed.

Lemma grown_trans k1 k2 t c t1 c1 t2 c2 :
  grown k1 t c t1 c1 → grown k2 t1 c1 t2 c2 → grown (k1 + k2) t c t2 c2.
Proof.
  intros [H1 (a1 & Ha1 & Hc1 & Hr1 & Hp1)] [H2 (a2 & Ha2 & Hc2 & Hr2 & Hp2)].
  split; [by auto|]. exists (a1 + a2). split; [lia|]. split.
  - rewrite Hc2, <- Zplus_mod_idemp_l, Hc1, Zplus_mod_idemp_l. f_equal. lia.
  - split; [by auto|lia].
Qed.

Lemma grown_mono k k' t c t' c' : k ≤ k' → grown k t c t' c' → grown k' t c t' c'.
Proof.
  intros Hk [H (a & Ha & ?)]. split; [done|]. exists a. split; [lia|done].
Qed.

Lemma populated_insert t i A Token :
  t !! i = Some A → Hash A = 0 →
  (populated (<[i:=Token]> t) ≤ S (populated t))%nat ∧
  ∀ h, h ≠ 0 → h ∈ hashes t → h ∈ hashes (<[i:=Token]> t).
Proof.
  intros Hi HA. unfold populated. rewrite hashes_insert.
  assert (Hh : hashes t !! i = Some 0) by (rewrite <- HA; by apply hashes_lookup).
  pose proof (insert_Permutation_swap (hashes t) i (Hash Token) 0 Hh) as P.
  split.
  - assert (E : length (filter (λ h, h ≠ 0) (0 :: <[i:=Hash Token]> (hashes t))) =
               length (filter (λ h, h ≠ 0) (Hash Token :: hashes t)))
      by by rewrite P.
    rewrite filter_cons_False in E by (intros H; by apply H). rewrite E.
    rewrite filter_cons. destruct (decide (Hash Token ≠ 0)); cbn; lia.
  - intros h Hh0 Hin.
    assert (Hin' : h ∈ 0 :: <[i:=Hash Token]> (hashes t)).
    { rewrite P. by apply list_elem_of_further. }
    apply elem_of_cons in Hin' as [->|]; done.
Qed.

Lemma AddToken_grown t c Token :
  grown 1 t c (AddToken t Token).1 ((c + 1) mod UINT_MAX1).
Proof.
  assert (Hc : ((c + 1) mod UINT_MAX1) mod UINT_MAX1 = (c + 1) mod UINT_MAX1)
    by by rewrite Zmod_mod.
  assert (Hr : 0 ≤ (c + 1) mod UINT_MAX1 < UINT_MAX1)
    by (apply Z.mod_pos_bound; reflexivity).
  destruct (first_empty_or_none Hash zeroToken t (Hash Token)) as [[k Hfe]|Hfull].
  - rewrite (AddToken_found _ _ _ Hfe). cbn [fst].
    destruct Hfe as (_ & Hz & _). unfold probed, slot in Hz.
    destruct (t !! Z.to_nat (probe_index (Hash Token) k)) as [A|] eqn:EA.
    + destruct (populated_insert t _ A Token EA Hz) as [Hp Hin].
      split; [done|]. exists 1. split; [lia|]. split; [done|]. split; [done|lia].
    + rewrite list_insert_ge by by apply lookup_ge_None.
      split; [done|]. exists 1. split; [lia|]. split; [done|]. split; [done|lia].
  - rewrite (AddToken_full _ _ Hfull). cbn [fst].
    split; [done|]. exists 1. split; [lia|]. split; [done|]. split; [done|lia].
Qed.

Lemma ScanFunction_scanned ArbHash Settings Token st st' :
  ScanFunction ArbHash Settings Token st = Ok st' → scanned 1 st st'.
Proof.
  assert (R : scanned 1 st st).
  { split; apply (grown_mono 0); try lia; apply grown_refl. }
  intros E. apply ScanFunction_Ok in E as ([|] & _ & ->); [|done].
  destruct (Contains _ _); cbn [negb]; [done|].
  destruct (IsKnownOrIgnoredToken _ _ _ _) as [[] err].
  - split; cbn; [apply AddToken_grown|apply R].
  - split; cbn; apply R.
Qed.

Lemma ScanDefine_scanned ArbHash Settings Token st :
  scanned 1 st (ScanDefine ArbHash Settings Token st).
Proof.
  assert (R : scanned 1 st st).
  { split; apply (grown_mono 0); try lia; apply grown_refl. }
  unfold ScanDefine. destruct (IsDefineCandidate Token); [|done].
  destruct (Contains _ _); cbn [negb]; [done|].
  destruct (IsKnownOrIgnoredToken _ _ _ _) as [[] err].
  - split; cbn; [apply R|apply AddToken_grown].
  - split; cbn; apply R.
Qed.

(** A token is a candidate for one result set at most, so one iteration
    increments each counter at most once. *)
Lemma ParseFile_body_scanned ArbHash Settings st Tokenizer st' Tokenizer' :
  ParseFile_body ArbHash Settings st Tokenizer = Ok (st', Tokenizer') →
  scanned 1 st st'.
Proof.
  intros E. apply ParseFile_body_Ok in E as (st1 & E1 & -> & _).
  set (Token := (ParseToken Tokenizer).1) in *.
  pose proof (ScanFunction_scanned _ _ _ _ _ E1) as [HF HD].
  pose proof (ScanDefine_scanned ArbHash Settings Token st1) as [HF' HD'].
  apply ScanFunction_Ok in E1 as (b & Ef & ->).
  unfold ScanDefine in *. destruct b.
  - rewrite (candidates_exclusive _ Ef) in *. by split.
  - by split.
Qed.

Lemma ParseToken_progress Tokenizer :
  nonzero (deref (At Tokenizer)) = true →
  (length (At (ParseToken Tokenizer).2) < length (At Tokenizer))%nat.
Proof.
  cbn. destruct (At Tokenizer) as [|c p]; [done|]. cbn [deref hd].
  intros Hc. cbn [skip_to_token]. rewrite Hc. cbn [andb].
  destruct (IsWhitespaceOrNewline c || negb (IsIdentifier c)) eqn:E.
  - pose proof (skip_token_length (skip_to_token p)).
    pose proof (skip_to_token_length p). cbn. lia.
  - apply orb_false_iff in E as [_ E]. apply negb_false_iff in E.
    cbn [skip_token]. rewrite Hc, E. cbn [andb].
    pose proof (skip_token_length p). cbn. lia.
Qed.

Lemma scanned_trans k1 k2 st st1 st2 :
  scanned k1 st st1 → scanned k2 st1 st2 → scanned (k1 + k2) st st2.
Proof. intros [? ?] [? ?]. split; by eapply grown_trans. Qed.

Lemma scanned_mono k k' st st' : k ≤ k' → scanned k st st' → scanned k' st st'.
Proof. intros ? [? ?]. split; by eapply grown_mono. Qed.

Lemma ParseFile_loop_scanned ArbHash Settings fuel : ∀ st Tokenizer st',
  ParseFile_loop fuel ArbHash Settings st Tokenizer = Ok st' →
  scanned (Z.of_nat (length (At Tokenizer))) st st'.
Proof.
  induction fuel as [|fuel IH]; intros st Tokenizer st' E; cbn [ParseFile_loop] in E.
  - destruct (nonzero _); [done|]. apply Ok_inj in E as <-.
    apply (scanned_mono 0); [lia|]. split; apply grown_refl.
  - destruct (nonzero _) eqn:Hnz.
    + pose proof (ParseToken_progress Tokenizer Hnz) as Hp.
      destruct (ParseFile_body _ _ st Tokenizer) as [[st1 T1]|] eqn:Eb; [|done].
      cbn [mbind outcome_bind] in E.
      pose proof (ParseFile_body_scanned _ _ _ _ _ _ Eb) as Hb.
      apply ParseFile_body_Ok in Eb as (_ & _ & _ & ->).
      apply IH in E.
      eapply scanned_mono; [|by eapply scanned_trans]. lia.
    + apply Ok_inj in E as <-.
      apply (scanned_mono 0); [lia|]. split; apply grown_refl.
Qed.

Lemma input_bytes_nonneg W names : 0 ≤ input_bytes W names.
Proof.
  induction names as [|n names IH]; cbn [input_bytes]; [done|].
  destruct (ReadEntireFile W n []).1; lia.
Qed.

(** Opening the output file for writing can only take bytes away from the
    input files. *)
Lemma input_bytes_fopen_w W Filename names :
  input_bytes (fopen_w W Filename) names ≤ input_bytes W names.
Proof.
  unfold fopen_w. destruct (writable W Filename); [|done].
  induction names as [|n names IH]; cbn [input_bytes]; [done|].
  unfold ReadEntireFile. cbn [file_contents].
  destruct (List.list_eq_dec ascii_dec n Filename) as [->|_].
  - change (0 <? length (@nil ascii))%nat with false. cbn [fst].
    destruct (file_contents W Filename) as [data|]; cbn [fst]; [|lia].
    destruct (0 <? length data)%nat; cbn [fst]; lia.
  - destruct (file_contents W n) as [data|]; cbn [fst]; [|lia].
    destruct (0 <? length data)%nat; cbn [fst]; lia.
Qed.

Lemma ParseFiles_scanned W ArbHash Settings names : ∀ st st',
  ParseFiles W names ArbHash Settings st = Ok st' →
  scanned (input_bytes W names) st st'.
Proof.
  induction names as [|Filename names IH]; intros st st' E; cbn [ParseFiles] in E.
  { apply Ok_inj in E as <-. split; apply grown_refl. }
  cbn [input_bytes].
  destruct (ParseFile W Filename ArbHash Settings st) as [[s st1]|] eqn:E1; [|done].
  cbn [mbind outcome_bind] in E. apply IH in E.
  eapply scanned_trans; [|done].
  unfold ParseFile, ReadEntireFile in *.
  destruct (file_contents W Filename) as [data|].
  - destruct (0 <? length data)%nat; cbn [fst] in *.
    + destruct (ParseFile_loop _ _ _ _ _) as [st2|] eqn:E2; [|done].
      cbn [mbind outcome_bind] in E1. injection E1 as _ <-.
      apply ParseFile_loop_scanned in E2. exact E2.
    + injection E1 as _ <-. split; apply grown_refl.
  - cbn [fst] in *. injection E1 as _ <-. split; apply grown_refl.
Qed.

(** ** Where a hash ends up after the sort *)

Lemma filter_nonzero_all (l : list Z) :
  (∀ x, x ∈ l → x ≠ 0) → filter (λ h, h ≠ 0) l = l.
Proof.
  induction l as [|x l IH]; intros H; [done|].
  rewrite filter_cons_True by (apply H, list_elem_of_here).
  rewrite IH; [done|]. intros y Hy. apply H. by apply list_elem_of_further.
Qed.

Lemma descending_position (l : list Z) h :
  StronglySorted (λ x y, y ≤ x) l → 0 < h → h ∈ l →
  ∃ j, l !! j = Some h ∧ (j < length (filter (λ h : Z, h ≠ 0%Z) l))%nat.
Proof.
  intros Hs Hh Hin. apply list_elem_of_split in Hin as (l1 & l2 & ->).
  exists (length l1). split; [apply list_lookup_middle; done|].
  apply StronglySorted_app in Hs as (Hle & _ & _).
  rewrite filter_app, filter_cons_True by lia.
  rewrite filter_nonzero_all.
  - rewrite length_app. cbn. lia.
  - intros x Hx. pose proof (Hle x h Hx (list_elem_of_here _ _)). lia.
Qed.

Lemma populated_Permutation t t' :
  hashes t ≡ₚ hashes t' → populated t = populated t'.
Proof. intros P. unfold populated. by rewrite P. Qed.

(** A non-zero hash of a result set that holds no more populated slots than
    its counter says is, after the sort, in one of the slots the emitter
    visits. *)
Lemma sorted_slot_visited qsort t h count :
  qsort_spec qsort → 0 < h → h ∈ hashes t →
  Z.of_nat (populated t) ≤ count →
  ∃ j Token, (j < Z.to_nat count)%nat ∧
    qsort TokenComparer t !! j = Some Token ∧ Hash Token = h.
Proof.
  intros Hq Hh Hin Hc.
  assert (P : hashes t ≡ₚ hashes (qsort TokenComparer t)).
  { unfold hashes. apply Permutation_map, Hq. }
  destruct (descending_position (hashes (qsort TokenComparer t)) h)
    as (j & Hj & Hlt); [by apply sorted_hashes_descending|done|by rewrite <- P|].
  fold (populated (qsort TokenComparer t)) in Hlt.
  rewrite <- (populated_Permutation _ _ P) in Hlt.
  unfold hashes in Hj. rewrite list_lookup_fmap in Hj.
  destruct (qsort TokenComparer t !! j) as [Token|] eqn:E; [|done].
  injection Hj as Hj. exists j, Token. split; [lia|done].
Qed.

(** ** What a loop of the emitter writes for one slot *)

Lemma for_Index_lookup n : ∀ Index body out j,
  for_Index n Index body = Ok out → (j < n)%nat →
  ∃ pre o post, body (Index + Z.of_nat j) = Ok o ∧ out = pre ++ o ++ post.
Proof.
  induction n as [|n IH]; intros Index body out j E Hj; [lia|].
  cbn [for_Index] in E.
  destruct (body Index) as [o|] eqn:Eo; [|done]. cbn [mbind outcome_bind] in E.
  destruct (for_Index n (Index + 1) body) as [rest|] eqn:Er; [|done].
  cbn [mbind outcome_bind] in E. apply Ok_inj in E as <-.
  destruct j as [|j].
  - exists [], o, rest. rewrite Z.add_0_r. done.
  - destruct (IH _ _ _ j Er) as (pre & o' & post & Ho' & ->); [lia|].
    exists (o ++ pre), o', post. split.
    + rewrite <- Ho'. f_equal. lia.
    + by rewrite <- app_assoc.
Qed.

Lemma table_at_lookup t j Token :
  t !! j = Some Token → table_at t (Z.of_nat j) = Ok Token.
Proof. intros E. unfold table_at. by rewrite Nat2Z.id, E. Qed.

Lemma occurs_in_app_r o s z : occurs_in o s → occurs_in o (z ++ s).
Proof.
  intros (pre & post & ->). exists (z ++ pre), post. by rewrite <- app_assoc.
Qed.

Lemma occurs_in_app_l o s z : occurs_in o s → occurs_in o (s ++ z).
Proof.
  intros (pre & post & ->). exists pre, (post ++ z). by rewrite <- !app_assoc.
Qed.

Lemma starts_app o post : starts o (o ++ post) = true.
Proof.
  induction o as [|a o IH]; [done|]. cbn. by rewrite Ascii.eqb_refl, IH.
Qed.

Lemma occurs_in_occursb o s : occurs_in o s → occursb o s = true.
Proof.
  intros (pre & post & ->). induction pre as [|c pre IH].
  - cbn [app]. destruct (o ++ post) eqn:E; cbn [occursb]; rewrite <- E.
    + by rewrite starts_app.
    + by rewrite starts_app.
  - cbn [app occursb]. rewrite IH. apply orb_true_r.
Qed.

(** ** The pre-seeded symbols *)

Lemma Seed_facts I err :
  FunctionCount (Seed I err) = 1 ∧ DefinesCount (Seed I err) = 2 ∧
  populated (FunctionsHash (Seed I err)) = 1%nat ∧
  populated (DefinesHash (Seed I err)) = 2%nat ∧
  hash_of_name "GL_MAJOR_VERSION" ∈ hashes (DefinesHash (Seed I err)) ∧
  hash_of_name "GL_MINOR_VERSION" ∈ hashes (DefinesHash (Seed I err)) ∧
  hash_of_name "glGetIntegerv" ∈ hashes (FunctionsHash (Seed I err)).
Proof.
  split; [reflexivity|]. split; [reflexivity|].
  split; [vm_compute; reflexivity|]. split; [vm_compute; reflexivity|].
  split; [|split].
  - apply list_elem_of_lookup.
    exists (Z.to_nat (probe_index (hash_of_name "GL_MAJOR_VERSION") 0)).
    vm_compute. reflexivity.
  - apply list_elem_of_lookup.
    exists (Z.to_nat (probe_index (hash_of_name "GL_MINOR_VERSION") 0)).
    vm_compute. reflexivity.
  - apply list_elem_of_lookup.
    exists (Z.to_nat (probe_index (hash_of_name "glGetIntegerv") 0)).
    vm_compute. reflexivity.
Qed.

Lemma Seed_Contains I err :
  Contains (DefinesHash (Seed I err)) (token_of "GL_MAJOR_VERSION") = true ∧
  Contains (DefinesHash (Seed I err)) (token_of "GL_MINOR_VERSION") = true ∧
  Contains (FunctionsHash (Seed I err)) (token_of "glGetIntegerv") = true.
Proof. repeat split; vm_compute; reflexivity. Qed.

Lemma grown_counter k t c t' c' :
  grown k t c t' c' → 0 ≤ c → c + k < UINT_MAX1 →
  Z.of_nat (populated t) ≤ c → Z.of_nat (populated t') ≤ c'.
Proof.
  intros [_ (a & Ha & Hc & Hr & Hp)] H0 Hk Hpop.
  assert (Hc' : 0 ≤ c' < UINT_MAX1) by (apply Hr; lia).
  rewrite (Z.mod_small c'), (Z.mod_small (c + a)) in Hc by lia. lia.
Qed.

(** A non-zero hash that the defines set held before the scan is written
    out as the line of the registry entry found for it. *)
Lemma define_emitted qsort ArbHash t c t' c' k h a defines :
  qsort_spec qsort → grown k t c t' c' → 0 ≤ c → c + k < UINT_MAX1 →
  Z.of_nat (populated t) ≤ c → 0 < h → h ∈ hashes t →
  GetToken ArbHash h = Some a →
  for_Index (Z.to_nat c') 0 (EmitDefine ArbHash (qsort TokenComparer t')) =
    Ok defines →
  occurs_in (MacroLine (slot zeroArbToken ArbHash a)) defines.
Proof.
  intros Hq Hg H0 Hk Hpop Hh Hin Hget Hfor.
  pose proof (grown_counter _ _ _ _ _ Hg H0 Hk Hpop) as Hc'.
  destruct Hg as [Hkeep _].
  destruct (sorted_slot_visited qsort t' h c' Hq Hh) as (j & Token & Hj & HT & HH);
    [apply Hkeep; [lia|done]|done|].
  destruct (for_Index_lookup _ _ _ _ j Hfor Hj) as (pre & o & post & Ho & ->).
  exists pre, post. f_equal. f_equal.
  rewrite Z.add_0_l in Ho. unfold EmitDefine in Ho.
  rewrite (table_at_lookup _ _ _ HT) in Ho. cbn [mbind outcome_bind] in Ho.
  rewrite HH in Ho. destruct (Z.eqb_spec h 0); [lia|].
  rewrite Hget in Ho. by apply Ok_inj in Ho.
Qed.

Lemma function_emitted qsort ArbHash t c t' c' k h a typedefs :
  qsort_spec qsort → grown k t c t' c' → 0 ≤ c → c + k < UINT_MAX1 →
  Z.of_nat (populated t) ≤ c → 0 < h → h ∈ hashes t →
  GetToken ArbHash h = Some a →
  for_Index (Z.to_nat c') 0
    (EmitFunction ArbHash (qsort TokenComparer t') TypedefLine) = Ok typedefs →
  ∃ line, TypedefLine (slot zeroArbToken ArbHash a) = Ok line ∧
          occurs_in line typedefs.
Proof.
  intros Hq Hg H0 Hk Hpop Hh Hin Hget Hfor.
  pose proof (grown_counter _ _ _ _ _ Hg H0 Hk Hpop) as Hc'.
  destruct Hg as [Hkeep _].
  destruct (sorted_slot_visited qsort t' h c' Hq Hh) as (j & Token & Hj & HT & HH);
    [apply Hkeep; [lia|done]|done|].
  destruct (for_Index_lookup _ _ _ _ j Hfor Hj) as (pre & o & post & Ho & ->).
  exists o. split; [|by exists pre, post].
  rewrite Z.add_0_l in Ho. unfold EmitFunction in Ho.
  rewrite (table_at_lookup _ _ _ HT) in Ho. cbn [mbind outcome_bind] in Ho.
  by rewrite HH, Hget in Ho.
Qed.

Lemma closing_names_seeds p :
  occurs_in
    (C "glGetIntegerv(GL_MAJOR_VERSION, &Version->Major);\n    glGetIntegerv(GL_MINOR_VERSION, &Version->Minor);")
    (printf Generated_close [arg_s p]).
Proof.
  exists (C "\n  " ++ cstr p ++
          C "UnloadOpenGL();\n\n  Version->Major = 0;\n  Version->Minor = 0;\n  if (glGetIntegerv)\n  {\n    "),
         (C "\n  }\n}\n\n#endif // INCLUDE_OPENGL_GENERATED_H\n").
  rewrite <- !app_assoc. reflexivity.
Qed.

Lemma Emit_boilerplate_names_seeds Settings ArbHash F Fc D Dc written :
  Boilerplate Settings = true →
  Emit Settings ArbHash F Fc D Dc = Ok written →
  occurs_in
    (C "glGetIntegerv(GL_MAJOR_VERSION, &Version->Major);\n    glGetIntegerv(GL_MINOR_VERSION, &Version->Minor);")
    written.
Proof.
  intros HB HE.
  destruct (Emit_shape _ _ _ _ _ _ _ HE)
    as (defines & typedefs & boilerplate & _ & _ & Hb & ->).
  rewrite HB in Hb. unfold EmitBoilerplate in Hb.
  destruct (for_Index _ _ (EmitFunction _ _ RedefineLine)) as [redefines|];
    [|done].
  destruct (for_Index _ _ (EmitFunction _ _ GlobalLine)) as [globals|];
    [|done].
  destruct (for_Index _ _ (EmitFunction _ _ (GetProcLine _))) as [getprocs|];
    [|done].
  cbn [mbind outcome_bind] in Hb. apply Ok_inj in Hb as <-.
  do 14 apply occurs_in_app_r. apply closing_names_seeds.
Qed.

(** C7, as amended.  Once the registry has been read, [GL_MAJOR_VERSION] and
    [GL_MINOR_VERSION] are put into the macro result set and
    [glGetIntegerv] into the function result set before any input file is
    scanned, whatever the inputs are.  In a run that succeeds, on input
    files that hold fewer than [2^32 - 2] bytes in all (so that the 32-bit
    counters of the result sets do not wrap), they are still there when the
    scan is over, and each of the three is written to the output, as the
    line of its registry entry or the typedef built from it, whenever the
    registry table has an entry for its hash, even when no input file
    mentions it.  With boilerplate enabled the fixed text of the
    initialisation routine names all three as well.  The output is fixed
    text and what the loops over the result sets write, and for a seeded
    symbol without a registry entry these loops write nothing at its slot,
    as for any other entry without one. *)
Theorem seeded_symbols_emitted_when_in_registry
    (qsort : (GLToken → GLToken → Z) → list GLToken → list GLToken)
    (Indeterminate : GLString) (W : World) (Settings : GLSettings)
    (r : GenResult) :
  qsort_spec qsort →
  input_bytes W (Inputs Settings) + 2 < UINT_MAX1 →
  GenerateOpenGLHeader qsort Indeterminate W Settings = Ok r →
  Success r = 0 →
  (∀ err,
     DefinesCount (Seed Indeterminate err) = 2 ∧
     FunctionCount (Seed Indeterminate err) = 1 ∧
     Contains (DefinesHash (Seed Indeterminate err))
       (token_of "GL_MAJOR_VERSION") = true ∧
     Contains (DefinesHash (Seed Indeterminate err))
       (token_of "GL_MINOR_VERSION") = true ∧
     Contains (FunctionsHash (Seed Indeterminate err))
       (token_of "glGetIntegerv") = true) ∧
  ∃ ArbHash st written,
    RegistryTable W Settings = Some ArbHash ∧
    ParseFiles (fopen_w W (Output Settings)) (Inputs Settings) ArbHash Settings
      (Seed Indeterminate (ReadMultiFiles W (Headers Settings) []).2) = Ok st ∧
    hash_of_name "GL_MAJOR_VERSION" ∈ hashes (DefinesHash st) ∧
    hash_of_name "GL_MINOR_VERSION" ∈ hashes (DefinesHash st) ∧
    hash_of_name "glGetIntegerv" ∈ hashes (FunctionsHash st) ∧
    OutputFile r = Some written ∧
    (∀ a, GetToken ArbHash (hash_of_name "GL_MAJOR_VERSION") = Some a →
          occurs_in (MacroLine (slot zeroArbToken ArbHash a)) written) ∧
    (∀ a, GetToken ArbHash (hash_of_name "GL_MINOR_VERSION") = Some a →
          occurs_in (MacroLine (slot zeroArbToken ArbHash a)) written) ∧
    (∀ a, GetToken ArbHash (hash_of_name "glGetIntegerv") = Some a →
          ∃ line, TypedefLine (slot zeroArbToken ArbHash a) = Ok line ∧
                  occurs_in line written) ∧
    (Boilerplate Settings = true →
       occurs_in
         (C "glGetIntegerv(GL_MAJOR_VERSION, &Version->Major);\n    glGetIntegerv(GL_MINOR_VERSION, &Version->Minor);")
         written) ∧
    (∃ defines typedefs boilerplate,
       for_Index (Z.to_nat (DefinesCount st)) 0
         (EmitDefine ArbHash (qsort TokenComparer (DefinesHash st))) =
         Ok defines ∧
       for_Index (Z.to_nat (FunctionCount st)) 0
         (EmitFunction ArbHash (qsort TokenComparer (FunctionsHash st))
            TypedefLine) = Ok typedefs ∧
       (if Boilerplate Settings
        then EmitBoilerplate ArbHash (qsort TokenComparer (FunctionsHash st))
               (FunctionCount st) (default [] (Prefix Settings))
        else Ok []) = Ok boilerplate ∧
       written =
         printf Generated_guard [arg_llu (WriteTimestamp Settings)] ++
         (if Boilerplate Settings
          then printf Generated_version
                 (replicate 6 (arg_s (default [] (Prefix Settings))))
          else []) ++
         cstr Generated_baseline ++ defines ++ Spacer ++
         cstr Generated_debugproc ++ typedefs ++ boilerplate) ∧
    (∀ name,
       name ∈ ["GL_MAJOR_VERSION"; "GL_MINOR_VERSION"; "glGetIntegerv"]%string →
       GetToken ArbHash (hash_of_name name) = None →
       ∀ TokenHash Index Token line,
         table_at TokenHash Index = Ok Token →
         Hash Token = hash_of_name name →
         EmitDefine ArbHash TokenHash Index = Ok [] ∧
         EmitFunction ArbHash TokenHash line Index = Ok []).
Proof.
  intros Hq Hbytes E HS. split.
  { intros err. split; [reflexivity|]. split; [reflexivity|]. apply Seed_Contains. }
  destruct (GenerateOpenGLHeader_success _ _ _ _ _ E HS)
    as (ArbHash & st & written & HR & HP & HE & HO & _).
  exists ArbHash, st, written. split; [done|]. split; [done|].
  assert (Hboiler : Boilerplate Settings = true →
    occurs_in
      (C "glGetIntegerv(GL_MAJOR_VERSION, &Version->Major);\n    glGetIntegerv(GL_MINOR_VERSION, &Version->Minor);")
      written) by (intros HB; by eapply Emit_boilerplate_names_seeds).
  apply ParseFiles_scanned in HP as [HF HD].
  assert (Hskip : ∀ name,
    name ∈ ["GL_MAJOR_VERSION"; "GL_MINOR_VERSION"; "glGetIntegerv"]%string →
    GetToken ArbHash (hash_of_name name) = None →
    ∀ TokenHash Index Token line,
      table_at TokenHash Index = Ok Token →
      Hash Token = hash_of_name name →
      EmitDefine ArbHash TokenHash Index = Ok [] ∧
      EmitFunction ArbHash TokenHash line Index = Ok []).
  { intros name Hname Hnone TokenHash Index Token line Hat Hhash.
    unfold EmitDefine, EmitFunction. rewrite Hat. cbn [mbind outcome_bind].
    rewrite Hhash, Hnone.
    assert (H0 : hash_of_name name ≠ 0).
    { rewrite !elem_of_cons in Hname.
      destruct Hname as [->|[->|[->|Hname]]];
        [vm_compute; congruence..|by apply elem_of_nil in Hname]. }
    apply Z.eqb_neq in H0. by rewrite H0. }
  pose proof (Emit_shape _ _ _ _ _ _ _ HE) as Hshape.
  destruct (Emit_shape _ _ _ _ _ _ _ HE)
    as (defines & typedefs & boilerplate & Hd & Ht & _ & Hw).
  subst written.
  pose proof (input_bytes_nonneg (fopen_w W (Output Settings))
                (Inputs Settings)) as Hnn.
  pose proof (input_bytes_fopen_w W (Output Settings) (Inputs Settings)) as Hle.
  destruct (Seed_facts Indeterminate (ReadMultiFiles W (Headers Settings) []).2)
    as (HFc & HDc & HFp & HDp & Hmaj & Hmin & Hget).
  rewrite HFc in HF. rewrite HDc in HD.
  assert (Hkeep : ∀ k t c t' c' h, grown k t c t' c' → 0 < h →
                  h ∈ hashes t → h ∈ hashes t').
  { intros k t c t' c' h [Hk _] Hh Hin. apply Hk; [lia|done]. }
  split; [by eapply Hkeep|]. split; [by eapply Hkeep|]. split; [by eapply Hkeep|].
  split; [done|].
  assert (Hmacro : ∀ h a, 0 < h →
    h ∈ hashes (DefinesHash
                  (Seed Indeterminate (ReadMultiFiles W (Headers Settings) []).2)) →
    GetToken ArbHash h = Some a →
    occurs_in (MacroLine (slot zeroArbToken ArbHash a))
      (printf Generated_guard [arg_llu (WriteTimestamp Settings)] ++
       (if Boilerplate Settings
        then printf Generated_version
               (replicate 6 (arg_s (default [] (Prefix Settings))))
        else []) ++
       cstr Generated_baseline ++ defines ++ Spacer ++
       cstr Generated_debugproc ++ typedefs ++ boilerplate)).
  { intros h a Hh Hin Ha. do 3 apply occurs_in_app_r. apply occurs_in_app_l.
    eapply (define_emitted qsort ArbHash _ 2 _ _ _ h a);
      [done|exact HD|lia|lia|rewrite HDp; lia|done|done|done|exact Hd]. }
  split; [intros a; by apply Hmacro|]. split; [intros a; by apply Hmacro|].
  split; [|split; [exact Hboiler|split; [exact Hshape|exact Hskip]]].
  intros a Ha.
  destruct (function_emitted qsort ArbHash _ 1 _ _ _
              (hash_of_name "glGetIntegerv") a typedefs Hq HF)
    as (line & Hline & Hocc); [lia|lia|rewrite HFp; lia|done|done|done|exact Ht|].
  exists line. split; [done|].
  do 6 apply occurs_in_app_r. by apply occurs_in_app_l.
Qed.

(** With a registry that declares them, the lines of the three pre-seeded
    symbols are in the header although the source file mentions none. *)
Lemma seeded_symbols_emitted_when_in_registry_witness :
  ∃ written,
    written_by (main_generate merge_qsort zeroString
                  (world_of seeded_files 0 1) (example_settings false)) =
      Some written ∧
    occurs_in (C "#define GL_MAJOR_VERSION 0x821B\n") written ∧
    occurs_in (C "#define GL_MINOR_VERSION 0x821C\n") written ∧
    occurs_in
      (C "typedef  void (APIENTRYP PFNGLGETINTEGERVPROC)  (GLenum pname, GLint *data);\n")
      written.
Proof.
  destruct (GenerateOpenGLHeader merge_qsort zeroString
              (world_of seeded_files 0 1) (example_settings false))
    as [r|f] eqn:E; [|vm_compute in E; discriminate].
  assert (HS : Success r = 0).
  { vm_compute in E. apply Ok_inj in E. by subst r. }
  destruct (seeded_symbols_emitted_when_in_registry
              merge_qsort zeroString (world_of seeded_files 0 1)
              (example_settings false) r merge_qsort_spec)
    as (_ & ArbHash & st & written & HR & _ & _ & _ & _ & HO & Hmaj & Hmin & Hget & _);
    [vm_compute; reflexivity|exact E|exact HS|].
  exists written. split.
  { unfold main_generate. cbn [ForceGenerate example_settings orb].
    cbn [Headers Output Prefix Inputs Ignores Boilerplate Silent example_settings].
    change (last_write_time (world_of seeded_files 0 1) (C "out.h")) with 0.
    unfold example_settings in E. rewrite E. exact HO. }
  vm_compute in HR. apply (inj Some) in HR. subst ArbHash.
  specialize (Hmaj (probe_index (hash_of_name "GL_MAJOR_VERSION") 0)).
  specialize (Hmin (probe_index (hash_of_name "GL_MINOR_VERSION") 0)).
  specialize (Hget (probe_index (hash_of_name "glGetIntegerv") 0)).
  match type of Hmaj with ?P → _ =>
    assert (H1 : P) by (vm_compute; reflexivity); specialize (Hmaj H1) end.
  match type of Hmin with ?P → _ =>
    assert (H2 : P) by (vm_compute; reflexivity); specialize (Hmin H2) end.
  match type of Hget with ?P → _ =>
    assert (H3 : P) by (vm_compute; reflexivity); specialize (Hget H3) end.
  destruct Hget as (line & Hl & Ho).
  vm_compute in Hl. apply Ok_inj in Hl. subst line.
  split; [exact Hmaj|]. split; [exact Hmin|exact Ho].
Defined.

(** C7 as stated fails: with a registry that declares none of the three
    symbols and boilerplate disabled, none of them appears in the output. *)
Lemma seeded_symbols_absent_without_registry_entry :
  ∃ written,
    written_by (main_generate merge_qsort zeroString
                  (world_of example_files 0 1) (example_settings false)) =
      Some written ∧
    ¬ occurs_in (C "GL_MAJOR_VERSION") written ∧
    ¬ occurs_in (C "GL_MINOR_VERSION") written ∧
    ¬ occurs_in (C "glGetIntegerv") written ∧
    ¬ occurs_in (C "GLGETINTEGERV") written.
Proof.
  eexists. split; [vm_compute; reflexivity|].
  repeat split; intros H%occurs_in_occursb; vm_compute in H; discriminate.
Qed.

(** ** Lookup after insertion *)

Section ProbeMore.
Context {T : Type} (HashOf : T → Z) (zero : T).

(** Filling an empty slot hides nothing: a hash that was found is still
    found at the same step. *)
Lemma first_match_preserved (t : list T) h k h' k' x :
  h ≠ 0 → first_match HashOf zero t h k → first_empty HashOf zero t h' k' →
  first_match HashOf zero (<[Z.to_nat (probe_index h' k') := x]> t) h k.
Proof.
  intros Hh (Hk & Hm & Hb) (Hk' & Hz & _).
  assert (Hsame : ∀ j, 0 ≤ j ≤ k →
            probed HashOf zero (<[Z.to_nat (probe_index h' k') := x]> t) h j =
            probed HashOf zero t h j).
  { intros j Hj. unfold probed.
    pose proof (probe_index_range h' k'). pose proof (probe_index_range h j).
    rewrite slot_insert_ne; [done|lia|lia|].
    intros E. unfold probed in Hz, Hm, Hb. rewrite E in Hz.
    destruct (decide (j = k)) as [->|]; [congruence|].
    destruct (Hb j) as [Hnz _]; [lia|]. done. }
  split; [done|]. split.
  - rewrite Hsame by lia. done.
  - intros j Hj. rewrite Hsame by lia. by apply Hb.
Qed.

Lemma slot_elem_of (t : list T) i :
  0 ≤ i → (Z.to_nat i < length t)%nat → slot zero t i ∈ t.
Proof.
  intros Hi Hlt. unfold slot.
  destruct (t !! Z.to_nat i) as [e|] eqn:E.
  - cbn. by eapply list_elem_of_lookup_2.
  - apply lookup_ge_None in E. lia.
Qed.

(** The probe sequence visits every slot, so it misses no empty one. *)
Lemma first_empty_iff_some_empty (t : list T) h :
  length t = Z.to_nat TOKEN_HASH_SIZE →
  (∃ k, first_empty HashOf zero t h k) ↔ ∃ e, e ∈ t ∧ HashOf e = 0.
Proof.
  intros Hlen. split.
  - intros (k & Hk & Hz & _). exists (slot zero t (probe_index h k)).
    split; [|done]. pose proof (probe_index_range h k).
    apply slot_elem_of; unfold TOKEN_HASH_SIZE in *; lia.
  - intros (e & He & Hz).
    destruct (first_empty_or_none HashOf zero t h) as [?|Hfull]; [done|].
    apply list_elem_of_lookup in He as [i Hi].
    assert (Hlt : (i < length t)%nat) by by eapply lookup_lt_Some.
    destruct (probe_index_onto h (Z.of_nat i)) as (k & Hk & Ek); [lia|].
    destruct (Hfull k Hk). unfold probed, slot. by rewrite Ek, Nat2Z.id, Hi.
Qed.

Lemma no_empty_iff_full (t : list T) h :
  length t = Z.to_nat TOKEN_HASH_SIZE →
  no_empty HashOf zero t h ↔ Forall (λ e, HashOf e ≠ 0) t.
Proof.
  intros Hlen. split.
  - intros Hfull. apply Forall_forall. intros e He Hz.
    destruct (proj2 (first_empty_iff_some_empty t h Hlen)) as (k & Hk & Hz' & _);
      [by exists e|].
    by apply (Hfull k).
  - intros Hall k Hk. unfold probed.
    pose proof (probe_index_range h k).
    eapply (proj1 (Forall_forall _ _) Hall), slot_elem_of;
      unfold TOKEN_HASH_SIZE in *; lia.
Qed.
End ProbeMore.

Lemma AddToken_Contains_self TokenHash Token :
  length TokenHash = Z.to_nat TOKEN_HASH_SIZE → Hash Token ≠ 0 →
  0 ∈ hashes TokenHash →
  Contains (AddToken TokenHash Token).1 Token = true.
Proof.
  intros Hlen Hh Hin.
  destruct (empty_slot_found TokenHash (Hash Token) Hlen Hin) as [k Hfe].
  rewrite (AddToken_found _ _ _ Hfe). cbn [fst].
  apply Contains_true. split; [done|].
  destruct (Contains TokenHash Token) eqn:E.
  - apply Contains_true in E as [_ [k' Hk']]. exists k'.
    by apply first_match_preserved.
  - exists k. apply first_match_after_insert; [done|done| |done].
    intros Hex. assert (Contains TokenHash Token = true); [|congruence].
    by apply Contains_true.
Qed.

Lemma AddToken_Contains_mono TokenHash Token Other :
  Contains TokenHash Other = true →
  Contains (AddToken TokenHash Token).1 Other = true.
Proof.
  intros E.
  destruct (first_empty_or_none Hash zeroToken TokenHash (Hash Token))
    as [[k Hfe]|Hfull].
  - rewrite (AddToken_found _ _ _ Hfe). cbn [fst].
    apply Contains_true in E as [Hh [k' Hk']]. apply Contains_true.
    split; [done|]. exists k'. by apply first_match_preserved.
  - by rewrite (AddToken_full _ _ Hfull).
Qed.

Lemma filter_short_has_zero (l : list Z) :
  (length (filter (λ h : Z, h ≠ 0%Z) l) < length l)%nat → 0 ∈ l.
Proof.
  induction l as [|x l IH]; cbn [length]; [lia|].
  destruct (decide (x = 0)) as [->|Hx].
  - intros _. apply list_elem_of_here.
  - rewrite filter_cons_True by done. cbn [length]. intros H.
    apply list_elem_of_further, IH. lia.
Qed.

Lemma populated_room t :
  (populated t < length t)%nat → 0 ∈ hashes t.
Proof.
  intros H. apply filter_short_has_zero. unfold populated in H.
  unfold hashes in *. by rewrite length_map.
Qed.

Lemma AddToken_populated t Token :
  length t = Z.to_nat TOKEN_HASH_SIZE → 0 ∈ hashes t → Hash Token ≠ 0 →
  populated (AddToken t Token).1 = S (populated t).
Proof.
  intros Hlen Hin Hh. destruct (AddToken_hashes t Token Hlen Hin) as [_ P].
  unfold populated.
  assert (E : length (filter (λ h : Z, h ≠ 0%Z) (0 :: hashes (AddToken t Token).1)) =
              length (filter (λ h : Z, h ≠ 0%Z) (Hash Token :: hashes t)))
    by by rewrite P.
  rewrite filter_cons_False in E by (intros H; by apply H).
  rewrite filter_cons_True in E by done. done.
Qed.

Lemma Contains_same_hash t Token Token' :
  Hash Token' = Hash Token → Contains t Token' = Contains t Token.
Proof. intros E. unfold Contains. by rewrite E. Qed.

(** ** Scanning the input files in any order *)

Lemma first_empty_room t h k :
  length t = Z.to_nat TOKEN_HASH_SIZE →
  first_empty Hash zeroToken t h k → 0 ∈ hashes t.
Proof.
  intros Hlen Hfe.
  destruct (proj1 (first_empty_iff_some_empty Hash zeroToken t h Hlen))
    as (e & He & H0); [by exists k|].
  rewrite <- H0. unfold hashes. by apply list_elem_of_fmap_2.
Qed.

Lemma AddToken_populated_mono t Token :
  length t = Z.to_nat TOKEN_HASH_SIZE →
  length (AddToken t Token).1 = Z.to_nat TOKEN_HASH_SIZE ∧
  (populated t ≤ populated (AddToken t Token).1)%nat.
Proof.
  intros Hlen.
  destruct (first_empty_or_none Hash zeroToken t (Hash Token)) as [[k Hfe]|Hfull].
  - pose proof (first_empty_room _ _ _ Hlen Hfe) as Hroom.
    destruct (AddToken_hashes t Token Hlen Hroom) as [Hl P]. split; [done|].
    unfold populated.
    assert (E : length (filter (λ h : Z, h ≠ 0%Z)
                          (0 :: hashes (AddToken t Token).1)) =
                length (filter (λ h : Z, h ≠ 0%Z) (Hash Token :: hashes t)))
      by by rewrite P.
    rewrite filter_cons_False in E by (intros H; by apply H). rewrite E.
    rewrite filter_cons. destruct (decide (Hash Token ≠ 0)); cbn [length]; lia.
  - by rewrite (AddToken_full _ _ Hfull).
Qed.

Lemma scan_table_mono Accept t Token :
  length t = Z.to_nat TOKEN_HASH_SIZE →
  length (scan_table Accept t Token) = Z.to_nat TOKEN_HASH_SIZE ∧
  (populated t ≤ populated (scan_table Accept t Token))%nat.
Proof.
  intros Hlen. unfold scan_table.
  destruct (Accept && _); [by apply AddToken_populated_mono|done].
Qed.

Lemma Contains_elem t Token :
  length t = Z.to_nat TOKEN_HASH_SIZE → Contains t Token = true →
  Hash Token ≠ 0 ∧ Hash Token ∈ hashes t.
Proof.
  intros Hlen HC. apply Contains_true in HC as (Hh & k & _ & Hk & _).
  split; [done|]. unfold probed in Hk. rewrite <- Hk at 1.
  unfold hashes. apply list_elem_of_fmap_2.
  pose proof (probe_index_range (Hash Token) k).
  apply slot_elem_of; [lia|]. rewrite Hlen. unfold TOKEN_HASH_SIZE in *. lia.
Qed.

Lemma scan_table_ok Accept t Token :
  table_ok t →
  (populated (scan_table Accept t Token) < Z.to_nat TOKEN_HASH_SIZE)%nat →
  table_ok (scan_table Accept t Token) ∧
  ∀ h, h ≠ 0 →
    h ∈ hashes (scan_table Accept t Token) ↔
    h ∈ hashes t ∨ (Accept = true ∧ h = Hash Token).
Proof.
  intros (Hlen & Hnd & Hreach) Hroom. unfold scan_table in *.
  destruct Accept; cbn [andb] in *.
  2: { split; [done|]. intros h Hh. split; [by left|]. by intros [?|[? _]]. }
  destruct (Contains t Token) eqn:HC; cbn [negb] in *.
  { split; [done|]. intros h Hh. split; [by left|]. intros [?|[_ ->]]; [done|].
    by apply Contains_elem. }
  pose proof (AddToken_populated_mono t Token Hlen) as [Hl' Hmono].
  assert (H0 : 0 ∈ hashes t) by (apply populated_room; lia).
  destruct (AddToken_hashes t Token Hlen H0) as [_ P].
  assert (Hmem : ∀ h, h ≠ 0 →
            h ∈ hashes (AddToken t Token).1 ↔ h ∈ hashes t ∨ h = Hash Token).
  { intros h Hh. split.
    - intros Hin. assert (Hin' : h ∈ 0 :: hashes (AddToken t Token).1)
        by by apply list_elem_of_further.
      rewrite P in Hin'. apply elem_of_cons in Hin' as [->|?]; [by right|by left].
    - intros Hin. assert (Hin' : h ∈ Hash Token :: hashes t).
      { destruct Hin as [?| ->]; [by apply list_elem_of_further|].
        apply list_elem_of_here. }
      rewrite <- P in Hin'. apply elem_of_cons in Hin' as [->|?]; done. }
  split; [split; [done|split]|].
  - assert (E : filter (λ h : Z, h ≠ 0%Z) (0 :: hashes (AddToken t Token).1) ≡ₚ
                filter (λ h : Z, h ≠ 0%Z) (Hash Token :: hashes t))
      by by rewrite P.
    rewrite filter_cons_False in E by (intros H; by apply H). rewrite E.
    rewrite filter_cons. destruct (decide (Hash Token ≠ 0)) as [Hh|_]; [|done].
    apply NoDup_cons. split; [|done]. intros Hin.
    apply list_elem_of_filter in Hin as [_ Hin].
    rewrite (Hreach Token Hh Hin) in HC. done.
  - intros Other Hh Hin. apply (Hmem _ Hh) in Hin as [Hin|E].
    + apply AddToken_Contains_mono. by apply Hreach.
    + rewrite (Contains_same_hash _ Token Other E).
      apply AddToken_Contains_self; [done| |done]. by rewrite <- E.
  - intros h Hh. rewrite (Hmem h Hh). split; intros [?|?]; [by left| |by left|].
    + by right.
    + right. by destruct H.
Qed.

Lemma known_any_err ArbHash Token Settings err :
  (IsKnownOrIgnoredToken ArbHash Token Settings err).1 =
  known ArbHash Settings Token.
Proof.
  unfold known, IsKnownOrIgnoredToken.
  destruct (GetToken _ _); [done|]. by destruct (Ignored_loop _ _).
Qed.

Lemma ScanFunction_tables ArbHash Settings Token st st' :
  ScanFunction ArbHash Settings Token st = Ok st' →
  FunctionsHash st' =
    scan_table (function_candidate Token && known ArbHash Settings Token)
      (FunctionsHash st) Token ∧
  DefinesHash st' = DefinesHash st.
Proof.
  intros E. apply ScanFunction_Ok in E as (b & Eb & ->).
  unfold scan_table, function_candidate. rewrite Eb.
  rewrite <- (known_any_err _ _ _ (Stderr st)).
  destruct b; [|done].
  destruct (Contains _ _); cbn [negb]; [by rewrite andb_false_r|].
  by destruct (IsKnownOrIgnoredToken _ _ _ _) as [[] err].
Qed.

Lemma ScanDefine_tables ArbHash Settings Token st :
  DefinesHash (ScanDefine ArbHash Settings Token st) =
    scan_table (IsDefineCandidate Token && known ArbHash Settings Token)
      (DefinesHash st) Token ∧
  FunctionsHash (ScanDefine ArbHash Settings Token st) = FunctionsHash st.
Proof.
  unfold scan_table, ScanDefine.
  rewrite <- (known_any_err _ _ _ (Stderr st)).
  destruct (IsDefineCandidate Token); [|done].
  destruct (Contains _ _); cbn [negb]; [by rewrite andb_false_r|].
  by destruct (IsKnownOrIgnoredToken _ _ _ _) as [[] err].
Qed.

Lemma ParseFile_body_tables ArbHash Settings st Tokenizer st' Tokenizer' :
  ParseFile_body ArbHash Settings st Tokenizer = Ok (st', Tokenizer') →
  let Token := (ParseToken Tokenizer).1 in
  Tokenizer' = (ParseToken Tokenizer).2 ∧
  FunctionsHash st' =
    scan_table (function_candidate Token && known ArbHash Settings Token)
      (FunctionsHash st) Token ∧
  DefinesHash st' =
    scan_table (IsDefineCandidate Token && known ArbHash Settings Token)
      (DefinesHash st) Token.
Proof.
  intros E Token. apply ParseFile_body_Ok in E as (st1 & E1 & -> & ->).
  fold Token in E1 |- *.
  destruct (ScanFunction_tables _ _ _ _ _ E1) as [HF HD].
  destruct (ScanDefine_tables ArbHash Settings Token st1) as [HD' HF'].
  split; [done|]. split; [by rewrite HF'|by rewrite HD', HD].
Qed.

(** The scanner only adds to its result sets. *)
Lemma ParseFile_loop_mono ArbHash Settings fuel : ∀ st Tokenizer st',
  length (FunctionsHash st) = Z.to_nat TOKEN_HASH_SIZE →
  length (DefinesHash st) = Z.to_nat TOKEN_HASH_SIZE →
  ParseFile_loop fuel ArbHash Settings st Tokenizer = Ok st' →
  length (FunctionsHash st') = Z.to_nat TOKEN_HASH_SIZE ∧
  length (DefinesHash st') = Z.to_nat TOKEN_HASH_SIZE ∧
  (populated (FunctionsHash st) ≤ populated (FunctionsHash st'))%nat ∧
  (populated (DefinesHash st) ≤ populated (DefinesHash st'))%nat.
Proof.
  induction fuel as [|fuel IH]; intros st Tokenizer st' HlF HlD E;
    cbn [ParseFile_loop] in E.
  - destruct (nonzero _); [done|]. by injection E as <-.
  - destruct (nonzero _); [|by injection E as <-].
    destruct (ParseFile_body _ _ st Tokenizer) as [[st1 T1]|] eqn:Eb; [|done].
    cbn [mbind outcome_bind] in E.
    destruct (ParseFile_body_tables _ _ _ _ _ _ Eb) as (_ & HF & HD).
    destruct (scan_table_mono
                (function_candidate (ParseToken Tokenizer).1 &&
                 known ArbHash Settings (ParseToken Tokenizer).1)
                (FunctionsHash st) (ParseToken Tokenizer).1 HlF) as [HlF1 HmF].
    destruct (scan_table_mono
                (IsDefineCandidate (ParseToken Tokenizer).1 &&
                 known ArbHash Settings (ParseToken Tokenizer).1)
                (DefinesHash st) (ParseToken Tokenizer).1 HlD) as [HlD1 HmD].
    rewrite <- HF in HlF1, HmF. rewrite <- HD in HlD1, HmD.
    destruct (IH st1 T1 st' HlF1 HlD1 E) as (? & ? & ? & ?).
    split; [done|]. split; [done|]. lia.
Qed.

Lemma ParseFile_loop_members ArbHash Settings fuel : ∀ st Tokenizer st',
  table_ok (FunctionsHash st) → table_ok (DefinesHash st) →
  ParseFile_loop fuel ArbHash Settings st Tokenizer = Ok st' →
  (populated (FunctionsHash st') < Z.to_nat TOKEN_HASH_SIZE)%nat →
  (populated (DefinesHash st') < Z.to_nat TOKEN_HASH_SIZE)%nat →
  table_ok (FunctionsHash st') ∧ table_ok (DefinesHash st') ∧
  (∀ h, h ≠ 0 →
     h ∈ hashes (FunctionsHash st') ↔
     h ∈ hashes (FunctionsHash st) ∨
     h ∈ accepted function_candidate fuel ArbHash Settings Tokenizer) ∧
  (∀ h, h ≠ 0 →
     h ∈ hashes (DefinesHash st') ↔
     h ∈ hashes (DefinesHash st) ∨
     h ∈ accepted IsDefineCandidate fuel ArbHash Settings Tokenizer).
Proof.
  induction fuel as [|fuel IH]; intros st Tokenizer st' HF HD E HrF HrD;
    cbn [ParseFile_loop accepted] in *.
  - destruct (nonzero _); [done|]. injection E as <-.
    split; [done|]. split; [done|].
    split; intros h _; (split; [by left|]); intros [?|H]; try done;
      by apply elem_of_nil in H.
  - destruct (nonzero _).
    2: { injection E as <-. split; [done|]. split; [done|].
         split; intros h _; (split; [by left|]); intros [?|H]; try done;
           by apply elem_of_nil in H. }
    destruct (ParseFile_body _ _ st Tokenizer) as [[st1 T1]|] eqn:Eb; [|done].
    cbn [mbind outcome_bind] in E.
    destruct (ParseFile_body_tables _ _ _ _ _ _ Eb) as (-> & EF & ED).
    destruct (ParseToken Tokenizer) as [Token T1] eqn:EP. cbn [fst snd] in *.
    assert (HlF1 : length (FunctionsHash st1) = Z.to_nat TOKEN_HASH_SIZE).
    { rewrite EF. apply scan_table_mono, HF. }
    assert (HlD1 : length (DefinesHash st1) = Z.to_nat TOKEN_HASH_SIZE).
    { rewrite ED. apply scan_table_mono, HD. }
    destruct (ParseFile_loop_mono _ _ _ _ _ _ HlF1 HlD1 E)
      as (_ & _ & HmF & HmD).
    destruct (scan_table_ok
                (function_candidate Token && known ArbHash Settings Token)
                (FunctionsHash st) Token HF) as [HF1 HmemF];
      [rewrite <- EF; lia|].
    destruct (scan_table_ok
                (IsDefineCandidate Token && known ArbHash Settings Token)
                (DefinesHash st) Token HD) as [HD1 HmemD];
      [rewrite <- ED; lia|].
    rewrite <- EF in HF1, HmemF. rewrite <- ED in HD1, HmemD.
    destruct (IH st1 T1 st' HF1 HD1 E HrF HrD) as (HF' & HD' & HmF' & HmD').
    split; [done|]. split; [done|]. split.
    + intros h Hh. rewrite (HmF' h Hh), (HmemF h Hh), elem_of_app.
      destruct (function_candidate Token && known ArbHash Settings Token).
      * rewrite list_elem_of_singleton. intuition congruence.
      * rewrite elem_of_nil. intuition congruence.
    + intros h Hh. rewrite (HmD' h Hh), (HmemD h Hh), elem_of_app.
      destruct (IsDefineCandidate Token && known ArbHash Settings Token).
      * rewrite list_elem_of_singleton. intuition congruence.
      * rewrite elem_of_nil. intuition congruence.
Qed.

Lemma ReadEntireFile_any_err W Filename err :
  (ReadEntireFile W Filename err).1 = (ReadEntireFile W Filename []).1.
Proof.
  unfold ReadEntireFile. destruct (file_contents W Filename) as [data|]; [|done].
  by destruct (0 <? length data)%nat.
Qed.

Lemma ParseFile_mono W Filename ArbHash Settings st s st' :
  length (FunctionsHash st) = Z.to_nat TOKEN_HASH_SIZE →
  length (DefinesHash st) = Z.to_nat TOKEN_HASH_SIZE →
  ParseFile W Filename ArbHash Settings st = Ok (s, st') →
  length (FunctionsHash st') = Z.to_nat TOKEN_HASH_SIZE ∧
  length (DefinesHash st') = Z.to_nat TOKEN_HASH_SIZE ∧
  (populated (FunctionsHash st) ≤ populated (FunctionsHash st'))%nat ∧
  (populated (DefinesHash st) ≤ populated (DefinesHash st'))%nat.
Proof.
  intros HlF HlD E. unfold ParseFile in E.
  destruct (ReadEntireFile W Filename (Stderr st)) as [[Data|] err].
  - destruct (ParseFile_loop _ _ _ _ _) as [st2|] eqn:E2; [|done].
    cbn [mbind outcome_bind] in E. injection E as _ <-.
    by apply ParseFile_loop_mono in E2.
  - by injection E as _ <-.
Qed.

Lemma ParseFile_members W Filename ArbHash Settings st s st' :
  table_ok (FunctionsHash st) → table_ok (DefinesHash st) →
  ParseFile W Filename ArbHash Settings st = Ok (s, st') →
  (populated (FunctionsHash st') < Z.to_nat TOKEN_HASH_SIZE)%nat →
  (populated (DefinesHash st') < Z.to_nat TOKEN_HASH_SIZE)%nat →
  table_ok (FunctionsHash st') ∧ table_ok (DefinesHash st') ∧
  (∀ h, h ≠ 0 →
     h ∈ hashes (FunctionsHash st') ↔
     h ∈ hashes (FunctionsHash st) ∨
     h ∈ accepted_file function_candidate W ArbHash Settings Filename) ∧
  (∀ h, h ≠ 0 →
     h ∈ hashes (DefinesHash st') ↔
     h ∈ hashes (DefinesHash st) ∨
     h ∈ accepted_file IsDefineCandidate W ArbHash Settings Filename).
Proof.
  intros HF HD E HrF HrD. unfold ParseFile in E. unfold accepted_file.
  rewrite <- (ReadEntireFile_any_err W Filename (Stderr st)).
  destruct (ReadEntireFile W Filename (Stderr st)) as [[Data|] err]; cbn [fst].
  - destruct (ParseFile_loop _ _ _ _ _) as [st2|] eqn:E2; [|done].
    cbn [mbind outcome_bind] in E. injection E as _ <-.
    by apply ParseFile_loop_members in E2.
  - injection E as _ <-. cbn [FunctionsHash DefinesHash].
    split; [done|]. split; [done|].
    split; intros h _; (split; [by left|]); intros [?|H]; try done;
      by apply elem_of_nil in H.
Qed.

Lemma ParseFiles_mono W ArbHash Settings names : ∀ st st',
  length (FunctionsHash st) = Z.to_nat TOKEN_HASH_SIZE →
  length (DefinesHash st) = Z.to_nat TOKEN_HASH_SIZE →
  ParseFiles W names ArbHash Settings st = Ok st' →
  (populated (FunctionsHash st) ≤ populated (FunctionsHash st'))%nat ∧
  (populated (DefinesHash st) ≤ populated (DefinesHash st'))%nat.
Proof.
  induction names as [|Filename names IH]; intros st st' HlF HlD E;
    cbn [ParseFiles] in E.
  { by injection E as <-. }
  destruct (ParseFile W Filename ArbHash Settings st) as [[s st1]|] eqn:E1;
    [|done].
  cbn [mbind outcome_bind] in E.
  destruct (ParseFile_mono _ _ _ _ _ _ _ HlF HlD E1) as (HlF1 & HlD1 & ? & ?).
  destruct (IH st1 st' HlF1 HlD1 E). lia.
Qed.

Lemma ParseFiles_members W ArbHash Settings names : ∀ st st',
  table_ok (FunctionsHash st) → table_ok (DefinesHash st) →
  ParseFiles W names ArbHash Settings st = Ok st' →
  (populated (FunctionsHash st') < Z.to_nat TOKEN_HASH_SIZE)%nat →
  (populated (DefinesHash st') < Z.to_nat TOKEN_HASH_SIZE)%nat →
  table_ok (FunctionsHash st') ∧ table_ok (DefinesHash st') ∧
  (∀ h, h ≠ 0 →
     h ∈ hashes (FunctionsHash st') ↔
     h ∈ hashes (FunctionsHash st) ∨
     h ∈ accepted_files function_candidate W ArbHash Settings names) ∧
  (∀ h, h ≠ 0 →
     h ∈ hashes (DefinesHash st') ↔
     h ∈ hashes (DefinesHash st) ∨
     h ∈ accepted_files IsDefineCandidate W ArbHash Settings names).
Proof.
  induction names as [|Filename names IH]; intros st st' HF HD E HrF HrD;
    cbn [ParseFiles accepted_files] in *.
  { injection E as <-. split; [done|]. split; [done|].
    split; intros h _; (split; [by left|]); intros [?|H]; try done;
      by apply elem_of_nil in H. }
  destruct (ParseFile W Filename ArbHash Settings st) as [[s st1]|] eqn:E1;
    [|done].
  cbn [mbind outcome_bind] in E.
  destruct (ParseFile_mono _ _ _ _ _ _ _ (proj1 HF) (proj1 HD) E1)
    as (HlF1 & HlD1 & _ & _).
  destruct (ParseFiles_mono _ _ _ _ _ _ HlF1 HlD1 E) as [HmF HmD].
  destruct (ParseFile_members _ _ _ _ _ _ _ HF HD E1)
    as (HF1 & HD1 & HmemF & HmemD); [lia|lia|].
  destruct (IH st1 st' HF1 HD1 E HrF HrD) as (HF' & HD' & HmF' & HmD').
  split; [done|]. split; [done|]. split.
  - intros h Hh. rewrite (HmF' h Hh), (HmemF h Hh), elem_of_app. tauto.
  - intros h Hh. rewrite (HmD' h Hh), (HmemD h Hh), elem_of_app. tauto.
Qed.

Lemma accepted_files_Permutation cand W ArbHash Settings names names' :
  names ≡ₚ names' →
  accepted_files cand W ArbHash Settings names ≡ₚ
  accepted_files cand W ArbHash Settings names'.
Proof.
  induction 1 as [|n l l' _ IH|n m l|l l' l'' _ IH1 _ IH2];
    cbn [accepted_files].
  - done.
  - by rewrite IH.
  - rewrite !app_assoc. f_equiv. apply Permutation_app_comm.
  - by rewrite IH1.
Qed.

(** A list of hashes is, up to the order, its non-zero elements and as many
    zeros as make up its length. *)
Lemma nonzero_and_zeros (l : list Z) :
  l ≡ₚ filter (λ h, h ≠ 0) l ++
       replicate (length l - length (filter (λ h, h ≠ 0) l)) 0.
Proof.
  induction l as [|x l IH]; [done|].
  pose proof (length_filter (λ h : Z, h ≠ 0) l) as Hle.
  rewrite filter_cons. destruct (decide (x ≠ 0)) as [Hx|Hx].
  - cbn [length app Nat.sub]. by rewrite <- IH.
  - assert (x = 0) as -> by lia. cbn [length].
    replace (S (length l) - length (filter (λ h : Z, h ≠ 0%Z) l))%nat
      with (S (length l - length (filter (λ h : Z, h ≠ 0%Z) l))) by lia.
    cbn [replicate]. rewrite <- Permutation_middle. by rewrite <- IH.
Qed.

Lemma same_nonzero_members_Permutation (l1 l2 : list Z) :
  length l1 = length l2 →
  NoDup (filter (λ h, h ≠ 0) l1) → NoDup (filter (λ h, h ≠ 0) l2) →
  (∀ h, h ≠ 0 → h ∈ l1 ↔ h ∈ l2) →
  l1 ≡ₚ l2.
Proof.
  intros Hlen H1 H2 Hmem.
  assert (P : filter (λ h, h ≠ 0) l1 ≡ₚ filter (λ h, h ≠ 0) l2).
  { apply NoDup_Permutation; [done..|]. intros h.
    rewrite !list_elem_of_filter. split; intros [Hh Hin]; (split; [done|]);
      by apply (Hmem h Hh). }
  rewrite (nonzero_and_zeros l1), (nonzero_and_zeros l2).
  rewrite Hlen, (Permutation_length P). by rewrite P.
Qed.

Lemma Contains_calloc Token : Contains (calloc zeroToken) Token = false.
Proof.
  destruct (Contains (calloc zeroToken) Token) eqn:E; [|done].
  apply Contains_elem in E as [Hh Hin]; [|apply calloc_length].
  rewrite hashes_calloc in Hin. by apply elem_of_replicate in Hin as [? _].
Qed.

Lemma table_ok_calloc : table_ok (calloc zeroToken).
Proof.
  split; [apply calloc_length|]. split.
  - rewrite hashes_calloc.
    assert (E : ∀ n, filter (λ h : Z, h ≠ 0) (replicate n 0) = []).
    { induction n as [|n IH]; [done|]. cbn [replicate].
      by rewrite filter_cons_False by (intros H; by apply H). }
    rewrite E. constructor.
  - intros Token Hh Hin. rewrite hashes_calloc in Hin.
    by apply elem_of_replicate in Hin as [? _].
Qed.

Lemma AddToken_ok t Token :
  table_ok t → Contains t Token = false →
  (populated (AddToken t Token).1 < Z.to_nat TOKEN_HASH_SIZE)%nat →
  table_ok (AddToken t Token).1 ∧
  ∀ h, h ≠ 0 →
    h ∈ hashes (AddToken t Token).1 ↔ h ∈ hashes t ∨ h = Hash Token.
Proof.
  intros Hok HC Hroom.
  pose proof (scan_table_ok true t Token Hok) as H. unfold scan_table in H.
  rewrite HC in H. cbn [andb negb] in H. destruct (H Hroom) as [Hok' Hmem].
  split; [done|]. intros h Hh. rewrite (Hmem h Hh). intuition.
Qed.

Lemma Seed_table_ok I err :
  table_ok (FunctionsHash (Seed I err)) ∧ table_ok (DefinesHash (Seed I err)).
Proof.
  destruct (Seed_facts I err) as (_ & _ & HpF & HpD & _).
  unfold Seed, AddCustomToken in *. cbn [FunctionsHash DefinesHash] in *.
  split.
  - apply AddToken_ok; [apply table_ok_calloc|apply Contains_calloc|].
    rewrite HpF. unfold TOKEN_HASH_SIZE. lia.
  - match type of HpD with
    | populated (AddToken (AddToken _ ?A).1 ?B).1 = _ =>
        set (Major := A) in *; set (Minor := B) in *
    end.
    destruct (AddToken_populated_mono (AddToken (calloc zeroToken) Major).1 Minor)
      as [_ Hmono].
    { apply AddToken_populated_mono, calloc_length. }
    destruct (AddToken_ok (calloc zeroToken) Major)
      as [Hok Hmem]; [apply table_ok_calloc|apply Contains_calloc| |].
    { unfold TOKEN_HASH_SIZE. lia. }
    apply AddToken_ok; [done| |rewrite HpD; unfold TOKEN_HASH_SIZE; lia].
    destruct (Contains _ Minor) eqn:E; [|done].
    apply Contains_elem in E as [Hh Hin]; [|apply Hok].
    apply (Hmem _ Hh) in Hin as [Hin|Hin].
    + rewrite hashes_calloc in Hin. by apply elem_of_replicate in Hin as [? _].
    + vm_compute in Hin. discriminate.
Qed.

(** The order of the input files does not matter to the hashes the result
    sets hold, as long as neither set is filled to its capacity. *)
Lemma ParseFiles_order_irrelevant I err W ArbHash Settings names names' st st' :
  names ≡ₚ names' →
  ParseFiles W names ArbHash Settings (Seed I err) = Ok st →
  ParseFiles W names' ArbHash Settings (Seed I err) = Ok st' →
  (populated (FunctionsHash st) < Z.to_nat TOKEN_HASH_SIZE)%nat →
  (populated (DefinesHash st) < Z.to_nat TOKEN_HASH_SIZE)%nat →
  (populated (FunctionsHash st') < Z.to_nat TOKEN_HASH_SIZE)%nat →
  (populated (DefinesHash st') < Z.to_nat TOKEN_HASH_SIZE)%nat →
  hashes (FunctionsHash st) ≡ₚ hashes (FunctionsHash st') ∧
  hashes (DefinesHash st) ≡ₚ hashes (DefinesHash st').
Proof.
  intros P E E' HrF HrD HrF' HrD'.
  destruct (Seed_table_ok I err) as [HF0 HD0].
  destruct (ParseFiles_members _ _ _ _ _ _ HF0 HD0 E HrF HrD)
    as ((HlF & HnF & _) & (HlD & HnD & _) & HmF & HmD).
  destruct (ParseFiles_members _ _ _ _ _ _ HF0 HD0 E' HrF' HrD')
    as ((HlF' & HnF' & _) & (HlD' & HnD' & _) & HmF' & HmD').
  split; (apply same_nonzero_members_Permutation;
          [unfold hashes; rewrite !length_map; congruence|done|done|]).
  - intros h Hh. rewrite (HmF h Hh), (HmF' h Hh).
    by rewrite (accepted_files_Permutation _ _ _ _ _ _ P).
  - intros h Hh. rewrite (HmD h Hh), (HmD' h Hh).
    by rewrite (accepted_files_Permutation _ _ _ _ _ _ P).
Qed.

(** ** Inserting more symbols than a table has slots *)

Lemma AddTokens_keeps Tokens : ∀ t h,
  h ≠ 0 → h ∈ hashes t → h ∈ hashes (AddTokens t Tokens).
Proof.
  induction Tokens as [|Token Tokens IH]; intros t h Hh Hin; [done|].
  cbn [AddTokens fold_left]. apply IH; [done|].
  destruct (AddToken_grown t 0 Token) as [Hkeep _]. by apply Hkeep.
Qed.

(** Beyond the capacity a late symbol is dropped: of as many tokens as the
    table has slots and one more, the table holds the one that comes first
    and not the one that comes last. *)
Lemma AddTokens_beyond_capacity Tokens Late :
  length Tokens = Z.to_nat TOKEN_HASH_SIZE →
  Forall (λ Token, Hash Token ≠ 0) Tokens →
  Hash Late ≠ 0 → Hash Late ∉ map Hash Tokens →
  (Hash Late ∉ hashes (AddTokens (calloc zeroToken) (Tokens ++ [Late]))) ∧
  Hash Late ∈ hashes (AddTokens (calloc zeroToken) (Late :: Tokens)).
Proof.
  intros Hlen Hnz Hh Hnew. split.
  - unfold AddTokens. rewrite fold_left_app. cbn [fold_left].
    fold (AddTokens (calloc zeroToken) Tokens).
    assert (P : hashes (AddTokens (calloc zeroToken) Tokens) ≡ₚ map Hash Tokens).
    { pose proof (AddTokens_hashes Tokens (calloc zeroToken) 0 []
                    (calloc_length zeroToken)) as P.
      rewrite !app_nil_r in P. cbn [replicate app] in P. apply P.
      rewrite hashes_calloc, Nat.add_0_r. by rewrite Hlen. }
    assert (Hl : length (AddTokens (calloc zeroToken) Tokens) =
                 Z.to_nat TOKEN_HASH_SIZE).
    { apply Permutation_length in P. unfold hashes in P.
      rewrite !length_map in P. congruence. }
    rewrite AddToken_full.
    + cbn [fst]. by rewrite P.
    + apply (no_empty_iff_full Hash zeroToken); [done|].
      apply Forall_forall. intros e He.
      assert (Hin : Hash e ∈ map Hash Tokens).
      { rewrite <- P. unfold hashes. by apply list_elem_of_fmap_2. }
      apply list_elem_of_fmap in Hin as (e' & -> & He').
      by apply (proj1 (Forall_forall _ _) Hnz).
  - cbn [AddTokens fold_left]. apply AddTokens_keeps; [done|].
    destruct (AddToken_hashes (calloc zeroToken) Late (calloc_length zeroToken))
      as [_ P].
    { rewrite hashes_calloc. apply elem_of_replicate. split; [done|].
      unfold TOKEN_HASH_SIZE. lia. }
    assert (Hin : Hash Late ∈ 0 :: hashes (AddToken (calloc zeroToken) Late).1)
      by (rewrite P; apply list_elem_of_here).
    by apply elem_of_cons in Hin as [?|?].
Qed.

Lemma capacity_tokens_facts :
  length capacity_tokens = Z.to_nat TOKEN_HASH_SIZE ∧
  Forall (λ Token, Hash Token ≠ 0) capacity_tokens ∧
  (16384 ∉ map Hash capacity_tokens).
Proof.
  unfold capacity_tokens. split; [by rewrite length_map, length_seq|]. split.
  - apply Forall_forall. intros e He.
    apply list_elem_of_fmap in He as (n & -> & Hn).
    apply elem_of_seq in Hn. cbn [token_with_hash Hash]. lia.
  - intros Hin. apply list_elem_of_fmap in Hin as (e & He & Hin).
    apply list_elem_of_fmap in Hin as (n & -> & Hn).
    apply elem_of_seq in Hn. cbn [token_with_hash Hash] in He.
    unfold TOKEN_HASH_SIZE in Hn. lia.
Qed.

(** C5, as amended.  Whatever [qsort] the C library provides, sorting a
    whole table with [TokenComparer] rearranges its slots so that every
    populated slot (non-zero hash) comes before every empty one (hash 0) and
    a slot with a greater hash comes before a slot with a smaller one; the
    sequence of hashes it leaves depends only on which hashes the table
    holds.  So two tables filled with the same tokens, no more of them than
    a table has slots, in different orders, and sorted by any two
    implementations, show the same order; and so do the result sets of two
    scans of the same input files in different orders, when neither result
    set has been filled to its capacity. *)
Theorem sorted_order_is_a_function_of_the_hashes
    (qsort qsort' : (GLToken → GLToken → Z) → list GLToken → list GLToken)
    (TokenHash TokenHash' : list GLToken) :
  qsort_spec qsort → qsort_spec qsort' →
  Forall (λ A, 0 ≤ Hash A) TokenHash →
  let sorted := qsort TokenComparer TokenHash in
  TokenHash ≡ₚ sorted ∧
  (∀ i j A B, sorted !! i = Some A → sorted !! j = Some B →
     Hash A ≠ 0 → Hash B = 0 → (i < j)%nat) ∧
  (∀ i j A B, sorted !! i = Some A → sorted !! j = Some B →
     Hash B < Hash A → (i < j)%nat) ∧
  (hashes TokenHash ≡ₚ hashes TokenHash' →
     hashes sorted = hashes (qsort' TokenComparer TokenHash')) ∧
  (∀ Tokens Tokens',
     (length Tokens ≤ Z.to_nat TOKEN_HASH_SIZE)%nat → Tokens ≡ₚ Tokens' →
     hashes (qsort TokenComparer (AddTokens (calloc zeroToken) Tokens)) =
     hashes (qsort' TokenComparer (AddTokens (calloc zeroToken) Tokens'))) ∧
  (∀ Indeterminate err W ArbHash Settings names names' st st',
     names ≡ₚ names' →
     ParseFiles W names ArbHash Settings (Seed Indeterminate err) = Ok st →
     ParseFiles W names' ArbHash Settings (Seed Indeterminate err) = Ok st' →
     (populated (FunctionsHash st) < Z.to_nat TOKEN_HASH_SIZE)%nat →
     (populated (DefinesHash st) < Z.to_nat TOKEN_HASH_SIZE)%nat →
     (populated (FunctionsHash st') < Z.to_nat TOKEN_HASH_SIZE)%nat →
     (populated (DefinesHash st') < Z.to_nat TOKEN_HASH_SIZE)%nat →
     hashes (qsort TokenComparer (FunctionsHash st)) =
       hashes (qsort' TokenComparer (FunctionsHash st')) ∧
     hashes (qsort TokenComparer (DefinesHash st)) =
       hashes (qsort' TokenComparer (DefinesHash st'))).
Proof.
  intros Hq Hq' Hnn sorted.
  assert (Hp : TokenHash ≡ₚ sorted) by apply Hq.
  assert (Hdesc : ∀ i j A B, sorted !! i = Some A → sorted !! j = Some B →
                  Hash B < Hash A → (i < j)%nat).
  { intros i j A B Hi Hj Hlt.
    destruct (Nat.lt_trichotomy i j) as [?|[->|Hji]]; [done| |].
    - rewrite Hi in Hj. injection Hj as ->. lia.
    - pose proof (descending_lookup _ j i (Hash B) (Hash A)
        (sorted_hashes_descending qsort TokenHash Hq) Hji
        (hashes_lookup _ _ _ Hj) (hashes_lookup _ _ _ Hi)). lia. }
  split; [done|]. split.
  { intros i j A B Hi Hj HA HB. apply (Hdesc i j A B Hi Hj).
    rewrite Hp in Hnn. rewrite Forall_forall in Hnn.
    assert (0 ≤ Hash A) by (apply Hnn; by eapply list_elem_of_lookup_2). lia. }
  split; [done|]. split; [|split].
  - by apply sorted_hashes_determined.
  - intros Tokens Tokens' Hlen HpT.
    apply sorted_hashes_determined; [done..|].
    by apply AddTokens_order_irrelevant.
  - intros I err W ArbHash Settings names names' st st' P E E' ? ? ? ?.
    destruct (ParseFiles_order_irrelevant I err W ArbHash Settings names names'
                st st') as [HF HD]; [done..|].
    split; by apply sorted_hashes_determined.
Qed.

(** Two tokens inserted in either order, and two files scanned in either
    order, sorted by two merge sorts that treat ties differently. *)
Lemma sorted_order_is_a_function_of_the_hashes_witness :
  let W := world_of [("a.c", "glClear(GL_ONE);"); ("b.c", "glFinish();")]%string 0 1 in
  let Settings := settings_ignoring [C "glClear"; C "glFinish"; C "GL_ONE"] in
  hashes (merge_qsort TokenComparer
    (AddTokens (calloc zeroToken) [token_of "glClear"; token_of "glFinish"])) =
  hashes (reverse_merge_qsort TokenComparer
    (AddTokens (calloc zeroToken) [token_of "glFinish"; token_of "glClear"])) ∧
  ∃ st st',
    ParseFiles W [C "a.c"; C "b.c"] (calloc zeroArbToken) Settings
      (Seed zeroString []) = Ok st ∧
    ParseFiles W [C "b.c"; C "a.c"] (calloc zeroArbToken) Settings
      (Seed zeroString []) = Ok st' ∧
    populated (FunctionsHash st) = 3%nat ∧
    populated (DefinesHash st) = 3%nat ∧
    hashes (merge_qsort TokenComparer (FunctionsHash st)) =
      hashes (reverse_merge_qsort TokenComparer (FunctionsHash st')) ∧
    hashes (merge_qsort TokenComparer (DefinesHash st)) =
      hashes (reverse_merge_qsort TokenComparer (DefinesHash st')).
Proof.
  intros W Settings.
  destruct (sorted_order_is_a_function_of_the_hashes
              merge_qsort reverse_merge_qsort
              (calloc zeroToken) (calloc zeroToken)
              merge_qsort_spec reverse_merge_qsort_spec)
    as (_ & _ & _ & _ & H & HFiles).
  - apply Forall_forall. intros A HA. apply elem_of_replicate in HA as [-> _]. done.
  - split.
    { apply H.
      + unfold TOKEN_HASH_SIZE. cbn [length]. lia.
      + apply perm_swap. }
    assert (B : match ParseFiles W [C "a.c"; C "b.c"] (calloc zeroArbToken)
                        Settings (Seed zeroString []) with
                | Ok st => (populated (FunctionsHash st) =? 3)%nat &&
                           (populated (DefinesHash st) =? 3)%nat
                | Fail _ => false
                end = true) by (vm_compute; reflexivity).
    assert (B' : match ParseFiles W [C "b.c"; C "a.c"] (calloc zeroArbToken)
                         Settings (Seed zeroString []) with
                 | Ok st => (populated (FunctionsHash st) =? 3)%nat &&
                            (populated (DefinesHash st) =? 3)%nat
                 | Fail _ => false
                 end = true) by (vm_compute; reflexivity).
    destruct (ParseFiles W [C "a.c"; C "b.c"] _ _ _) as [st|] eqn:E;
      [|discriminate B].
    destruct (ParseFiles W [C "b.c"; C "a.c"] _ _ _) as [st'|] eqn:E';
      [|discriminate B'].
    apply andb_prop in B as [B1 B2]. apply andb_prop in B' as [B1' B2'].
    apply Nat.eqb_eq in B1, B2, B1', B2'.
    exists st, st'. do 4 (split; [done|]).
    apply (HFiles zeroString [] W (calloc zeroArbToken) Settings
             [C "a.c"; C "b.c"] [C "b.c"; C "a.c"] st st').
    + apply perm_swap.
    + exact E.
    + exact E'.
    + rewrite B1. unfold TOKEN_HASH_SIZE. lia.
    + rewrite B2. unfold TOKEN_HASH_SIZE. lia.
    + rewrite B1'. unfold TOKEN_HASH_SIZE. lia.
    + rewrite B2'. unfold TOKEN_HASH_SIZE. lia.
Defined.

(** C5 as stated fails beyond the capacity: 8193 symbols inserted in two
    orders leave tables that hold different hashes, and so sort
    differently. *)
Lemma insertion_order_matters_beyond_capacity :
  let Late := token_with_hash 16384 in
  capacity_tokens ++ [Late] ≡ₚ Late :: capacity_tokens ∧
  hashes (merge_qsort TokenComparer
            (AddTokens (calloc zeroToken) (capacity_tokens ++ [Late]))) ≠
  hashes (merge_qsort TokenComparer
            (AddTokens (calloc zeroToken) (Late :: capacity_tokens))).
Proof.
  intros Late. split; [by rewrite Permutation_app_comm|].
  destruct capacity_tokens_facts as (Hlen & Hnz & Hnew).
  destruct (AddTokens_beyond_capacity capacity_tokens Late Hlen Hnz)
    as [Hout Hin]; [done|done|].
  intros E. apply Hout.
  assert (P : ∀ t, hashes t ≡ₚ hashes (merge_qsort TokenComparer t)).
  { intros t. unfold hashes. apply Permutation_map, merge_qsort_spec. }
  rewrite (P (AddTokens _ (capacity_tokens ++ [Late]))), E, <- P. exact Hin.
Qed.

(** ** The loops end within their fuel *)

Lemma nonzero_nonempty p : nonzero (deref p) = true → (0 < length p)%nat.
Proof. destruct p; [done|cbn; lia]. Qed.

(** The scanner fails only on the read of [Chars[2]] behind the buffer. *)
Lemma ScanFunction_Fail ArbHash Settings Token st f :
  ScanFunction ArbHash Settings Token st = Fail f → f = UndefinedBehaviour.
Proof.
  unfold ScanFunction, IsFunctionCandidate.
  destruct (StartsWith _ _); [|done].
  destruct (_ !! _); [done|]. by intros [= <-].
Qed.

Lemma ParseFile_loop_fuel ArbHash Settings fuel : ∀ st Tokenizer,
  (length (At Tokenizer) ≤ fuel)%nat →
  ParseFile_loop fuel ArbHash Settings st Tokenizer ≠ Fail OutOfFuel.
Proof.
  induction fuel as [|fuel IH]; intros st Tokenizer Hlen; cbn [ParseFile_loop].
  - destruct (nonzero _) eqn:Hnz; [|done].
    apply nonzero_nonempty in Hnz. lia.
  - destruct (nonzero _) eqn:Hnz; [|done].
    pose proof (ParseToken_progress Tokenizer Hnz) as Hp.
    unfold ParseFile_body. destruct (ParseToken Tokenizer) as [Token T'].
    destruct (ScanFunction _ _ _ _) as [st1|f] eqn:E; cbn [mbind outcome_bind].
    + apply IH. cbn [snd] in Hp. lia.
    + apply ScanFunction_Fail in E as ->. done.
Qed.

Lemma ParseFiles_fuel W ArbHash Settings names : ∀ st,
  ParseFiles W names ArbHash Settings st ≠ Fail OutOfFuel.
Proof.
  induction names as [|Filename names IH]; intros st; [done|].
  cbn [ParseFiles]. unfold ParseFile.
  destruct (ReadEntireFile W Filename (Stderr st)) as [[Data|] err].
  - match goal with
    | |- context [ParseFile_loop ?f ?A ?S ?a ?T] =>
        pose proof (ParseFile_loop_fuel A S f a T) as HL;
        destruct (ParseFile_loop f A S a T) as [st1|f1]
    end; cbn [mbind outcome_bind].
    + apply IH.
    + intros [= ->]. by apply HL.
  - cbn [mbind outcome_bind]. apply IH.
Qed.

Lemma ParseArbToken_length Tokenizer :
  (length (At (ParseArbToken Tokenizer).2) ≤ length (At Tokenizer))%nat.
Proof.
  unfold ParseArbToken.
  pose proof (skip_token_length (skip_to_token (At Tokenizer))).
  pose proof (skip_to_token_length (At Tokenizer)).
  destruct (IsWhitespace _ && _); cbn [snd At]; [rewrite length_drop|]; lia.
Qed.

Lemma ParseArbToken_progress Tokenizer :
  nonzero (deref (At Tokenizer)) = true →
  (length (At (ParseArbToken Tokenizer).2) < length (At Tokenizer))%nat.
Proof.
  intros Hnz. pose proof (ParseToken_progress Tokenizer Hnz) as Hp.
  cbn [ParseToken snd At] in Hp. unfold ParseArbToken.
  destruct (IsWhitespace _ && _); cbn [snd At]; [rewrite length_drop|]; lia.
Qed.

Lemma Registry_body_progress ArbHash n Tokenizer ArbHash' n' Tokenizer' :
  nonzero (deref (At Tokenizer)) = true →
  Registry_body ArbHash n Tokenizer = Ok (ArbHash', n', Tokenizer') →
  (length (At Tokenizer') < length (At Tokenizer))%nat.
Proof.
  intros Hnz E. unfold Registry_body in E.
  pose proof (ParseArbToken_progress Tokenizer Hnz) as H0.
  destruct (ParseArbToken Tokenizer) as [Token0 T0]. cbn [snd] in H0.
  destruct (Equal (Arb.Value Token0) (C "GLAPI")).
  - pose proof (ParseArbToken_length T0) as H1.
    destruct (ParseArbToken T0) as [Token1 T1]. cbn [snd] in H1.
    set (T2 := if Equal (Arb.Value Token1) (C "const")
               then (ParseArbToken T1).2 else T1) in E.
    assert (H2 : (length (At T2) ≤ length (At T1))%nat).
    { subst T2. destruct (Equal _ _); [apply ParseArbToken_length|done]. }
    pose proof (ParseArbToken_length T2) as H3.
    pose proof (ParseArbToken_length (ParseArbToken T2).2) as H4.
    destruct (ParseArbToken (ParseArbToken T2).2) as [Token3 T3]. cbn [snd] in H4.
    pose proof (skip_line_length (At T3)) as H5.
    destruct (GetToken ArbHash _).
    + injection E as _ _ <-. lia.
    + destruct (AddTokenArb ArbHash _) as [ArbHash1 [Result|]]; [|done].
      injection E as _ _ <-. cbn [AdvanceToEndOfLine At]. lia.
  - destruct (StartsWith (Arb.Value Token0) (C "#define")).
    + pose proof (ParseArbToken_length T0) as H1.
      destruct (ParseArbToken T0) as [Token1 T1]. cbn [snd] in H1.
      pose proof (skip_line_length (At T1)) as H5.
      destruct (GetToken ArbHash _).
      * injection E as _ _ <-. lia.
      * destruct (AddTokenArb ArbHash _) as [ArbHash1 [Result|]]; [|done].
        injection E as _ _ <-. cbn [AdvanceToEndOfLine At]. lia.
    + injection E as _ _ <-. lia.
Qed.

Lemma Registry_loop_fuel fuel : ∀ ArbHash n Tokenizer,
  (length (At Tokenizer) ≤ fuel)%nat →
  Registry_loop fuel ArbHash n Tokenizer ≠ Fail OutOfFuel.
Proof.
  induction fuel as [|fuel IH]; intros ArbHash n Tokenizer Hlen;
    cbn [Registry_loop].
  - destruct (nonzero _) eqn:Hnz; [|done].
    apply nonzero_nonempty in Hnz. lia.
  - destruct (nonzero _) eqn:Hnz; [|done].
    destruct (Registry_body ArbHash n Tokenizer) as [[[A1 n1] T1]|f] eqn:E.
    + cbn [mbind outcome_bind]. apply IH.
      pose proof (Registry_body_progress _ _ _ _ _ _ Hnz E). lia.
    + cbn [mbind outcome_bind]. unfold Registry_body in E.
      repeat match type of E with
             | context [let '(_, _) := ?x in _] => destruct x
             | context [if ?b then _ else _] => destruct b
             | context [match ?x with Some _ => _ | None => _ end] => destruct x
             end; congruence.
Qed.

Lemma for_Index_fuel n : ∀ i body,
  (∀ j, body j ≠ Fail OutOfFuel) → for_Index n i body ≠ Fail OutOfFuel.
Proof.
  induction n as [|n IH]; intros i body Hb; [done|].
  cbn [for_Index]. pose proof (Hb i) as Hbi.
  specialize (IH (i + 1) body Hb).
  destruct (body i); cbn [mbind outcome_bind]; [|congruence].
  destruct (for_Index n (i + 1) body); cbn [mbind outcome_bind]; [done|].
  congruence.
Qed.

Lemma EmitDefine_fuel ArbHash D j : EmitDefine ArbHash D j ≠ Fail OutOfFuel.
Proof.
  unfold EmitDefine, table_at.
  destruct (D !! Z.to_nat j); cbn [mbind outcome_bind]; [|done].
  destruct (_ =? 0); [done|]. by destruct (GetToken _ _).
Qed.

Lemma EmitFunction_fuel ArbHash F line j :
  (∀ e, line e ≠ Fail OutOfFuel) → EmitFunction ArbHash F line j ≠ Fail OutOfFuel.
Proof.
  intros Hl. unfold EmitFunction, table_at.
  destruct (F !! Z.to_nat j); cbn [mbind outcome_bind]; [|done].
  destruct (GetToken _ _); [apply Hl|done].
Qed.

Lemma sprintf512_fuel fmt args : sprintf512 fmt args ≠ Fail OutOfFuel.
Proof. unfold sprintf512. by destruct (_ <? 512)%nat. Qed.

Lemma UpperCase_fuel e (k : ptr → outcome (list ascii)) :
  (∀ Name, k Name ≠ Fail OutOfFuel) → (Name ← UpperCase e; k Name) ≠ Fail OutOfFuel.
Proof.
  intros Hk. unfold UpperCase.
  destruct (Length e <? 512)%nat; cbn [mbind outcome_bind]; [apply Hk|done].
Qed.

Lemma lines_fuel :
  (∀ e, TypedefLine e ≠ Fail OutOfFuel) ∧ (∀ e, RedefineLine e ≠ Fail OutOfFuel) ∧
  (∀ e, GlobalLine e ≠ Fail OutOfFuel) ∧ (∀ p e, GetProcLine p e ≠ Fail OutOfFuel).
Proof.
  repeat split; intros;
    first [apply sprintf512_fuel
          | apply UpperCase_fuel; intros; apply sprintf512_fuel].
Qed.

Lemma Emit_fuel Settings ArbHash F Fc D Dc :
  Emit Settings ArbHash F Fc D Dc ≠ Fail OutOfFuel.
Proof.
  destruct lines_fuel as (HT & HR & HG & HP). unfold Emit.
  pose proof (for_Index_fuel (Z.to_nat Dc) 0 _ (EmitDefine_fuel ArbHash D)) as H1.
  destruct (for_Index _ _ (EmitDefine _ _)); cbn [mbind outcome_bind];
    [|congruence].
  pose proof (for_Index_fuel (Z.to_nat Fc) 0 _
                (λ j, EmitFunction_fuel ArbHash F TypedefLine j HT)) as H2.
  destruct (for_Index _ _ (EmitFunction _ _ TypedefLine));
    cbn [mbind outcome_bind]; [|congruence].
  destruct (Boilerplate Settings); cbn [mbind outcome_bind]; [|done].
  unfold EmitBoilerplate.
  pose proof (for_Index_fuel (Z.to_nat Fc) 0 _
                (λ j, EmitFunction_fuel ArbHash F RedefineLine j HR)) as H3.
  destruct (for_Index _ _ (EmitFunction _ _ RedefineLine));
    cbn [mbind outcome_bind]; [|congruence].
  pose proof (for_Index_fuel (Z.to_nat Fc) 0 _
                (λ j, EmitFunction_fuel ArbHash F GlobalLine j HG)) as H4.
  destruct (for_Index _ _ (EmitFunction _ _ GlobalLine));
    cbn [mbind outcome_bind]; [|congruence].
  match goal with
  | |- context [for_Index ?n ?i (EmitFunction ?A ?F (GetProcLine ?p))] =>
      pose proof (for_Index_fuel n i _
                    (λ j, EmitFunction_fuel A F (GetProcLine p) j (HP p))) as H5;
      destruct (for_Index n i (EmitFunction A F (GetProcLine p)));
        cbn [mbind outcome_bind]; [done|congruence]
  end.
Qed.

(** A run never stops for want of fuel: the fuel the model gives its loops,
    the size of the buffer they walk, is always enough. *)
Lemma GenerateOpenGLHeader_fuel qsort I W Settings :
  GenerateOpenGLHeader qsort I W Settings ≠ Fail OutOfFuel.
Proof.
  unfold GenerateOpenGLHeader.
  destruct (ReadMultiFiles W (Headers Settings) []) as [ArbData err].
  destruct (length (Inputs Settings) <=? 0)%nat; [done|].
  destruct (writable W (Output Settings)); [|done].
  destruct ArbData as [ArbData|]; [|done].
  pose proof (Registry_loop_fuel (length ArbData) (calloc zeroArbToken) 0
                {| At := ArbData |}) as HR.
  destruct (Registry_loop _ _ _ _) as [[ArbHash n]|f].
  - cbn [mbind outcome_bind].
    pose proof (ParseFiles_fuel (fopen_w W (Output Settings)) ArbHash Settings
                  (Inputs Settings) (Seed I err)) as HP.
    destruct (ParseFiles _ _ _ _ _) as [st|f];
      [|cbn [mbind outcome_bind]; congruence].
    cbn [mbind outcome_bind].
    match goal with
    | |- context [Emit ?S ?A ?F ?Fc ?D ?Dc] =>
        pose proof (Emit_fuel S A F Fc D Dc) as HE;
        destruct (Emit S A F Fc D Dc); cbn [mbind outcome_bind];
          [done|congruence]
    end.
  - cbn [mbind outcome_bind]. intros [= ->]. by apply HR.
Qed.

(** ** Further properties of the tokenizers, the tables, the registry
    parser, the reader and the command line *)

Lemma IsIdentifier_nonzero c : IsIdentifier c = true → nonzero c = true.
Proof.
  intros H. apply nonzero_true. intros ->. vm_compute in H. congruence.
Qed.

Lemma IsWhitespaceOrNewline_not_identifier c :
  IsWhitespaceOrNewline c = true → IsIdentifier c = false.
Proof.
  unfold IsWhitespaceOrNewline, IsNewline, IsWhitespace.
  rewrite !orb_true_iff, !Ascii.eqb_eq.
  intros [[-> | ->]|[[[-> | ->]| ->]| ->]]; reflexivity.
Qed.

Lemma IsUpperCase_identifier c : IsUpperCase c = true → IsIdentifier c = true.
Proof.
  unfold IsUpperCase, IsIdentifier. intros ->. by rewrite orb_true_r.
Qed.

Lemma skip_token_split p :
  ∃ s, p = s ++ skip_token p ∧ Forall (λ c, IsIdentifier c = true) s ∧
       IsIdentifier (deref (skip_token p)) = false.
Proof.
  induction p as [|c p (s & Hp & Hs & Hd)].
  { exists []. split; [done|]. split; [constructor|]. reflexivity. }
  cbn [skip_token]. destruct (IsIdentifier c) eqn:Hc.
  - rewrite (IsIdentifier_nonzero _ Hc). cbn [andb].
    exists (c :: s). split; [cbn; congruence|]. split; [by constructor|done].
  - rewrite andb_false_r. exists []. split; [done|]. split; [constructor|done].
Qed.

Lemma skip_to_token_split p :
  ∃ s, p = s ++ skip_to_token p ∧
       Forall (λ c, c ≠ NUL ∧ IsIdentifier c = false) s ∧
       (deref (skip_to_token p) = NUL ∨
        IsIdentifier (deref (skip_to_token p)) = true).
Proof.
  induction p as [|c p (s & Hp & Hs & Hd)].
  { exists []. split; [done|]. split; [constructor|]. by left. }
  cbn [skip_to_token]. destruct (nonzero c) eqn:Hc; cbn [andb].
  - destruct (IsIdentifier c) eqn:Hi.
    + destruct (IsWhitespaceOrNewline c) eqn:Hw.
      { apply IsWhitespaceOrNewline_not_identifier in Hw. congruence. }
      cbn [orb negb]. exists []. split; [done|]. split; [constructor|]. by right.
    + rewrite orb_true_r. exists (c :: s). split; [cbn; congruence|].
      split; [|done]. constructor; [|done]. split; [by apply nonzero_true|done].
  - exists []. split; [done|]. split; [constructor|]. left. cbn.
    unfold nonzero in Hc. by destruct (Ascii.eqb_spec c NUL).
Qed.

Lemma ptrdiff_app (s r : list ascii) : ptrdiff r (s ++ r) = length s.
Proof. unfold ptrdiff. rewrite length_app. lia. Qed.

(** X1.  [ParseToken] skips the characters before the terminator that are not
    identifier characters and returns the run of identifier characters that
    follows, up to the first character that is not one; the tokenizer is
    left right behind that run.  The token is empty only when the
    terminator of the buffer has been reached, and its hash is the string
    hash of the run. *)
Theorem ParseToken_maximal_identifier_run (Tokenizer : GLTokenizer) :
  let Token := (ParseToken Tokenizer).1 in
  let Tokenizer' := (ParseToken Tokenizer).2 in
  ∃ skipped,
    At Tokenizer = skipped ++ text (Value Token) ++ At Tokenizer' ∧
    Forall (λ c, c ≠ NUL ∧ IsIdentifier c = false) skipped ∧
    Forall (λ c, IsIdentifier c = true) (text (Value Token)) ∧
    IsIdentifier (deref (At Tokenizer')) = false ∧
    (text (Value Token) = [] → deref (At Tokenizer') = NUL) ∧
    Chars (Value Token) = text (Value Token) ++ At Tokenizer' ∧
    Length (Value Token) = length (text (Value Token)) ∧
    Hash Token = spec_hash (text (Value Token)).
Proof.
  destruct Tokenizer as [p]. cbn [ParseToken fst snd At Value Hash].
  destruct (skip_to_token_split p) as (skipped & Hp & Hskip & Hstop).
  destruct (skip_token_split (skip_to_token p)) as (s & Hs & Hid & Hend).
  assert (Htext : text {| Chars := skip_to_token p;
                          Length := ptrdiff (skip_token (skip_to_token p))
                                      (skip_to_token p) |} = s).
  { unfold text. cbn [Chars Length]. rewrite Hs at 2 3.
    rewrite ptrdiff_app, take_app_length. done. }
  exists skipped. rewrite Htext. cbn [Chars Length].
  split; [by rewrite <- Hs|]. split; [done|]. split; [done|]. split; [done|].
  split.
  { intros ->. cbn in Hs. rewrite <- Hs. destruct Hstop as [?|Hi]; [done|].
    rewrite <- Hs in Hend. congruence. }
  split; [done|]. split.
  { rewrite Hs at 2. by rewrite ptrdiff_app. }
  unfold GetStringHash. cbn [Chars Length]. rewrite Hs at 2 3.
  rewrite ptrdiff_app. apply GetStringHash_loop_fold.
Qed.

Lemma StartsWith_gl (s r : list ascii) :
  StartsWith {| Chars := s ++ r; Length := length s |} (C "gl") = true ↔
  s = ["g"%char] ∨ ∃ rest, s = "g"%char :: "l"%char :: rest.
Proof.
  change (C "gl") with ["g"%char; "l"%char]. unfold StartsWith. cbn [Length Chars].
  destruct s as [|a [|b s]]; cbn [length app StartsWith_loop deref hd tail nonzero
                                  Nat.ltb Nat.leb].
  - cbn. split; [done|]. intros [?|[? ?]]; done.
  - change (nonzero "g") with true. cbn [negb].
    destruct (Ascii.eqb_spec "g"%char a) as [<-|Hne]; cbn [negb].
    + split; [by left|done].
    + split; [done|]. intros [[= ?]|[? [= ? ?]]]; congruence.
  - change (nonzero "g") with true. change (nonzero "l") with true.
    destruct (Ascii.eqb_spec "g"%char a) as [<-|Hne]; cbn [negb].
    + destruct (Ascii.eqb_spec "l"%char b) as [<-|Hne]; cbn [negb].
      * destruct s; cbn; (split; [intros _; right; eauto|done]).
      * split; [done|]. intros [[=]|[? [= ?]]]; congruence.
    + split; [done|]. intros [[=]|[? [= ? ?]]]; congruence.
Qed.

Lemma StartsWith_GL_ (s r : list ascii) :
  StartsWith {| Chars := s ++ r; Length := length s |} (C "GL_") = true ↔
  s = C "G" ∨ s = C "GL" ∨ C "GL_" `prefix_of` s.
Proof.
  change (C "GL_") with ["G"%char; "L"%char; "_"%char].
  change (C "G") with ["G"%char]. change (C "GL") with ["G"%char; "L"%char].
  unfold StartsWith. cbn [Length Chars].
  destruct s as [|a [|b [|c s]]];
    cbn [length app StartsWith_loop deref hd tail Nat.ltb Nat.leb].
  - cbn. split; [done|]. intros [?|[?|H]]; [done|done|].
    by apply prefix_nil_not in H.
  - change (nonzero "G") with true. cbn [negb].
    destruct (Ascii.eqb_spec "G"%char a) as [<-|Hne]; cbn [negb].
    + split; [by left|done].
    + split; [done|]. intros [[= ?]|[[=]|[k [=]]]]; congruence.
  - change (nonzero "G") with true. change (nonzero "L") with true.
    destruct (Ascii.eqb_spec "G"%char a) as [<-|Hne]; cbn [negb].
    + destruct (Ascii.eqb_spec "L"%char b) as [<-|Hne]; cbn [negb].
      * split; [by right; left|done].
      * split; [done|]. intros [[=]|[[=]|[k [=]]]]; congruence.
    + split; [done|]. intros [[=]|[[=]|[k [=]]]]; congruence.
  - change (nonzero "G") with true. change (nonzero "L") with true.
    change (nonzero "_") with true.
    destruct (Ascii.eqb_spec "G"%char a) as [<-|Hne]; cbn [negb].
    + destruct (Ascii.eqb_spec "L"%char b) as [<-|Hne]; cbn [negb].
      * destruct (Ascii.eqb_spec "_"%char c) as [<-|Hne]; cbn [negb].
        -- destruct s; cbn;
             (split; [intros _; right; right; by eexists|done]).
        -- split; [done|]. intros [[=]|[[=]|[k [=]]]]; congruence.
      * split; [done|]. intros [[=]|[[=]|[k [=]]]]; congruence.
    + split; [done|]. intros [[=]|[[=]|[k [=]]]]; congruence.
Qed.

(** The slice [ParseToken] returns: its characters are followed in the
    buffer by what the tokenizer has left, which does not begin with an
    identifier character. *)
Lemma ParseToken_slice (Tokenizer : GLTokenizer) :
  let Token := (ParseToken Tokenizer).1 in
  let Tokenizer' := (ParseToken Tokenizer).2 in
  IsIdentifier (deref (At Tokenizer')) = false ∧
  Chars (Value Token) = text (Value Token) ++ At Tokenizer' ∧
  Length (Value Token) = length (text (Value Token)).
Proof.
  destruct Tokenizer as [p]. cbn [ParseToken fst snd At Value Hash].
  destruct (skip_token_split (skip_to_token p)) as (s & Hs & Hid & Hend).
  assert (Htext : text {| Chars := skip_to_token p;
                          Length := ptrdiff (skip_token (skip_to_token p))
                                      (skip_to_token p) |} = s).
  { unfold text. cbn [Chars Length]. rewrite Hs at 2 3.
    rewrite ptrdiff_app, take_app_length. done. }
  rewrite Htext. cbn [Chars Length].
  split; [done|]. split; [done|].
  rewrite Hs at 2. by rewrite ptrdiff_app.
Qed.

(** X2.  Which tokens the scanner of [ParseFile] looks at.  A token is a
    function candidate exactly when it is [gl], an upper-case letter and
    anything more, or when it is the single character [g] and the byte two
    places after its start, one place behind the character that ends the
    token, is an upper-case letter: [StartsWith] stops at the end of the
    token, and [Chars[2]] is read whatever the length.  That read falls
    outside the buffer, and the test has no defined result, exactly when the
    token is the single character [g] and at most one byte, the terminator,
    follows it, or when the token is [gl] and nothing follows it, which
    does not happen in a buffer that ends with a terminator; the test fails
    in no other way.  A token is a macro candidate exactly when it is [G],
    [GL] or begins with [GL_]. *)
Theorem scanner_candidates (Tokenizer : GLTokenizer) :
  let Token := (ParseToken Tokenizer).1 in
  let after := At (ParseToken Tokenizer).2 in
  (IsFunctionCandidate Token = Ok true ↔
     (∃ c rest, text (Value Token) = "g"%char :: "l"%char :: c :: rest ∧
                IsUpperCase c = true) ∨
     (text (Value Token) = ["g"%char] ∧
      ∃ c, after !! 1%nat = Some c ∧ IsUpperCase c = true)) ∧
  (IsFunctionCandidate Token = Fail UndefinedBehaviour ↔
     (text (Value Token) = ["g"%char] ∧ (length after ≤ 1)%nat) ∨
     (text (Value Token) = ["g"%char; "l"%char] ∧ after = [])) ∧
  (∀ f, IsFunctionCandidate Token = Fail f → f = UndefinedBehaviour) ∧
  (IsDefineCandidate Token = true ↔
     text (Value Token) = C "G" ∨ text (Value Token) = C "GL" ∨
     C "GL_" `prefix_of` text (Value Token)).
Proof.
  destruct (ParseToken_slice Tokenizer) as (Hend & HC & HL).
  cbv zeta. set (Token := (ParseToken Tokenizer).1) in *.
  set (r := At (ParseToken Tokenizer).2) in *.
  set (s := text (Value Token)) in *.
  unfold IsFunctionCandidate, IsDefineCandidate.
  assert (HV : ∀ V, V = {| Chars := Chars V; Length := Length V |})
    by (by intros []).
  rewrite (HV (Value Token)), HC, HL. cbn [Chars].
  split; [|split; [|split]]; [| | |apply StartsWith_GL_].
  all: clearbody s r; clear HV HC HL Token.
  all: destruct (StartsWith _ (C "gl")) eqn:E;
    [apply StartsWith_gl in E as [->|[[|c rest] ->]]|].
  - (* [g] *)
    change ((["g"%char] ++ r) !! 2%nat) with (r !! 1%nat).
    destruct (r !! 1%nat) as [c|]; split.
    + intros [= Hu]. right. split; [done|]. by exists c.
    + intros [(? & ? & [=] & _)|[_ (c' & [= <-] & ->)]]. done.
    + done.
    + intros [(? & ? & [=] & _)|[_ (c' & [=] & _)]].
  - (* [gl] *)
    change ((["g"%char; "l"%char] ++ r) !! 2%nat) with (r !! 0%nat).
    destruct r as [|c r]; cbn [lookup list_lookup]; split.
    + done.
    + intros [(? & ? & [=] & _)|[[=] _]].
    + intros [= Hu]. apply IsUpperCase_identifier in Hu. cbn in Hend.
      congruence.
    + intros [(? & ? & [=] & _)|[[=] _]].
  - (* [gl], a character and more *)
    change ((("g"%char :: "l"%char :: c :: rest) ++ r) !! 2%nat) with (Some c).
    split.
    + intros [= Hu]. left. by exists c, rest.
    + intros [(? & ? & [= <- <-] & ->)|[[=] _]]. done.
  - split; [done|].
    intros [(c & rest & -> & _)|[-> _]];
      (apply not_true_iff_false in E; destruct E; apply StartsWith_gl);
      [right; eauto|by left].
  - (* the read behind the buffer *)
    change ((["g"%char] ++ r) !! 2%nat) with (r !! 1%nat).
    destruct (r !! 1%nat) as [c|] eqn:Er; split.
    + done.
    + intros [[_ Hlen]|[[=] _]]. apply lookup_lt_Some in Er. lia.
    + intros _. left. split; [done|]. apply lookup_ge_None in Er. lia.
    + done.
  - change ((["g"%char; "l"%char] ++ r) !! 2%nat) with (r !! 0%nat).
    destruct r as [|c r]; cbn [lookup list_lookup]; split.
    + intros _. by right.
    + done.
    + done.
    + intros [[[=] _]|[_ [=]]].
  - change ((("g"%char :: "l"%char :: c :: rest) ++ r) !! 2%nat) with (Some c).
    split; [done|]. intros [[[=] _]|[[=] _]].
  - split; [done|].
    intros [[-> _]|[-> _]];
      (apply not_true_iff_false in E; destruct E; apply StartsWith_gl);
      [by left|right; eauto].
  - intros f. by destruct (_ !! _); intros [= <-].
  - intros f. by destruct (_ !! _); intros [= <-].
  - intros f. by destruct (_ !! _); intros [= <-].
  - done.
Qed.

(** The multiplier of the hash is odd, so multiplying by it modulo [2^32]
    loses nothing. *)
Lemma hash_multiplier_injective a b :
  0 ≤ a < 2 ^ 32 → 0 ≤ b < 2 ^ 32 →
  (a * 0x01000193) mod 2 ^ 32 = (b * 0x01000193) mod 2 ^ 32 → a = b.
Proof.
  intros Ha Hb E.
  assert (R : ∀ x, 0 ≤ x < 2 ^ 32 →
            ((x * 0x01000193) mod 2 ^ 32 * 899433627) mod 2 ^ 32 = x).
  { intros x Hx. rewrite Z.mul_mod_idemp_l by lia.
    replace (x * 0x01000193 * 899433627) with (x + x * 3513497 * 2 ^ 32) by lia.
    rewrite Z.mod_add by lia. by apply Z.mod_small. }
  rewrite <- (R a Ha), <- (R b Hb). by rewrite E.
Qed.

Lemma code_injective c1 c2 : code c1 = code c2 → c1 = c2.
Proof.
  unfold code. intros E. apply N2Z.inj in E.
  rewrite <- (ascii_N_embedding c1), <- (ascii_N_embedding c2). by rewrite E.
Qed.

Lemma lxor_cancel_r a b c : Z.lxor a c = Z.lxor b c → a = b.
Proof.
  intros E. rewrite <- (Z.lxor_0_r a), <- (Z.lxor_0_r b), <- (Z.lxor_nilpotent c).
  rewrite <- !Z.lxor_assoc. by rewrite E.
Qed.

Lemma lxor_cancel_l a b c : Z.lxor c a = Z.lxor c b → a = b.
Proof. rewrite !(Z.lxor_comm c). apply lxor_cancel_r. Qed.

Lemma spec_hash_step_injective h1 h2 c :
  0 ≤ h1 < 2 ^ 32 → 0 ≤ h2 < 2 ^ 32 →
  spec_hash_step h1 c = spec_hash_step h2 c → h1 = h2.
Proof.
  intros H1 H2 E. unfold spec_hash_step in E. apply lxor_cancel_r in E.
  by apply hash_multiplier_injective.
Qed.

Lemma fold_hash_range s h :
  0 ≤ h < 2 ^ 32 → 0 ≤ fold_left spec_hash_step s h < 2 ^ 32.
Proof.
  revert h. induction s as [|c s IH]; intros h Hh; [done|].
  cbn [fold_left]. apply IH, spec_hash_step_range.
Qed.

Lemma fold_hash_injective s : ∀ h1 h2,
  0 ≤ h1 < 2 ^ 32 → 0 ≤ h2 < 2 ^ 32 →
  fold_left spec_hash_step s h1 = fold_left spec_hash_step s h2 → h1 = h2.
Proof.
  induction s as [|c s IH]; intros h1 h2 H1 H2 E; [done|].
  cbn [fold_left] in E. apply IH in E; try apply spec_hash_step_range.
  by apply spec_hash_step_injective in E.
Qed.

(** X3.  Two strings of the same length that differ in exactly one
    character never have the same hash: every step of [GetStringHash] is
    injective in the running value, the multiplier being odd. *)
Theorem GetStringHash_separates_one_character
    (pre suf rest rest' : list ascii) (c1 c2 : ascii) :
  c1 ≠ c2 →
  GetStringHash (slice_of (pre ++ c1 :: suf) rest) ≠
  GetStringHash (slice_of (pre ++ c2 :: suf) rest').
Proof.
  intros Hne E. unfold GetStringHash, slice_of in E. cbn [Chars Length] in E.
  rewrite !GetStringHash_loop_fold, !fold_left_app in E. cbn [fold_left] in E.
  apply fold_hash_injective in E; try apply spec_hash_step_range.
  unfold spec_hash_step in E. apply lxor_cancel_l in E.
  by apply code_injective in E.
Qed.

Lemma GetStringHash_separates_one_character_witness :
  GetStringHash (slice_of (C "glUniform1f") (C "(location, v0);")) ≠
  GetStringHash (slice_of (C "glUniform2f") (C "(location, v0, v1);")).
Proof.
  apply (GetStringHash_separates_one_character
           (C "glUniform") (C "f") (C "(location, v0);") (C "(location, v0, v1);")
           "1"%char "2"%char).
  congruence.
Defined.

(** X4.  Insert and lookup of a result set.  In a table of the full capacity
    with an empty slot, a token with a non-zero hash is found by [Contains]
    right after [AddToken] has inserted it, and every token that was found
    before is still found. *)
Theorem AddToken_then_Contains (TokenHash : list GLToken) (Token : GLToken) :
  length TokenHash = Z.to_nat TOKEN_HASH_SIZE →
  Hash Token ≠ 0 →
  0 ∈ hashes TokenHash →
  Contains (AddToken TokenHash Token).1 Token = true ∧
  ∀ Other, Contains TokenHash Other = true →
           Contains (AddToken TokenHash Token).1 Other = true.
Proof.
  intros Hlen Hh Hin. split.
  - by apply AddToken_Contains_self.
  - intros Other. apply AddToken_Contains_mono.
Qed.

Lemma AddToken_then_Contains_witness :
  Contains (AddToken (calloc zeroToken) (token_of "glClear")).1
    (token_of "glClear") = true.
Proof.
  destruct (AddToken_then_Contains (calloc zeroToken) (token_of "glClear"))
    as [H _]; [| | |exact H].
  - apply calloc_length.
  - vm_compute. congruence.
  - rewrite hashes_calloc. unfold TOKEN_HASH_SIZE.
    apply list_elem_of_lookup. exists 0%nat. reflexivity.
Defined.

Lemma AddTokenArb_None_full ArbHash ArbToken :
  length ArbHash = Z.to_nat TOKEN_HASH_SIZE →
  (AddTokenArb ArbHash ArbToken).2 = None ↔
  Forall (λ e, Arb.Hash e ≠ 0) ArbHash.
Proof.
  intros HlenA.
  rewrite <- (no_empty_iff_full Arb.Hash zeroArbToken ArbHash
               (Arb.Hash ArbToken) HlenA).
  destruct (first_empty_or_none Arb.Hash zeroArbToken ArbHash (Arb.Hash ArbToken))
    as [[k Hfe]|Hfull].
  - rewrite (AddTokenArb_found _ _ _ Hfe). cbn [snd]. split; [done|].
    intros Hfull. destruct Hfe as (Hk & Hz & _). by destruct (Hfull k Hk).
  - by rewrite (AddTokenArb_full _ _ Hfull).
Qed.

(** X5.  An insert is dropped only by a full table.  The registry overload of
    [AddToken] returns the null pointer exactly when no slot of the table
    is empty; the result-set overload leaves a table without an empty slot
    as it is, and otherwise writes the token into a slot that was empty,
    changing no other slot. *)
Theorem insert_dropped_only_when_full
    (ArbHash : list GLArbToken) (ArbToken : GLArbToken)
    (TokenHash : list GLToken) (Token : GLToken) :
  length ArbHash = Z.to_nat TOKEN_HASH_SIZE →
  length TokenHash = Z.to_nat TOKEN_HASH_SIZE →
  ((AddTokenArb ArbHash ArbToken).2 = None ↔
     Forall (λ e, Arb.Hash e ≠ 0) ArbHash) ∧
  (Forall (λ e, Hash e ≠ 0) TokenHash →
     (AddToken TokenHash Token).1 = TokenHash) ∧
  (¬ Forall (λ e, Hash e ≠ 0) TokenHash →
     ∃ i e, TokenHash !! i = Some e ∧ Hash e = 0 ∧
            (AddToken TokenHash Token).1 = <[i:=Token]> TokenHash).
Proof.
  intros HlenA Hlen. split; [|split].
  - by apply AddTokenArb_None_full.
  - intros Hall. apply (no_empty_iff_full Hash zeroToken _ (Hash Token) Hlen) in Hall.
    by rewrite (AddToken_full _ _ Hall).
  - intros Hnot.
    destruct (first_empty_or_none Hash zeroToken TokenHash (Hash Token))
      as [[k Hfe]|Hfull].
    + rewrite (AddToken_found _ _ _ Hfe). cbn [fst].
      destruct Hfe as (Hk & Hz & _). unfold probed, slot in Hz.
      pose proof (probe_index_range (Hash Token) k) as Hr.
      exists (Z.to_nat (probe_index (Hash Token) k)).
      destruct (TokenHash !! Z.to_nat (probe_index (Hash Token) k)) as [e|] eqn:E.
      * exists e. done.
      * apply lookup_ge_None in E. unfold TOKEN_HASH_SIZE in *. lia.
    + destruct Hnot. by apply (no_empty_iff_full Hash zeroToken _ (Hash Token)).
Qed.

Lemma insert_dropped_only_when_full_witness :
  (AddTokenArb full_registry (entry_of "glFinish")).2 = None ∧
  (AddTokenArb (calloc zeroArbToken) (entry_of "glFinish")).2 ≠ None.
Proof.
  pose proof (insert_dropped_only_when_full full_registry (entry_of "glFinish")
                full_table (token_of "glFinish")) as [H _];
    [apply length_replicate|apply length_replicate|].
  pose proof (insert_dropped_only_when_full (calloc zeroArbToken)
                (entry_of "glFinish") full_table (token_of "glFinish")) as [H' _];
    [apply calloc_length|apply length_replicate|].
  split.
  - apply H. apply Forall_replicate. vm_compute. congruence.
  - intros E. apply H' in E.
    apply (proj1 (Forall_forall _ _) E zeroArbToken); [|reflexivity].
    apply list_elem_of_lookup. exists 0%nat. reflexivity.
Defined.

(** X6.  A candidate that the registry or the ignore list accepts and that is
    not yet in its result set (which has an empty slot) is counted once:
    the scanner adds one to the counter, prints nothing, and from then on
    [Contains] finds the token, so that a later occurrence of it, or of any
    token with the same hash, changes nothing (a token with the same hash
    for which the test for a function name reads behind the buffer has
    that undefined read instead). *)
Theorem accepted_identifier_counted_once
    (ArbHash : list GLArbToken) (Settings : GLSettings) (Token : GLToken)
    (st : ScanState) :
  Hash Token ≠ 0 →
  (IsKnownOrIgnoredToken ArbHash Token Settings (Stderr st)).1 = true →
  (IsFunctionCandidate Token = Ok true →
   length (FunctionsHash st) = Z.to_nat TOKEN_HASH_SIZE →
   0 ∈ hashes (FunctionsHash st) →
   Contains (FunctionsHash st) Token = false →
   ∃ st1,
     ScanFunction ArbHash Settings Token st = Ok st1 ∧
     FunctionCount st1 = (FunctionCount st + 1) mod UINT_MAX1 ∧
     Stderr st1 = Stderr st ∧
     Contains (FunctionsHash st1) Token = true ∧
     ∀ Token', Hash Token' = Hash Token →
               ScanFunction ArbHash Settings Token' st1 =
                 (_ ← IsFunctionCandidate Token'; Ok st1)) ∧
  (IsDefineCandidate Token = true →
   length (DefinesHash st) = Z.to_nat TOKEN_HASH_SIZE →
   0 ∈ hashes (DefinesHash st) →
   Contains (DefinesHash st) Token = false →
   let st1 := ScanDefine ArbHash Settings Token st in
   DefinesCount st1 = (DefinesCount st + 1) mod UINT_MAX1 ∧
   Stderr st1 = Stderr st ∧
   Contains (DefinesHash st1) Token = true ∧
   ∀ Token', Hash Token' = Hash Token →
             ScanDefine ArbHash Settings Token' st1 = st1).
Proof.
  intros Hh Hacc.
  pose proof (IsKnownOrIgnoredToken_spec ArbHash Token Settings (Stderr st))
    as [_ Herr]. cbv zeta in Herr. rewrite Hacc in Herr.
  destruct (IsKnownOrIgnoredToken ArbHash Token Settings (Stderr st))
    as [Found err] eqn:EK. cbn [fst snd] in Hacc, Herr. subst Found err.
  split.
  - intros Hcand Hlen Hroom Hnew.
    set (st1 :=
      {| FunctionsHash := (AddToken (FunctionsHash st) Token).1;
         FunctionCount := (FunctionCount st + 1) mod UINT_MAX1;
         DefinesHash := DefinesHash st; DefinesCount := DefinesCount st;
         Stderr := Stderr st |}).
    exists st1.
    assert (E1 : ScanFunction ArbHash Settings Token st = Ok st1).
    { unfold ScanFunction. rewrite Hcand. cbn [mbind outcome_bind].
      rewrite Hnew. cbn [negb]. by rewrite EK. }
    assert (HC : Contains (FunctionsHash st1) Token = true).
    { cbn [st1 FunctionsHash]. by apply AddToken_Contains_self. }
    split; [done|]. split; [done|]. split; [done|]. split; [done|].
    intros Token' Hsame. unfold ScanFunction.
    rewrite (Contains_same_hash _ _ _ Hsame), HC. cbn [negb].
    by destruct (IsFunctionCandidate Token') as [[|]|].
  - intros Hcand Hlen Hroom Hnew st1.
    assert (E1 : st1 =
      {| FunctionsHash := FunctionsHash st; FunctionCount := FunctionCount st;
         DefinesHash := (AddToken (DefinesHash st) Token).1;
         DefinesCount := (DefinesCount st + 1) mod UINT_MAX1;
         Stderr := Stderr st |}).
    { unfold st1, ScanDefine. rewrite Hcand, Hnew. cbn [negb]. by rewrite EK. }
    assert (HC : Contains (DefinesHash st1) Token = true).
    { rewrite E1. cbn [DefinesHash]. by apply AddToken_Contains_self. }
    rewrite E1 in *. cbn [DefinesCount Stderr DefinesHash] in *.
    split; [done|]. split; [done|]. split; [done|].
    intros Token' Hsame. unfold ScanDefine. cbn [DefinesHash].
    rewrite (Contains_same_hash _ _ _ Hsame), HC. cbn [negb].
    by destruct (IsDefineCandidate Token').
Qed.

Lemma accepted_identifier_counted_once_witness :
  let Settings := settings_ignoring [C "glFoo"] in
  ∃ st1,
    ScanFunction (calloc zeroArbToken) Settings (token_of "glFoo") empty_scan =
      Ok st1 ∧
    FunctionCount st1 = 1 ∧
    ScanFunction (calloc zeroArbToken) Settings (token_of "glFoo") st1 = Ok st1.
Proof.
  intros Settings.
  destruct (accepted_identifier_counted_once (calloc zeroArbToken) Settings
              (token_of "glFoo") empty_scan) as [H _].
  - vm_compute. congruence.
  - vm_compute. reflexivity.
  - destruct H as (st1 & E & Hc & _ & _ & Hsame).
    + vm_compute. reflexivity.
    + apply calloc_length.
    + apply list_elem_of_lookup. exists 0%nat. reflexivity.
    + vm_compute. reflexivity.
    + exists st1. split; [exact E|]. split; [exact Hc|].
      by rewrite (Hsame (token_of "glFoo")).
Defined.

Lemma AddToken_exact t c Token :
  length t = Z.to_nat TOKEN_HASH_SIZE → c = Z.of_nat (populated t) →
  c < TOKEN_HASH_SIZE → Hash Token ≠ 0 →
  length (AddToken t Token).1 = Z.to_nat TOKEN_HASH_SIZE ∧
  (c + 1) mod UINT_MAX1 = Z.of_nat (populated (AddToken t Token).1).
Proof.
  intros Hlen Hc Hlt Hh.
  assert (Hroom : 0 ∈ hashes t).
  { apply populated_room. unfold TOKEN_HASH_SIZE in *. lia. }
  split; [by apply AddToken_hashes|].
  rewrite AddToken_populated by done.
  unfold TOKEN_HASH_SIZE, UINT_MAX1 in *. rewrite Z.mod_small; lia.
Qed.

Lemma ScanFunction_exact ArbHash Settings Token st st' :
  counters_exact st → FunctionCount st < TOKEN_HASH_SIZE → Hash Token ≠ 0 →
  ScanFunction ArbHash Settings Token st = Ok st' →
  counters_exact st' ∧ DefinesCount st' = DefinesCount st.
Proof.
  intros (HlF & HlD & HF & HD) Hlt Hh E.
  apply ScanFunction_Ok in E as ([|] & _ & ->); [|done].
  destruct (Contains _ _); cbn [negb]; [done|].
  destruct (IsKnownOrIgnoredToken _ _ _ _) as [[] err]; [|done].
  destruct (AddToken_exact _ _ Token HlF HF Hlt Hh) as [Hl' Hc'].
  done.
Qed.

Lemma ScanDefine_exact ArbHash Settings Token st :
  counters_exact st → DefinesCount st < TOKEN_HASH_SIZE → Hash Token ≠ 0 →
  counters_exact (ScanDefine ArbHash Settings Token st).
Proof.
  intros (HlF & HlD & HF & HD) Hlt Hh. unfold ScanDefine.
  destruct (IsDefineCandidate Token); [|done].
  destruct (Contains _ _); cbn [negb]; [done|].
  destruct (IsKnownOrIgnoredToken _ _ _ _) as [[] err]; [|done].
  destruct (AddToken_exact _ _ Token HlD HD Hlt Hh) as [Hl' Hc'].
  done.
Qed.

(** X7.  [FunctionCount] and [DefinesCount] count the populated slots of
    their tables: this holds after the three symbols have been seeded, and
    every step of the scanner keeps it while the tables are not full and
    the token's hash is not zero.  A step returns, with the tokenizer
    behind the token, unless the test for a function name reads behind the
    buffer; then the step has that undefined read and no result. *)
Theorem counters_track_entries
    (Indeterminate : GLString) (err : diagnostics)
    (ArbHash : list GLArbToken) (Settings : GLSettings) (st : ScanState)
    (Tokenizer : GLTokenizer) :
  counters_exact (Seed Indeterminate err) ∧
  (counters_exact st →
   FunctionCount st < TOKEN_HASH_SIZE → DefinesCount st < TOKEN_HASH_SIZE →
   Hash (ParseToken Tokenizer).1 ≠ 0 →
   match IsFunctionCandidate (ParseToken Tokenizer).1 with
   | Ok _ =>
       ∃ st', ParseFile_body ArbHash Settings st Tokenizer =
                Ok (st', (ParseToken Tokenizer).2) ∧
              counters_exact st'
   | Fail f => ParseFile_body ArbHash Settings st Tokenizer = Fail f
   end).
Proof.
  split.
  - destruct (Seed_facts Indeterminate err) as (HF & HD & HpF & HpD & _).
    split; [|split; [|split]].
    + unfold Seed, AddCustomToken. cbn [FunctionsHash].
      apply AddToken_hashes; [apply calloc_length|].
      apply list_elem_of_lookup. exists 0%nat. reflexivity.
    + unfold Seed, AddCustomToken. cbn [DefinesHash].
      apply AddToken_hashes.
      * apply AddToken_hashes; [apply calloc_length|].
        apply list_elem_of_lookup. exists 0%nat. reflexivity.
      * apply list_elem_of_lookup. exists 0%nat. vm_compute. reflexivity.
    + by rewrite HF, HpF.
    + by rewrite HD, HpD.
  - intros Hex HF HD Hh.
    destruct (IsFunctionCandidate (ParseToken Tokenizer).1) as [b|f] eqn:EC.
    + destruct (ParseFile_body ArbHash Settings st Tokenizer)
        as [[st' Tokenizer']|f] eqn:E.
      * pose proof E as E'.
        apply ParseFile_body_Ok in E' as (st1 & E1 & -> & ->).
        eexists. split; [reflexivity|].
        destruct (ScanFunction_exact _ _ _ _ _ Hex HF Hh E1) as [Hex' HD'].
        apply ScanDefine_exact; [done|by rewrite HD'|done].
      * exfalso. revert E. unfold ParseFile_body, ScanFunction.
        destruct (ParseToken Tokenizer) as [Token T']. cbn [fst snd] in EC.
        by rewrite EC.
    + unfold ParseFile_body, ScanFunction.
      destruct (ParseToken Tokenizer) as [Token T']. cbn [fst snd] in EC.
      by rewrite EC.
Qed.

Lemma counters_track_entries_witness :
  ∃ st',
    ParseFile_body (calloc zeroArbToken) (settings_ignoring [C "glFoo"])
      (Seed zeroString []) {| At := C "glFoo(1);" ++ [NUL] |} =
      Ok (st', {| At := C "(1);" ++ [NUL] |}) ∧
    counters_exact st'.
Proof.
  destruct (counters_track_entries zeroString [] (calloc zeroArbToken)
              (settings_ignoring [C "glFoo"]) (Seed zeroString [])
              {| At := C "glFoo(1);" ++ [NUL] |}) as [Hseed H].
  apply (H Hseed).
  - reflexivity.
  - reflexivity.
  - vm_compute. congruence.
Defined.

(** In a descending list of hashes, which are not negative, the populated
    slots come first. *)
Lemma descending_populated_first (l : list Z) :
  StronglySorted (λ x y, y ≤ x) l → Forall (λ x, 0 ≤ x) l →
  ∀ j x, l !! j = Some x →
         x ≠ 0 ↔ (j < length (filter (λ h : Z, h ≠ 0%Z) l))%nat.
Proof.
  induction 1 as [|x l Hs IH Hle]; intros Hnn j y Hj; [done|].
  apply Forall_cons in Hnn as [Hx Hnn].
  destruct (decide (x = 0)) as [->|Hx0].
  - assert (Hall : ∀ z, z ∈ l → z = 0).
    { intros z Hz. pose proof (proj1 (Forall_forall _ _) Hle z Hz).
      pose proof (proj1 (Forall_forall _ _) Hnn z Hz). cbn in *. lia. }
    assert (Hf : filter (λ h : Z, h ≠ 0%Z) l = []).
    { clear -Hall. induction l as [|z l IH]; [done|].
      rewrite filter_cons_False.
      - apply IH. intros w Hw. apply Hall. by apply list_elem_of_further.
      - intros Hz. apply Hz, Hall, list_elem_of_here. }
    rewrite filter_cons_False by (intros H; by apply H). rewrite Hf. cbn [length].
    destruct j as [|j]; cbn in Hj.
    + injection Hj as <-. split; [done|lia].
    + split; [|lia]. intros Hy. destruct Hy. apply Hall.
      by eapply list_elem_of_lookup_2.
  - rewrite filter_cons_True by done. cbn [length].
    destruct j as [|j]; cbn in Hj.
    + injection Hj as <-. split; [lia|done].
    + rewrite (IH Hnn j y Hj). lia.
Qed.

Lemma EmitDefine_at ArbHash D (i : nat) Token :
  D !! i = Some Token →
  EmitDefine ArbHash D (Z.of_nat i) =
    if Hash Token =? 0 then Fail AssertionFailed
    else Ok (macro_of ArbHash Token).
Proof.
  intros HT. unfold EmitDefine, table_at. rewrite Nat2Z.id, HT.
  cbn [mbind outcome_bind]. destruct (Hash Token =? 0); [done|].
  unfold macro_of, MacroLine. by destruct (GetToken ArbHash (Hash Token)).
Qed.

Lemma for_Index_EmitDefine_ok ArbHash D n : ∀ i : nat,
  (∀ j, (j < n)%nat →
        ∃ Token, D !! (i + j)%nat = Some Token ∧ Hash Token ≠ 0) →
  for_Index n (Z.of_nat i) (EmitDefine ArbHash D) =
    Ok (flat_map (macro_of ArbHash) (take n (drop i D))).
Proof.
  induction n as [|n IH]; intros i Hall; [done|].
  destruct (Hall 0%nat) as (Token & HT & Hh); [lia|].
  rewrite Nat.add_0_r in HT.
  cbn [for_Index]. rewrite (EmitDefine_at _ _ _ _ HT).
  destruct (Z.eqb_spec (Hash Token) 0) as [|_]; [done|].
  replace (Z.of_nat i + 1) with (Z.of_nat (S i)) by lia.
  rewrite IH.
  - rewrite (drop_S _ _ _ HT). reflexivity.
  - intros j Hj. destruct (Hall (S j)) as (T' & HT' & Hh'); [lia|].
    exists T'. split; [|done]. by replace (S i + j)%nat with (i + S j)%nat by lia.
Qed.

Lemma for_Index_EmitDefine_assert ArbHash D p : ∀ (n i : nat) Token0,
  (p < n)%nat →
  (∀ j, (j < p)%nat →
        ∃ Token, D !! (i + j)%nat = Some Token ∧ Hash Token ≠ 0) →
  D !! (i + p)%nat = Some Token0 → Hash Token0 = 0 →
  for_Index n (Z.of_nat i) (EmitDefine ArbHash D) = Fail AssertionFailed.
Proof.
  induction p as [|p IH]; intros n i Token0 Hp Hall H0 Hz.
  - destruct n as [|n]; [lia|]. rewrite Nat.add_0_r in H0.
    cbn [for_Index]. rewrite (EmitDefine_at _ _ _ _ H0), Hz. reflexivity.
  - destruct n as [|n]; [lia|].
    destruct (Hall 0%nat) as (Token & HT & Hh); [lia|].
    rewrite Nat.add_0_r in HT.
    cbn [for_Index]. rewrite (EmitDefine_at _ _ _ _ HT).
    destruct (Z.eqb_spec (Hash Token) 0) as [|_]; [done|].
    replace (Z.of_nat i + 1) with (Z.of_nat (S i)) by lia.
    rewrite (IH n (S i) Token0); [|lia| |by replace (S i + p)%nat with (i + S p)%nat by lia|done].
    + reflexivity.
    + intros j Hj. destruct (Hall (S j)) as (T' & HT' & Hh'); [lia|].
      exists T'. split; [|done]. by replace (S i + j)%nat with (i + S j)%nat by lia.
Qed.

(** X8.  The loop that writes the macros walks the first [DefinesCount]
    slots of the sorted table.  If the counter is at most the number of
    populated slots, the loop writes, in the sorted order, the registry
    line of every one of these entries that the registry knows; if the
    counter is larger, [assert(Token->Hash)] fails. *)
Theorem defines_loop_asserts_iff_counter_runs_ahead
    (qsort : (GLToken → GLToken → Z) → list GLToken → list GLToken)
    (ArbHash : list GLArbToken) (DefinesHash0 : list GLToken)
    (DefinesCount0 : Z) :
  qsort_spec qsort →
  length DefinesHash0 = Z.to_nat TOKEN_HASH_SIZE →
  Forall (λ A, 0 ≤ Hash A) DefinesHash0 →
  0 ≤ DefinesCount0 ≤ TOKEN_HASH_SIZE →
  let sorted := qsort TokenComparer DefinesHash0 in
  let defines :=
    for_Index (Z.to_nat DefinesCount0) 0 (EmitDefine ArbHash sorted) in
  (DefinesCount0 ≤ Z.of_nat (populated DefinesHash0) →
     defines = Ok (flat_map (macro_of ArbHash)
                     (take (Z.to_nat DefinesCount0) sorted))) ∧
  (Z.of_nat (populated DefinesHash0) < DefinesCount0 →
     defines = Fail AssertionFailed).
Proof.
  intros Hq Hlen Hnn Hc sorted defines.
  destruct (Hq DefinesHash0) as [HP _]. fold sorted in HP.
  assert (P : hashes DefinesHash0 ≡ₚ hashes sorted)
    by (unfold hashes; by apply Permutation_map).
  assert (Hpop : populated sorted = populated DefinesHash0)
    by (symmetry; by apply populated_Permutation).
  assert (Hlen' : length sorted = Z.to_nat TOKEN_HASH_SIZE)
    by (by rewrite <- HP).
  assert (Hdesc : StronglySorted (λ x y, y ≤ x) (hashes sorted))
    by by apply sorted_hashes_descending.
  assert (Hnn' : Forall (λ x, 0 ≤ x) (hashes sorted)).
  { rewrite <- P. unfold hashes. by apply Forall_fmap. }
  assert (Hslot : ∀ j, (j < Z.to_nat TOKEN_HASH_SIZE)%nat →
            ∃ Token, sorted !! j = Some Token ∧
                     (Hash Token ≠ 0 ↔ (j < populated DefinesHash0)%nat)).
  { intros j Hj. destruct (lookup_lt_is_Some_2 sorted j) as [Token HT]; [lia|].
    exists Token. split; [done|]. rewrite <- Hpop.
    apply (descending_populated_first _ Hdesc Hnn' j). by apply hashes_lookup. }
  split.
  - intros Hle. unfold defines. change 0 with (Z.of_nat 0).
    rewrite for_Index_EmitDefine_ok; [by rewrite drop_0|].
    intros j Hj. cbn [Nat.add]. destruct (Hslot j) as (Token & HT & Hiff); [lia|].
    exists Token. split; [done|]. apply Hiff. lia.
  - intros Hlt. unfold defines. change 0 with (Z.of_nat 0).
    destruct (Hslot (populated DefinesHash0)) as (Token0 & HT0 & Hiff0); [lia|].
    apply (for_Index_EmitDefine_assert ArbHash sorted (populated DefinesHash0)
             _ 0%nat Token0); [lia| |done|].
    + intros j Hj. cbn [Nat.add]. destruct (Hslot j) as (Token & HT & Hiff); [lia|].
      exists Token. split; [done|]. by apply Hiff.
    + destruct (decide (Hash Token0 = 0)) as [|Hne]; [done|].
      apply Hiff0 in Hne. lia.
Qed.

Lemma defines_loop_asserts_iff_counter_runs_ahead_witness :
  for_Index 1 0
    (EmitDefine (calloc zeroArbToken) (merge_qsort TokenComparer (calloc zeroToken))) =
  Fail AssertionFailed.
Proof.
  destruct (defines_loop_asserts_iff_counter_runs_ahead merge_qsort
              (calloc zeroArbToken) (calloc zeroToken) 1) as [_ H].
  - apply merge_qsort_spec.
  - apply calloc_length.
  - apply Forall_replicate. cbn. lia.
  - unfold TOKEN_HASH_SIZE. lia.
  - apply H. vm_compute. reflexivity.
Defined.

(** The three ways one iteration of the registry loop can end: nothing is
    stored; a new symbol is stored in the slot [AddToken] returned, with
    the hash it was looked up by; or [AddToken] returned the null pointer,
    which the loop dereferences. *)
Lemma Registry_body_cases ArbHash n Tokenizer :
  (∃ Tokenizer', Registry_body ArbHash n Tokenizer = Ok (ArbHash, n, Tokenizer')) ∨
  (∃ Token, GetToken ArbHash (Arb.Hash Token) = None ∧
     ((∃ ArbHash1 Result entry Tokenizer',
         AddTokenArb ArbHash Token = (ArbHash1, Some Result) ∧
         Arb.Hash entry = Arb.Hash Token ∧
         Registry_body ArbHash n Tokenizer =
           Ok (<[Z.to_nat Result := entry]> ArbHash1,
               (n + 1) mod UINT_MAX1, Tokenizer')) ∨
      ((AddTokenArb ArbHash Token).2 = None ∧
       Registry_body ArbHash n Tokenizer = Fail UndefinedBehaviour))).
Proof.
  unfold Registry_body.
  destruct (ParseArbToken Tokenizer) as [Token0 T0].
  destruct (Equal (Arb.Value Token0) (C "GLAPI")).
  - destruct (ParseArbToken T0) as [Token1 T1].
    set (T2 := if Equal (Arb.Value Token1) (C "const")
               then (ParseArbToken T1).2 else T1).
    destruct (ParseArbToken (ParseArbToken T2).2) as [Token3 T3].
    set (Token := with_Hash Token3 (GetStringHash (Arb.Value Token3))).
    destruct (GetToken ArbHash (Arb.Hash Token)) eqn:EG; [left; eauto|].
    right. exists Token. split; [done|].
    destruct (AddTokenArb ArbHash Token) as [ArbHash1 [Result|]] eqn:EA.
    + left. do 4 eexists. split; [done|]. split; [|done]. done.
    + right. done.
  - destruct (StartsWith (Arb.Value Token0) (C "#define")); [|left; eauto].
    destruct (ParseArbToken T0) as [Token1 T1].
    set (Token := with_Hash Token1 (GetStringHash (Arb.Value Token1))).
    destruct (GetToken ArbHash (Arb.Hash Token)) eqn:EG; [left; eauto|].
    right. exists Token. split; [done|].
    destruct (AddTokenArb ArbHash Token) as [ArbHash1 [Result|]] eqn:EA.
    + left. do 4 eexists. split; [done|]. split; [|done]. done.
    + right. done.
Qed.

(** X9.  One round of the registry loop on a table of the full capacity fails
    only by undefined behaviour and only when the table has no empty slot
    left (the null result of [AddToken] is written through); a round that
    succeeds keeps the capacity. *)
Theorem registry_parser_fails_only_on_full_table
    (ArbHash : list GLArbToken) (ArbTokenCount : Z) (Tokenizer : GLTokenizer) :
  length ArbHash = Z.to_nat TOKEN_HASH_SIZE →
  (∀ f, Registry_body ArbHash ArbTokenCount Tokenizer = Fail f →
        f = UndefinedBehaviour ∧ Forall (λ e, Arb.Hash e ≠ 0) ArbHash) ∧
  (∀ ArbHash' n' Tokenizer',
     Registry_body ArbHash ArbTokenCount Tokenizer = Ok (ArbHash', n', Tokenizer') →
     length ArbHash' = Z.to_nat TOKEN_HASH_SIZE).
Proof.
  intros Hlen.
  destruct (Registry_body_cases ArbHash ArbTokenCount Tokenizer)
    as [[T' E]|(Token & HG & [(A1 & r & entry & T' & EA & Hh & E)|[EA E]])];
    rewrite E.
  - split; [done|]. by intros ? ? ? [= <- _ _].
  - split; [done|]. intros ? ? ? [= <- _ _].
    apply AddTokenArb_Some in EA as (k & _ & _ & ->).
    by rewrite !length_insert.
  - split; [|done]. intros f [= <-]. split; [done|].
    by apply (AddTokenArb_None_full ArbHash Token).
Qed.

Lemma registry_parser_fails_only_on_full_table_witness :
  Registry_body full_registry 0 {| At := C "#define GL_ONE 1\n" ++ [NUL] |} =
    Fail UndefinedBehaviour ∧
  Forall (λ e, Arb.Hash e ≠ 0) full_registry.
Proof.
  assert (E : Registry_body full_registry 0
                {| At := C "#define GL_ONE 1\n" ++ [NUL] |} =
              Fail UndefinedBehaviour) by (vm_compute; reflexivity).
  split; [exact E|].
  destruct (registry_parser_fails_only_on_full_table full_registry 0
              {| At := C "#define GL_ONE 1\n" ++ [NUL] |}) as [H _].
  - apply length_replicate.
  - apply (H UndefinedBehaviour E).
Defined.

Lemma GetToken_preserved ArbHash h i Token r entry ArbHash1 :
  GetToken ArbHash h = Some i →
  AddTokenArb ArbHash Token = (ArbHash1, Some r) →
  GetToken (<[Z.to_nat r := entry]> ArbHash1) h = Some i ∧
  slot zeroArbToken (<[Z.to_nat r := entry]> ArbHash1) i =
    slot zeroArbToken ArbHash i.
Proof.
  intros HG EA. apply AddTokenArb_Some in EA as (k & Hfe & -> & ->).
  rewrite list_insert_insert_eq.
  apply GetToken_Some in HG as (Hh & k0 & Hm & ->).
  split.
  - apply GetToken_Some. split; [done|]. exists k0. split; [|done].
    by apply first_match_preserved.
  - pose proof (probe_index_range (Arb.Hash Token) k).
    pose proof (probe_index_range h k0).
    apply slot_insert_ne; [lia|lia|]. intros E.
    destruct Hfe as (_ & Hz & _). destruct Hm as (_ & Hm & _).
    unfold probed in Hz, Hm. rewrite E in Hz. congruence.
Qed.

Lemma Registry_body_keeps ArbHash n Tokenizer ArbHash' n' Tokenizer' h i :
  Registry_body ArbHash n Tokenizer = Ok (ArbHash', n', Tokenizer') →
  GetToken ArbHash h = Some i →
  GetToken ArbHash' h = Some i ∧
  slot zeroArbToken ArbHash' i = slot zeroArbToken ArbHash i.
Proof.
  intros E HG.
  destruct (Registry_body_cases ArbHash n Tokenizer)
    as [[T' E']|(Token & HN & [(A1 & r & entry & T' & EA & Hh & E')|[EA E']])];
    rewrite E' in E; [| |done].
  - by injection E as <- _ _.
  - injection E as <- _ _. by eapply GetToken_preserved.
Qed.

(** X10.  The registry loop never replaces an entry: a hash that [GetToken]
    finds before the loop runs is found at the same slot afterwards, and
    the slot holds the same entry.  So of two declarations with the same
    hash the first one stays. *)
Theorem registry_keeps_first_declaration (fuel : nat) :
  ∀ (ArbHash : list GLArbToken) (ArbTokenCount : Z) (Tokenizer : GLTokenizer)
    (ArbHash' : list GLArbToken) (ArbTokenCount' : Z) (h i : Z),
  Registry_loop fuel ArbHash ArbTokenCount Tokenizer =
    Ok (ArbHash', ArbTokenCount') →
  GetToken ArbHash h = Some i →
  GetToken ArbHash' h = Some i ∧
  slot zeroArbToken ArbHash' i = slot zeroArbToken ArbHash i.
Proof.
  induction fuel as [|fuel IH]; intros ArbHash n Tokenizer ArbHash' n' h i E HG;
    cbn [Registry_loop] in E.
  - destruct (nonzero _); [done|]. by injection E as <- _.
  - destruct (nonzero _); [|by injection E as <- _].
    destruct (Registry_body ArbHash n Tokenizer) as [[[ArbHash1 n1] T1]|] eqn:EB;
      [|done].
    cbn [mbind outcome_bind] in E.
    destruct (Registry_body_keeps _ _ _ _ _ _ h i EB HG) as [HG1 Hs1].
    destruct (IH _ _ _ _ _ h i E HG1) as [HG' Hs']. split; [done|congruence].
Qed.

Lemma registry_keeps_first_declaration_witness :
  let A1 := registry_after (C "#define GL_A 1\n" ++ [NUL]) (calloc zeroArbToken) in
  let A2 := registry_after (C "#define GL_A 2\n" ++ [NUL]) A1 in
  ∃ i, GetToken A1 (hash_of_name "GL_A") = Some i ∧
       GetToken A2 (hash_of_name "GL_A") = Some i ∧
       slot zeroArbToken A2 i = slot zeroArbToken A1 i.
Proof.
  intros A1 A2. eexists. split; [vm_compute; reflexivity|].
  unfold A2, registry_after at 1 2.
  destruct (Registry_loop _ A1 0 _) as [[A n]|] eqn:E.
  - eapply registry_keeps_first_declaration; [exact E|].
    vm_compute. reflexivity.
  - split; [vm_compute; reflexivity|reflexivity].
Defined.

Lemma ends_line_not_identifier e : ends_line e → IsIdentifier e = false.
Proof.
  intros [->|H]; [reflexivity|].
  apply IsWhitespaceOrNewline_not_identifier. unfold IsWhitespaceOrNewline.
  by rewrite H.
Qed.

Lemma ends_line_not_whitespace e : ends_line e → IsWhitespace e = false.
Proof.
  intros [->|H]; [reflexivity|]. unfold IsNewline in H.
  apply orb_true_iff in H. rewrite !Ascii.eqb_eq in H.
  destruct H as [-> | ->]; reflexivity.
Qed.

Lemma skip_to_token_stop r :
  deref r = NUL ∨ IsIdentifier (deref r) = true → skip_to_token r = r.
Proof.
  destruct r as [|c r]; [done|]. cbn [deref hd skip_to_token]. intros [->|Hi].
  - reflexivity.
  - rewrite Hi. cbn [negb]. rewrite orb_false_r.
    destruct (IsWhitespaceOrNewline c) eqn:Hw.
    + apply IsWhitespaceOrNewline_not_identifier in Hw. congruence.
    + by rewrite andb_false_r.
Qed.

Lemma skip_to_token_app ws r :
  Forall (λ c, c ≠ NUL ∧ IsIdentifier c = false) ws →
  deref r = NUL ∨ IsIdentifier (deref r) = true →
  skip_to_token (ws ++ r) = r.
Proof.
  intros Hws Hr. induction Hws as [|c ws [Hc Hi] _ IH]; cbn [app].
  - by apply skip_to_token_stop.
  - cbn [skip_to_token]. apply nonzero_true in Hc. rewrite Hc, Hi.
    cbn [negb andb]. by rewrite orb_true_r.
Qed.

Lemma skip_token_app s r :
  Forall (λ c, IsIdentifier c = true) s → IsIdentifier (deref r) = false →
  skip_token (s ++ r) = r.
Proof.
  intros Hs Hr. induction Hs as [|c s Hc _ IH]; cbn [app].
  - destruct r as [|c r]; [done|]. cbn [skip_token]. cbn in Hr.
    by rewrite Hr, andb_false_r.
  - cbn [skip_token]. by rewrite Hc, (IsIdentifier_nonzero _ Hc).
Qed.

Lemma skip_line_app l e more :
  Forall in_line l → ends_line e → skip_line (l ++ e :: more) = e :: more.
Proof.
  intros Hl He. induction Hl as [|c l [Hc Hn] _ IH]; cbn [app skip_line].
  - destruct He as [->|He]; [reflexivity|]. rewrite He. by rewrite andb_false_r.
  - apply nonzero_true in Hc. by rewrite Hc, Hn.
Qed.

(** What [ParseArbToken] returns for a token [s] that comes after the
    characters [ws] and is not followed by a space and a star. *)
Lemma ParseArbToken_at ws s r :
  Forall (λ c, c ≠ NUL ∧ IsIdentifier c = false) ws →
  Forall (λ c, IsIdentifier c = true) s → s ≠ [] →
  IsIdentifier (deref r) = false →
  IsWhitespace (deref r) && Ascii.eqb (index r 1) "*"%char = false →
  ParseArbToken {| At := ws ++ s ++ r |} =
    ({| Arb.Value := {| Chars := s ++ r; Length := length s |};
        Arb.Line := zeroString; Arb.ReturnType := zeroString;
        Arb.FunctionName := zeroString; Arb.Parameters := zeroString;
        Arb.Hash := 0 |},
     {| At := r |}).
Proof.
  intros Hws Hs Hne Hr Hstar. unfold ParseArbToken. cbn [At].
  rewrite skip_to_token_app; [|done|].
  - rewrite skip_token_app by done. rewrite Hstar, ptrdiff_app. reflexivity.
  - right. destruct s as [|c s]; [done|]. cbn. by apply Forall_cons in Hs as [? _].
Qed.

Lemma space_skipped : Forall (λ c, c ≠ NUL ∧ IsIdentifier c = false) [" "%char].
Proof. constructor; [|constructor]. split; [unfold NUL; congruence|reflexivity]. Qed.

Lemma GetStringHash_slice s r :
  GetStringHash {| Chars := s ++ r; Length := length s |} = spec_hash s.
Proof. apply GetStringHash_loop_fold. Qed.

Lemma text_slice s r : text {| Chars := s ++ r; Length := length s |} = s.
Proof. unfold text. cbn. by rewrite take_app_length. Qed.

Lemma Equal_loop_mismatch n c Chars0 v Value0 :
  v ≠ NUL → v ≠ c → Equal_loop (S n) (c :: Chars0) (v :: Value0) = S n.
Proof.
  intros Hv Hne. cbn [Equal_loop deref hd].
  apply nonzero_true in Hv. rewrite Hv.
  destruct (Ascii.eqb_spec v c); [done|]. reflexivity.
Qed.

(** X11.  A line [#define name rest] of the registry, where the name is a
    non-empty run of identifier characters that does not begin with [*] and
    the rest of the line does not begin with a blank followed by [*], and
    whose name is not yet in a table with an empty slot, is stored under
    the hash of the name: the entry's line is the text of the line, the
    emitter writes that text and the character that ends the line, the
    entry count goes up by one, the tokenizer stands at the end of the
    line, and [GetToken] finds the entry.  The two exclusions are those of
    [ParseArbToken], which lengthens a token by a blank and a [*] that
    follow it: with a [*] there the key is not the name (on
    [#define GL_X *p] it is [GL_X *]), and such lines are outside this
    statement. *)
Theorem registry_define_line
    (ArbHash : list GLArbToken) (ArbTokenCount : Z)
    (name rest more : list ascii) (e : ascii) :
  length ArbHash = Z.to_nat TOKEN_HASH_SIZE →
  ¬ Forall (λ entry, Arb.Hash entry ≠ 0) ArbHash →
  Forall (λ c, IsIdentifier c = true) name → name ≠ [] →
  hd NUL name ≠ "*"%char →
  Forall in_line rest →
  IsIdentifier (hd e rest) = false →
  (IsWhitespace (hd e rest) = true → nth 1 rest e ≠ "*"%char) →
  ends_line e →
  GetToken ArbHash (spec_hash name) = None →
  ∃ i entry,
    Registry_body ArbHash ArbTokenCount
      {| At := C "#define " ++ name ++ rest ++ e :: more |} =
      Ok (<[Z.to_nat i := entry]> ArbHash, (ArbTokenCount + 1) mod UINT_MAX1,
          {| At := e :: more |}) ∧
    0 ≤ i < TOKEN_HASH_SIZE ∧
    Arb.Hash (slot zeroArbToken ArbHash i) = 0 ∧
    Arb.Hash entry = spec_hash name ∧
    text (Arb.Value entry) = name ∧
    text (Arb.Line entry) = C "#define " ++ name ++ rest ∧
    MacroLine entry = C "#define " ++ name ++ rest ++ [e] ∧
    (spec_hash name ≠ 0 →
     GetToken (<[Z.to_nat i := entry]> ArbHash) (spec_hash name) = Some i).
Proof.
  intros Hlen Hroom Hname Hne Hstar Hrest Hid Hstar2 He HG.
  set (r := rest ++ e :: more).
  assert (Hr : IsIdentifier (deref r) = false).
  { unfold r. destruct rest as [|c rest]; cbn in *; [|done].
    by apply ends_line_not_identifier. }
  assert (Hr2 : IsWhitespace (deref r) && Ascii.eqb (index r 1) "*"%char = false).
  { unfold r, index. destruct rest as [|c [|d rest]]; cbn in *.
    - by rewrite ends_line_not_whitespace.
    - destruct (Ascii.eqb_spec e "*"%char) as [->|]; [|by rewrite andb_false_r].
      destruct He as [?|?]; done.
    - destruct (IsWhitespace c) eqn:Hc; [|done].
      destruct (Ascii.eqb_spec d "*"%char); [by destruct Hstar2|done]. }
  assert (E0 : ParseArbToken {| At := C "#define " ++ name ++ r |} =
    ({| Arb.Value := {| Chars := C "#define" ++ " "%char :: name ++ r;
                        Length := 7 |};
        Arb.Line := zeroString; Arb.ReturnType := zeroString;
        Arb.FunctionName := zeroString; Arb.Parameters := zeroString;
        Arb.Hash := 0 |},
     {| At := " "%char :: name ++ r |})).
  { apply (ParseArbToken_at [] (C "#define") (" "%char :: name ++ r)).
    - constructor.
    - repeat constructor.
    - done.
    - reflexivity.
    - cbn [deref hd index nth]. destruct name as [|c name]; [done|].
      cbn in Hstar |- *. destruct (Ascii.eqb_spec c "*"%char); [done|].
      first [by rewrite andb_false_r|reflexivity]. }
  assert (E1 : ParseArbToken {| At := " "%char :: name ++ r |} =
    ({| Arb.Value := {| Chars := name ++ r; Length := length name |};
        Arb.Line := zeroString; Arb.ReturnType := zeroString;
        Arb.FunctionName := zeroString; Arb.Parameters := zeroString;
        Arb.Hash := 0 |},
     {| At := r |})).
  { apply (ParseArbToken_at [" "%char] name r); [apply space_skipped|done..]. }
  destruct (proj2 (first_empty_iff_some_empty Arb.Hash zeroArbToken ArbHash
                     (spec_hash name) Hlen)) as [k Hfe].
  { apply not_Forall_Exists in Hroom; [|intros x; apply _].
    apply Exists_exists in Hroom as (x & Hx & Hx0). exists x. split; [done|].
    by destruct (decide (Arb.Hash x = 0)). }
  set (Token := {| Arb.Value := {| Chars := name ++ r; Length := length name |};
                   Arb.Line := zeroString; Arb.ReturnType := zeroString;
                   Arb.FunctionName := zeroString; Arb.Parameters := zeroString;
                   Arb.Hash := spec_hash name |}).
  set (Line0 := {| Chars := C "#define" ++ " "%char :: name ++ r;
                   Length := ptrdiff (e :: more)
                               (C "#define" ++ " "%char :: name ++ r) |}).
  set (entry := {| Arb.Value := Arb.Value Token; Arb.Line := Line0;
                   Arb.ReturnType := zeroString; Arb.FunctionName := zeroString;
                   Arb.Parameters := zeroString; Arb.Hash := spec_hash name |}).
  assert (HA : AddTokenArb ArbHash Token =
               (<[Z.to_nat (probe_index (spec_hash name) k) := Token]> ArbHash,
                Some (probe_index (spec_hash name) k)))
    by by apply (AddTokenArb_found ArbHash Token k).
  assert (HL : ptrdiff (e :: more) (C "#define" ++ " "%char :: name ++ r) =
               length (C "#define " ++ name ++ rest)).
  { unfold ptrdiff, r. rewrite !length_app.
    change (length (C "#define")) with 7%nat.
    change (length (C "#define ")) with 8%nat. cbn [length].
    rewrite !length_app. cbn [length]. lia. }
  exists (probe_index (spec_hash name) k), entry.
  pose proof (probe_index_range (spec_hash name) k) as Hrange.
  split; [|split; [done|split; [by destruct Hfe as (_ & ? & _)|
           split; [done|split; [apply text_slice|split; [|split]]]]]].
  - unfold Registry_body. rewrite E0. cbn [Arb.Value].
    replace (Equal _ (C "GLAPI")) with false by reflexivity.
    replace (StartsWith _ (C "#define")) with true by reflexivity.
    cbn [Chars]. rewrite E1. unfold with_Hash. cbn [Arb.Value Arb.Line
      Arb.ReturnType Arb.FunctionName Arb.Parameters Arb.Hash].
    rewrite GetStringHash_slice, HG. fold Token. rewrite HA.
    unfold AdvanceToEndOfLine. cbn [At].
    assert (Hskip : skip_line r = e :: more) by (by apply skip_line_app).
    rewrite !Hskip, list_insert_insert_eq. reflexivity.
  - unfold text, entry, Line0. cbn [Arb.Line Chars Length]. rewrite HL.
    change (C "#define" ++ " "%char :: name ++ r)
      with (C "#define " ++ name ++ r).
    unfold r. rewrite !app_assoc. rewrite <- (app_assoc (C "#define ")).
    by rewrite take_app_length.
  - unfold MacroLine, fwrite, entry, Line0. cbn [Arb.Line Chars Length]. rewrite HL.
    change (C "#define" ++ " "%char :: name ++ r)
      with (C "#define " ++ name ++ r).
    unfold r.
    replace (C "#define " ++ name ++ rest ++ e :: more)
      with ((C "#define " ++ name ++ rest ++ [e]) ++ more)
      by (by rewrite <- !app_assoc).
    replace (length (C "#define " ++ name ++ rest) + 1)%nat
      with (length (C "#define " ++ name ++ rest ++ [e]))
      by (rewrite !length_app; cbn [length]; lia).
    by rewrite take_app_length.
  - intros Hh. apply GetToken_Some. split; [done|]. exists k. split; [|done].
    apply first_match_after_insert; [done|done| |done].
    apply GetToken_None in HG as [?|?]; done.
Qed.

Lemma registry_define_line_witness :
  ∃ i entry,
    Registry_body (calloc zeroArbToken) 0
      {| At := C "#define GL_ONE 1\n" ++ [NUL] |} =
      Ok (<[Z.to_nat i := entry]> (calloc zeroArbToken), 1, {| At := [LF; NUL] |}) ∧
    MacroLine entry = C "#define GL_ONE 1\n".
Proof.
  destruct (registry_define_line (calloc zeroArbToken) 0
              (C "GL_ONE") (C " 1") [NUL] LF)
    as (i & entry & E & _ & _ & _ & _ & _ & HM & _).
  - apply calloc_length.
  - intros H. apply (proj1 (Forall_forall _ _) H zeroArbToken); [|reflexivity].
    apply list_elem_of_lookup. exists 0%nat. reflexivity.
  - repeat constructor.
  - discriminate.
  - cbn. unfold NUL. congruence.
  - repeat constructor; unfold NUL; congruence.
  - reflexivity.
  - intros _. cbn. congruence.
  - right. reflexivity.
  - vm_compute. reflexivity.
  - exists i, entry. split; [exact E|exact HM].
Defined.

Lemma cstr_app_nonzero s r :
  Forall (λ c, c ≠ NUL) s → cstr (s ++ r) = s ++ cstr r.
Proof.
  induction 1 as [|c s Hc _ IH]; [done|]. cbn [app cstr].
  apply nonzero_true in Hc. by rewrite Hc, IH.
Qed.

Lemma identifier_nonzero s :
  Forall (λ c, IsIdentifier c = true) s → Forall (λ c, c ≠ NUL) s.
Proof.
  intros H. eapply Forall_impl; [exact H|].
  intros c Hc. by apply nonzero_true, IsIdentifier_nonzero.
Qed.

Lemma in_line_nonzero s : Forall in_line s → Forall (λ c, c ≠ NUL) s.
Proof. intros H. eapply Forall_impl; [exact H|]. by intros c [? _]. Qed.

Lemma toupper_nonzero c : c ≠ NUL → toupper c ≠ NUL.
Proof.
  destruct c as [[] [] [] [] [] [] [] []]; vm_compute; congruence.
Qed.

Lemma star_check r :
  IsIdentifier (deref r) = false →
  index r 1 ≠ "*"%char →
  IsWhitespace (deref r) && Ascii.eqb (index r 1) "*"%char = false.
Proof.
  intros _ H. destruct (Ascii.eqb_spec (index r 1) "*"%char); [done|].
  by rewrite andb_false_r.
Qed.

(** X12.  A line [GLAPI ret APIENTRY name params] of the registry, where the
    return type [ret] is a single token (a non-empty run of identifier
    characters) that does not begin with [*] and is not an initial part of
    [const], the name is a non-empty run of identifier characters that does
    not begin with [*], and the parameters do not begin with a blank
    followed by [*], and whose name is not yet in a table with an empty
    slot, is stored under the hash of the name with the return type (and
    the space before it), the name and the parameters as its slices.  The
    typedef built from the entry is
    [typedef  ret (APIENTRYP PFNNAMEPROC) params] with the name in upper
    case, provided the text and its terminator fit the buffer of 512
    bytes; otherwise [sprintf] overruns the buffer.  Return types with a
    qualifier or a pointer are outside this statement, and so is a return
    type that [Equal] takes for [const]: the loop then reads one more
    token, and on [GLAPI c APIENTRY glFoo (void);] the key is [void]. *)
Theorem registry_function_line
    (ArbHash : list GLArbToken) (ArbTokenCount : Z)
    (ret name params more : list ascii) (e : ascii) :
  length ArbHash = Z.to_nat TOKEN_HASH_SIZE →
  ¬ Forall (λ entry, Arb.Hash entry ≠ 0) ArbHash →
  Forall (λ c, IsIdentifier c = true) ret → ret ≠ [] →
  hd NUL ret ≠ "*"%char →
  ¬ ret `prefix_of` C "const" →
  Forall (λ c, IsIdentifier c = true) name → name ≠ [] →
  hd NUL name ≠ "*"%char →
  Forall in_line params →
  IsIdentifier (hd e params) = false →
  (IsWhitespace (hd e params) = true → nth 1 params e ≠ "*"%char) →
  ends_line e →
  GetToken ArbHash (spec_hash name) = None →
  ∃ i entry,
    Registry_body ArbHash ArbTokenCount
      {| At := C "GLAPI " ++ ret ++ C " APIENTRY " ++ name ++ params ++ e :: more |} =
      Ok (<[Z.to_nat i := entry]> ArbHash, (ArbTokenCount + 1) mod UINT_MAX1,
          {| At := e :: more |}) ∧
    0 ≤ i < TOKEN_HASH_SIZE ∧
    Arb.Hash (slot zeroArbToken ArbHash i) = 0 ∧
    Arb.Hash entry = spec_hash name ∧
    text (Arb.FunctionName entry) = name ∧
    text (Arb.ReturnType entry) = " "%char :: ret ∧
    text (Arb.Parameters entry) = params ∧
    text (Arb.Line entry) =
      C "GLAPI " ++ ret ++ C " APIENTRY " ++ name ++ params ∧
    TypedefLine entry =
      (if (31 + length ret + length name + length params <? 512)%nat
       then Ok (C "typedef  " ++ ret ++ C " (APIENTRYP PFN" ++
                map toupper name ++ C "PROC) " ++ params ++ [LF])
       else Fail UndefinedBehaviour).
Proof.
  intros Hlen Hroom Hret Hretne Hretstar Hconst Hname Hne Hstar Hparams Hid
    Hstar2 He HG.
  set (r3 := params ++ e :: more).
  set (r2 := " "%char :: name ++ r3).
  set (r1 := " "%char :: C "APIENTRY" ++ r2).
  set (r0 := " "%char :: ret ++ r1).
  assert (Hdata : C "GLAPI " ++ ret ++ C " APIENTRY " ++ name ++ r3 =
                  C "GLAPI" ++ r0).
  { unfold r0, r1, r2. cbn [app].
    change (C "GLAPI ") with ("G" :: "L" :: "A" :: "P" :: "I" :: [" "])%char.
    change (C "GLAPI") with ("G" :: "L" :: "A" :: "P" :: ["I"])%char.
    change (C " APIENTRY ") with (" "%char :: C "APIENTRY" ++ [" "%char]).
    cbn [app]. by rewrite <- !app_assoc. }
  rewrite Hdata.
  assert (Hr3 : IsIdentifier (deref r3) = false).
  { unfold r3. destruct params as [|c params]; cbn in *; [|done].
    by apply ends_line_not_identifier. }
  assert (Hr3' : IsWhitespace (deref r3) && Ascii.eqb (index r3 1) "*"%char = false).
  { unfold r3, index. destruct params as [|c [|d params]]; cbn in *.
    - by rewrite ends_line_not_whitespace.
    - destruct (Ascii.eqb_spec e "*"%char) as [->|]; [|by rewrite andb_false_r].
      destruct He as [?|?]; done.
    - destruct (IsWhitespace c) eqn:Hc; [|done].
      destruct (Ascii.eqb_spec d "*"%char); [by destruct Hstar2|done]. }
  assert (Hhd : ∀ s r, s ≠ [] → index (" "%char :: s ++ r) 1 = hd NUL s).
  { intros [|c s] r Hs; [done|reflexivity]. }
  assert (E0 : ParseArbToken {| At := C "GLAPI" ++ r0 |} =
    ({| Arb.Value := {| Chars := C "GLAPI" ++ r0; Length := 5 |};
        Arb.Line := zeroString; Arb.ReturnType := zeroString;
        Arb.FunctionName := zeroString; Arb.Parameters := zeroString;
        Arb.Hash := 0 |}, {| At := r0 |})).
  { apply (ParseArbToken_at [] (C "GLAPI") r0);
      [constructor|repeat constructor|done|reflexivity|].
    apply star_check; [reflexivity|]. unfold r0. by rewrite Hhd. }
  assert (E1 : ParseArbToken {| At := r0 |} =
    ({| Arb.Value := {| Chars := ret ++ r1; Length := length ret |};
        Arb.Line := zeroString; Arb.ReturnType := zeroString;
        Arb.FunctionName := zeroString; Arb.Parameters := zeroString;
        Arb.Hash := 0 |}, {| At := r1 |})).
  { apply (ParseArbToken_at [" "%char] ret r1);
      [apply space_skipped|done|done|reflexivity|reflexivity]. }
  assert (E2 : ParseArbToken {| At := r1 |} =
    ({| Arb.Value := {| Chars := C "APIENTRY" ++ r2; Length := 8 |};
        Arb.Line := zeroString; Arb.ReturnType := zeroString;
        Arb.FunctionName := zeroString; Arb.Parameters := zeroString;
        Arb.Hash := 0 |}, {| At := r2 |})).
  { apply (ParseArbToken_at [" "%char] (C "APIENTRY") r2);
      [apply space_skipped|repeat constructor|done|reflexivity|].
    apply star_check; [reflexivity|]. unfold r2. by rewrite Hhd. }
  assert (E3 : ParseArbToken {| At := r2 |} =
    ({| Arb.Value := {| Chars := name ++ r3; Length := length name |};
        Arb.Line := zeroString; Arb.ReturnType := zeroString;
        Arb.FunctionName := zeroString; Arb.Parameters := zeroString;
        Arb.Hash := 0 |}, {| At := r3 |})).
  { apply (ParseArbToken_at [" "%char] name r3); [apply space_skipped|done..]. }
  assert (Econst : Equal {| Chars := ret ++ r1; Length := length ret |}
                     (C "const") = false).
  { destruct (Equal _ _) eqn:E; [|done]. apply Equal_prefix in E.
    - destruct E as [_ E]. rewrite text_slice in E. done.
    - cbn. rewrite length_app. lia. }
  destruct (proj2 (first_empty_iff_some_empty Arb.Hash zeroArbToken ArbHash
                     (spec_hash name) Hlen)) as [k Hfe].
  { apply not_Forall_Exists in Hroom; [|intros x; apply _].
    apply Exists_exists in Hroom as (x & Hx & Hx0). exists x. split; [done|].
    by destruct (decide (Arb.Hash x = 0)). }
  set (Token := {| Arb.Value := {| Chars := name ++ r3; Length := length name |};
                   Arb.Line := zeroString; Arb.ReturnType := zeroString;
                   Arb.FunctionName := zeroString; Arb.Parameters := zeroString;
                   Arb.Hash := spec_hash name |}).
  assert (HA : AddTokenArb ArbHash Token =
               (<[Z.to_nat (probe_index (spec_hash name) k) := Token]> ArbHash,
                Some (probe_index (spec_hash name) k)))
    by by apply (AddTokenArb_found ArbHash Token k).
  assert (Hskip : skip_line r3 = e :: more) by (by apply skip_line_app).
  set (entry :=
    {| Arb.Value := {| Chars := name ++ r3; Length := length name |};
       Arb.Line := {| Chars := C "GLAPI" ++ r0;
                      Length := ptrdiff (e :: more) (C "GLAPI" ++ r0) |};
       Arb.ReturnType := {| Chars := r0; Length := ptrdiff r1 r0 |};
       Arb.FunctionName := {| Chars := name ++ r3;
                              Length := ptrdiff r3 (name ++ r3) |};
       Arb.Parameters := {| Chars := r3; Length := ptrdiff (e :: more) r3 |};
       Arb.Hash := spec_hash name |}).
  assert (HRT : ptrdiff r1 r0 = S (length ret)).
  { unfold ptrdiff, r0. cbn [length]. rewrite length_app. lia. }
  assert (HP : ptrdiff (e :: more) r3 = length params).
  { unfold ptrdiff, r3. rewrite length_app. lia. }
  assert (HL : ptrdiff (e :: more) (C "GLAPI" ++ r0) =
               length (C "GLAPI " ++ ret ++ C " APIENTRY " ++ name ++ params)).
  { unfold ptrdiff, r0, r1, r2, r3. cbn [length]. rewrite !length_app.
    change (length (C "GLAPI")) with 5%nat.
    change (length (C "GLAPI ")) with 6%nat.
    change (length (C "APIENTRY")) with 8%nat.
    change (length (C " APIENTRY ")) with 10%nat.
    repeat (cbn [length]; rewrite ?length_app).
    change (length (C "GLAPI")) with 5%nat.
    change (length (C "GLAPI ")) with 6%nat.
    change (length (C "APIENTRY")) with 8%nat.
    change (length (C " APIENTRY ")) with 10%nat.
    cbn [length]. lia. }
  exists (probe_index (spec_hash name) k), entry.
  pose proof (probe_index_range (spec_hash name) k) as Hrange.
  split; [|split; [done|split; [by destruct Hfe as (_ & ? & _)|split; [done|]]]].
  { unfold Registry_body. rewrite E0. cbn [Arb.Value].
    replace (Equal _ (C "GLAPI")) with true by reflexivity.
    cbn [Chars At]. rewrite E1. cbn [Arb.Value]. rewrite Econst, E2.
    cbn [snd]. rewrite E3. unfold with_Hash.
    cbn [Arb.Value Arb.Line Arb.ReturnType Arb.FunctionName Arb.Parameters
         Arb.Hash Chars At].
    rewrite GetStringHash_slice, HG. fold Token. rewrite HA.
    unfold AdvanceToEndOfLine. cbn [At]. rewrite !Hskip.
    rewrite list_insert_insert_eq. reflexivity. }
  assert (HtFN : text (Arb.FunctionName entry) = name).
  { unfold text, entry. cbn [Arb.FunctionName Chars Length].
    by rewrite ptrdiff_app, take_app_length. }
  assert (HtRT : text (Arb.ReturnType entry) = " "%char :: ret).
  { unfold text, entry. cbn [Arb.ReturnType Chars Length]. rewrite HRT.
    unfold r0. cbn [take firstn]. by rewrite take_app_length. }
  assert (HtP : text (Arb.Parameters entry) = params).
  { unfold text, entry. cbn [Arb.Parameters Chars Length]. rewrite HP.
    unfold r3. by rewrite take_app_length. }
  split; [done|]. split; [done|]. split; [done|]. split.
  { unfold text, entry. cbn [Arb.Line Chars Length]. rewrite HL, <- Hdata.
    unfold r3. rewrite !app_assoc. rewrite <- !(app_assoc (C "GLAPI ")).
    rewrite <- !(app_assoc ret). rewrite <- !(app_assoc (C " APIENTRY ")).
    rewrite <- !(app_assoc name). rewrite !app_assoc.
    rewrite take_app_length. by rewrite <- !app_assoc. }
  unfold TypedefLine, UpperCase.
  change (Length (Arb.FunctionName entry)) with (ptrdiff r3 (name ++ r3)).
  change (Chars (Arb.FunctionName entry)) with (name ++ r3).
  rewrite ptrdiff_app, take_app_length.
  destruct (Nat.ltb_spec (length name) 512) as [Hn|Hn]; cbn [mbind outcome_bind].
  - unfold sprintf512. rewrite TypedefLine_text.
    change (Length (Arb.ReturnType entry)) with (ptrdiff r1 r0).
    change (Chars (Arb.ReturnType entry)) with r0.
    change (Length (Arb.Parameters entry)) with (ptrdiff (e :: more) r3).
    change (Chars (Arb.Parameters entry)) with r3.
    rewrite HRT, HP.
    assert (Hc0 : take (S (length ret)) (cstr r0) = " "%char :: ret).
    { unfold r0. cbn [cstr]. change (nonzero " ") with true. cbn [take firstn].
      rewrite cstr_app_nonzero by by apply identifier_nonzero.
      by rewrite take_app_length. }
    assert (Hc3 : take (length params) (cstr r3) = params).
    { unfold r3. rewrite cstr_app_nonzero by by apply in_line_nonzero.
      by rewrite take_app_length. }
    assert (HcN : cstr (map toupper name ++ [NUL]) = map toupper name).
    { rewrite cstr_app_nonzero; [by rewrite app_nil_r|].
      apply Forall_fmap. eapply Forall_impl; [exact Hname|].
      intros c Hc. cbn. by apply toupper_nonzero, nonzero_true, IsIdentifier_nonzero. }
    rewrite Hc0, Hc3, HcN.
    assert (Hlen' : length (C "typedef " ++ (" "%char :: ret) ++
                     C " (APIENTRYP PFN" ++ map toupper name ++ C "PROC) " ++
                     params ++ [LF]) =
                   (31 + length ret + length name + length params)%nat).
    { rewrite !length_app, length_map.
      change (length (C "typedef ")) with 8%nat.
      change (length (C " (APIENTRYP PFN")) with 15%nat.
      change (length (C "PROC) ")) with 6%nat. cbn [length]. lia. }
    rewrite Hlen'.
    destruct (_ <? 512)%nat; [|done]. reflexivity.
  - destruct (Nat.ltb_spec (31 + length ret + length name + length params) 512);
      [lia|done].
Qed.

Lemma registry_function_line_witness :
  ∃ i entry,
    Registry_body (calloc zeroArbToken) 0
      {| At := C "GLAPI void APIENTRY glClear (GLbitfield mask);\n" ++ [NUL] |} =
      Ok (<[Z.to_nat i := entry]> (calloc zeroArbToken), 1, {| At := [LF; NUL] |}) ∧
    TypedefLine entry =
      Ok (C "typedef  void (APIENTRYP PFNGLCLEARPROC)  (GLbitfield mask);\n").
Proof.
  destruct (registry_function_line (calloc zeroArbToken) 0
              (C "void") (C "glClear") (C " (GLbitfield mask);") [NUL] LF)
    as (i & entry & E & _ & _ & _ & _ & _ & _ & _ & HT).
  - apply calloc_length.
  - intros H. apply (proj1 (Forall_forall _ _) H zeroArbToken); [|reflexivity].
    apply list_elem_of_lookup. exists 0%nat. reflexivity.
  - repeat constructor.
  - discriminate.
  - cbn. unfold NUL. congruence.
  - intros [k Hk]. discriminate Hk.
  - repeat constructor.
  - discriminate.
  - cbn. unfold NUL. congruence.
  - repeat constructor; unfold NUL; congruence.
  - reflexivity.
  - intros _. cbn. congruence.
  - right. reflexivity.
  - vm_compute. reflexivity.
  - exists i, entry. split; [exact E|exact HT].
Defined.

Lemma clobber_newline d : last d = Some LF → clobber d = d ++ [LF].
Proof.
  intros H. unfold clobber.
  destruct (last_Some d LF) as [H1 _]. destruct (H1 H) as [d' ->].
  rewrite removelast_last. by rewrite <- app_assoc.
Qed.

Lemma join_clobbered_newlines ds : ∀ d0 rest d,
  d0 :: rest = ds ++ [d] → Forall (λ d', last d' = Some LF) ds →
  join_clobbered d0 rest = concat (map (λ d', d' ++ [LF]) ds) ++ d.
Proof.
  induction ds as [|x ds IH]; intros d0 rest d E Hds.
  - cbn in E. injection E as -> ->. reflexivity.
  - cbn [app] in E. injection E as -> ->.
    apply Forall_cons in Hds as [Hx Hds].
    destruct (ds ++ [d]) as [|d1 rest'] eqn:E1; [by destruct ds|].
    cbn [join_clobbered map concat]. rewrite (IH d1 rest' d (eq_sym E1) Hds).
    rewrite (clobber_newline _ Hx). by rewrite <- !app_assoc.
Qed.

(** X13.  When every readable, non-empty registry file but the last ends with
    a line feed, [ReadMultiFiles] returns their contents in order, each but
    the last followed by one more line feed, and the terminator; files
    that cannot be opened or are empty are left out. *)
Theorem ReadMultiFiles_joins_files_ending_in_newline
    (W : World) (names : list ptr) (err : diagnostics)
    (ds : list (list ascii)) (d : list ascii) :
  readable W names = ds ++ [d] →
  Forall (λ d', last d' = Some LF) ds →
  (ReadMultiFiles W names err).1 =
    Some (concat (map (λ d', d' ++ [LF]) ds) ++ d ++ [NUL]).
Proof.
  intros Hr Hds. rewrite ReadMultiFiles_buffer.
  destruct (readable W names) as [|d0 rest] eqn:E; [by destruct ds|].
  rewrite (join_clobbered_newlines ds d0 rest d Hr Hds).
  by rewrite <- app_assoc.
Qed.

Lemma ReadMultiFiles_joins_files_ending_in_newline_witness :
  (ReadMultiFiles
     (world_of [("a.h", "#define GL_A 1\n"); ("b.h", "#define GL_B 2")]%string 0 1)
     [C "a.h"; C "missing.h"; C "b.h"] []).1 =
  Some (C "#define GL_A 1\n\n#define GL_B 2" ++ [NUL]).
Proof.
  apply (ReadMultiFiles_joins_files_ending_in_newline _ _ []
           [C "#define GL_A 1\n"] (C "#define GL_B 2")).
  - reflexivity.
  - repeat constructor.
Defined.

Lemma ReadMultiFiles_loop_unreadable W names : ∀ Result RunningSize err,
  readable W names = [] →
  ReadMultiFiles_loop W names Result RunningSize err =
    (Result, err ++ map (read_failure W) names).
Proof.
  induction names as [|n names IH]; intros Result RunningSize err Hr.
  - cbn. by rewrite app_nil_r.
  - cbn [ReadMultiFiles_loop readable map] in *. unfold read_failure at 1.
    destruct (file_contents W n) as [data|].
    + destruct (0 <? length data)%nat; [done|].
      rewrite IH by done. by rewrite <- app_assoc.
    + rewrite IH by done. by rewrite <- app_assoc.
Qed.

(** X14.  When none of the registry files can be read, [GenerateOpenGLHeader]
    returns -1 and prints one message for each of them, but it has already
    opened the output file for writing: a writable output file is left
    empty. *)
Theorem unreadable_registry_truncates_output
    (qsort : (GLToken → GLToken → Z) → list GLToken → list GLToken)
    (Indeterminate : GLString) (W : World) (Settings : GLSettings) :
  readable W (Headers Settings) = [] →
  Inputs Settings ≠ [] →
  GenerateOpenGLHeader qsort Indeterminate W Settings =
    Ok {| Success := -1;
          OutputFile := if writable W (Output Settings) then Some [] else None;
          Diagnostics := map (read_failure W) (Headers Settings) |}.
Proof.
  intros Hr Hin. unfold GenerateOpenGLHeader, ReadMultiFiles.
  rewrite ReadMultiFiles_loop_unreadable by done. cbn [app].
  destruct (Inputs Settings) as [|i rest]; [done|]. cbn [length Nat.leb].
  by destruct (writable W (Output Settings)).
Qed.

Lemma unreadable_registry_truncates_output_witness :
  GenerateOpenGLHeader merge_qsort zeroString
    (world_of [("a.c", "glClear(0);"); ("empty.h", "")]%string 5 1)
    {| Headers := [C "gl.h"; C "empty.h"]; Output := C "out.h"; Prefix := None;
       Inputs := [C "a.c"]; Ignores := []; WriteTimestamp := 5;
       Boilerplate := true; Silent := false; ForceGenerate := true |} =
  Ok {| Success := -1; OutputFile := Some [];
        Diagnostics := [C "Couldn't open file: gl.h"; C "File is empty: empty.h"] |}.
Proof.
  apply (unreadable_registry_truncates_output merge_qsort zeroString
           (world_of [("a.c", "glClear(0);"); ("empty.h", "")]%string 5 1)
           {| Headers := [C "gl.h"; C "empty.h"]; Output := C "out.h";
              Prefix := None; Inputs := [C "a.c"]; Ignores := [];
              WriteTimestamp := 5; Boilerplate := true; Silent := false;
              ForceGenerate := true |}).
  - reflexivity.
  - discriminate.
Defined.

Lemma ParseFiles_app W ArbHash Settings pre : ∀ post st,
  ParseFiles W (pre ++ post) ArbHash Settings st =
    (st1 ← ParseFiles W pre ArbHash Settings st;
     ParseFiles W post ArbHash Settings st1).
Proof.
  induction pre as [|n pre IH]; intros post st; [done|].
  cbn [app ParseFiles].
  destruct (ParseFile W n ArbHash Settings st) as [[s st1]|f];
    cbn [mbind outcome_bind]; [apply IH|done].
Qed.

(** X15.  An input file that cannot be read is skipped: [ParseFile] returns 0,
    prints the message of [ReadEntireFile] and its own and leaves the
    result sets alone, and the loop over the inputs goes on with the next
    file. *)
Theorem unreadable_input_is_skipped
    (W : World) (ArbHash : list GLArbToken) (Settings : GLSettings)
    (pre post : list ptr) (Filename : ptr) (st : ScanState) :
  (ReadEntireFile W Filename []).1 = None →
  ParseFile W Filename ArbHash Settings st =
    Ok (0, with_warning (with_warning st (read_failure W Filename))
             (printf (C "Couldn't open file %s") [arg_s Filename])) ∧
  ParseFiles W (pre ++ Filename :: post) ArbHash Settings st =
    (st1 ← ParseFiles W pre ArbHash Settings st;
     ParseFiles W post ArbHash Settings
       (with_warning (with_warning st1 (read_failure W Filename))
          (printf (C "Couldn't open file %s") [arg_s Filename]))).
Proof.
  intros Hn.
  assert (HF : ∀ st0, ParseFile W Filename ArbHash Settings st0 =
    Ok (0, with_warning (with_warning st0 (read_failure W Filename))
             (printf (C "Couldn't open file %s") [arg_s Filename]))).
  { intros st0. unfold ParseFile, ReadEntireFile, read_failure in *.
    destruct (file_contents W Filename) as [data|].
    - destruct (0 <? length data)%nat; [done|]. reflexivity.
    - reflexivity. }
  split; [apply HF|].
  rewrite ParseFiles_app.
  destruct (ParseFiles W pre ArbHash Settings st) as [st1|f];
    cbn [mbind outcome_bind]; [|done].
  cbn [ParseFiles]. rewrite HF. reflexivity.
Qed.

Lemma unreadable_input_is_skipped_witness :
  ParseFiles (world_of [("a.c", "glFoo")]%string 0 1) [C "missing.c"; C "a.c"]
    (calloc zeroArbToken) (settings_ignoring []) empty_scan =
  ParseFiles (world_of [("a.c", "glFoo")]%string 0 1) [C "a.c"]
    (calloc zeroArbToken) (settings_ignoring [])
    (with_warning (with_warning empty_scan (C "Couldn't open file: missing.c"))
       (C "Couldn't open file missing.c")).
Proof.
  destruct (unreadable_input_is_skipped (world_of [("a.c", "glFoo")]%string 0 1)
              (calloc zeroArbToken) (settings_ignoring []) [] [C "a.c"]
              (C "missing.c") empty_scan) as [_ H].
  - reflexivity.
  - exact H.
Defined.

Lemma MaxTimestamp_loop_le W names : ∀ m b,
  MaxTimestamp_loop W names m ≤ b ↔
  m ≤ b ∧ ∀ name, name ∈ names → last_write_time W name ≤ b.
Proof.
  induction names as [|n names IH]; intros m b; cbn [MaxTimestamp_loop].
  - split; [|by intros [? _]]. intros H. split; [done|].
    intros name Hn. by apply elem_of_nil in Hn.
  - rewrite IH. destruct (Z.gtb_spec (last_write_time W n) m) as [Hgt|Hle].
    + split.
      * intros [Hn Hrest]. split; [lia|]. intros name Hin.
        apply elem_of_cons in Hin as [->|Hin]; [done|by apply Hrest].
      * intros [Hm Hall]. split; [apply Hall, list_elem_of_here|].
        intros name Hin. by apply Hall, list_elem_of_further.
    + split.
      * intros [Hm Hrest]. split; [done|]. intros name Hin.
        apply elem_of_cons in Hin as [->|Hin]; [lia|by apply Hrest].
      * intros [Hm Hall]. split; [done|].
        intros name Hin. by apply Hall, list_elem_of_further.
Qed.

(** X16.  [main] leaves the header alone exactly when [-force] was not given
    and no input file was written later than the output file. *)
Theorem header_regenerated_iff_forced_or_stale
    (qsort : (GLToken → GLToken → Z) → list GLToken → list GLToken)
    (Indeterminate : GLString) (W : World) (Settings : GLSettings) :
  0 ≤ last_write_time W (Output Settings) →
  main_generate qsort Indeterminate W Settings = Ok None ↔
  ForceGenerate Settings = false ∧
  ∀ name, name ∈ Inputs Settings →
          last_write_time W name ≤ last_write_time W (Output Settings).
Proof.
  intros Hnn. unfold main_generate. cbn [ForceGenerate WriteTimestamp Inputs].
  destruct (ForceGenerate Settings); cbn [orb].
  { split; [|by intros [? _]].
    destruct (GenerateOpenGLHeader _ _ _ _); done. }
  destruct (Z.gtb_spec (MaxTimestamp_loop W (Inputs Settings) 0)
              (last_write_time W (Output Settings))) as [Hgt|Hle].
  - split.
    + destruct (GenerateOpenGLHeader _ _ _ _); done.
    + intros [_ Hall]. exfalso.
      assert (MaxTimestamp_loop W (Inputs Settings) 0 ≤
              last_write_time W (Output Settings)); [|lia].
      by apply MaxTimestamp_loop_le.
  - split; [|done]. intros _. split; [done|].
    by apply MaxTimestamp_loop_le in Hle as [_ ?].
Qed.

Lemma header_regenerated_iff_forced_or_stale_witness :
  main_generate merge_qsort zeroString (world_of example_files 5 1)
    {| Headers := [C "gl.h"]; Output := C "out.h"; Prefix := None;
       Inputs := [C "a.c"]; Ignores := []; WriteTimestamp := 0;
       Boilerplate := true; Silent := true; ForceGenerate := false |} = Ok None.
Proof.
  apply (header_regenerated_iff_forced_or_stale merge_qsort zeroString
           (world_of example_files 5 1)
           {| Headers := [C "gl.h"]; Output := C "out.h"; Prefix := None;
              Inputs := [C "a.c"]; Ignores := []; WriteTimestamp := 0;
              Boilerplate := true; Silent := true; ForceGenerate := false |}).
  - vm_compute. congruence.
  - split; [reflexivity|]. intros name Hin.
    apply list_elem_of_singleton in Hin as ->. vm_compute. congruence.
Defined.

Lemma fields_nonempty v : fields v ≠ [].
Proof.
  destruct v as [|c v]; cbn; [done|].
  destruct (Ascii.eqb c COMMA); [done|]. by destruct (fields v).
Qed.

Lemma fields_name f : Forall name_char f → fields f = [f].
Proof.
  induction 1 as [|c f [_ Hc] _ IH]; [done|]. cbn [fields].
  destruct (Ascii.eqb_spec c COMMA); [done|]. by rewrite IH.
Qed.

Lemma fields_comma f v :
  Forall name_char f → fields (f ++ COMMA :: v) = f :: fields v.
Proof.
  induction 1 as [|c f [_ Hc] _ IH]; cbn [app fields].
  - reflexivity.
  - destruct (Ascii.eqb_spec c COMMA); [done|]. by rewrite IH.
Qed.

Lemma without_empty_last_cons f l :
  l ≠ [] → without_empty_last (f :: l) = f :: without_empty_last l.
Proof.
  intros Hl. unfold without_empty_last. destruct l as [|x l]; [done|].
  change (last (f :: x :: l)) with (last (x :: l)).
  destruct (last (x :: l)) as [[|]|]; reflexivity.
Qed.

(** A string is a name, or a name, a comma and a string. *)
Lemma first_field (v : list ascii) :
  Forall (λ c, c ≠ NUL) v →
  (Forall name_char v) ∨
  ∃ f v', v = f ++ COMMA :: v' ∧ Forall name_char f ∧ Forall (λ c, c ≠ NUL) v'.
Proof.
  induction 1 as [|c v Hc Hv IH]; [left; constructor|].
  destruct (Ascii.eqb_spec c COMMA) as [->|Hne].
  - right. exists [], v. split; [done|]. split; [constructor|done].
  - destruct IH as [IH|(f & v' & -> & Hf & Hv')].
    + left. by constructor.
    + right. exists (c :: f), v'. split; [done|]. split; [|done].
      by constructor.
Qed.

Lemma split_headers_spec v after :
  Forall (λ c, c ≠ NUL) v →
  split_headers (v ++ NUL :: after) =
    Ok (commas_to_NUL v ++ NUL :: after, NUL :: after).
Proof.
  induction 1 as [|c v Hc _ IH]; [reflexivity|].
  cbn [app split_headers]. apply nonzero_true in Hc. rewrite Hc, IH.
  reflexivity.
Qed.

Lemma commas_to_NUL_name f : Forall name_char f → commas_to_NUL f = f.
Proof.
  induction 1 as [|c f [_ Hc] _ IH]; [done|]. cbn.
  destruct (Ascii.eqb_spec c COMMA); [done|]. by f_equal.
Qed.

Lemma name_nonzero f : Forall name_char f → Forall (λ c, c ≠ NUL) f.
Proof. intros H. eapply Forall_impl; [exact H|]. by intros c [? _]. Qed.

Lemma cstr_name f r : Forall name_char f → cstr (f ++ NUL :: r) = f.
Proof.
  intros Hf. rewrite cstr_app_nonzero by by apply name_nonzero.
  cbn. by rewrite app_nil_r.
Qed.

Lemma header_names_fields (n : nat) : ∀ v after fuel,
  length v = n → Forall (λ c, c ≠ NUL) v → (length v < fuel)%nat →
  header_names fuel (commas_to_NUL v ++ NUL :: after) (NUL :: after) =
    without_empty_last (fields v).
Proof.
  induction n as [n IH] using lt_wf_ind. intros v after fuel Hn Hv Hfuel.
  destruct fuel as [|fuel]; [lia|].
  destruct (first_field v Hv) as [Hf|(f & v' & -> & Hf & Hv')].
  - rewrite (commas_to_NUL_name _ Hf), (fields_name _ Hf).
    destruct v as [|c v].
    + cbn [app header_names length]. by rewrite Nat.ltb_irrefl.
    + cbn [header_names].
      replace (length (NUL :: after) <? length ((c :: v) ++ NUL :: after))%nat
        with true
        by (symmetry; apply Nat.ltb_lt; rewrite length_app; cbn; lia).
      unfold strlen. rewrite (cstr_name _ after Hf).
      rewrite Nat.add_1_r.
      replace (drop (S (length (c :: v))) ((c :: v) ++ NUL :: after)) with after
        by (rewrite drop_app_ge by lia;
            by replace (S (length (c :: v)) - length (c :: v))%nat
                 with 1%nat by lia).
      destruct fuel; cbn [header_names length];
        replace (S (length after) <? length after)%nat with false
          by (symmetry; apply Nat.ltb_ge; lia); reflexivity.
  - unfold commas_to_NUL. rewrite map_app. cbn [map].
    rewrite Ascii.eqb_refl. fold (commas_to_NUL f) (commas_to_NUL v').
    rewrite (commas_to_NUL_name _ Hf), (fields_comma _ _ Hf).
    rewrite without_empty_last_cons by apply fields_nonempty.
    cbn [header_names]. rewrite <- app_assoc. cbn [app].
    replace (length (NUL :: after) <?
             length (f ++ NUL :: commas_to_NUL v' ++ NUL :: after))%nat with true
      by (symmetry; apply Nat.ltb_lt; rewrite !length_app; cbn;
          rewrite length_app; cbn; lia).
    unfold strlen. rewrite (cstr_name _ _ Hf). rewrite Nat.add_1_r.
    replace (drop (S (length f)) (f ++ NUL :: commas_to_NUL v' ++ NUL :: after))
      with (commas_to_NUL v' ++ NUL :: after)
      by (rewrite drop_app_ge by lia;
          by replace (S (length f) - length f)%nat with 1%nat by lia).
    f_equal. rewrite length_app in Hn, Hfuel. cbn [length] in Hn, Hfuel.
    apply (IH (length v')); [lia|done|done|lia].
Qed.

(** X17.  The value of [-gl] is split in place at its commas, and the names
    [ReadMultiFiles] then walks over are the comma-separated fields of the
    value, without the last field if that is empty.  An empty field
    elsewhere is kept as an empty file name. *)
Theorem registry_names_are_the_comma_separated_fields
    (v after : list ascii) :
  Forall (λ c, c ≠ NUL) v →
  ∃ Start End,
    split_headers (v ++ NUL :: after) = Ok (Start, End) ∧
    header_names (length Start) Start End = without_empty_last (fields v).
Proof.
  intros Hv. exists (commas_to_NUL v ++ NUL :: after), (NUL :: after).
  split; [by apply split_headers_spec|].
  apply (header_names_fields (length v)); [done|done|].
  rewrite length_app. unfold commas_to_NUL. rewrite length_map. cbn. lia.
Qed.

Lemma registry_names_are_the_comma_separated_fields_witness :
  ∃ Start End,
    split_headers (exact_arg (C ",gl.h,,glext.h,")) = Ok (Start, End) ∧
    header_names (length Start) Start End = [[]; C "gl.h"; []; C "glext.h"].
Proof.
  destruct (registry_names_are_the_comma_separated_fields
              (C ",gl.h,,glext.h,") []) as (Start & End & E & H).
  - repeat constructor; unfold NUL; congruence.
  - exists Start, End. split; [exact E|exact H].
Defined.

(** *** Counting the ignored names *)
Lemma skip_commas_name c r : c ≠ COMMA → skip_commas (c :: r) = Ok (c :: r).
Proof. intros Hc. cbn. by destruct (Ascii.eqb_spec c ","%char). Qed.

Lemma skip_commas_commas cs r :
  Forall (λ c, c = COMMA) cs → skip_commas (cs ++ r) = skip_commas r.
Proof. induction 1 as [|c cs -> _ IH]; [done|]. cbn [app skip_commas]. apply IH. Qed.

Lemma join_commas_rest n more after :
  join_commas (n :: more) ++ NUL :: after = n ++ rest_of_value more after.
Proof.
  revert n. induction more as [|n' more IH]; intros n; [done|].
  change (join_commas (n :: n' :: more))
    with (n ++ COMMA :: join_commas (n' :: more)).
  rewrite <- app_assoc. cbn [app]. rewrite IH. unfold rest_of_value.
  cbn [map concat]. by rewrite <- app_assoc.
Qed.

Lemma CountIgnores_loop_names more : ∀ suf after fuel count,
  Forall (λ n, n ≠ [] ∧ Forall name_char n) more →
  Forall name_char suf →
  (length (suf ++ rest_of_value more after) ≤ fuel)%nat →
  CountIgnores_loop fuel (suf ++ rest_of_value more after) count =
    Ok (count + Z.of_nat (length more)).
Proof.
  induction more as [|n more IH]; intros suf after fuel count Hmore Hsuf.
  - revert fuel. induction Hsuf as [|c suf [Hc Hcomma] _ IHs]; intros fuel Hfuel.
    + unfold rest_of_value. cbn. destruct fuel; cbn; f_equal; lia.
    + destruct fuel as [|fuel]; [cbn [app length] in Hfuel; lia|].
      cbn [app CountIgnores_loop read mbind outcome_bind].
      apply nonzero_true in Hc. rewrite Hc.
      destruct (Ascii.eqb_spec c ","%char) as [|_]; [done|].
      rewrite skip_commas_name by done. cbn [mbind outcome_bind tail].
      apply IHs. cbn [app length] in Hfuel. lia.
  - apply Forall_cons in Hmore as [[Hn Hnc] Hmore].
    revert fuel. induction Hsuf as [|c suf [Hc Hcomma] _ IHs]; intros fuel Hfuel.
    + destruct n as [|x n]; [done|]. apply Forall_cons in Hnc as [[Hx Hxc] Hnc].
      unfold rest_of_value in Hfuel |- *. cbn [map concat app] in Hfuel |- *.
      rewrite <- app_assoc in Hfuel |- *. cbn [app] in Hfuel |- *.
      destruct fuel as [|fuel]; [cbn [app length] in Hfuel; lia|].
      cbn [CountIgnores_loop read mbind outcome_bind].
      change (nonzero COMMA) with true. cbn match.
      change (Ascii.eqb COMMA ","%char) with true. cbn match.
      change (skip_commas (COMMA :: x :: n ++ concat (map (λ n, COMMA :: n) more)
                             ++ NUL :: after))
        with (skip_commas (x :: n ++ concat (map (λ n, COMMA :: n) more)
                             ++ NUL :: after)).
      rewrite skip_commas_name by done. cbn [mbind outcome_bind tail].
      fold (rest_of_value more after).
      rewrite (IH n after fuel (count + 1)); [f_equal; cbn [length]; lia|done|done|].
      cbn [length] in Hfuel. unfold rest_of_value. rewrite !length_app in *.
      lia.
    + destruct fuel as [|fuel]; [cbn [app length] in Hfuel; lia|].
      cbn [app CountIgnores_loop read mbind outcome_bind].
      apply nonzero_true in Hc. rewrite Hc.
      destruct (Ascii.eqb_spec c ","%char) as [|_]; [done|].
      rewrite skip_commas_name by done. cbn [mbind outcome_bind tail].
      apply IHs. cbn [app length] in Hfuel. lia.
Qed.

Lemma CountIgnores_names n more after count :
  n ≠ [] → Forall name_char n →
  Forall (λ n, n ≠ [] ∧ Forall name_char n) more →
  CountIgnores (join_commas (n :: more) ++ NUL :: after) count =
    Ok (Z.of_nat (length (n :: more))).
Proof.
  intros Hn Hnc Hmore. rewrite join_commas_rest. unfold CountIgnores.
  destruct n as [|x n]; [done|]. cbn [app read mbind outcome_bind].
  pose proof Hnc as Hnc'. apply Forall_cons in Hnc' as [[_ Hx] _].
  destruct (Ascii.eqb_spec x ","%char) as [|_]; [done|]. cbn [negb].
  change (x :: n ++ rest_of_value more after)
    with ((x :: n) ++ rest_of_value more after).
  rewrite CountIgnores_loop_names; [f_equal; cbn [length]; lia|done|done|done].
Qed.

(** A string is commas only, or commas, a character that is no comma, and
    a string. *)
Lemma leading_commas (v : list ascii) :
  Forall (λ c, c = COMMA) v ∨
  ∃ cs y v', v = cs ++ y :: v' ∧ Forall (λ c, c = COMMA) cs ∧ y ≠ COMMA.
Proof.
  induction v as [|c v IH]; [left; constructor|].
  destruct (Ascii.eqb_spec c COMMA) as [->|Hne].
  - destruct IH as [IH|(cs & y & v' & -> & Hcs & Hy)].
    + left. by constructor.
    + right. exists (COMMA :: cs), y, v'. split; [done|]. split; [|done].
      by constructor.
  - right. exists [], c, v. split; [done|]. split; [constructor|done].
Qed.

Lemma CountIgnores_loop_trailing_comma (n : nat) : ∀ v fuel count,
  length v = n → Forall (λ c, c ≠ NUL) v → (length v < fuel)%nat →
  CountIgnores_loop fuel (v ++ [COMMA; NUL]) count = Fail UndefinedBehaviour.
Proof.
  induction n as [n IH] using lt_wf_ind. intros v fuel count Hn Hv Hfuel.
  destruct fuel as [|fuel]; [lia|].
  assert (Hend : ∀ cs, Forall (λ c, c = COMMA) cs →
            skip_commas (cs ++ [COMMA; NUL]) = Ok [NUL]).
  { intros cs Hcs. by rewrite skip_commas_commas. }
  destruct v as [|c v].
  - cbn [app CountIgnores_loop read mbind outcome_bind].
    change (nonzero COMMA) with true. cbn match.
    pose proof (Hend [] ltac:(constructor)) as H0. cbn [app] in H0.
    rewrite H0. cbn [mbind outcome_bind tail]. by destruct fuel.
  - apply Forall_cons in Hv as [Hc Hv]. cbn [length] in *.
    cbn [app CountIgnores_loop read mbind outcome_bind].
    apply nonzero_true in Hc. rewrite Hc.
    destruct (Ascii.eqb_spec c ","%char) as [->|Hne].
    + destruct (leading_commas v) as [Hcs|(cs & y & v' & -> & Hcs & Hy)].
      * change (","%char :: v ++ [COMMA; NUL])
          with ((COMMA :: v) ++ [COMMA; NUL]).
        rewrite Hend by by constructor. cbn [mbind outcome_bind tail].
        by destruct fuel.
      * change (","%char :: (cs ++ y :: v') ++ [COMMA; NUL])
          with ((COMMA :: cs) ++ y :: v' ++ [COMMA; NUL]) ||
        (rewrite <- app_assoc; cbn [app];
         change (","%char :: cs ++ y :: v' ++ [COMMA; NUL])
           with ((COMMA :: cs) ++ y :: v' ++ [COMMA; NUL])).
        rewrite skip_commas_commas by by constructor.
        rewrite skip_commas_name by done. cbn [mbind outcome_bind tail].
        rewrite length_app in Hfuel, Hn. cbn [length] in Hfuel, Hn.
        apply Forall_app in Hv as [_ Hv]. apply Forall_cons in Hv as [_ Hv].
        apply (IH (length v')); [lia|done|done|lia].
    + rewrite skip_commas_name by done. cbn [mbind outcome_bind tail].
      apply (IH (length v)); [lia|done|done|lia].
Qed.

(** X18.  The loop that counts the ignored names steps over the terminator of
    a [-i] value that ends with a comma: after the commas have been skipped
    [At] stands on the terminator, and the [At++] that follows moves past
    it. *)
Theorem ignore_list_ending_in_comma_is_read_past_its_end
    (v : list ascii) (IgnoreCount : Z) :
  Forall (λ c, c ≠ NUL) v →
  CountIgnores (exact_arg (v ++ [COMMA])) IgnoreCount =
    Fail UndefinedBehaviour.
Proof.
  intros Hv. unfold CountIgnores, exact_arg. rewrite <- app_assoc. cbn [app].
  assert (Hr : ∃ c, read (v ++ [COMMA; NUL]) = Ok c).
  { destruct v; cbn; eauto. }
  destruct Hr as [c ->]. cbn [mbind outcome_bind].
  apply (CountIgnores_loop_trailing_comma (length v)); [done|done|].
  rewrite length_app. cbn. lia.
Qed.

Lemma ignore_list_ending_in_comma_is_read_past_its_end_witness :
  CountIgnores (exact_arg (C "glfwInit,")) 0 = Fail UndefinedBehaviour.
Proof.
  apply (ignore_list_ending_in_comma_is_read_past_its_end (C "glfwInit") 0).
  repeat constructor; unfold NUL; congruence.
Defined.

Lemma collected_kept n more :
  n ≠ [] → Forall (λ n, n ≠ []) more →
  collected (tail n) n more = kept_names (n :: more).
Proof.
  revert n. induction more as [|n' more IH]; intros n Hn Hmore.
  - destruct n as [|x [|y n]]; [done|reflexivity|reflexivity].
  - apply Forall_cons in Hmore as [Hn' Hmore]. cbn [collected].
    rewrite (IH n' Hn' Hmore). unfold kept_names.
    change (last (n :: n' :: more)) with (last (n' :: more)).
    destruct (last (n' :: more)) as [l|] eqn:El.
    + destruct (2 <=? length l)%nat; [done|]. reflexivity.
    + by apply last_None in El.
Qed.

Lemma copied_name n r :
  n ≠ [] → Forall name_char n →
  (length n * sizeof_char_ptr ≤ length (n ++ r))%nat →
  cstr (<[length n := NUL]> (take (length n * sizeof_char_ptr) (n ++ r))) = n.
Proof.
  intros Hn Hnc Hlen. unfold sizeof_char_ptr in *.
  assert (Hpos : (0 < length n)%nat) by (destruct n; [done|cbn; lia]).
  rewrite take_app_ge by lia.
  rewrite length_app in Hlen.
  destruct (take (length n * 8 - length n) r) as [|y t] eqn:Et.
  { apply (f_equal length) in Et. rewrite length_take in Et. cbn in Et. lia. }
  rewrite insert_app_r_alt by lia. rewrite Nat.sub_diag. cbn [insert list_insert].
  by apply cstr_name.
Qed.

Lemma SplitIgnores_loop_names more : ∀ suf pre n after fuel A N copies,
  Forall (λ m, m ≠ [] ∧ Forall name_char m ∧
               (length m * sizeof_char_ptr ≤ length after)%nat) (n :: more) →
  n = pre ++ suf → pre ≠ [] →
  A + Z.of_nat (length (n :: more)) ≤ N →
  (length (suf ++ rest_of_value more after) ≤ fuel)%nat →
  SplitIgnores_loop fuel (n ++ rest_of_value more after)
    (suf ++ rest_of_value more after) A N copies =
    Ok (copies ++ collected suf n more,
        A + Z.of_nat (length (collected suf n more))).
Proof.
  induction more as [|n' more IH]; intros suf.
  - (* the last name *)
    induction suf as [|x suf IHs]; intros pre n after fuel A N copies Hall Hn Hpre
      HN Hfuel.
    + unfold rest_of_value. cbn [map concat app].
      destruct fuel; cbn; rewrite app_nil_r; f_equal; f_equal; lia.
    + apply Forall_cons in Hall as [(Hne & Hnc & Hslack) _].
      assert (Hx : name_char x).
      { rewrite Hn in Hnc. apply Forall_app in Hnc as [_ Hnc].
        by apply Forall_cons in Hnc as [? _]. }
      destruct Hx as [Hx0 Hxc].
      destruct fuel as [|fuel]; [cbn [app length] in Hfuel; lia|].
      unfold rest_of_value in *. cbn [map concat app] in *.
      cbn [SplitIgnores_loop read mbind outcome_bind tail].
      pose proof Hx0 as Hx0'. apply nonzero_true in Hx0'. rewrite Hx0'.
      destruct suf as [|y suf].
      * (* [x] is the last character of the value *)
        cbn [app read mbind outcome_bind]. change (nonzero NUL) with false.
        cbn [negb]. rewrite orb_true_r.
        assert (Hlen : S (ptrdiff (x :: NUL :: after) (n ++ NUL :: after)) =
                       length n).
        { unfold ptrdiff. rewrite Hn, !length_app. cbn [length]. lia. }
        rewrite Hlen.
        replace (0 <? length n)%nat with true
          by (symmetry; apply Nat.ltb_lt; destruct n; [done|cbn; lia]).
        replace (A <? N) with true
          by (symmetry; apply Z.ltb_lt; cbn [length] in HN; lia).
        unfold memcpy.
        replace (length n * sizeof_char_ptr <=? length (n ++ NUL :: after))%nat
          with true
          by (symmetry; apply Nat.leb_le; rewrite length_app; cbn [length]; lia).
        cbn [mbind outcome_bind]. rewrite copied_name;
          [|done|done|rewrite length_app; cbn [length]; lia].
        cbn [skip_commas]. change (Ascii.eqb NUL ","%char) with false.
        cbn [mbind outcome_bind read]. change (nonzero NUL) with false.
        cbn match. destruct fuel; cbn; reflexivity.
      * (* more of the name follows *)
        assert (Hy : name_char y).
        { rewrite Hn in Hnc. apply Forall_app in Hnc as [_ Hnc].
          apply Forall_cons in Hnc as [_ Hnc].
          by apply Forall_cons in Hnc as [? _]. }
        destruct Hy as [Hy0 Hyc].
        cbn [app read mbind outcome_bind].
        pose proof Hy0 as Hy0'. apply nonzero_true in Hy0'. rewrite Hy0'.
        destruct (Ascii.eqb_spec x ","%char) as [|_]; [done|].
        cbn [negb orb mbind outcome_bind].
        rewrite skip_commas_name by done. cbn [mbind outcome_bind read].
        rewrite Hx0'. cbn [tail].
        change (y :: suf ++ NUL :: after) with ((y :: suf) ++ NUL :: after).
        rewrite (IHs (pre ++ [x]) n after fuel A N copies);
          [reflexivity| |by rewrite <- app_assoc|by destruct pre|done|].
        -- constructor; [done|constructor].
        -- cbn [app length] in Hfuel |- *. lia.
  - (* a name with more names after it *)
    induction suf as [|x suf IHs]; intros pre n after fuel A N copies Hall Hn Hpre
      HN Hfuel.
    + (* at the comma after the name *)
      pose proof Hall as Hall'.
      apply Forall_cons in Hall' as [(Hne & Hnc & Hslack) Hmore].
      pose proof Hmore as Hmore'.
      apply Forall_cons in Hmore' as [(Hne' & Hnc' & Hslack') _].
      destruct n' as [|y n']; [done|].
      assert (Hy : name_char y) by (by apply Forall_cons in Hnc' as [? _]).
      destruct Hy as [Hy0 Hyc].
      rewrite app_nil_r in Hn. subst pre.
      destruct fuel as [|fuel].
      { unfold rest_of_value in Hfuel. cbn [map concat app length] in Hfuel. lia. }
      assert (Hrest : rest_of_value ((y :: n') :: more) after =
                      COMMA :: y :: n' ++ rest_of_value more after).
      { unfold rest_of_value. cbn [map concat app]. by rewrite <- app_assoc. }
      rewrite Hrest. cbn [app SplitIgnores_loop read mbind outcome_bind tail].
      change (nonzero COMMA) with true. cbn match.
      pose proof Hy0 as Hy0'. apply nonzero_true in Hy0'. rewrite Hy0'.
      change (Ascii.eqb COMMA ","%char) with true. cbn [negb orb].
      assert (Hlen : ptrdiff (COMMA :: y :: n' ++ rest_of_value more after)
                       (n ++ COMMA :: y :: n' ++ rest_of_value more after) =
                     length n).
      { unfold ptrdiff. rewrite !length_app. cbn [length]. lia. }
      rewrite Hlen.
      replace (0 <? length n)%nat with true
        by (symmetry; apply Nat.ltb_lt; destruct n; [done|cbn; lia]).
      replace (A <? N) with true
        by (symmetry; apply Z.ltb_lt; cbn [length] in HN; lia).
      unfold memcpy.
      assert (Hroom : (length n * sizeof_char_ptr ≤
                       length (n ++ COMMA :: y :: n' ++ rest_of_value more after))%nat).
      { unfold rest_of_value. rewrite !length_app. cbn [length].
        rewrite !length_app. cbn [length]. lia. }
      replace (length n * sizeof_char_ptr <=?
               length (n ++ COMMA :: y :: n' ++ rest_of_value more after))%nat
        with true by (symmetry; by apply Nat.leb_le).
      cbn [mbind outcome_bind]. rewrite copied_name; [|done|done|done].
      rewrite skip_commas_name by done. cbn [mbind outcome_bind read].
      rewrite Hy0'. cbn [tail collected].
      change (y :: n' ++ rest_of_value more after)
        with ((y :: n') ++ rest_of_value more after).
      rewrite (IH n' [y] (y :: n') after fuel (A + 1) N (copies ++ [n]));
        [|done|done|done| |].
      * rewrite <- app_assoc. cbn [app length]. f_equal. f_equal. lia.
      * cbn [length] in HN |- *. lia.
      * rewrite Hrest in Hfuel. cbn [app length] in Hfuel. rewrite length_app.
        rewrite length_app in Hfuel. lia.
    + (* inside the name *)
      pose proof Hall as Hall'.
      apply Forall_cons in Hall' as [(Hne & Hnc & Hslack) Hmore].
      assert (Hx : name_char x).
      { rewrite Hn in Hnc. apply Forall_app in Hnc as [_ Hnc].
        by apply Forall_cons in Hnc as [? _]. }
      destruct Hx as [Hx0 Hxc].
      destruct fuel as [|fuel]; [cbn [app length] in Hfuel; lia|].
      cbn [app SplitIgnores_loop read mbind outcome_bind tail].
      pose proof Hx0 as Hx0'. apply nonzero_true in Hx0'. rewrite Hx0'.
      assert (Hnext : ∃ z, read (suf ++ rest_of_value (n' :: more) after) = Ok z ∧
                           nonzero z = true).
      { destruct suf as [|z suf].
        - exists COMMA. done.
        - exists z. split; [done|]. apply nonzero_true.
          rewrite Hn in Hnc. apply Forall_app in Hnc as [_ Hnc].
          apply Forall_cons in Hnc as [_ Hnc].
          by apply Forall_cons in Hnc as [[? _] _]. }
      destruct Hnext as (z & -> & Hz). cbn [mbind outcome_bind]. rewrite Hz.
      destruct (Ascii.eqb_spec x ","%char) as [|_]; [done|].
      cbn [negb orb mbind outcome_bind].
      rewrite skip_commas_name by done. cbn [mbind outcome_bind read].
      rewrite Hx0'. cbn [tail].
      rewrite (IHs (pre ++ [x]) n after fuel A N copies);
        [|done|by rewrite <- app_assoc|by destruct pre|done|].
      * by destruct suf.
      * cbn [app length] in Hfuel. lia.
Qed.

(** X19.  A [-i] value of non-empty names joined by single commas, with
    enough readable bytes behind it for the oversized copies, is counted as
    that many names and split into them; but the splitting loop starts at
    the second character and needs a character before the terminator, so a
    last name of a single character is dropped. *)
Theorem ignore_list_is_split_at_commas
    (names : list (list ascii)) (after : list ascii) (IgnoreCount : Z) :
  names ≠ [] →
  Forall (λ n, n ≠ [] ∧ Forall name_char n ∧
               (length n * sizeof_char_ptr ≤ length after)%nat) names →
  let Ignores0 := join_commas names ++ NUL :: after in
  CountIgnores Ignores0 IgnoreCount = Ok (Z.of_nat (length names)) ∧
  SplitIgnores Ignores0 (Z.of_nat (length names)) =
    Ok (kept_names names, Z.of_nat (length (kept_names names))).
Proof.
  intros Hne Hall Ignores0. destruct names as [|n more]; [done|].
  pose proof Hall as Hall'. apply Forall_cons in Hall' as [(Hn & Hnc & _) Hmore].
  split.
  - apply CountIgnores_names; [done|done|].
    eapply Forall_impl; [exact Hmore|]. by intros m (? & ? & _).
  - unfold SplitIgnores, Ignores0. rewrite join_commas_rest.
    destruct n as [|x n]; [done|]. cbn [app tail].
    change (x :: n ++ rest_of_value more after)
      with ((x :: n) ++ rest_of_value more after).
    rewrite (SplitIgnores_loop_names more n [x] (x :: n) after);
      [|done|done|done|lia|cbn [app length]; lia].
    cbn [app]. change n with (tail (x :: n)) at 1 3.
    rewrite collected_kept; [done|done|].
    eapply Forall_impl; [exact Hmore|]. by intros m (? & _).
Qed.

Ltac check_names :=
  repeat match goal with
         | |- Forall _ [] => constructor
         | |- Forall _ (_ :: _) => constructor
         | |- Forall _ (C ?s) =>
             let l := eval vm_compute in (C s) in change (C s) with l
         | |- _ ∧ _ => split
         | |- name_char _ => split
         | |- in_line _ => split
         | |- _ ≠ _ => first [discriminate | unfold NUL, COMMA; congruence]
         | |- (_ ≤ _)%nat => cbn; lia
         | |- _ = _ => reflexivity
         end.

Lemma ignore_list_is_split_at_commas_witness :
  SplitIgnores (C "glfwInit,x,glfwPollEvents,y" ++ NUL :: replicate 112 "."%char) 4 =
    Ok ([C "glfwInit"; C "x"; C "glfwPollEvents"], 3).
Proof.
  destruct (ignore_list_is_split_at_commas
              [C "glfwInit"; C "x"; C "glfwPollEvents"; C "y"]
              (replicate 112 "."%char) 0) as [_ H].
  - discriminate.
  - check_names.
  - exact H.
Defined.

Lemma sublist_take_more (l args : list ptr) i j :
  (i ≤ j)%nat → l `sublist_of` take i args → l `sublist_of` take j args.
Proof.
  intros Hij Hl. replace j with (i + (j - i))%nat by lia.
  rewrite <- take_take_drop. by apply sublist_inserts_r.
Qed.

Lemma inputs_invariant_skip args i j st l s :
  (i ≤ j)%nat →
  inputs_invariant args i st l →
  Cmd.InputCount s = Cmd.InputCount (st_Settings st) →
  Cmd.Inputs s = Cmd.Inputs (st_Settings st) →
  Cmd.Ignores s = Cmd.Ignores (st_Settings st) →
  Cmd.IgnoreCount s = Cmd.IgnoreCount (st_Settings st) →
  inputs_invariant args j (with_Settings st s) l.
Proof.
  intros Hij (H1 & H2 & H3 & H4 & H5 & H6 & H7) E1 E2 E3 E4.
  unfold inputs_invariant. cbn [with_Settings st_InputPositions st_Settings
    st_Ignores].
  split; [done|]. split; [by eapply sublist_take_more|]. split; [done|].
  split; [congruence|]. split; [congruence|]. split; [congruence|].
  intros Hn. rewrite E4. by apply H7.
Qed.

Lemma with_Settings_same st : with_Settings st (st_Settings st) = st.
Proof. by destruct st. Qed.

Lemma ParseCommandLine_loop_invariant prog args fuel : ∀ i st l st',
  inputs_invariant args i st l →
  ParseCommandLine_loop fuel (prog :: args) (S i) st = Ok st' →
  ∃ j l', inputs_invariant args j st' l'.
Proof.
  induction fuel as [|fuel IH]; intros i st l st' Hinv E;
    cbn [ParseCommandLine_loop lookup list_lookup] in E.
  { destruct (args !! i); [done|]. injection E as <-. eauto. }
  change ((prog :: args) !! S i) with (args !! i) in E.
  destruct (args !! i) as [Arg|] eqn:EArg; [|injection E as <-; eauto].
  cbv zeta in E.
  destruct Arg as [|c Arg]; [done|]. cbn [read mbind outcome_bind tail] in E.
  destruct (Ascii.eqb_spec c "-"%char) as [->|Hc].
  - destruct (streq Arg (C "h")).
    { injection E as <-. exists i, l.
      destruct Hinv as (H1 & H2 & H3 & H4 & H5 & H6 & H7). done. }
    destruct (streq Arg (C "o") && _).
    { eapply IH; [|exact E].
      apply (inputs_invariant_skip args i); [lia|done..]. }
    destruct (streq Arg (C "gl") && _).
    { destruct (split_headers _) as [[block End]|]; [|done].
      cbn [mbind outcome_bind] in E. eapply IH; [|exact E].
      apply (inputs_invariant_skip args i); [lia|done..]. }
    destruct (streq Arg (C "p") && _).
    { eapply IH; [|exact E].
      apply (inputs_invariant_skip args i); [lia|done..]. }
    destruct (streq Arg (C "force")).
    { eapply IH; [|exact E].
      apply (inputs_invariant_skip args i); [lia|done..]. }
    destruct (streq Arg (C "no-b")).
    { eapply IH; [|exact E].
      apply (inputs_invariant_skip args i); [lia|done..]. }
    destruct (streq Arg (C "silent")).
    { eapply IH; [|exact E].
      apply (inputs_invariant_skip args i); [lia|done..]. }
    destruct (streq Arg (C "i")).
    { change ((prog :: args) !! S (S i)) with (args !! S i) in E.
      destruct (args !! S i) as [Ignores0|]; [|done].
      destruct (CountIgnores _ _) as [n|]; [|done].
      cbn [mbind outcome_bind] in E. eapply IH; [|exact E].
      destruct Hinv as (H1 & H2 & H3 & H4 & H5 & H6 & H7).
      split; [done|]. split; [by eapply sublist_take_more; [|exact H2]; lia|].
      done. }
    eapply IH; [|exact E]. rewrite <- (with_Settings_same st).
    apply (inputs_invariant_skip args i); [lia|done..].
  - eapply (IH (S i) _ (l ++ [c :: Arg])); [|exact E].
    destruct Hinv as (H1 & H2 & H3 & H4 & H5 & H6 & H7).
    unfold inputs_invariant. cbn [st_InputPositions st_Settings st_Ignores
      Cmd.set_InputCount Cmd.InputCount Cmd.Inputs Cmd.Ignores Cmd.IgnoreCount].
    split.
    { apply Forall2_app; [done|]. constructor; [|constructor].
      split; [exact EArg|lia]. }
    split.
    { rewrite (take_S_r _ _ _ EArg). by apply sublist_app. }
    split.
    { apply Forall_app. split; [done|]. constructor; [|constructor].
      split; [done|exact Hc]. }
    split; [rewrite length_app; cbn [length]; lia|]. done.
Qed.

Lemma cstr_take (a : ptr) : ∀ n, (strlen a < n)%nat → cstr (take n a) = cstr a.
Proof.
  unfold strlen. induction a as [|c a IH]; intros n Hn; [by destruct n|].
  destruct n as [|n]; [lia|]. cbn [take firstn cstr] in *.
  destruct (nonzero c); [|done]. cbn [length] in Hn. rewrite IH by lia. done.
Qed.

Lemma CopyInputs_spec prog args positions l : ∀ copies,
  Forall2 (λ position a, args !! pred position = Some a ∧ (0 < position)%nat)
    positions l →
  CopyInputs (prog :: args) positions = Ok copies →
  copies = map cstr l ∧
  Forall (λ a, (S (strlen a) * sizeof_char_ptr ≤ length a)%nat) l.
Proof.
  intros copies H. revert copies.
  induction H as [|p a positions l [Hp Hpos] _ IH]; intros copies E.
  - cbn in E. injection E as <-. split; [done|constructor].
  - cbn [CopyInputs] in E. destruct p as [|p]; [lia|].
    change ((prog :: args) !! S p) with (args !! p) in E. cbn [pred] in Hp.
    rewrite Hp in E. unfold memcpy in E. rewrite Nat.add_1_r in E.
    destruct (Nat.leb_spec (S (strlen a) * sizeof_char_ptr) (length a))
      as [Hle|]; [|done].
    cbn [mbind outcome_bind] in E.
    destruct (CopyInputs (prog :: args) positions) as [copies'|]; [|done].
    cbn [mbind outcome_bind] in E. injection E as <-.
    destruct (IH copies' eq_refl) as [-> Hall].
    split; [|by constructor]. cbn [map]. f_equal.
    apply cstr_take. unfold sizeof_char_ptr. lia.
Qed.

(** What a successful [ParseCommandLine] has done. *)
Lemma ParseCommandLine_success prog args Success0 s :
  ParseCommandLine zeroSettings (prog :: args) = Ok (Success0, s) →
  Success0 ≠ 0 →
  Success0 = 1 ∧ Cmd.HeadersStart s ≠ None ∧ Cmd.Output s ≠ None ∧
  ∃ l, l ≠ [] ∧ l `sublist_of` args ∧ Forall input_arg l ∧
       Forall (λ a, (S (strlen a) * sizeof_char_ptr ≤ length a)%nat) l ∧
       Cmd.Inputs s = Some (map cstr l) ∧
       Cmd.InputCount s = Z.of_nat (length l) ∧
       FreeMemory s = Ok tt.
Proof.
  intros E Hok. unfold ParseCommandLine in E.
  destruct (negb _); [done|].
  destruct (ParseCommandLine_loop _ _ 1 _) as [st|] eqn:EL; [|done].
  cbn [mbind outcome_bind] in E.
  edestruct (ParseCommandLine_loop_invariant prog args)
    as (j & l & H1 & H2 & H3 & H4 & H5 & H6 & H7); [|exact EL|].
  { split; [constructor|]. split; [apply sublist_nil_l|]. split; [constructor|].
    done. }
  destruct (st_ShowHelp st); [injection E as <- _; done|].
  destruct (Z.ltb_spec 0 (Cmd.InputCount (st_Settings st))) as [Hpos|Hle].
  2:{ cbn [mbind outcome_bind] in E.
      destruct (0 <? Cmd.IgnoreCount (st_Settings st)).
      - destruct (st_Ignores st) as [Ignores0|]; [|done].
        destruct (SplitIgnores _ _) as [[copies A]|]; [|done].
        cbn [mbind outcome_bind] in E. injection E as <- _.
        cbn [Cmd.set_IgnoreCount Cmd.set_Ignores Cmd.HeadersStart Cmd.Output
               Cmd.InputCount] in Hok.
        destruct (Cmd.HeadersStart _), (Cmd.Output _); try done.
        destruct (Z.ltb_spec 0 (Cmd.InputCount (st_Settings st))); [lia|done].
      - cbn [mbind outcome_bind] in E. injection E as <- _.
        destruct (Cmd.HeadersStart _), (Cmd.Output _); try done.
        destruct (Z.ltb_spec 0 (Cmd.InputCount (st_Settings st))); [lia|done]. }
  destruct (CopyInputs (prog :: args) (st_InputPositions st)) as [copies|] eqn:EC;
    [|done].
  cbn [mbind outcome_bind] in E.
  destruct (CopyInputs_spec prog args _ l copies H1 EC) as [-> Hslack].
  assert (Hl : l ≠ []) by (destruct l; [cbn in H4; lia|done]).
  assert (Hsub : l `sublist_of` args)
    by (etransitivity; [exact H2|apply sublist_take]).
  cbn [Cmd.set_Inputs Cmd.IgnoreCount] in E.
  destruct (Z.ltb_spec 0 (Cmd.IgnoreCount (st_Settings st))) as [Hi|Hi].
  - destruct (st_Ignores st) as [Ignores0|]; [|done].
    destruct (SplitIgnores _ _) as [[copies A]|]; [|done].
    cbn [mbind outcome_bind] in E. injection E as <- <-.
    cbn [Cmd.set_IgnoreCount Cmd.set_Ignores Cmd.set_Inputs Cmd.HeadersStart
           Cmd.Output Cmd.InputCount Cmd.Inputs] in *.
    destruct (Cmd.HeadersStart _), (Cmd.Output _); try done.
    destruct (Z.ltb_spec 0 (Cmd.InputCount (st_Settings st))); [|done].
    split; [done|]. split; [done|]. split; [done|].
    exists l. done.
  - cbn [mbind outcome_bind] in E. injection E as <- <-.
    cbn [Cmd.set_Inputs Cmd.HeadersStart Cmd.Output Cmd.InputCount Cmd.Inputs]
      in *.
    destruct (Cmd.HeadersStart _), (Cmd.Output _); try done.
    destruct (Z.ltb_spec 0 (Cmd.InputCount (st_Settings st))); [|done].
    split; [done|]. split; [done|]. split; [done|].
    exists l. repeat (split; [done|]).
    unfold FreeMemory, free_elements.
    cbn [Cmd.set_Inputs Cmd.Ignores Cmd.IgnoreCount Cmd.Inputs].
    rewrite H6. destruct (Z.ltb_spec 0 (Cmd.IgnoreCount (st_Settings st))); [lia|].
    reflexivity.
Qed.

(** X20.  When [ParseCommandLine] succeeds, the registry names and the output
    name have been given, and the inputs are the C strings of arguments
    that do not begin with a dash, in the order of the command line, at
    least one of them; [FreeMemory] then meets no null array. *)
Theorem successful_parse_names_inputs
    (prog : ptr) (args : list ptr) (Success0 : Z) (s : Cmd.GLSettings) :
  ParseCommandLine zeroSettings (prog :: args) = Ok (Success0, s) →
  Success0 ≠ 0 →
  Cmd.HeadersStart s ≠ None ∧ Cmd.Output s ≠ None ∧
  Inputs (settings_of s) ≠ [] ∧
  (∃ l, l `sublist_of` args ∧ Forall input_arg l ∧
        Inputs (settings_of s) = map cstr l ∧
        Cmd.InputCount s = Z.of_nat (length l)) ∧
  FreeMemory s = Ok tt.
Proof.
  intros E Hok.
  destruct (ParseCommandLine_success prog args Success0 s E Hok)
    as (_ & HH & HO & l & Hl & Hsub & Hin & _ & HI & HC & HF).
  split; [done|]. split; [done|].
  assert (HS : Inputs (settings_of s) = map cstr l).
  { unfold settings_of. cbn [Inputs]. by rewrite HI. }
  split; [rewrite HS; by destruct l|]. split; [|done].
  exists l. done.
Qed.

Lemma initial_invariant args : inputs_invariant args 0 (initial_state zeroSettings) [].
Proof.
  split; [constructor|]. split; [apply sublist_nil_l|]. split; [constructor|].
  done.
Qed.

(** X21.  The copy of an input name reads [(strlen + 1) * sizeof(char* )] bytes
    from the argument.  On a command line whose arguments end with their
    terminators, [ParseCommandLine] therefore never succeeds: whenever its
    loop ends without [-h] and with an input file, the copy reads past the
    end of the argument. *)
Theorem input_names_are_copied_past_their_end
    (prog : ptr) (args : list ptr) :
  Forall (λ a, length a = S (strlen a)) args →
  (∀ Success0 s,
     ParseCommandLine zeroSettings (prog :: args) = Ok (Success0, s) →
     Success0 = 0) ∧
  (∀ st,
     (2 < length (prog :: args))%nat →
     ParseCommandLine_loop (length (prog :: args)) (prog :: args) 1
       (initial_state zeroSettings) = Ok st →
     st_ShowHelp st = false → st_InputPositions st ≠ [] →
     ParseCommandLine zeroSettings (prog :: args) = Fail UndefinedBehaviour).
Proof.
  intros Hexact. split.
  - intros Success0 s E. destruct (decide (Success0 = 0)) as [|Hok]; [done|].
    destruct (ParseCommandLine_success prog args Success0 s E Hok)
      as (_ & _ & _ & l & Hl & Hsub & _ & Hslack & _).
    destruct l as [|a l]; [done|]. apply Forall_cons in Hslack as [Ha _].
    assert (Hin : a ∈ args).
    { eapply elem_of_sublist; [apply list_elem_of_here|exact Hsub]. }
    pose proof (proj1 (Forall_forall _ _) Hexact a Hin) as Hlen. cbn in Hlen.
    unfold sizeof_char_ptr in Ha. lia.
  - intros st Hargc EL Hhelp Hpos. unfold ParseCommandLine.
    replace (2 <? length (prog :: args))%nat with true
      by (symmetry; by apply Nat.ltb_lt).
    cbn [negb]. fold (initial_state zeroSettings). rewrite EL. cbn [mbind outcome_bind].
    rewrite Hhelp.
    edestruct (ParseCommandLine_loop_invariant prog args)
      as (j & l & H1 & H2 & H3 & H4 & H5 & H6 & H7);
      [apply initial_invariant|exact EL|].
    destruct (st_InputPositions st) as [|p ps]; [done|].
    destruct l as [|a l]; [by apply Forall2_nil_inv_r in H1|].
    apply Forall2_cons_1 in H1 as [[Hp Hp0] _].
    replace (0 <? Cmd.InputCount (st_Settings st)) with true
      by (symmetry; apply Z.ltb_lt; rewrite H4; cbn [length]; lia).
    cbn [CopyInputs]. destruct p as [|p]; [lia|].
    change ((prog :: args) !! S p) with (args !! p). cbn [pred] in Hp.
    rewrite Hp. unfold memcpy.
    assert (Hin : a ∈ args)
      by (eapply elem_of_sublist; [apply list_elem_of_here|];
          etransitivity; [exact H2|apply sublist_take]).
    pose proof (proj1 (Forall_forall _ _) Hexact a Hin) as Hlen. cbn in Hlen.
    destruct (Nat.leb_spec ((strlen a + 1) * sizeof_char_ptr) (length a));
      [unfold sizeof_char_ptr in *; lia|].
    reflexivity.
Qed.

Lemma input_names_are_copied_past_their_end_witness :
  ParseCommandLine zeroSettings
    [exact_arg (C "glgen"); exact_arg (C "main.c"); exact_arg (C "-gl");
     exact_arg (C "glcorearb.h"); exact_arg (C "-o"); exact_arg (C "gl.h")] =
  Fail UndefinedBehaviour.
Proof.
  edestruct (input_names_are_copied_past_their_end (exact_arg (C "glgen"))
    [exact_arg (C "main.c"); exact_arg (C "-gl");
     exact_arg (C "glcorearb.h"); exact_arg (C "-o"); exact_arg (C "gl.h")])
    as [_ H].
  - repeat constructor.
  - apply H with (st := {| st_Settings :=
                             Cmd.set_InputCount
                               (Cmd.set_Output
                                  (Cmd.set_Headers
                                     (Cmd.set_Boilerplate zeroSettings true)
                                     (exact_arg (C "glcorearb.h")) [NUL])
                                  (Some (exact_arg (C "gl.h")))) 1;
                           st_Ignores := None; st_InputPositions := [1%nat];
                           st_ShowHelp := false |}).
    + cbn. lia.
    + vm_compute. reflexivity.
    + reflexivity.
    + discriminate.
Defined.

Lemma successful_parse_names_inputs_witness :
  ∃ s, ParseCommandLine zeroSettings
         [exact_arg (C "glgen");
          C "main.c" ++ NUL :: replicate 49 "."%char;
          exact_arg (C "-gl"); exact_arg (C "glcorearb.h");
          exact_arg (C "-o"); exact_arg (C "gl.h")] = Ok (1, s) ∧
       Inputs (settings_of s) = [C "main.c"] ∧ FreeMemory s = Ok tt.
Proof.
  destruct (ParseCommandLine zeroSettings
         [exact_arg (C "glgen");
          C "main.c" ++ NUL :: replicate 49 "."%char;
          exact_arg (C "-gl"); exact_arg (C "glcorearb.h");
          exact_arg (C "-o"); exact_arg (C "gl.h")]) as [[Success0 s]|f] eqn:E.
  - pose proof E as E'. vm_compute in E'. injection E' as <- Hs.
    destruct (successful_parse_names_inputs _ _ _ _ E)
      as (_ & _ & _ & _ & HF); [discriminate|].
    exists s. split; [reflexivity|]. split; [|exact HF].
    rewrite <- Hs. reflexivity.
  - vm_compute in E. discriminate E.
Defined.

Lemma add_inputs_0 st start :
  add_inputs st start 0 = st.
Proof.
  destruct st as [[] ? ? ?]. unfold add_inputs. cbn.
  by rewrite Z.add_0_r, app_nil_r.
Qed.

Lemma ParseCommandLine_loop_inputs inputs : ∀ pre rest fuel st,
  Forall input_arg inputs →
  ParseCommandLine_loop (length inputs + fuel) (pre ++ inputs ++ rest)
    (length pre) st =
  ParseCommandLine_loop fuel (pre ++ inputs ++ rest)
    (length pre + length inputs) (add_inputs st (length pre) (length inputs)).
Proof.
  unfold ptr.
  induction inputs as [|a inputs IH]; intros pre rest fuel st Hin.
  - cbn [length Nat.add app]. by rewrite Nat.add_0_r, add_inputs_0.
  - apply Forall_cons in Hin as [[Ha Hdash] Hin].
    cbn [length Nat.add app ParseCommandLine_loop]. unfold ptr.
    assert (EL : (pre ++ a :: inputs ++ rest) !! length pre = Some a)
      by (by apply list_lookup_middle).
    unfold ptr in *. rewrite EL.
    cbv zeta. destruct a as [|c a]; [done|].
    cbn [read mbind outcome_bind]. cbn in Hdash.
    destruct (Ascii.eqb_spec c "-"%char) as [|_]; [done|].
    replace (pre ++ (c :: a) :: inputs ++ rest)
      with ((pre ++ [c :: a]) ++ inputs ++ rest) by (by rewrite <- app_assoc).
    replace (S (length pre)) with (length (pre ++ [c :: a]))
      by (rewrite length_app; cbn; lia).
    rewrite IH by done. f_equal.
    + rewrite length_app. cbn [length]. lia.
    + unfold add_inputs. cbn [st_Settings st_Ignores st_InputPositions
        st_ShowHelp Cmd.set_InputCount Cmd.InputCount].
      rewrite length_app. cbn [length seq].
      rewrite <- app_assoc. cbn [app].
      replace (length pre + 1)%nat with (S (length pre)) by lia.
      f_equal. unfold Cmd.set_InputCount. cbn. f_equal. lia.
Qed.

Lemma ParseCommandLine_loop_leading_inputs prog inputs rest fuel st :
  Forall input_arg inputs →
  ParseCommandLine_loop (length inputs + fuel) (prog :: inputs ++ rest) 1 st =
  ParseCommandLine_loop fuel (prog :: inputs ++ rest) (S (length inputs))
    (add_inputs st 1 (length inputs)).
Proof. exact (ParseCommandLine_loop_inputs inputs [prog] rest fuel st). Qed.

Lemma ParseCommandLine_loop_i_last fuel (pre : list ptr) st :
  ParseCommandLine_loop (S fuel) (pre ++ [exact_arg (C "-i")]) (length pre) st =
    Fail UndefinedBehaviour.
Proof.
  cbn [ParseCommandLine_loop].
  assert (EL : @lookup nat (list ascii) (list ptr) _ (length pre)
                 (pre ++ [exact_arg (C "-i")]) = Some (exact_arg (C "-i")))
    by (by apply list_lookup_middle).
  rewrite EL.
  cbv zeta. cbn [exact_arg app read mbind outcome_bind tail].
  change (Ascii.eqb "-" "-") with true. cbn match.
  change (streq (C "i" ++ [NUL]) (C "h")) with false.
  change (streq (C "i" ++ [NUL]) (C "o")) with false.
  change (streq (C "i" ++ [NUL]) (C "gl")) with false.
  change (streq (C "i" ++ [NUL]) (C "p")) with false.
  change (streq (C "i" ++ [NUL]) (C "force")) with false.
  change (streq (C "i" ++ [NUL]) (C "no-b")) with false.
  change (streq (C "i" ++ [NUL]) (C "silent")) with false.
  change (streq (C "i" ++ [NUL]) (C "i")) with true.
  cbn [andb]. cbn match.
  rewrite lookup_ge_None_2; [reflexivity|].
  rewrite !length_app. cbn [length]. lia.
Qed.

(** X22.  [-i] as the last argument: unlike [-o], [-gl] and [-p], the branch
    of [-i] does not test that a value follows, so after input files only
    it reads [argv[argc]], the null pointer.  With no input file before it
    the command line has two arguments and [assert(argc > 2)] fails. *)
Theorem ignore_option_without_a_value_reads_null
    (prog : ptr) (inputs : list ptr) :
  Forall input_arg inputs →
  ParseCommandLine zeroSettings (prog :: inputs ++ [exact_arg (C "-i")]) =
    match inputs with
    | [] => Fail AssertionFailed
    | _ :: _ => Fail UndefinedBehaviour
    end.
Proof.
  intros Hin. unfold ParseCommandLine.
  destruct inputs as [|a inputs]; [reflexivity|].
  replace (2 <? length (prog :: (a :: inputs) ++ [exact_arg (C "-i")]))%nat
    with true
    by (symmetry; apply Nat.ltb_lt; cbn [length app]; rewrite length_app;
        cbn [length]; lia).
  cbn [negb]. fold (initial_state zeroSettings).
  replace (length (prog :: (a :: inputs) ++ [exact_arg (C "-i")]))
    with (length (a :: inputs) + 2)%nat
    by (cbn [length]; rewrite length_app; cbn [length]; lia).
  rewrite ParseCommandLine_loop_leading_inputs by done.
  change (prog :: (a :: inputs) ++ [exact_arg (C "-i")])
    with ((prog :: a :: inputs) ++ [exact_arg (C "-i")]).
  change (S (length (a :: inputs))) with (length (prog :: a :: inputs)).
  by rewrite ParseCommandLine_loop_i_last.
Qed.

Lemma ignore_option_without_a_value_reads_null_witness :
  ParseCommandLine zeroSettings
    [exact_arg (C "glgen"); exact_arg (C "main.c"); exact_arg (C "-i")] =
  Fail UndefinedBehaviour.
Proof.
  apply (ignore_option_without_a_value_reads_null
           (exact_arg (C "glgen")) [exact_arg (C "main.c")]).
  repeat constructor; vm_compute; congruence.
Defined.

Lemma ParseCommandLine_loop_h fuel (pre rest : list ptr) st :
  ParseCommandLine_loop (S fuel) (pre ++ exact_arg (C "-h") :: rest)
    (length pre) st =
  Ok {| st_Settings := st_Settings st; st_Ignores := st_Ignores st;
        st_InputPositions := st_InputPositions st; st_ShowHelp := true |}.
Proof.
  cbn [ParseCommandLine_loop].
  assert (EL : @lookup nat (list ascii) (list ptr) _ (length pre)
                 (pre ++ exact_arg (C "-h") :: rest) =
               Some (exact_arg (C "-h")))
    by (by apply list_lookup_middle).
  rewrite EL. reflexivity.
Qed.

Lemma length_argv (prog : ptr) (inputs rest : list ptr) :
  length (prog :: inputs ++ rest) = (length inputs + S (length rest))%nat.
Proof. cbn [length]. rewrite length_app. lia. Qed.

Section MainProofs.
Context (qsort : (GLToken → GLToken → Z) → list GLToken → list GLToken).
Context (Indeterminate : GLString).

(** X23.  [-h] after input files.  The loop of [ParseCommandLine] has counted
    the inputs when it breaks at [-h], and nothing is allocated; [main]
    prints the help and calls [FreeMemory], which frees [Inputs[0]] of the
    null array.  With fewer than four arguments [main] only prints the
    help. *)
Theorem help_after_an_input_frees_a_null_array
    (prog : ptr) (inputs rest : list ptr) (W : World) :
  inputs ≠ [] → Forall input_arg inputs →
  main qsort Indeterminate (prog :: inputs ++ exact_arg (C "-h") :: rest) W =
    if (length inputs + length rest <? 2)%nat
    then
      help ← PrintHelp (prog :: inputs ++ exact_arg (C "-h") :: rest);
      Ok {| ExitCode := 1; Help := Some help; Generated := None |}
    else Fail UndefinedBehaviour.
Proof.
  intros Hne Hin. unfold main. rewrite length_argv. cbn [length].
  destruct (Nat.ltb_spec (length inputs + length rest) 2) as [Hlt|Hge].
  - replace (length inputs + S (S (length rest)) <? 4)%nat with true
      by (symmetry; apply Nat.ltb_lt; lia). reflexivity.
  - replace (length inputs + S (S (length rest)) <? 4)%nat with false
      by (symmetry; apply Nat.ltb_ge; lia).
    unfold ParseCommandLine. rewrite length_argv. cbn [length].
    replace (2 <? length inputs + S (S (length rest)))%nat with true
      by (symmetry; apply Nat.ltb_lt; destruct inputs; [done|cbn [length]; lia]).
    cbn [negb]. fold (initial_state zeroSettings).
    rewrite ParseCommandLine_loop_leading_inputs by done.
    change (prog :: inputs ++ exact_arg (C "-h") :: rest)
      with ((prog :: inputs) ++ exact_arg (C "-h") :: rest).
    change (S (length inputs)) with (length (prog :: inputs)).
    rewrite ParseCommandLine_loop_h.
    cbn [mbind outcome_bind st_ShowHelp st_Settings add_inputs initial_state
         Z.eqb negb PrintHelp lookup list_lookup app].
    unfold FreeMemory, free_elements. cbn.
    destruct inputs as [|a inputs]; [done|]. reflexivity.
Qed.

End MainProofs.

Lemma help_after_an_input_frees_a_null_array_witness :
  main merge_qsort zeroString
    [exact_arg (C "glgen"); exact_arg (C "main.c"); exact_arg (C "-h");
     exact_arg (C "-o"); exact_arg (C "gl.h")] (world_of [] 0 0) =
  Fail UndefinedBehaviour.
Proof.
  apply (help_after_an_input_frees_a_null_array merge_qsort zeroString
           (exact_arg (C "glgen")) [exact_arg (C "main.c")]
           [exact_arg (C "-o"); exact_arg (C "gl.h")] (world_of [] 0 0)).
  - done.
  - repeat constructor; vm_compute; congruence.
Defined.

Lemma ParseCommandLine_loop_gl fuel (pre rest : list ptr) (v : ptr) st :
  ParseCommandLine_loop (S fuel) (pre ++ exact_arg (C "-gl") :: v :: rest)
    (length pre) st =
  '(block, End) ← split_headers v;
  ParseCommandLine_loop fuel (pre ++ exact_arg (C "-gl") :: v :: rest)
    (S (S (length pre)))
    (with_Settings st (Cmd.set_Headers (st_Settings st) block End)).
Proof.
  cbn [ParseCommandLine_loop].
  assert (EL : @lookup nat (list ascii) (list ptr) _ (length pre)
                 (pre ++ exact_arg (C "-gl") :: v :: rest) =
               Some (exact_arg (C "-gl")))
    by (by apply list_lookup_middle).
  assert (EV : @lookup nat (list ascii) (list ptr) _ (S (length pre))
                 (pre ++ exact_arg (C "-gl") :: v :: rest) = Some v).
  { replace (pre ++ exact_arg (C "-gl") :: v :: rest)
      with ((pre ++ [exact_arg (C "-gl")]) ++ v :: rest)
      by (by rewrite <- app_assoc).
    apply list_lookup_middle. rewrite length_app. cbn [length]. lia. }
  rewrite EL, EV. cbv zeta.
  change (read (exact_arg (C "-gl"))) with (Ok "-"%char).
  change (tail (exact_arg (C "-gl"))) with (C "gl" ++ [NUL]).
  cbn [mbind outcome_bind default].
  change (Ascii.eqb "-" "-") with true. cbn match.
  change (streq (C "gl" ++ [NUL]) (C "h")) with false.
  change (streq (C "gl" ++ [NUL]) (C "o")) with false.
  change (streq (C "gl" ++ [NUL]) (C "gl")) with true.
  replace (length pre <? length (pre ++ exact_arg (C "-gl") :: v :: rest) - 1)%nat
    with true
    by (symmetry; apply Nat.ltb_lt; rewrite length_app; cbn [length]; lia).
  reflexivity.
Qed.

Lemma ParseCommandLine_loop_o fuel (pre rest : list ptr) (v : ptr) st :
  ParseCommandLine_loop (S fuel) (pre ++ exact_arg (C "-o") :: v :: rest)
    (length pre) st =
  ParseCommandLine_loop fuel (pre ++ exact_arg (C "-o") :: v :: rest)
    (S (S (length pre)))
    (with_Settings st (Cmd.set_Output (st_Settings st) (Some v))).
Proof.
  cbn [ParseCommandLine_loop].
  assert (EL : @lookup nat (list ascii) (list ptr) _ (length pre)
                 (pre ++ exact_arg (C "-o") :: v :: rest) =
               Some (exact_arg (C "-o")))
    by (by apply list_lookup_middle).
  assert (EV : @lookup nat (list ascii) (list ptr) _ (S (length pre))
                 (pre ++ exact_arg (C "-o") :: v :: rest) = Some v).
  { replace (pre ++ exact_arg (C "-o") :: v :: rest)
      with ((pre ++ [exact_arg (C "-o")]) ++ v :: rest)
      by (by rewrite <- app_assoc).
    apply list_lookup_middle. rewrite length_app. cbn [length]. lia. }
  rewrite EL, EV. cbv zeta.
  change (read (exact_arg (C "-o"))) with (Ok "-"%char).
  change (tail (exact_arg (C "-o"))) with (C "o" ++ [NUL]).
  cbn [mbind outcome_bind default].
  change (Ascii.eqb "-" "-") with true. cbn match.
  change (streq (C "o" ++ [NUL]) (C "h")) with false.
  change (streq (C "o" ++ [NUL]) (C "o")) with true.
  replace (length pre <? length (pre ++ exact_arg (C "-o") :: v :: rest) - 1)%nat
    with true
    by (symmetry; apply Nat.ltb_lt; rewrite length_app; cbn [length]; lia).
  cbn [andb]. do 3 f_equal. exact EV.
Qed.

Lemma ParseCommandLine_loop_end fuel (argv : list ptr) st :
  ParseCommandLine_loop fuel argv (length argv) st = Ok st.
Proof.
  assert (E : @lookup nat (list ascii) (list ptr) _ (length argv) argv = None)
    by (by apply lookup_ge_None_2).
  destruct fuel; cbn [ParseCommandLine_loop]; by rewrite E.
Qed.

Lemma CopyInputs_roomy inputs : ∀ (pre rest : list ptr),
  Forall roomy_arg inputs →
  CopyInputs (pre ++ inputs ++ rest) (seq (length pre) (length inputs)) =
    Ok (map cstr inputs).
Proof.
  induction inputs as [|a inputs IH]; intros pre rest Hroom; [done|].
  apply Forall_cons in Hroom as [Ha Hroom].
  cbn [length seq CopyInputs app].
  assert (EL : @lookup nat (list ascii) (list ptr) _ (length pre)
                 (pre ++ a :: inputs ++ rest) = Some a)
    by (by apply list_lookup_middle).
  unfold ptr in *. rewrite EL. unfold memcpy. unfold roomy_arg in Ha.
  replace ((strlen a + 1) * sizeof_char_ptr <=? length a)%nat with true
    by (symmetry; apply Nat.leb_le; lia).
  cbn [mbind outcome_bind].
  pose proof (IH (pre ++ [a]) rest Hroom) as IH'.
  rewrite length_app in IH'. cbn [length] in IH'.
  replace (length pre + 1)%nat with (S (length pre)) in IH' by lia.
  rewrite <- app_assoc in IH'. cbn [app] in IH'. cbn [app].
  unfold ptr in *. rewrite IH'. cbn [map mbind outcome_bind]. f_equal. f_equal.
  apply cstr_take. unfold sizeof_char_ptr. lia.
Qed.

Lemma ParseCommandLine_loop_usage fuel (prog out : ptr) (v after : list ascii)
    (inputs rest : list ptr) :
  Forall input_arg inputs → Forall (λ c, c ≠ NUL) v →
  ParseCommandLine_loop (S (S (length inputs + fuel)))
    (prog :: exact_arg (C "-gl") :: (v ++ NUL :: after) ::
     exact_arg (C "-o") :: out :: inputs ++ rest) 1 (initial_state zeroSettings) =
  ParseCommandLine_loop fuel
    (prog :: exact_arg (C "-gl") :: (v ++ NUL :: after) ::
     exact_arg (C "-o") :: out :: inputs ++ rest) (5 + length inputs)
    (add_inputs (with_Settings (initial_state zeroSettings) (usage_settings v after out))
       5 (length inputs)).
Proof.
  intros Hin Hv.
  etrans; [exact (ParseCommandLine_loop_gl _ [prog]
                    (exact_arg (C "-o") :: out :: inputs ++ rest)
                    (v ++ NUL :: after) (initial_state zeroSettings))|].
  rewrite split_headers_spec by done. cbn [mbind outcome_bind].
  etrans; [exact (ParseCommandLine_loop_o _
                    [prog; exact_arg (C "-gl"); v ++ NUL :: after]
                    (inputs ++ rest) out _)|].
  exact (ParseCommandLine_loop_inputs inputs
           [prog; exact_arg (C "-gl"); v ++ NUL :: after;
            exact_arg (C "-o"); out] rest fuel _ Hin).
Qed.

Lemma ParseCommandLine_usage
    (prog out : ptr) (v after : list ascii) (inputs : list ptr) :
  inputs ≠ [] → Forall input_arg inputs → Forall roomy_arg inputs →
  Forall (λ c, c ≠ NUL) v →
  ParseCommandLine zeroSettings
    (prog :: exact_arg (C "-gl") :: (v ++ NUL :: after) ::
     exact_arg (C "-o") :: out :: inputs) =
    Ok (1, usage_result v after out inputs).
Proof.
  intros Hne Hin Hroom Hv.
  assert (Hpos : 0 < Z.of_nat (length inputs))
    by (destruct inputs; [done|cbn [length]; lia]).
  set (argv := prog :: exact_arg (C "-gl") :: (v ++ NUL :: after) ::
                exact_arg (C "-o") :: out :: inputs).
  assert (Eargv : argv = prog :: exact_arg (C "-gl") :: (v ++ NUL :: after) ::
                    exact_arg (C "-o") :: out :: inputs ++ [])
    by (by rewrite app_nil_r).
  clearbody argv. subst argv.
  unfold ParseCommandLine.
  replace (length (prog :: exact_arg (C "-gl") :: (v ++ NUL :: after) ::
                   exact_arg (C "-o") :: out :: inputs ++ []))
    with (S (S (length inputs + 3)))
    by (cbn [length]; rewrite length_app; cbn [length]; lia).
  replace (2 <? S (S (length inputs + 3)))%nat with true
    by (symmetry; apply Nat.ltb_lt; lia).
  cbn [negb].
  rewrite ParseCommandLine_loop_usage by done.
  replace (5 + length inputs)%nat
    with (length (prog :: exact_arg (C "-gl") :: (v ++ NUL :: after) ::
                  exact_arg (C "-o") :: out :: inputs ++ []))
    by (cbn [length]; rewrite length_app; cbn [length]; lia).
  rewrite ParseCommandLine_loop_end.
  pose proof (CopyInputs_roomy inputs
                [prog; exact_arg (C "-gl"); v ++ NUL :: after;
                 exact_arg (C "-o"); out] [] Hroom) as HC.
  cbn [app length] in HC.
  cbn [mbind outcome_bind add_inputs with_Settings initial_state st_ShowHelp
       st_Settings st_InputPositions st_Ignores app].
  cbn [Cmd.set_InputCount Cmd.InputCount usage_settings Cmd.set_Output
       Cmd.set_Headers Cmd.set_Boilerplate zeroSettings Z.add].
  unfold ptr in *. rewrite HC. rewrite Z.add_0_l.
  replace (0 <? Z.of_nat (length inputs)) with true
    by (symmetry; by apply Z.ltb_lt).
  cbn [mbind outcome_bind Cmd.IgnoreCount Cmd.set_Inputs Cmd.set_InputCount
       usage_settings Cmd.set_Output Cmd.set_Headers Cmd.set_Boilerplate
       zeroSettings Z.ltb Z.compare Cmd.HeadersStart Cmd.Output
       Cmd.InputCount].
  replace (0 <? Z.of_nat (length inputs)) with true
    by (symmetry; by apply Z.ltb_lt).
  reflexivity.
Qed.

Lemma settings_of_usage_result (v after : list ascii) (out : ptr)
    (inputs : list ptr) :
  Forall (λ c, c ≠ NUL) v →
  settings_of (usage_result v after out inputs) =
    {| Headers := without_empty_last (fields v);
       Output := cstr out;
       Prefix := None;
       Inputs := map cstr inputs;
       Ignores := [];
       WriteTimestamp := 0;
       Boilerplate := true;
       Silent := false;
       ForceGenerate := false |}.
Proof.
  intros Hv. unfold settings_of, usage_result, usage_settings. cbn. f_equal.
  apply (header_names_fields (length v)); [done|done|].
  rewrite length_app. unfold commas_to_NUL. rewrite length_map.
  cbn [length]. lia.
Qed.

(** X24.  The command line of the usage text, [-gl v -o out inputs...], with
    room behind every input name for the bytes its copy reads, is parsed
    with success: the registry names are the fields of [v], the output is
    [out], the inputs are the input arguments in order, nothing is ignored,
    no prefix is set and the boilerplate is on. *)
Theorem usage_line_command_is_parsed
    (prog out : ptr) (v after : list ascii) (inputs : list ptr) :
  inputs ≠ [] → Forall input_arg inputs → Forall roomy_arg inputs →
  Forall (λ c, c ≠ NUL) v →
  ∃ s,
    ParseCommandLine zeroSettings
      (prog :: exact_arg (C "-gl") :: (v ++ NUL :: after) ::
       exact_arg (C "-o") :: out :: inputs) = Ok (1, s) ∧
    settings_of s =
      {| Headers := without_empty_last (fields v);
         Output := cstr out;
         Prefix := None;
         Inputs := map cstr inputs;
         Ignores := [];
         WriteTimestamp := 0;
         Boilerplate := true;
         Silent := false;
         ForceGenerate := false |} ∧
    FreeMemory s = Ok tt.
Proof.
  intros Hne Hin Hroom Hv.
  exists (usage_result v after out inputs).
  split; [by apply ParseCommandLine_usage|].
  split; [by apply settings_of_usage_result|].
  unfold FreeMemory, free_elements, usage_result.
  cbn [Cmd.Ignores Cmd.set_Inputs Cmd.set_InputCount Cmd.IgnoreCount
       usage_settings Cmd.set_Output Cmd.set_Headers Cmd.set_Boilerplate
       zeroSettings Cmd.Inputs].
  reflexivity.
Qed.

Lemma usage_line_command_is_parsed_witness :
  ∃ s,
    ParseCommandLine zeroSettings
      [exact_arg (C "glgen"); exact_arg (C "-gl");
       C "glcorearb.h,wglext.h" ++ NUL :: []; exact_arg (C "-o");
       exact_arg (C "gl.h"); C "main.c" ++ NUL :: replicate 49 "x"%char] =
      Ok (1, s) ∧
    settings_of s =
      {| Headers := [C "glcorearb.h"; C "wglext.h"];
         Output := C "gl.h";
         Prefix := None;
         Inputs := [C "main.c"];
         Ignores := [];
         WriteTimestamp := 0;
         Boilerplate := true;
         Silent := false;
         ForceGenerate := false |} ∧
    FreeMemory s = Ok tt.
Proof.
  apply (usage_line_command_is_parsed (exact_arg (C "glgen"))
           (exact_arg (C "gl.h")) (C "glcorearb.h,wglext.h") []
           [C "main.c" ++ NUL :: replicate 49 "x"%char]).
  - done.
  - repeat constructor; vm_compute; congruence.
  - apply Forall_cons. split; [|constructor]. vm_compute. lia.
  - let l := eval vm_compute in (C "glcorearb.h,wglext.h") in
    change (C "glcorearb.h,wglext.h") with l.
    repeat constructor; unfold NUL; congruence.
Defined.

(** X25.  [main] on the command line of the usage text: the generator part of
    [main] runs on the settings the command line stands for (the registry
    names, the output, the inputs), the exit code is the result of
    [GenerateOpenGLHeader], or 0 when the header is up to date, and no help
    is printed. *)
Theorem main_runs_the_generator_on_the_parsed_settings
    (qsort : (GLToken → GLToken → Z) → list GLToken → list GLToken)
    (Indeterminate : GLString)
    (prog out : ptr) (v after : list ascii) (inputs : list ptr) (W : World) :
  inputs ≠ [] → Forall input_arg inputs → Forall roomy_arg inputs →
  Forall (λ c, c ≠ NUL) v →
  main qsort Indeterminate
    (prog :: exact_arg (C "-gl") :: (v ++ NUL :: after) ::
     exact_arg (C "-o") :: out :: inputs) W =
  g ← main_generate qsort Indeterminate W
         {| Headers := without_empty_last (fields v);
            Output := cstr out;
            Prefix := None;
            Inputs := map cstr inputs;
            Ignores := [];
            WriteTimestamp := 0;
            Boilerplate := true;
            Silent := false;
            ForceGenerate := false |};
  Ok {| ExitCode := match g with Some r => Success r | None => 0 end;
        Help := None; Generated := g |}.
Proof.
  intros Hne Hin Hroom Hv.
  unfold main. cbn [length].
  replace (S (S (S (S (S (length inputs))))) <? 4)%nat with false
    by (symmetry; apply Nat.ltb_ge; lia).
  rewrite ParseCommandLine_usage by done.
  cbn [mbind outcome_bind Z.eqb negb].
  rewrite settings_of_usage_result by done.
  destruct (main_generate _ _ _ _) as [g|f]; [|reflexivity].
  reflexivity.
Qed.

Lemma main_runs_the_generator_on_the_parsed_settings_witness :
  main merge_qsort zeroString
    [exact_arg (C "glgen"); exact_arg (C "-gl");
     C "gl.h" ++ NUL :: []; exact_arg (C "-o");
     exact_arg (C "out.h"); C "a.c" ++ NUL :: replicate 28 "x"%char]
    (world_of example_files 5 1) = Ok {| ExitCode := 0; Help := None;
                                        Generated := None |}.
Proof.
  rewrite (main_runs_the_generator_on_the_parsed_settings merge_qsort
             zeroString (exact_arg (C "glgen")) (exact_arg (C "out.h"))
             (C "gl.h") [] [C "a.c" ++ NUL :: replicate 28 "x"%char]
             (world_of example_files 5 1)).
  - reflexivity.
  - done.
  - repeat constructor; vm_compute; congruence.
  - apply Forall_cons. split; [|constructor]. vm_compute. lia.
  - let l := eval vm_compute in (C "gl.h") in change (C "gl.h") with l.
    repeat constructor; unfold NUL; congruence.
Defined.
